(** * isengard2: the incremental execution engine ([_runner.py])

    A shallow embedding of [Runner] (its constructor, [_compute_run_fingerprint],
    [clean] and [run]) and the properties of the engine that follow from it.

    The engine talks to three collaborators that live outside [_runner.py]:
    the target handlers, the rules' bodies and the fingerprint database.  They
    act on an external world (the file system); the embedding threads that
    world, the database and the per-invocation caches through a state and
    error monad, and records every call to a collaborator in a trace. *)

From Stdlib Require Import Strings.String Strings.Ascii Strings.Byte.
From Stdlib Require OrderedTypeEx.
From stdpp Require Import base gmap list strings sorting.

(** ** Bytes and results *)

Abbreviation bytes := (list Byte.byte).
Abbreviation ResolvedTargetID := string (only parsing).

#[global] Instance byte_eq_dec : EqDecision Byte.byte := Byte.byte_eq_dec.
#[global] Program Instance byte_countable : Countable Byte.byte :=
  inj_countable' Byte.to_N (λ n, default Byte.x00 (Byte.of_N n)) _.
Next Obligation. intros b. simpl. by rewrite Byte.of_to_N. Qed.

(** A call either returns or raises. *)
Inductive Try (E A : Type) : Type :=
| Returns (a : A)
| Raises (e : E).
Arguments Returns {E A} a.
Arguments Raises {E A} e.

(** [sorted(...)] on a set of [str]: ascending code points, which on the
    UTF-8 bytes held by a Rocq string is the byte-wise lexicographic order. *)
Definition str_le (a b : string) : Prop := String.leb a b = true.

#[global] Instance str_le_dec a b : Decision (str_le a b).
Proof. unfold str_le. apply _. Defined.

Definition sorted (s : gset string) : list string :=
  merge_sort str_le (elements s).

(** [dict(pairs)]: later pairs override earlier ones. *)
Definition dict {V : Type} (pairs : list (string * V)) : gmap string V :=
  foldl (λ m kv, <[kv.1 := kv.2]> m) ∅ pairs.

Section Isengard.

(** The external world the handlers and the rules act on, the exceptions they
    may raise (subclasses of [Exception]), handler-defined target fingerprints
    and cooked targets, and the configuration values ([ConstTypes]). *)
Variables W Exc Fp Cooked ConstTypes : Type.

(** [pickle.dumps], [hashlib.sha256(...).digest()] and [isinstance(exc,
    KeyError)] on a collaborator's exception. *)
Variable pickle_dumps : ConstTypes → bytes.
Variable sha256 : bytes → bytes.
Variable is_key_error : Exc → bool.

(** A call to a collaborator: it reads and may change the world. *)
Definition Ext (A : Type) : Type := W → Try Exc A * W.

(** ** Data model *)

(** Modelled from the spec: [BaseTargetHandler] ([_target.py] is not part of
    the sources): the capability flag and the three operations the engine
    calls on a cooked target. *)
Record BaseTargetHandler : Type := {
  ON_DISK_TARGET : bool;
  need_rebuild : Cooked → Fp → Ext bool;
  compute_fingerprint : Cooked → Ext (option Fp);
  clean_target : Cooked → Ext unit
}.

(** Modelled from the spec: [TargetHandlersBundle]. *)
Record TargetHandlersBundle : Type := {
  cook_target : ResolvedTargetID → option Fp → Ext (Cooked * BaseTargetHandler);
  get_handler : ResolvedTargetID → Ext BaseTargetHandler
}.

(** Modelled from the spec: [ResolvedRule] ([_rule.py] is not part of the
    sources).  Two rules are the same rule ([==], [in], set and dict
    membership) when their ids are equal: ids are unique within an
    invocation. *)
Record ResolvedRule : Type := {
  id : string;
  resolved_inputs : list ResolvedTargetID;
  resolved_outputs : list ResolvedTargetID;
  needed_config : gset string;
  run_body : list Cooked → list Cooked → gmap string ConstTypes → Ext unit
}.

Definition rule_in (rule : ResolvedRule) (rules : list ResolvedRule) : bool :=
  bool_decide (id rule ∈ id <$> rules).

Inductive IsengardError : Type :=
| IsengardUnknownTargetError (target : ResolvedTargetID) (needed_by : list string)
| IsengardConsistencyError (chain : list string)
| IsengardRunError (rule_id : string) (cause : Exc)
| KeyError (key : string)
| RecursionError
| CollaboratorError (e : Exc).

(** What the engine asked of its collaborators, in order. *)
Inductive Event : Type :=
| EvCook (target : ResolvedTargetID) (previous_fingerprint : option Fp)
| EvRuleRun (rule_id : string)
| EvRuleReturned (rule_id : string)
| EvRuleRaised (rule_id : string) (exc : Exc)
| EvFingerprint (target : ResolvedTargetID) (fingerprint : option Fp)
| EvCommit (rule_id : string) (run_fingerprint : bytes)
    (target_fingerprints : list (ResolvedTargetID * Fp))
| EvClean (target : ResolvedTargetID).

Record Runner : Type := {
  target_to_rule : gmap string ResolvedRule;
  rules : list (string * ResolvedRule);
  config : gmap string ConstTypes;
  target_handlers : TargetHandlersBundle
}.

(** [Runner.__init__]: the dict comprehension walks [rules.values()] in
    insertion order and each rule's outputs in order; a later binding of the
    same output replaces the earlier one. *)
Definition Runner_init (rules : list (string * ResolvedRule))
    (config : gmap string ConstTypes)
    (target_handlers : TargetHandlersBundle) : Runner :=
  {| target_to_rule :=
       foldl (λ m rule, foldl (λ m output, <[output := rule]> m) m
                              (resolved_outputs rule))
             ∅ (rules.*2);
     rules := rules;
     config := config;
     target_handlers := target_handlers |}.

(** ** Run fingerprint *)

(** The loop [for k in sorted(rule.needed_config): h.update(pickle_dumps(
    self.config[k]))], the hash object being the bytes fed to it so far. *)
Fixpoint update_with_config (config : gmap string ConstTypes) (h : bytes)
    (keys : list string) : Try IsengardError bytes :=
  match keys with
  | [] => Returns h
  | k :: keys =>
      match config !! k with
      | None => Raises (KeyError k)
      | Some v => update_with_config config (h ++ pickle_dumps v) keys
      end
  end.

(** The bytes that are digested for a rule. *)
Definition run_fingerprint_input (self : Runner) (rule : ResolvedRule)
    : Try IsengardError bytes :=
  update_with_config (config self) (String.list_byte_of_string (id rule))
    (sorted (needed_config rule)).

Definition _compute_run_fingerprint (self : Runner) (rule : ResolvedRule)
    : Try IsengardError bytes :=
  match run_fingerprint_input self rule with
  | Returns h => Returns (sha256 h)
  | Raises e => Raises e
  end.

(** ** The invocation state and its monad *)

(** Modelled from the spec: the fingerprint store ([_db.py] is not part of
    the sources) maps a run fingerprint to the record of the last run;
    [set_rule_previous_run] overwrites the record at once. *)
Record Session : Type := {
  world : W;
  db : gmap bytes (gmap string Fp);
  already_evaluated : gmap string bool;
  targets_eval_cache : gmap string (Cooked * BaseTargetHandler * bool);
  already_cleaned : list ResolvedRule;
  trace : list Event
}.

Definition M (A : Type) : Type := Session → Try IsengardError A * Session.

#[global] Instance M_ret : MRet M := λ A a s, (Returns a, s).
#[global] Instance M_bind : MBind M := λ A B f m s,
  match m s with
  | (Returns a, s') => f a s'
  | (Raises e, s') => (Raises e, s')
  end.

Definition raise {A : Type} (e : IsengardError) : M A := λ s, (Raises e, s).

Definition lift {A : Type} (r : Try IsengardError A) : M A := λ s, (r, s).

Definition gets {A : Type} (f : Session → A) : M A := λ s, (Returns (f s), s).

Definition log (ev : Event) : M unit := λ s,
  (Returns tt,
   {| world := world s; db := db s;
      already_evaluated := already_evaluated s;
      targets_eval_cache := targets_eval_cache s;
      already_cleaned := already_cleaned s;
      trace := trace s ++ [ev] |}).

Definition set_world (w : W) (s : Session) : Session :=
  {| world := w; db := db s;
     already_evaluated := already_evaluated s;
     targets_eval_cache := targets_eval_cache s;
     already_cleaned := already_cleaned s;
     trace := trace s |}.

(** A call whose exception is not caught by the engine. *)
Definition call {A : Type} (op : Ext A) : M A := λ s,
  match op (world s) with
  | (Returns a, w) => (Returns a, set_world w s)
  | (Raises e, w) => (Raises (CollaboratorError e), set_world w s)
  end.

(** [try: op except Exception as exc: raise IsengardRunError(...) from exc] *)
Definition call_wrapped {A : Type} (rule_id : string) (op : Ext A) : M A := λ s,
  match op (world s) with
  | (Returns a, w) => (Returns a, set_world w s)
  | (Raises e, w) => (Raises (IsengardRunError rule_id e), set_world w s)
  end.

(** [rule.run(outputs_cooked, inputs_cooked, self.config)] inside its [try];
    the trace keeps how the body ended. *)
Definition rule_body_outcome (rule : ResolvedRule) (op : Ext unit) : M unit := λ s,
  match op (world s) with
  | (Returns _, w) => log (EvRuleReturned (id rule)) (set_world w s)
  | (Raises e, w) =>
      (Raises (IsengardRunError (id rule) e),
       (log (EvRuleRaised (id rule) e) (set_world w s)).2)
  end.

Definition call_rule_body (rule : ResolvedRule) (op : Ext unit) : M unit :=
  log (EvRuleRun (id rule));; rule_body_outcome rule op.

Definition set_already_evaluated (rule : ResolvedRule) (v : bool) : M unit := λ s,
  (Returns tt,
   {| world := world s; db := db s;
      already_evaluated := <[id rule := v]> (already_evaluated s);
      targets_eval_cache := targets_eval_cache s;
      already_cleaned := already_cleaned s;
      trace := trace s |}).

Definition set_targets_eval_cache (target : ResolvedTargetID)
    (v : Cooked * BaseTargetHandler * bool) : M unit := λ s,
  (Returns tt,
   {| world := world s; db := db s;
      already_evaluated := already_evaluated s;
      targets_eval_cache := <[target := v]> (targets_eval_cache s);
      already_cleaned := already_cleaned s;
      trace := trace s |}).

Definition add_already_cleaned (rule : ResolvedRule) : M unit := λ s,
  (Returns tt,
   {| world := world s; db := db s;
      already_evaluated := already_evaluated s;
      targets_eval_cache := targets_eval_cache s;
      already_cleaned := rule :: already_cleaned s;
      trace := trace s |}).

Definition fetch_rule_previous_run (run_fingerprint : bytes)
    : M (option (gmap string Fp)) :=
  gets (λ s, db s !! run_fingerprint).

Definition set_rule_previous_run (rule : ResolvedRule) (run_fingerprint : bytes)
    (target_fingerprints : list (ResolvedTargetID * Fp)) : M unit := λ s,
  (Returns tt,
   {| world := world s;
      db := <[run_fingerprint := dict target_fingerprints]> (db s);
      already_evaluated := already_evaluated s;
      targets_eval_cache := targets_eval_cache s;
      already_cleaned := already_cleaned s;
      trace := trace s ++ [EvCommit (id rule) run_fingerprint target_fingerprints] |}).

(** [targets_eval_cache[target]] *)
Definition targets_eval_cache_get (target : ResolvedTargetID)
    : M (Cooked * BaseTargetHandler * bool) := λ s,
  match targets_eval_cache s !! target with
  | Some v => (Returns v, s)
  | None => (Raises (KeyError target), s)
  end.

(** [for x in l: ...], the loop body updating the local variables [acc]. *)
Fixpoint for_each {A S : Type} (body : A → S → M S) (l : list A) (acc : S)
    : M S :=
  match l with
  | [] => mret acc
  | x :: l => acc ← body x acc; for_each body l acc
  end.

Definition cook (self : Runner) (target : ResolvedTargetID)
    (previous_fingerprint : option Fp) : M (Cooked * BaseTargetHandler) :=
  log (EvCook target previous_fingerprint);;
  call (cook_target (target_handlers self) target previous_fingerprint).

(** ** [Runner.clean] *)

(** The first [try] of the output loop of [_clean]: the [except KeyError]
    also catches a [KeyError] coming out of [cook_target] itself. *)
Definition cook_for_clean (self : Runner) (target : ResolvedTargetID)
    (targets_previous_fingerprint : gmap string Fp)
    : M (Cooked * BaseTargetHandler) :=
  match targets_previous_fingerprint !! target with
  | Some previous_fingerprint => λ s,
      match cook self target (Some previous_fingerprint) s with
      | (Raises (CollaboratorError e), s') =>
          if is_key_error e then cook self target None s'
          else (Raises (CollaboratorError e), s')
      | r => r
      end
  | None => cook self target None
  end.

Definition clean_output (self : Runner) (rule : ResolvedRule)
    (targets_previous_fingerprint : gmap string Fp)
    (target : ResolvedTargetID) (_ : unit) : M unit :=
  '(cooked, handler) ← cook_for_clean self target targets_previous_fingerprint;
  log (EvClean target);;
  call_wrapped (id rule) (clean_target handler cooked).

Definition clean_input (self : Runner) (_clean : ResolvedRule → list ResolvedRule → M unit)
    (rule : ResolvedRule) (parent_rules : list ResolvedRule)
    (input_target : ResolvedTargetID) (_ : unit) : M unit :=
  let sub_parent_rules := parent_rules ++ [rule] in
  match target_to_rule self !! input_target with
  | None =>
      input_handler ← call (get_handler (target_handlers self) input_target);
      if negb (ON_DISK_TARGET input_handler)
      then raise (IsengardUnknownTargetError input_target (id <$> sub_parent_rules))
      else mret tt
  | Some sub_rule =>
      if rule_in sub_rule sub_parent_rules
      then raise (IsengardConsistencyError (id <$> sub_parent_rules))
      else _clean sub_rule sub_parent_rules
  end.

(** [_clean]; [fuel] is the number of nested calls of [_clean] that the
    interpreter's recursion limit leaves room for. *)
Fixpoint _clean (self : Runner) (fuel : nat) (rule : ResolvedRule)
    (parent_rules : list ResolvedRule) : M unit :=
  match fuel with
  | 0 => raise RecursionError
  | S fuel =>
      cleaned ← gets already_cleaned;
      if rule_in rule cleaned then mret tt
      else
        add_already_cleaned rule;;
        run_fingerprint ← lift (_compute_run_fingerprint self rule);
        previous_run ← fetch_rule_previous_run run_fingerprint;
        let targets_previous_fingerprint := default ∅ previous_run in
        for_each (clean_output self rule targets_previous_fingerprint)
                 (resolved_outputs rule) tt;;
        for_each (clean_input self (_clean self fuel) rule parent_rules)
                 (resolved_inputs rule) tt
  end.

(** The state an invocation starts from: the world and the store as they
    are, the per-invocation tables empty. *)
Definition fresh_session (w : W) (d : gmap bytes (gmap string Fp)) : Session :=
  {| world := w; db := d; already_evaluated := ∅; targets_eval_cache := ∅;
     already_cleaned := []; trace := [] |}.

Definition clean (self : Runner) (fuel : nat) (target : ResolvedTargetID)
    (w : W) (d : gmap bytes (gmap string Fp))
    : Try IsengardError unit * Session :=
  match target_to_rule self !! target with
  | None => (Raises (IsengardUnknownTargetError target []), fresh_session w d)
  | Some rule => _clean self fuel rule [] (fresh_session w d)
  end.

(** ** [Runner.run] *)

(** [has_changed] of a cooked target: [need_rebuild] is asked only when a
    previous fingerprint is known. *)
Definition has_changed (handler : BaseTargetHandler) (cooked : Cooked)
    (previous_fingerprint : option Fp) : M bool :=
  match previous_fingerprint with
  | Some fp => call (need_rebuild handler cooked fp)
  | None => mret true
  end.

(** Step 2, one input; the locals are [(rebuild_needed, to_cache_targets)]. *)
Definition eval_input (self : Runner) (_run : ResolvedRule → M bool)
    (rule : ResolvedRule) (targets_previous_fingerprint : gmap string Fp)
    (input_target : ResolvedTargetID) (acc : bool * list ResolvedTargetID)
    : M (bool * list ResolvedTargetID) :=
  let '(rebuild_needed, to_cache_targets) := acc in
  match target_to_rule self !! input_target with
  | None =>
      let input_previous_fingerprint := targets_previous_fingerprint !! input_target in
      '(input_cooked, input_handler) ← cook self input_target input_previous_fingerprint;
      if negb (ON_DISK_TARGET input_handler)
      then raise (IsengardUnknownTargetError input_target [id rule])
      else
        input_has_changed ← has_changed input_handler input_cooked input_previous_fingerprint;
        set_targets_eval_cache input_target (input_cooked, input_handler, input_has_changed);;
        mret (rebuild_needed || input_has_changed, to_cache_targets ++ [input_target])
  | Some subrule =>
      rebuilt ← _run subrule;
      mret (rebuild_needed || rebuilt, to_cache_targets)
  end.

(** Step 3, one output; the locals are [(rebuild_needed, to_cache_targets,
    outputs_cooked)]. *)
Definition eval_output (self : Runner)
    (targets_previous_fingerprint : gmap string Fp)
    (output_target : ResolvedTargetID)
    (acc : bool * list ResolvedTargetID * list Cooked)
    : M (bool * list ResolvedTargetID * list Cooked) :=
  let '(rebuild_needed, to_cache_targets, outputs_cooked) := acc in
  let output_previous_fingerprint := targets_previous_fingerprint !! output_target in
  '(output_cooked, output_handler) ← cook self output_target output_previous_fingerprint;
  output_has_changed ← has_changed output_handler output_cooked output_previous_fingerprint;
  set_targets_eval_cache output_target (output_cooked, output_handler, output_has_changed);;
  mret (rebuild_needed || output_has_changed, to_cache_targets ++ [output_target],
        outputs_cooked ++ [output_cooked]).

(** [[targets_eval_cache[t][0] for t in rule.resolved_inputs]] *)
Definition collect_input (t : ResolvedTargetID) (inputs_cooked : list Cooked)
    : M (list Cooked) :=
  entry ← targets_eval_cache_get t;
  mret (inputs_cooked ++ [entry.1.1]).

(** Step 6, one target of [to_cache_targets]; the local is
    [target_fingerprints]. *)
Definition record_fingerprint (rebuild_needed : bool) (target : ResolvedTargetID)
    (target_fingerprints : list (ResolvedTargetID * Fp))
    : M (list (ResolvedTargetID * Fp)) :=
  entry ← targets_eval_cache_get target;
  let target_cooked := entry.1.1 in
  let target_handler := entry.1.2 in
  target_fingerprint ← call (compute_fingerprint target_handler target_cooked);
  log (EvFingerprint target target_fingerprint);;
  set_targets_eval_cache target (target_cooked, target_handler, rebuild_needed);;
  mret (match target_fingerprint with
        | Some fp => target_fingerprints ++ [(target, fp)]
        | None => target_fingerprints
        end).

(** Steps 5 and 6: the rule's body, then the commit. *)
Definition execute (self : Runner) (rule : ResolvedRule) (run_fingerprint : bytes)
    (rebuild_needed : bool)
    (to_cache_targets : list ResolvedTargetID) (outputs_cooked : list Cooked)
    : M bool :=
  inputs_cooked ← for_each collect_input (resolved_inputs rule) [];
  call_rule_body rule (run_body rule outputs_cooked inputs_cooked (config self));;
  target_fingerprints ← for_each (record_fingerprint rebuild_needed) to_cache_targets [];
  set_rule_previous_run rule run_fingerprint target_fingerprints;;
  mret rebuild_needed.

(** [_run]; [fuel] is the number of nested calls of [_run] that the
    interpreter's recursion limit leaves room for. *)
Fixpoint _run (self : Runner) (fuel : nat) (rule : ResolvedRule) : M bool :=
  match fuel with
  | 0 => raise RecursionError
  | S fuel =>
      evaluated ← gets already_evaluated;
      match evaluated !! id rule with
      | Some rebuilt => mret rebuilt
      | None =>
          run_fingerprint ← lift (_compute_run_fingerprint self rule);
          previous_run ← fetch_rule_previous_run run_fingerprint;
          let rebuild_needed := bool_decide (previous_run = None) in
          let targets_previous_fingerprint := default ∅ previous_run in
          '(rebuild_needed, to_cache_targets) ←
            for_each (eval_input self (_run self fuel) rule targets_previous_fingerprint)
                     (resolved_inputs rule) (rebuild_needed, []);
          '(rebuild_needed, to_cache_targets, outputs_cooked) ←
            for_each (eval_output self targets_previous_fingerprint)
                     (resolved_outputs rule) (rebuild_needed, to_cache_targets, []);
          set_already_evaluated rule rebuild_needed;;
          if negb rebuild_needed then mret false
          else execute self rule run_fingerprint rebuild_needed
                       to_cache_targets outputs_cooked
      end
  end.

Definition run_rule (self : Runner) (fuel : nat) (rule : ResolvedRule)
    (w : W) (d : gmap bytes (gmap string Fp))
    : Try IsengardError bool * Session :=
  _run self fuel rule (fresh_session w d).

Definition run (self : Runner) (fuel : nat) (target : ResolvedTargetID)
    (w : W) (d : gmap bytes (gmap string Fp))
    : Try IsengardError bool * Session :=
  match target_to_rule self !! target with
  | None => (Raises (IsengardUnknownTargetError target []), fresh_session w d)
  | Some rule => run_rule self fuel rule w d
  end.

End Isengard.

Arguments ON_DISK_TARGET {W Exc Fp Cooked} _.
Arguments need_rebuild {W Exc Fp Cooked} _ _ _ _.
Arguments compute_fingerprint {W Exc Fp Cooked} _ _ _.
Arguments clean_target {W Exc Fp Cooked} _ _ _.
Arguments cook_target {W Exc Fp Cooked} _ _ _ _.
Arguments get_handler {W Exc Fp Cooked} _ _ _.
Arguments id {W Exc Cooked ConstTypes} _.
Arguments resolved_inputs {W Exc Cooked ConstTypes} _.
Arguments resolved_outputs {W Exc Cooked ConstTypes} _.
Arguments needed_config {W Exc Cooked ConstTypes} _.
Arguments run_body {W Exc Cooked ConstTypes} _ _ _ _ _.
Arguments target_to_rule {W Exc Fp Cooked ConstTypes} _.
Arguments rules {W Exc Fp Cooked ConstTypes} _.
Arguments config {W Exc Fp Cooked ConstTypes} _.
Arguments target_handlers {W Exc Fp Cooked ConstTypes} _.
Arguments Runner_init {W Exc Fp Cooked ConstTypes} _ _ _.
Arguments world {W Exc Fp Cooked ConstTypes} _.
Arguments db {W Exc Fp Cooked ConstTypes} _.
Arguments already_evaluated {W Exc Fp Cooked ConstTypes} _.
Arguments targets_eval_cache {W Exc Fp Cooked ConstTypes} _.
Arguments already_cleaned {W Exc Fp Cooked ConstTypes} _.
Arguments trace {W Exc Fp Cooked ConstTypes} _.
Arguments run_fingerprint_input {W Exc Fp Cooked ConstTypes} _ _ _.
Arguments _compute_run_fingerprint {W Exc Fp Cooked ConstTypes} _ _ _ _.
Arguments run {W Exc Fp Cooked ConstTypes} _ _ _ _ _ _ _.
Arguments clean {W Exc Fp Cooked ConstTypes} _ _ _ _ _ _ _ _.
Arguments _clean {W Exc Fp Cooked ConstTypes} _ _ _ _ _ _ _.
Arguments _run {W Exc Fp Cooked ConstTypes} _ _ _ _ _ _.
Arguments run_rule {W Exc Fp Cooked ConstTypes} _ _ _ _ _ _ _.
Arguments fresh_session {W Exc Fp Cooked ConstTypes} _ _.
Arguments rule_in {W Exc Cooked ConstTypes} _ _.
Arguments IsengardUnknownTargetError {Exc} _ _.
Arguments IsengardConsistencyError {Exc} _.
Arguments IsengardRunError {Exc} _ _.
Arguments KeyError {Exc} _.
Arguments RecursionError {Exc}.
Arguments CollaboratorError {Exc} _.
Arguments EvCook {Exc Fp} _ _.
Arguments EvRuleRun {Exc Fp} _.
Arguments EvRuleReturned {Exc Fp} _.
Arguments EvRuleRaised {Exc Fp} _ _.
Arguments EvFingerprint {Exc Fp} _ _.
Arguments EvCommit {Exc Fp} _ _ _.
Arguments EvClean {Exc Fp} _.
Arguments raise {W Exc Fp Cooked ConstTypes A}.
Arguments lift {W Exc Fp Cooked ConstTypes A}.
Arguments gets {W Exc Fp Cooked ConstTypes A}.
Arguments log {W Exc Fp Cooked ConstTypes}.
Arguments set_world {W Exc Fp Cooked ConstTypes}.
Arguments call {W Exc Fp Cooked ConstTypes A}.
Arguments call_wrapped {W Exc Fp Cooked ConstTypes A}.
Arguments rule_body_outcome {W Exc Fp Cooked ConstTypes}.
Arguments call_rule_body {W Exc Fp Cooked ConstTypes}.
Arguments set_already_evaluated {W Exc Fp Cooked ConstTypes}.
Arguments set_targets_eval_cache {W Exc Fp Cooked ConstTypes}.
Arguments add_already_cleaned {W Exc Fp Cooked ConstTypes}.
Arguments fetch_rule_previous_run {W Exc Fp Cooked ConstTypes}.
Arguments set_rule_previous_run {W Exc Fp Cooked ConstTypes}.
Arguments targets_eval_cache_get {W Exc Fp Cooked ConstTypes}.
Arguments for_each {W Exc Fp Cooked ConstTypes A S}.
Arguments cook {W Exc Fp Cooked ConstTypes}.
Arguments cook_for_clean {W Exc Fp Cooked ConstTypes}.
Arguments clean_output {W Exc Fp Cooked ConstTypes}.
Arguments clean_input {W Exc Fp Cooked ConstTypes}.
Arguments has_changed {W Exc Fp Cooked ConstTypes}.
Arguments eval_input {W Exc Fp Cooked ConstTypes}.
Arguments eval_output {W Exc Fp Cooked ConstTypes}.
Arguments collect_input {W Exc Fp Cooked ConstTypes}.
Arguments record_fingerprint {W Exc Fp Cooked ConstTypes}.
Arguments execute {W Exc Fp Cooked ConstTypes}.
Arguments update_with_config {Exc ConstTypes}.

(** ** Vocabulary of the properties *)

Section Vocabulary.

Context {W Exc Fp Cooked ConstTypes : Type}.

#[local] Abbreviation Session := (Session W Exc Fp Cooked ConstTypes).
#[local] Abbreviation M := (M W Exc Fp Cooked ConstTypes).
#[local] Abbreviation Runner := (Runner W Exc Fp Cooked ConstTypes).
#[local] Abbreviation ResolvedRule := (ResolvedRule W Exc Cooked ConstTypes).
#[local] Abbreviation Event := (Event Exc Fp).

(** [wp m s Q]: running [m] from [s] ends in an outcome and a state that
    satisfy [Q]. *)
Definition wp {A : Type} (m : M A) (s : Session)
    (Q : Try (IsengardError Exc) A → Session → Prop) : Prop :=
  Q (m s).1 (m s).2.

(** [sub] owns one of the inputs of [rule]. *)
Definition linked (self : Runner) (rule sub : ResolvedRule) : Prop :=
  ∃ input, input ∈ resolved_inputs rule ∧ target_to_rule self !! input = Some sub.

(** The rules a traversal from [target] can reach. *)
Inductive reachable (self : Runner) (target : ResolvedTargetID) : ResolvedRule → Prop :=
| reachable_owner rule :
    target_to_rule self !! target = Some rule → reachable self target rule
| reachable_input rule sub :
    reachable self target rule → linked self rule sub → reachable self target sub.

(** A chain of rules, each owning an input of the one before. *)
Fixpoint dependency_chain (self : Runner) (chain : list ResolvedRule) : Prop :=
  match chain with
  | rule :: (sub :: _) as chain => linked self rule sub ∧ dependency_chain self chain
  | _ => True
  end.

(** A chain of rules that starts at the rule owning [target]. *)
Definition chain_from (self : Runner) (target : ResolvedTargetID)
    (chain : list ResolvedRule) : Prop :=
  dependency_chain self chain
  ∧ ∃ root, target_to_rule self !! target = Some root ∧ head chain = Some root.

(** [clean] met an input [x] of the last rule of a chain that has no owning
    rule and whose handler is not on disk. *)
Definition unknown_clean_input (self : Runner) (target x : ResolvedTargetID)
    (needed_by : list string) : Prop :=
  target_to_rule self !! x = None
  ∧ ∃ path rule,
      needed_by = id <$> (path ++ [rule])
      ∧ chain_from self target (path ++ [rule])
      ∧ x ∈ resolved_inputs rule
      ∧ ∃ w handler w',
          get_handler (target_handlers self) x w = (Returns handler, w')
          ∧ ON_DISK_TARGET handler = false.

(** [run] met such an input [x] in [rule]. *)
Definition unknown_run_input (self : Runner) (target x : ResolvedTargetID)
    (needed_by : list string) : Prop :=
  target_to_rule self !! x = None
  ∧ ∃ rule,
      needed_by = [id rule]
      ∧ reachable self target rule
      ∧ x ∈ resolved_inputs rule
      ∧ ∃ hint w cooked handler w',
          cook_target (target_handlers self) x hint w = (Returns (cooked, handler), w')
          ∧ ON_DISK_TARGET handler = false.

(** [clean] found a rule of the chain again among the owners of the inputs of
    its last rule. *)
Definition cycle_found (self : Runner) (target : ResolvedTargetID)
    (entered : list ResolvedRule) (chain : list string) : Prop :=
  ∃ path rule sub,
    chain = id <$> (path ++ [rule])
    ∧ chain_from self target (path ++ [rule])
    ∧ linked self rule sub
    ∧ id sub ∈ chain
    ∧ ∀ parent, parent ∈ path ++ [rule] → parent ∈ entered.

(** Every rule [clean] has entered is reachable, every target it has cleaned
    is an output of a rule it has entered. *)
Definition clean_frame (self : Runner) (target : ResolvedTargetID)
    (s : Session) : Prop :=
  (∀ rule, rule ∈ already_cleaned s → reachable self target rule)
  ∧ (∀ x, EvClean x ∈ trace s →
       ∃ rule, rule ∈ already_cleaned s ∧ x ∈ resolved_outputs rule).

(** All the outputs of the rules [entered] have been cleaned. *)
Definition outputs_cleaned (entered : list ResolvedRule) (tr : list Event) : Prop :=
  ∀ rule output, rule ∈ entered → output ∈ resolved_outputs rule →
                 EvClean output ∈ tr.

Definition clean_post (self : Runner) (target : ResolvedTargetID)
    (entered : list ResolvedRule)
    (r : Try (IsengardError Exc) unit) (s : Session) : Prop :=
  clean_frame self target s
  ∧ (∀ rule, rule ∈ entered → rule ∈ already_cleaned s)
  ∧ match r with
    | Returns _ => outputs_cleaned (already_cleaned s) (trace s)
    | Raises (IsengardConsistencyError chain) =>
        outputs_cleaned (already_cleaned s) (trace s)
        ∧ cycle_found self target (already_cleaned s) chain
    | Raises (IsengardUnknownTargetError x needed_by) =>
        unknown_clean_input self target x needed_by
    | Raises _ => True
    end.

Definition count (p : Event → bool) (tr : list Event) : nat :=
  length (List.filter p tr).

Definition is_cook (target : ResolvedTargetID) (ev : Event) : bool :=
  match ev with
  | EvCook t _ => bool_decide (t = target)
  | _ => false
  end.

Definition is_commit (rule_id : string) (ev : Event) : bool :=
  match ev with
  | EvCommit r _ _ => bool_decide (r = rule_id)
  | _ => false
  end.

Definition is_rule_run (ev : Event) : bool :=
  match ev with
  | EvRuleRun _ => true
  | _ => false
  end.

(** The store after the commits of a trace, in order. *)
Definition apply_commits (tr : list Event) (d : gmap bytes (gmap string Fp))
    : gmap bytes (gmap string Fp) :=
  foldl (λ d ev, match ev with
                 | EvCommit _ run_fingerprint target_fingerprints =>
                     <[run_fingerprint := dict target_fingerprints]> d
                 | _ => d
                 end) d tr.

(** The rules [target_to_rule] knows, and the rule sets in which an id names
    one rule. *)
Definition owned_rule (self : Runner) (rule : ResolvedRule) : Prop :=
  ∃ target, target_to_rule self !! target = Some rule.

Definition unique_ids (self : Runner) : Prop :=
  ∀ rule1 rule2, owned_rule self rule1 → owned_rule self rule2 →
                 id rule1 = id rule2 → rule1 = rule2.

(** The rules [pending] are being evaluated, none is marked evaluated. *)
Definition unevaluated (pending : list ResolvedRule) (s : Session) : Prop :=
  ∀ parent, parent ∈ pending → already_evaluated s !! id parent = None.

(** Each pending rule waits for an input owned by a pending rule or by
    [rule]. *)
Definition waiting_for (self : Runner) (pending : list ResolvedRule)
    (rule : ResolvedRule) : Prop :=
  ∀ parent, parent ∈ pending →
    owned_rule self parent
    ∧ ∃ input sub, input ∈ resolved_inputs parent
                   ∧ target_to_rule self !! input = Some sub
                   ∧ (sub ∈ pending ∨ sub = rule).

(** [_run] does not return for a pending rule and leaves the pending rules
    unevaluated. *)
Definition pending_post {A : Type} (pending : list ResolvedRule)
    (rule : ResolvedRule) (r : Try (IsengardError Exc) A) (s : Session) : Prop :=
  match r with
  | Returns _ => unevaluated pending s ∧ rule ∉ pending
  | Raises _ => True
  end.




(** Every rule known to [target_to_rule] owns each of its outputs, listed
    once. *)
Definition owns_outputs (self : Runner) : Prop :=
  ∀ rule, owned_rule self rule →
    NoDup (resolved_outputs rule)
    ∧ ∀ output, output ∈ resolved_outputs rule →
                target_to_rule self !! output = Some rule.

(** A target with an owning rule is cooked at most once, and not before its
    rule is marked evaluated. *)
Definition cooks_once (self : Runner) (s : Session) : Prop :=
  ∀ target rule, target_to_rule self !! target = Some rule →
    count (is_cook target) (trace s) ≤ 1
    ∧ (already_evaluated s !! id rule = None →
       count (is_cook target) (trace s) = 0).

Definition cooks_post {A : Type} (self : Runner)
    (r : Try (IsengardError Exc) A) (s : Session) : Prop :=
  match r with
  | Returns _ => cooks_once self s
  | Raises _ =>
      ∀ target, is_Some (target_to_rule self !! target) →
                count (is_cook target) (trace s) ≤ 1
  end.

(** Every commit of a rule comes after the return of that rule's body. *)
Definition commits_follow_return (tr : list Event) : Prop :=
  ∀ before rule_id run_fingerprint target_fingerprints after,
    tr = before ++ EvCommit rule_id run_fingerprint target_fingerprints :: after →
    EvRuleReturned rule_id ∈ before.

(** Events that neither commit nor report a failed body. *)
Definition quiet (ev : Event) : Prop :=
  match ev with
  | EvCommit _ _ _ | EvRuleRaised _ _ => False
  | _ => True
  end.

(** The store holds the commits of the trace on top of the store [d0] the
    invocation started from, and no body has failed. *)
Definition trace_ok (d0 : gmap bytes (gmap string Fp)) (s : Session) : Prop :=
  db s = apply_commits (trace s) d0
  ∧ commits_follow_return (trace s)
  ∧ ∀ rule_id exc, EvRuleRaised rule_id exc ∉ trace s.

(** The same when the invocation ended in error [e]: a failed body is the
    one [e] reports. *)
Definition error_ok (d0 : gmap bytes (gmap string Fp)) (e : IsengardError Exc)
    (s : Session) : Prop :=
  db s = apply_commits (trace s) d0
  ∧ commits_follow_return (trace s)
  ∧ ∀ rule_id exc, EvRuleRaised rule_id exc ∈ trace s →
                   e = IsengardRunError rule_id exc.

Definition trace_post {A : Type} (d0 : gmap bytes (gmap string Fp))
    (r : Try (IsengardError Exc) A) (s : Session) : Prop :=
  match r with
  | Returns _ => trace_ok d0 s
  | Raises e => error_ok d0 e s
  end.

(** The errors [execute] may end in. *)
Definition engine_error (e : IsengardError Exc) : Prop :=
  match e with
  | KeyError _ | IsengardRunError _ _ | CollaboratorError _ => True
  | _ => False
  end.

(** An [UnknownTarget] raised by [run] is about an input as in
    [unknown_run_input]. *)
Definition unknown_post {A : Type} (self : Runner) (target : ResolvedTargetID)
    (r : Try (IsengardError Exc) A) (_ : Session) : Prop :=
  ∀ x needed_by, r = Raises (IsengardUnknownTargetError x needed_by) →
                 unknown_run_input self target x needed_by.

(** *** Handlers and bodies that behave

    [obs target w] is the observable state of [target] in the world [w], as a
    fingerprint ([None]: nothing to observe). *)

(** [(cooked, handler)] is a cooked form of [target]. *)
Definition cooked_for (th : TargetHandlersBundle W Exc Fp Cooked)
    (target : ResolvedTargetID) (cooked : Cooked)
    (handler : BaseTargetHandler W Exc Fp Cooked) : Prop :=
  ∃ hint w w', cook_target th target hint w = (Returns (cooked, handler), w').

(** The handlers only read the world; a target that cooks once cooks under
    any hint, with a handler of the same kind; [compute_fingerprint] returns
    the observable state (R1); [need_rebuild] says no only if (R2), and
    whenever (its converse), the previous fingerprint is the observable
    state. *)
Record lawful_handlers (th : TargetHandlersBundle W Exc Fp Cooked)
    (obs : ResolvedTargetID → W → option Fp) : Prop := {
  cook_read_only : ∀ target hint w r w',
    cook_target th target hint w = (r, w') → w' = w;
  cook_stable : ∀ target hint w cooked handler w',
    cook_target th target hint w = (Returns (cooked, handler), w') →
    ∀ hint2 w2, ∃ cooked2 handler2,
      cook_target th target hint2 w2 = (Returns (cooked2, handler2), w2)
      ∧ ON_DISK_TARGET handler2 = ON_DISK_TARGET handler;
  fingerprint_observes : ∀ target cooked handler w,
    cooked_for th target cooked handler →
    compute_fingerprint handler cooked w = (Returns (obs target w), w);
  need_rebuild_read_only : ∀ target cooked handler fp w r w',
    cooked_for th target cooked handler →
    need_rebuild handler cooked fp w = (r, w') → w' = w;
  law_R2 : ∀ target cooked handler fp w w',
    cooked_for th target cooked handler →
    need_rebuild handler cooked fp w = (Returns false, w') →
    obs target w = Some fp;
  law_R2_converse : ∀ target cooked handler fp w,
    cooked_for th target cooked handler →
    obs target w = Some fp →
    need_rebuild handler cooked fp w = (Returns false, w)
}.

(** The cooked values [cooked] are what cooking the targets [targets] gives,
    one for one. *)
Definition cooked_as (th : TargetHandlersBundle W Exc Fp Cooked)
    (targets : list ResolvedTargetID) (cooked : list Cooked) : Prop :=
  Forall2 (λ target c, ∃ handler, cooked_for th target c handler) targets cooked.

(** A body called with its cooked outputs and inputs that returns has changed
    the observable state of its outputs only, and its outputs and its inputs
    without owning rule are there to observe. *)
Definition lawful_bodies (self : Runner)
    (obs : ResolvedTargetID → W → option Fp) : Prop :=
  ∀ rule outputs_cooked inputs_cooked w w',
    owned_rule self rule →
    cooked_as (target_handlers self) (resolved_outputs rule) outputs_cooked →
    cooked_as (target_handlers self) (resolved_inputs rule) inputs_cooked →
    run_body rule outputs_cooked inputs_cooked (config self) w = (Returns tt, w') →
    (∀ target, target ∉ resolved_outputs rule → obs target w' = obs target w)
    ∧ (∀ target, target ∈ resolved_outputs rule
                 ∨ (target ∈ resolved_inputs rule
                    ∧ target_to_rule self !! target = None) →
                 is_Some (obs target w')).

(** Two rules do not share a run fingerprint. *)
Definition distinct_fingerprints (pickle_dumps : ConstTypes → bytes)
    (sha256 : bytes → bytes) (self : Runner) : Prop :=
  ∀ rule1 rule2 fp, owned_rule self rule1 → owned_rule self rule2 →
    _compute_run_fingerprint pickle_dumps sha256 self rule1 = Returns fp →
    _compute_run_fingerprint pickle_dumps sha256 self rule2 = Returns fp →
    rule1 = rule2.

(** The record [previous] holds the observable state of [target]. *)
Definition settled (obs : ResolvedTargetID → W → option Fp)
    (target : ResolvedTargetID) (previous : gmap string Fp) (w : W) : Prop :=
  ∃ fp, previous !! target = Some fp ∧ obs target w = Some fp.

(** The store holds for [rule] a record in which all its outputs and its
    inputs without owning rule are settled, and the rules that own its other
    inputs are marked evaluated. *)
Definition up_to_date (pickle_dumps : ConstTypes → bytes) (sha256 : bytes → bytes)
    (self : Runner) (obs : ResolvedTargetID → W → option Fp)
    (rule : ResolvedRule) (w : W) (d : gmap bytes (gmap string Fp))
    (evaluated : gmap string bool) : Prop :=
  ∃ fp previous,
    _compute_run_fingerprint pickle_dumps sha256 self rule = Returns fp
    ∧ d !! fp = Some previous
    ∧ (∀ input, input ∈ resolved_inputs rule →
         match target_to_rule self !! input with
         | Some sub => is_Some (evaluated !! id sub)
         | None =>
             settled obs input previous w
             ∧ ∃ cooked handler,
                 cooked_for (target_handlers self) input cooked handler
                 ∧ ON_DISK_TARGET handler = true
         end)
    ∧ (∀ output, output ∈ resolved_outputs rule →
         settled obs output previous w
         ∧ ∃ cooked handler, cooked_for (target_handlers self) output cooked handler).

(** All the rules marked evaluated, but [skip], are up to date. *)
Definition evaluated_up_to_date (pickle_dumps : ConstTypes → bytes)
    (sha256 : bytes → bytes) (self : Runner)
    (obs : ResolvedTargetID → W → option Fp)
    (skip : ResolvedRule → Prop) (s : Session) : Prop :=
  ∀ rule, owned_rule self rule → ¬ skip rule →
    is_Some (already_evaluated s !! id rule) →
    up_to_date pickle_dumps sha256 self obs rule (world s) (db s)
               (already_evaluated s).

Definition cache_cooked (self : Runner) (s : Session) : Prop :=
  ∀ target cooked handler changed,
    targets_eval_cache s !! target = Some (cooked, handler, changed) →
    cooked_for (target_handlers self) target cooked handler.

(** What [_run] keeps from [s0] to [s]: evaluated rules stay evaluated, the
    records of unevaluated rules and the targets without owning rule are as
    they were. *)
Definition run_frame (pickle_dumps : ConstTypes → bytes) (sha256 : bytes → bytes)
    (self : Runner) (obs : ResolvedTargetID → W → option Fp)
    (s0 s : Session) : Prop :=
  (∀ rule_id, is_Some (already_evaluated s0 !! rule_id) →
              is_Some (already_evaluated s !! rule_id))
  ∧ (∀ rule fp, owned_rule self rule →
       _compute_run_fingerprint pickle_dumps sha256 self rule = Returns fp →
       already_evaluated s !! id rule = None →
       db s !! fp = db s0 !! fp)
  ∧ (∀ target, target_to_rule self !! target = None →
               obs target (world s) = obs target (world s0))
  ∧ (∀ target, is_Some (targets_eval_cache s0 !! target) →
               is_Some (targets_eval_cache s !! target)).

(** The locals of [_run] for [rule]: what [to_cache_targets] holds, and
    what is known of the inputs and the outputs evaluated so far. *)
Definition recordable (self : Runner) (rule : ResolvedRule)
    (to_cache_targets : list ResolvedTargetID) (s : Session) : Prop :=
  ∀ target, target ∈ to_cache_targets →
    (target ∈ resolved_outputs rule
     ∨ (target ∈ resolved_inputs rule ∧ target_to_rule self !! target = None))
    ∧ is_Some (targets_eval_cache s !! target).

Definition inputs_seen (self : Runner) (inputs : list ResolvedTargetID)
    (to_cache_targets : list ResolvedTargetID) (s : Session) : Prop :=
  ∀ input, input ∈ inputs →
    match target_to_rule self !! input with
    | Some sub => is_Some (already_evaluated s !! id sub)
    | None =>
        input ∈ to_cache_targets
        ∧ ∃ cooked handler,
            cooked_for (target_handlers self) input cooked handler
            ∧ ON_DISK_TARGET handler = true
    end.

Definition outputs_seen (self : Runner) (outputs : list ResolvedTargetID)
    (to_cache_targets : list ResolvedTargetID) : Prop :=
  ∀ output, output ∈ outputs →
    output ∈ to_cache_targets
    ∧ ∃ cooked handler, cooked_for (target_handlers self) output cooked handler.

(** As long as [rebuild_needed] is false, the previous record was found and
    the targets evaluated so far are settled in it. *)
Definition still_settled (obs : ResolvedTargetID → W → option Fp)
    (previous_run : option (gmap string Fp)) (rebuild_needed : bool)
    (to_cache_targets : list ResolvedTargetID) (s : Session) : Prop :=
  rebuild_needed = false →
  is_Some previous_run
  ∧ ∀ target, target ∈ to_cache_targets →
              settled obs target (default ∅ previous_run) (world s).

(** What [execute] for [rule] keeps. *)
Definition execute_post (pickle_dumps : ConstTypes → bytes)
    (sha256 : bytes → bytes) (self : Runner)
    (obs : ResolvedTargetID → W → option Fp) (rule : ResolvedRule)
    (s0 : Session) (r : Try (IsengardError Exc) bool) (s : Session) : Prop :=
  match r with
  | Returns _ =>
      evaluated_up_to_date pickle_dumps sha256 self obs (λ _, False) s
      ∧ cache_cooked self s
      ∧ already_evaluated s = already_evaluated s0
      ∧ (∀ other fp, owned_rule self other → other ≠ rule →
           _compute_run_fingerprint pickle_dumps sha256 self other = Returns fp →
           db s !! fp = db s0 !! fp)
      ∧ (∀ target, target_to_rule self !! target = None →
                   obs target (world s) = obs target (world s0))
      ∧ (∀ target, is_Some (targets_eval_cache s0 !! target) →
                   is_Some (targets_eval_cache s !! target))
  | Raises _ => True
  end.

Definition first_run_post (pickle_dumps : ConstTypes → bytes)
    (sha256 : bytes → bytes) (self : Runner)
    (obs : ResolvedTargetID → W → option Fp) (rule : ResolvedRule)
    (s0 : Session) (r : Try (IsengardError Exc) bool) (s : Session) : Prop :=
  match r with
  | Returns _ =>
      evaluated_up_to_date pickle_dumps sha256 self obs (λ _, False) s
      ∧ cache_cooked self s
      ∧ is_Some (already_evaluated s !! id rule)
      ∧ run_frame pickle_dumps sha256 self obs s0 s
  | Raises _ => True
  end.

(** The state of a second run: the world and the store of the end of the
    first, nothing rebuilt, no body called. *)
Definition nothing_rebuilt (w : W) (d : gmap bytes (gmap string Fp))
    (s : Session) : Prop :=
  world s = w ∧ db s = d
  ∧ (∀ rule_id rebuilt, already_evaluated s !! rule_id = Some rebuilt →
                        rebuilt = false)
  ∧ count is_rule_run (trace s) = 0.

Definition same_evaluated (s1 s2 : Session) : Prop :=
  ∀ rule_id, is_Some (already_evaluated s1 !! rule_id)
             ↔ is_Some (already_evaluated s2 !! rule_id).

(** The digested bytes as the specification words them: the rule id, then for
    each needed key in sorted order the pair of the key and its serialised
    value. *)
Fixpoint spec_update_with_config (pickle_dumps : ConstTypes → bytes)
    (config : gmap string ConstTypes) (h : bytes) (keys : list string)
    : Try (IsengardError Exc) bytes :=
  match keys with
  | [] => Returns h
  | k :: keys =>
      match config !! k with
      | None => Raises (KeyError k)
      | Some v =>
          spec_update_with_config pickle_dumps config
            (h ++ String.list_byte_of_string k ++ pickle_dumps v) keys
      end
  end.

Definition spec_run_fingerprint_input (pickle_dumps : ConstTypes → bytes)
    (self : Runner) (rule : ResolvedRule) : Try (IsengardError Exc) bytes :=
  spec_update_with_config pickle_dumps (config self)
    (String.list_byte_of_string (id rule)) (sorted (needed_config rule)).

End Vocabulary.


(** ** Vocabulary of the traversals: what they call, in which order, and how
    they end *)

Section Traversals.

Context {W Exc Fp Cooked ConstTypes : Type}.

#[local] Abbreviation Session := (Session W Exc Fp Cooked ConstTypes).
#[local] Abbreviation Runner := (Runner W Exc Fp Cooked ConstTypes).
#[local] Abbreviation ResolvedRule := (ResolvedRule W Exc Cooked ConstTypes).
#[local] Abbreviation Event := (Event Exc Fp).

Definition is_clean (target : ResolvedTargetID) (ev : Event) : bool :=
  match ev with
  | EvClean t => bool_decide (t = target)
  | _ => false
  end.

Definition is_run (rule_id : string) (ev : Event) : bool :=
  match ev with
  | EvRuleRun r => bool_decide (r = rule_id)
  | _ => false
  end.

(** Cooking and cleaning: the calls of [clean] that leave an event. *)
Definition housekeeping (ev : Event) : Prop :=
  match ev with
  | EvCook _ _ | EvClean _ => True
  | _ => False
  end.

Definition cooking (ev : Event) : Prop :=
  match ev with
  | EvCook _ _ => True
  | _ => False
  end.

(** A rule reachable from [target] needs the key [k], which is not
    configured. *)
Definition unconfigured_key (self : Runner) (target : ResolvedTargetID)
    (k : string) : Prop :=
  ∃ rule, reachable self target rule
          ∧ k ∈ needed_config rule ∧ config self !! k = None.

(** The last call was the handler's [clean] on an output of the reachable
    rule [rule_id]. *)
Definition failed_clean (self : Runner) (target : ResolvedTargetID)
    (rule_id : string) (s : Session) : Prop :=
  ∃ rule output, reachable self target rule ∧ rule_id = id rule
                 ∧ output ∈ resolved_outputs rule
                 ∧ last (trace s) = Some (EvClean output).

(** The store is [d0], the tables of [run] are empty, and the trace holds
    cooking and cleaning only. *)
Definition untouched_by_clean (d0 : gmap bytes (gmap string Fp))
    (s : Session) : Prop :=
  db s = d0 ∧ already_evaluated s = ∅ ∧ targets_eval_cache s = ∅
  ∧ Forall housekeeping (trace s).

(** How [clean] may end, [d0] being the store it started from. *)
Definition clean_errors_post (self : Runner) (target : ResolvedTargetID)
    (d0 : gmap bytes (gmap string Fp))
    (r : Try (IsengardError Exc) unit) (s : Session) : Prop :=
  untouched_by_clean d0 s
  ∧ match r with
    | Raises (KeyError k) => unconfigured_key self target k
    | Raises (IsengardRunError rule_id _) => failed_clean self target rule_id s
    | _ => True
    end.

(** The ids of the rules [clean] has entered. *)
Definition entered (s : Session) : list string := id <$> already_cleaned s.

(** A target with an owning rule is cleaned at most once, and not before its
    rule is entered. *)
Definition cleans_once (self : Runner) (s : Session) : Prop :=
  ∀ target rule, target_to_rule self !! target = Some rule →
    count (is_clean target) (trace s) ≤ 1
    ∧ (id rule ∉ entered s → count (is_clean target) (trace s) = 0).

Definition cleans_post {A : Type} (self : Runner)
    (r : Try (IsengardError Exc) A) (s : Session) : Prop :=
  match r with
  | Returns _ => cleans_once self s
  | Raises _ =>
      ∀ target, is_Some (target_to_rule self !! target) →
                count (is_clean target) (trace s) ≤ 1
  end.

(** The rules entered that are not on the stack [parent_rules] have had the
    owners of all their inputs entered. *)
Definition closed (self : Runner) (parent_rules : list ResolvedRule)
    (s : Session) : Prop :=
  (∀ rule, rule ∈ already_cleaned s → owned_rule self rule)
  ∧ ∀ rule sub, rule ∈ already_cleaned s → id rule ∉ id <$> parent_rules →
                linked self rule sub → id sub ∈ entered s.

Definition closed_post (self : Runner) (parent_rules : list ResolvedRule)
    (rule : ResolvedRule) (s0 : Session)
    (r : Try (IsengardError Exc) unit) (s : Session) : Prop :=
  match r with
  | Returns _ =>
      closed self parent_rules s ∧ id rule ∈ entered s
      ∧ ∀ rule_id, rule_id ∈ entered s0 → rule_id ∈ entered s
  | Raises _ => True
  end.

(** Between [s] and [s'] the store was not written and the trace has grown
    by cooking only. *)
Definition only_cooked (s s' : Session) : Prop :=
  db s' = db s ∧ ∃ cooks, trace s' = trace s ++ cooks ∧ Forall cooking cooks.

Definition not_rebuilt_post (s : Session)
    (r : Try (IsengardError Exc) bool) (s' : Session) : Prop :=
  r = Returns false → only_cooked s s'.

(** The body of [rule] has run and returned, and its record, under its run
    fingerprint, is the last thing that was written. *)
Definition just_rebuilt (pickle_dumps : ConstTypes → bytes)
    (sha256 : bytes → bytes) (self : Runner) (rule : ResolvedRule)
    (s : Session) : Prop :=
  ∃ fp fps before,
    _compute_run_fingerprint pickle_dumps sha256 self rule = Returns fp
    ∧ trace s = before ++ [EvCommit (id rule) fp fps]
    ∧ EvRuleRun (id rule) ∈ before ∧ EvRuleReturned (id rule) ∈ before
    ∧ db s !! fp = Some (dict fps).

(** A ranking of the rule ids in which every rule is above the owners of its
    inputs: there is no cycle. *)
Definition ranked (self : Runner) (rank : string → nat) : Prop :=
  ∀ rule sub, owned_rule self rule → linked self rule sub →
              rank (id sub) < rank (id rule).

(** [target_to_rule] binds a target to a rule that lists it in its outputs,
    as [Runner.__init__] builds it. *)
Definition binds_outputs (self : Runner) : Prop :=
  ∀ target rule, target_to_rule self !! target = Some rule →
                 target ∈ resolved_outputs rule.

(** The outputs of the rules marked evaluated are in [targets_eval_cache]. *)
Definition outputs_cached (self : Runner) (s : Session) : Prop :=
  ∀ rule, owned_rule self rule → is_Some (already_evaluated s !! id rule) →
    ∀ output, output ∈ resolved_outputs rule →
              is_Some (targets_eval_cache s !! output).

Definition cache_grows (s s' : Session) : Prop :=
  ∀ target, is_Some (targets_eval_cache s !! target) →
            is_Some (targets_eval_cache s' !! target).

(** A [KeyError] out of [run] is about a key that is not configured: the
    lookups in [targets_eval_cache] do not miss. *)
Definition key_post {A : Type} (self : Runner) (target : ResolvedTargetID)
    (s0 : Session) (r : Try (IsengardError Exc) A) (s : Session) : Prop :=
  match r with
  | Returns _ => outputs_cached self s ∧ cache_grows s0 s
  | Raises (KeyError k) => unconfigured_key self target k
  | Raises _ => True
  end.

(** The events of the execution of the rule [rule_id]: its body and its
    commit. *)
Definition executes (rule_id : string) (ev : Event) : Prop :=
  match ev with
  | EvRuleRun r | EvRuleReturned r | EvRuleRaised r _ | EvCommit r _ _ =>
      r = rule_id
  | _ => False
  end.

(** Every body that has started has committed. *)
Definition runs_committed (tr : list Event) : Prop :=
  ∀ rule_id, EvRuleRun rule_id ∈ tr → ∃ fp fps, EvCommit rule_id fp fps ∈ tr.

(** Once the body of a rule has started, the rules that own its inputs are
    not executed any more. *)
Definition started_after (self : Runner) (tr : list Event) : Prop :=
  ∀ before after rule sub,
    tr = before ++ EvRuleRun (id rule) :: after →
    owned_rule self rule → linked self rule sub →
    ∀ ev, ev ∈ after → ¬ executes (id sub) ev.

(** When a body starts, the bodies started before it have committed. *)
Definition committed_before (tr : list Event) : Prop :=
  ∀ before after rule_id,
    tr = before ++ EvRuleRun rule_id :: after → runs_committed before.

Definition order_ok (self : Runner) (tr : list Event) : Prop :=
  started_after self tr ∧ committed_before tr.

(** The owners of the inputs of a rule whose body has started are marked
    evaluated. *)
Definition deps_evaluated (self : Runner) (s : Session) : Prop :=
  ∀ rule sub, owned_rule self rule → linked self rule sub →
    EvRuleRun (id rule) ∈ trace s → is_Some (already_evaluated s !! id sub).

Definition ordered (self : Runner) (s : Session) : Prop :=
  order_ok self (trace s) ∧ runs_committed (trace s) ∧ deps_evaluated self s.

Definition order_post {A : Type} (self : Runner)
    (r : Try (IsengardError Exc) A) (s : Session) : Prop :=
  match r with
  | Returns _ => ordered self s
  | Raises _ => order_ok self (trace s)
  end.

(** No owner of an input of a rule whose body has started is [rule_id]. *)
Definition not_awaited (self : Runner) (rule_id : string)
    (tr : list Event) : Prop :=
  ∀ rule sub, owned_rule self rule → linked self rule sub →
    EvRuleRun (id rule) ∈ tr → id sub ≠ rule_id.

(** A body runs at most once, and not before its rule is marked
    evaluated. *)
Definition runs_once (s : Session) : Prop :=
  ∀ rule_id,
    count (is_run rule_id) (trace s) ≤ 1
    ∧ (already_evaluated s !! rule_id = None →
       count (is_run rule_id) (trace s) = 0).

Definition runs_post {A : Type} (r : Try (IsengardError Exc) A)
    (s : Session) : Prop :=
  match r with
  | Returns _ => runs_once s
  | Raises _ => ∀ rule_id, count (is_run rule_id) (trace s) ≤ 1
  end.

(** The record [fps] committed for [rule] holds fingerprints computed for
    outputs of the rule and for inputs of it that no rule owns. *)
Definition recorded_for (self : Runner) (rule : ResolvedRule)
    (fps : list (ResolvedTargetID * Fp)) (tr : list Event) : Prop :=
  ∀ target fp, (target, fp) ∈ fps →
    (target ∈ resolved_outputs rule
     ∨ (target ∈ resolved_inputs rule ∧ target_to_rule self !! target = None))
    ∧ EvFingerprint target (Some fp) ∈ tr.

(** The outputs of [rule] and its inputs that no rule owns are in the record
    [fps], but those whose fingerprint was found empty. *)
Definition record_complete (self : Runner) (rule : ResolvedRule)
    (fps : list (ResolvedTargetID * Fp)) (tr : list Event) : Prop :=
  ∀ target,
    (target ∈ resolved_outputs rule
     ∨ (target ∈ resolved_inputs rule ∧ target_to_rule self !! target = None)) →
    target ∈ fps.*1 ∨ EvFingerprint target None ∈ tr.

Definition commits_described (pickle_dumps : ConstTypes → bytes)
    (sha256 : bytes → bytes) (self : Runner) (target : ResolvedTargetID)
    (tr : list Event) : Prop :=
  ∀ rule_id fp fps, EvCommit rule_id fp fps ∈ tr →
    ∃ rule, reachable self target rule ∧ id rule = rule_id
            ∧ _compute_run_fingerprint pickle_dumps sha256 self rule = Returns fp
            ∧ recorded_for self rule fps tr
            ∧ record_complete self rule fps tr.

End Traversals.

(** ** What the calls really did *)

Section Outcomes.

Context {W Exc Fp Cooked ConstTypes : Type}.

#[local] Abbreviation Session := (Session W Exc Fp Cooked ConstTypes).
#[local] Abbreviation Runner := (Runner W Exc Fp Cooked ConstTypes).
#[local] Abbreviation ResolvedRule := (ResolvedRule W Exc Cooked ConstTypes).
#[local] Abbreviation Event := (Event Exc Fp).

(** The body of the rule [rule_id], called with the configuration of the
    runner, has returned. *)
Definition body_returned (self : Runner) (rule_id : string) : Prop :=
  ∃ rule outputs_cooked inputs_cooked w w',
    owned_rule self rule ∧ id rule = rule_id
    ∧ run_body rule outputs_cooked inputs_cooked (config self) w
      = (Returns tt, w').


(** Every body that was called has returned, and what the trace reports as
    returned is a body that did return. *)
Definition bodies_ok (self : Runner) (s : Session) : Prop :=
  (∀ rule_id, EvRuleReturned rule_id ∈ trace s → body_returned self rule_id)
  ∧ ∀ rule_id, EvRuleRun rule_id ∈ trace s → EvRuleReturned rule_id ∈ trace s.




(** What the handlers' [clean] does stays done: [gone x w] holds of the
    world once [clean] has returned on the cooked form of [x], and no call to
    [cook_target], [get_handler] or a handler's [clean] undoes it. *)
Definition cleaning_sticks (th : TargetHandlersBundle W Exc Fp Cooked)
    (gone : ResolvedTargetID → W → Prop) : Prop :=
  (∀ target hint w r w',
     cook_target th target hint w = (r, w') → ∀ x, gone x w → gone x w')
  ∧ (∀ target w r w',
       get_handler th target w = (r, w') → ∀ x, gone x w → gone x w')
  ∧ (∀ target cooked handler w w',
       cooked_for th target cooked handler →
       clean_target handler cooked w = (Returns tt, w') →
       gone target w' ∧ ∀ x, gone x w → gone x w').

(** The targets the trace reports as cleaned are gone from the world. *)
Definition cleaned_gone (gone : ResolvedTargetID → W → Prop)
    (s : Session) : Prop :=
  ∀ x, EvClean x ∈ trace s → gone x (world s).

(** They are when [clean] ends, unless it ends in the failure of a
    handler's [clean]. *)
Definition gone_post {A : Type} (gone : ResolvedTargetID → W → Prop)
    (r : Try (IsengardError Exc) A) (s : Session) : Prop :=
  match r with
  | Raises (IsengardRunError _ _) => True
  | _ => cleaned_gone gone s
  end.

(** [cook_target] has given an on-disk handler for [x]; [get_handler] has. *)
Definition on_disk_input (self : Runner) (x : ResolvedTargetID) : Prop :=
  ∃ cooked handler,
    cooked_for (target_handlers self) x cooked handler
    ∧ ON_DISK_TARGET handler = true.

Definition on_disk_for_clean (self : Runner) (x : ResolvedTargetID) : Prop :=
  ∃ w handler w',
    get_handler (target_handlers self) x w = (Returns handler, w')
    ∧ ON_DISK_TARGET handler = true.

(** The input [input] has been dealt with: the rule that owns it is marked
    evaluated, or no rule owns it and it is on disk. *)
Definition input_checked (self : Runner) (s : Session)
    (input : ResolvedTargetID) : Prop :=
  match target_to_rule self !! input with
  | Some sub => is_Some (already_evaluated s !! id sub)
  | None => on_disk_input self input
  end.

(** So have all the inputs of the rules marked evaluated. *)
Definition inputs_checked (self : Runner) (s : Session) : Prop :=
  ∀ rule, owned_rule self rule → is_Some (already_evaluated s !! id rule) →
    ∀ input, input ∈ resolved_inputs rule → input_checked self s input.

Definition evaluated_grows (s s' : Session) : Prop :=
  ∀ rule_id, is_Some (already_evaluated s !! rule_id) →
             is_Some (already_evaluated s' !! rule_id).

Definition checked_post (self : Runner) (rule : ResolvedRule) (s0 : Session)
    (r : Try (IsengardError Exc) bool) (s : Session) : Prop :=
  match r with
  | Returns _ =>
      inputs_checked self s ∧ is_Some (already_evaluated s !! id rule)
      ∧ evaluated_grows s0 s
  | Raises _ => True
  end.

(** The rules [clean] has entered and left are owned, and their inputs
    without owning rule are on disk. *)
Definition clean_checked (self : Runner) (parent_rules : list ResolvedRule)
    (s : Session) : Prop :=
  (∀ rule, rule ∈ already_cleaned s → owned_rule self rule)
  ∧ ∀ rule input, rule ∈ already_cleaned s → id rule ∉ id <$> parent_rules →
      input ∈ resolved_inputs rule → target_to_rule self !! input = None →
      on_disk_for_clean self input.

Definition clean_checked_post (self : Runner)
    (parent_rules : list ResolvedRule)
    (r : Try (IsengardError Exc) unit) (s : Session) : Prop :=
  match r with
  | Returns _ => clean_checked self parent_rules s
  | Raises _ => True
  end.

(** How many times [x] is listed in [l], and in the inputs of the rules
    [evaluated]. *)
Definition occurrences (x : ResolvedTargetID) (l : list ResolvedTargetID)
    : nat :=
  length (List.filter (λ y, bool_decide (y = x)) l).

Definition listed (x : ResolvedTargetID) (evaluated : list ResolvedRule)
    : nat :=
  sum_list_with (λ rule, occurrences x (resolved_inputs rule)) evaluated.

(** [evaluated] lists the rules marked evaluated, each once; they can be
    reached from [target]. *)
Definition marks (self : Runner) (target : ResolvedTargetID)
    (evaluated : list ResolvedRule) (s : Session) : Prop :=
  NoDup (id <$> evaluated)
  ∧ (∀ rule, rule ∈ evaluated → reachable self target rule)
  ∧ ∀ rule_id, is_Some (already_evaluated s !! rule_id)
               ↔ rule_id ∈ id <$> evaluated.

(** When [_run] returns, [x] has been cooked once more for each time the
    rules evaluated meanwhile list it. *)
Definition tally_post (self : Runner) (target x : ResolvedTargetID)
    (evaluated : list ResolvedRule) (s0 : Session)
    (r : Try (IsengardError Exc) bool) (s : Session) : Prop :=
  match r with
  | Returns _ =>
      ∃ more, marks self target (evaluated ++ more) s
              ∧ count (is_cook x) (trace s)
                = count (is_cook x) (trace s0) + listed x more
  | Raises _ => True
  end.

End Outcomes.
(** ** A small concrete world

    Files are a map from target to a content stamp; the stamp is the
    fingerprint.  Targets whose name starts with [virtual:] are virtual, all
    others live on disk. *)
Module Demo.

Abbreviation Files := (gmap string nat).

Definition file_handler (on_disk : bool) : BaseTargetHandler Files string nat string :=
  {| ON_DISK_TARGET := on_disk;
     need_rebuild := λ cooked fp w, (Returns (bool_decide (w !! cooked ≠ Some fp)), w);
     compute_fingerprint := λ cooked w, (Returns (w !! cooked), w);
     clean_target := λ cooked w, (Returns tt, delete cooked w) |}.

Definition handler_of (target : string) : BaseTargetHandler Files string nat string :=
  file_handler (negb (String.prefix "virtual:" target)).

Definition handlers : TargetHandlersBundle Files string nat string :=
  {| cook_target := λ target _ w, (Returns (target, handler_of target), w);
     get_handler := λ target w, (Returns (handler_of target), w) |}.

(** Handlers that never answer false to [need_rebuild]: R2 holds of them,
    its converse does not. *)
Definition wary_handler : BaseTargetHandler Files string nat string :=
  {| ON_DISK_TARGET := true;
     need_rebuild := λ _ _ w, (Returns true, w);
     compute_fingerprint := λ cooked w, (Returns (w !! cooked), w);
     clean_target := λ cooked w, (Returns tt, delete cooked w) |}.

Definition wary_handlers : TargetHandlersBundle Files string nat string :=
  {| cook_target := λ target _ w, (Returns (target, wary_handler), w);
     get_handler := λ _ w, (Returns wary_handler, w) |}.

(** Handlers whose [clean] fails. *)
Definition stuck_handler : BaseTargetHandler Files string nat string :=
  {| ON_DISK_TARGET := true;
     need_rebuild := λ cooked fp w, (Returns (bool_decide (w !! cooked ≠ Some fp)), w);
     compute_fingerprint := λ cooked w, (Returns (w !! cooked), w);
     clean_target := λ _ w, (Raises "busy", w) |}.

Definition stuck_handlers : TargetHandlersBundle Files string nat string :=
  {| cook_target := λ target _ w, (Returns (target, stuck_handler), w);
     get_handler := λ _ w, (Returns stuck_handler, w) |}.

(** Stand-ins for [pickle.dumps] (a self-delimiting code of a number) and for
    the digest (32 bytes, the input padded or cut). *)
Definition pickle (n : nat) : bytes := replicate n Byte.x01 ++ [Byte.x00].
Definition digest (b : bytes) : bytes := take 32 (b ++ replicate 32 Byte.x00).
Definition no_key_error (e : string) : bool := false.

Abbreviation Rule := (ResolvedRule Files string string nat).

(** The observable state of a target is its stamp. *)
Definition stamp (target : string) (w : Files) : option nat := w !! target.

(** Writing stamp [1] into each of the outputs. *)
Definition produce (outputs : list string) : Ext Files string unit :=
  λ w, (Returns tt, foldr (λ o w, <[o := 1]> w) w outputs).

(** A rule body that needs its inputs to be there and then writes its
    outputs. *)
Definition build (outputs inputs : list string) : Ext Files string unit :=
  λ w, if forallb (λ i, bool_decide (is_Some (w !! i))) inputs
       then produce outputs w
       else (Raises "missing input", w).

Definition rule_needing (name : string) (inputs outputs : list string)
    (needed : gset string) : Rule :=
  {| id := name; resolved_inputs := inputs; resolved_outputs := outputs;
     needed_config := needed; run_body := λ outs ins _, build outs ins |}.

Definition rule (name : string) (inputs outputs : list string) : Rule :=
  rule_needing name inputs outputs ∅.

(** A rule whose body returns without producing anything. *)
Definition idle_rule (name : string) (inputs outputs : list string) : Rule :=
  {| id := name; resolved_inputs := inputs; resolved_outputs := outputs;
     needed_config := ∅; run_body := λ _ _ _ w, (Returns tt, w) |}.

(** A rule whose body raises. *)
Definition failing_rule (name : string) (inputs outputs : list string) : Rule :=
  {| id := name; resolved_inputs := inputs; resolved_outputs := outputs;
     needed_config := ∅; run_body := λ _ _ _ w, (Raises "boom", w) |}.

Definition runner (rules : list Rule) (config : gmap string nat)
    : Runner Files string nat string nat :=
  Runner_init ((λ r, (id r, r)) <$> rules) config handlers.

Definition demo_run (rules : list Rule) (fuel : nat) (target : string)
    (w : Files) (d : gmap bytes (gmap string nat)) :=
  run pickle digest (runner rules ∅) fuel target w d.

Definition demo_clean (rules : list Rule) (fuel : nat) (target : string)
    (w : Files) (d : gmap bytes (gmap string nat)) :=
  clean pickle digest no_key_error (runner rules ∅) fuel target w d.

Definition wary_run (rules : list Rule) (fuel : nat) (target : string)
    (w : Files) (d : gmap bytes (gmap string nat)) :=
  run pickle digest (Runner_init ((λ r, (id r, r)) <$> rules) ∅ wary_handlers)
      fuel target w d.

Definition stuck_clean (rules : list Rule) (fuel : nat) (target : string)
    (w : Files) (d : gmap bytes (gmap string nat)) :=
  clean pickle digest no_key_error
        (Runner_init ((λ r, (id r, r)) <$> rules) ∅ stuck_handlers)
        fuel target w d.

(** A ranking of the rule ids [A] and [B]. *)
Definition rank (rule_id : string) : nat :=
  if String.eqb rule_id "B" then 1 else 0.

(** The rule sets of the scenarios. *)
Definition compile : Rule := rule "A" ["src.txt"] ["out.o"].
Definition link : Rule := rule "B" ["out.o"] ["app"].
Definition link_with_source : Rule := rule "B" ["src.txt"; "out.o"] ["app"].
Definition link_needing_opt : Rule :=
  rule_needing "B" ["out.o"] ["app"] {["opt_level"]}.
Definition cycle_a : Rule := rule "A" ["b_out"] ["a_out"].
Definition cycle_b : Rule := rule "B" ["a_out"] ["b_out"].
Definition first_out : Rule := rule "R1" [] ["out"].
Definition second_out : Rule := rule "R2" [] ["out"].
Definition from_virtual : Rule := rule "A" ["virtual:missing"] ["out.o"].
Definition idle_compile : Rule := idle_rule "A" ["src.txt"] ["out.o"].
Definition failing_link : Rule := failing_rule "B" ["out.o"] ["app"].
Definition keyed_a : Rule := rule_needing "r" [] ["out"] {["a"]}.
Definition keyed_b : Rule := rule_needing "r" [] ["out"] {["b"]}.

Definition sources : Files := {["src.txt" := 7]}.

(** Two configurations that differ on a key no rule needs. *)
Definition one_job : gmap string nat := {["opt_level" := 2; "jobs" := 1]}.
Definition eight_jobs : gmap string nat := {["opt_level" := 2; "jobs" := 8]}.

(** The world and the store after [run("app")] from the sources. *)
Definition built (rules : list Rule) (config : gmap string nat)
    : Session Files string nat string nat :=
  (run pickle digest (runner rules config) 10 "app" sources ∅).2.

End Demo.

(** * The Cython tool ([site_scons/site_tools/cython.py])

    The SCons tool that compiles [.pyx] modules: file names are Python
    strings, the construction environment is the record of the variables the
    tool reads, and the calls made on it (the builder, [Depends],
    [SharedLibrary]) are returned, in order, beside the result. *)
Module Cython.

(** ** Python strings and iterators *)

(** [s.split(sep)], for a separator of one character: the pieces between
    the separators, of which there is always one at least. *)
Fixpoint split (sep : ascii) (s : string) : list string :=
  match s with
  | EmptyString => [EmptyString]
  | String c s' =>
      if Ascii.eqb c sep then EmptyString :: split sep s'
      else match split sep s' with
           | part :: parts => String c part :: parts
           | [] => [String c EmptyString]
           end
  end.

(** [s.split(sep, 1)]: cut at the first separator only. *)
Fixpoint split_first (sep : ascii) (s : string) : list string :=
  match s with
  | EmptyString => [EmptyString]
  | String c s' =>
      if Ascii.eqb c sep then [EmptyString; s']
      else match split_first sep s' with
           | part :: parts => String c part :: parts
           | [] => [String c EmptyString]
           end
  end.

(** No character of [s] is [sep]. *)
Fixpoint free_of (sep : ascii) (s : string) : bool :=
  match s with
  | EmptyString => true
  | String c s' => negb (Ascii.eqb c sep) && free_of sep s'
  end.

(** [sep.join(parts)] *)
Definition join (sep : string) (parts : list string) : string :=
  String.concat sep parts.

Definition startswith (s prefix : string) : bool := String.prefix prefix s.

Definition endswith (s suffix : string) : bool :=
  (String.length suffix <=? String.length s)
  && String.eqb (String.substring (String.length s - String.length suffix)
                                  (String.length suffix) s) suffix.

(** [itertools.takewhile] *)
Fixpoint takewhile {A : Type} (p : A → bool) (l : list A) : list A :=
  match l with
  | [] => []
  | x :: l => if p x then x :: takewhile p l else []
  end.

(** [*parts, _ = l]: all but the last. *)
Definition but_last {A : Type} (l : list A) : list A := take (length l - 1) l.

(** ** [_get_relative_path_to_libpython]

    [abspath] is [target.abspath]. *)
Definition hops_to_site_packages (abspath : string) : nat :=
  let parts := but_last (split "/" abspath) in
  length (takewhile (λ part, negb (String.eqb part "pythonscript"))
                    (reverse parts)).

Definition _get_relative_path_to_libpython (abspath : string) : string :=
  let hops_to_libpython_dir := hops_to_site_packages abspath + 2 in
  join "/" (replicate hops_to_libpython_dir "..").

(** ** The environment and the calls made on it *)

(** The exceptions the tool ends in: of an unpacking with too few values,
    of a name that is not defined, of a variable the environment does not
    hold, of [next] on an exhausted iterator. *)
Inductive PyError : Type :=
| ValueError
| NameError (name : string)
| EnvKeyError (key : string)
| StopIteration.

(** A file node: [x.name] and [x.get_path()]. *)
Record Node : Type := { name : string; get_path : string }.

(** The construction variables the tool reads; [None] when the environment
    does not hold the variable. *)
Record Env : Type := {
  platform : option string;
  cpython_build : option string;
  LINKFLAGS : option (list string);
  CYTHONFLAGS : option (list string);
  CYTHON_DEPS : option (list Node);
  CYTHON_SHLIBSUFFIX : option string
}.

Inductive Call : Type :=
| CythonToC (target : list string) (source : list string)
| Depends (source : list string) (dependency : string)
| SharedLibrary (target : string) (source : list string)
    (LIBPREFIX SHLIBSUFFIX : string) (LIBS : list string)
    (LINKFLAGS : option (list string)).

(** An argument that may be [None], one name or a list of names. *)
Inductive PyArg : Type :=
| PyNone
| PyStr (s : string)
| PyList (l : list string).

(** [if not x: x = [] elif not is_List(x): x = [x]] *)
Definition as_list (x : PyArg) : list string :=
  match x with
  | PyNone => []
  | PyStr s => if String.eqb s EmptyString then [] else [s]
  | PyList l => l
  end.

(** ** [_cython_to_c_emitter]

    [target] is the list of target nodes; [source] is [None], one node or a
    list of nodes, and [truth] tells which nodes are true. *)
Inductive Sources : Type :=
| NoSource
| OneSource (node : Node)
| SourceList (nodes : list Node).

Definition _cython_to_c_emitter (truth : Node → bool) (target : list Node)
    (source : Sources) (env : Env)
    : Try PyError (list (Node + string) * list Node) :=
  let source :=
    match source with
    | NoSource => []
    | OneSource node => if truth node then [node] else []
    | SourceList nodes => nodes
    end in
  match CYTHON_DEPS env with
  | None => Raises (EnvKeyError "CYTHON_DEPS")
  | Some deps =>
      let source := source ++ deps in
      match CYTHONFLAGS env with
      | None => Raises (EnvKeyError "CYTHONFLAGS")
      | Some flags =>
          if bool_decide ("-a" ∈ flags) || bool_decide ("--annotate" ∈ flags)
          then
            match List.filter (λ x, endswith (name x) ".pyx") target with
            | [] => Raises StopIteration
            | pyx :: _ =>
                let base_name := hd EmptyString (split "." (get_path pyx)) in
                match target with
                | first :: _ =>
                    Returns ([inl first; inr (base_name ++ ".html")%string],
                             source)
                | [] => Raises StopIteration
                end
            end
          else Returns (inl <$> target, source)
      end
  end.

Section Tool.

(** [env.File(target).abspath], the nodes [env.SharedLibrary] returns, and
    the node a builder makes of a name it is called with. *)
Variable abspath : string → string.
Variable shared_library : Call → list string.
Variable node_of : string → Node.

Definition CythonCompile (env : Env) (target : string) (source : list string)
    : Try PyError (list string) * list Call :=
  match cpython_build env with
  | None => (Raises (EnvKeyError "cpython_build"), [])
  | Some dependency =>
      let depends := Depends source dependency in
      match platform env with
      | None => (Raises (EnvKeyError "platform"), [depends])
      | Some platform =>
          if startswith platform "windows" then
            let call := SharedLibrary target source EmptyString
                          "$CYTHON_SHLIBSUFFIX" ["python37"; "pythonscript"]
                          None in
            (Returns (shared_library call), [depends; call])
          else
            let libpython_path :=
              _get_relative_path_to_libpython (abspath target) in
            match LINKFLAGS env with
            | None => (Raises (EnvKeyError "LINKFLAGS"), [depends])
            | Some flags =>
                let call := SharedLibrary target source EmptyString
                              "$CYTHON_SHLIBSUFFIX"
                              ["python3.7m"; "pythonscript"]
                              (Some (("-Wl,-rpath,'$$ORIGIN/"
                                      ++ libpython_path ++ "'")%string
                                     :: flags)) in
                (Returns (shared_library call), [depends; call])
            end
      end
  end.

(** Calling [CythonToCBuilder] makes nodes of the names it is given and runs
    the builder's emitter on them, [_cython_to_c_emitter]; what the emitter
    raises comes out of the call. *)
Definition CythonToCBuilder (env : Env) (target source : list string)
    : Try PyError unit :=
  match _cython_to_c_emitter (λ _, true) (node_of <$> target)
                             (SourceList (node_of <$> source)) env with
  | Returns _ => Returns tt
  | Raises e => Raises e
  end.

(** [CythonModule]; the names are strings.  The message of the [UserError]
    for several [.pyx] sources is built from [mod], a name the module does
    not define: building it raises [NameError]. *)
Definition CythonModule (env : Env) (target source : PyArg)
    : Try PyError (list string) * list Call :=
  let target := as_list target in
  let source := as_list source in
  match target with
  | [] => (Raises ValueError, [])
  | mod_target :: other_targets =>
      let source :=
        match source with
        | [] => [(mod_target ++ ".pyx")%string]
        | _ => source
        end in
      match List.filter (λ x, endswith x ".pyx") source with
      | [] => (Raises ValueError, [])
      | pyx_mod :: too_much_mods =>
          match too_much_mods with
          | _ :: _ => (Raises (NameError "mod"), [])
          | [] =>
              let c_mod :=
                (hd EmptyString (split_first "." pyx_mod) ++ ".c")%string in
              let to_c := CythonToC (c_mod :: other_targets) source in
              match CythonToCBuilder env (c_mod :: other_targets) source with
              | Raises e => (Raises e, [to_c])
              | Returns _ =>
                  let '(c_compile_target, calls) :=
                    CythonCompile env mod_target [c_mod] in
                  (match c_compile_target with
                   | Returns nodes => Returns (nodes ++ other_targets)
                   | Raises e => Raises e
                   end, to_c :: calls)
              end
          end
      end
  end.

(** The sources [CythonModule] works with: the ones given or, when none is
    given, the module's own [.pyx]. *)
Definition sources_of (target source : PyArg) : list string :=
  match as_list source, as_list target with
  | [], mod_target :: _ => [(mod_target ++ ".pyx")%string]
  | source, _ => source
  end.

End Tool.

(** ** [generate]: the variables it sets.  [CLVar] splits its argument at
    the blanks. *)
Definition generate (env : Env) : Try PyError Env :=
  match platform env with
  | None => Raises (EnvKeyError "platform")
  | Some p =>
      Returns {| platform := platform env;
                 cpython_build := cpython_build env;
                 LINKFLAGS := LINKFLAGS env;
                 CYTHONFLAGS := Some ["--fast-fail"; "-3"];
                 CYTHON_DEPS := CYTHON_DEPS env;
                 CYTHON_SHLIBSUFFIX :=
                   Some (if startswith p "windows" then ".pyd" else ".so") |}
  end.

(** ** Environments to run the tool in *)

Definition posix_env : Env :=
  {| platform := Some "x11-64";
     cpython_build := Some "cpython";
     LINKFLAGS := Some ["-s"];
     CYTHONFLAGS := None;
     CYTHON_DEPS := Some [{| name := "godot.pxd"; get_path := "godot.pxd" |}];
     CYTHON_SHLIBSUFFIX := None |}.

Definition annotate_env : Env :=
  {| platform := Some "x11-64";
     cpython_build := Some "cpython";
     LINKFLAGS := Some ["-s"];
     CYTHONFLAGS := Some ["-3"; "--annotate"];
     CYTHON_DEPS := Some [{| name := "godot.pxd"; get_path := "godot.pxd" |}];
     CYTHON_SHLIBSUFFIX := Some ".so" |}.

(** The environment of [posix_env] once [generate] has run, and the node of
    a file of the current folder. *)
Definition tool_env : Env :=
  {| platform := Some "x11-64";
     cpython_build := Some "cpython";
     LINKFLAGS := Some ["-s"];
     CYTHONFLAGS := Some ["--fast-fail"; "-3"];
     CYTHON_DEPS := Some [{| name := "godot.pxd"; get_path := "godot.pxd" |}];
     CYTHON_SHLIBSUFFIX := Some ".so" |}.

Definition file_node (path : string) : Node :=
  {| name := path; get_path := path |}.

End Cython.

(** * Properties *)

Section Properties.

Context {W Exc Fp Cooked ConstTypes : Type}.
Context (pickle_dumps : ConstTypes → bytes) (sha256 : bytes → bytes).
Context (is_key_error : Exc → bool).

#[local] Abbreviation Session := (Session W Exc Fp Cooked ConstTypes).
#[local] Abbreviation M := (M W Exc Fp Cooked ConstTypes).
#[local] Abbreviation Runner := (Runner W Exc Fp Cooked ConstTypes).
#[local] Abbreviation ResolvedRule := (ResolvedRule W Exc Cooked ConstTypes).
#[local] Abbreviation Event := (Event Exc Fp).
#[local] Abbreviation Outcome := (Try (IsengardError Exc)).

(** ** Rules of the logic *)

Lemma wp_mono {A} (m : M A) s (Q Q' : Outcome A → Session → Prop) :
  (∀ r s', Q r s' → Q' r s') → wp m s Q → wp m s Q'.
Proof. unfold wp. auto. Qed.

Lemma wp_ret {A} (a : A) s (Q : Outcome A → Session → Prop) :
  Q (Returns a) s → wp (mret a) s Q.
Proof. done. Qed.

Lemma wp_raise {A} e s (Q : Outcome A → Session → Prop) :
  Q (Raises e) s → wp (raise e) s Q.
Proof. done. Qed.

Lemma wp_lift {A} (r : Outcome A) s (Q : Outcome A → Session → Prop) :
  Q r s → wp (lift r) s Q.
Proof. done. Qed.

Lemma wp_gets {A} (f : Session → A) s (Q : Outcome A → Session → Prop) :
  Q (Returns (f s)) s → wp (gets f) s Q.
Proof. done. Qed.

Lemma wp_bind {A B} (m : M A) (f : A → M B) s (Q : Outcome B → Session → Prop) :
  wp m s (λ r s', match r with
                  | Returns a => wp (f a) s' Q
                  | Raises e => Q (Raises e) s'
                  end) →
  wp (m ≫= f) s Q.
Proof.
  unfold wp, mbind, M_bind. destruct (m s) as [[a|e] s']; simpl; auto.
Qed.

Lemma wp_call {A} (op : Ext W Exc A) s (Q : Outcome A → Session → Prop) :
  (∀ a w, op (world s) = (Returns a, w) → Q (Returns a) (set_world w s)) →
  (∀ e w, op (world s) = (Raises e, w) →
          Q (Raises (CollaboratorError e)) (set_world w s)) →
  wp (call op) s Q.
Proof.
  intros Hr He. unfold wp, call.
  destruct (op (world s)) as [[a|e] w] eqn:E; simpl; auto.
Qed.

Lemma wp_for_each {A S} (body : A → S → M S) (I : list A → S → Session → Prop)
    (Q : Outcome S → Session → Prop) l acc s :
  I l acc s →
  (∀ x l' acc s, I (x :: l') acc s →
     wp (body x acc) s (λ r s', match r with
                                | Returns acc' => I l' acc' s'
                                | Raises e => Q (Raises e) s'
                                end)) →
  (∀ acc s, I [] acc s → Q (Returns acc) s) →
  wp (for_each body l acc) s Q.
Proof.
  intros HI Hbody Hend. revert acc s HI.
  induction l as [|x l IH]; intros acc s HI; simpl.
  - apply wp_ret. auto.
  - apply wp_bind. eapply wp_mono; [|apply Hbody, HI].
    intros [acc'|e] s'; simpl; auto.
Qed.

(** What a computation that returned went through. *)
Lemma bind_Returns {A B} (m : M A) (f : A → M B) s b s' :
  (m ≫= f) s = (Returns b, s') →
  ∃ a s1, m s = (Returns a, s1) ∧ f a s1 = (Returns b, s').
Proof.
  unfold mbind, M_bind. destruct (m s) as [[a|e] s1]; [eauto | done].
Qed.

Lemma bind_Raises {A B} (m : M A) (f : A → M B) s e s' :
  (m ≫= f) s = (Raises e, s') →
  m s = (Raises e, s') ∨ ∃ a s1, m s = (Returns a, s1) ∧ f a s1 = (Raises e, s').
Proof.
  unfold mbind, M_bind. destruct (m s) as [[a|e1] s1]; intros H.
  - right. eauto.
  - left. by simplify_eq.
Qed.

Lemma _run_unfold (self : Runner) fuel rule :
  _run pickle_dumps sha256 self (S fuel) rule =
  (evaluated ← gets already_evaluated;
   match evaluated !! id rule with
   | Some rebuilt => mret rebuilt
   | None =>
       run_fingerprint ← lift (_compute_run_fingerprint pickle_dumps sha256 self rule);
       previous_run ← fetch_rule_previous_run run_fingerprint;
       let rebuild_needed := bool_decide (previous_run = None) in
       let targets_previous_fingerprint := default ∅ previous_run in
       '(rebuild_needed, to_cache_targets) ←
         for_each (eval_input self (_run pickle_dumps sha256 self fuel) rule
                              targets_previous_fingerprint)
                  (resolved_inputs rule) (rebuild_needed, []);
       '(rebuild_needed, to_cache_targets, outputs_cooked) ←
         for_each (eval_output self targets_previous_fingerprint)
                  (resolved_outputs rule) (rebuild_needed, to_cache_targets, []);
       set_already_evaluated rule rebuild_needed;;
       if negb rebuild_needed then mret false
       else execute self rule run_fingerprint rebuild_needed
                    to_cache_targets outputs_cooked
   end).
Proof. reflexivity. Qed.

Lemma _clean_unfold (self : Runner) fuel rule parent_rules :
  _clean pickle_dumps sha256 is_key_error self (S fuel) rule parent_rules =
  (cleaned ← gets already_cleaned;
   if rule_in rule cleaned then mret tt
   else
     add_already_cleaned rule;;
     run_fingerprint ← lift (_compute_run_fingerprint pickle_dumps sha256 self rule);
     previous_run ← fetch_rule_previous_run run_fingerprint;
     let targets_previous_fingerprint := default ∅ previous_run in
     for_each (clean_output is_key_error self rule targets_previous_fingerprint)
              (resolved_outputs rule) tt;;
     for_each (clean_input self (_clean pickle_dumps sha256 is_key_error self fuel)
                           rule parent_rules)
              (resolved_inputs rule) tt).
Proof. reflexivity. Qed.

Lemma wp_log (ev : Event) s (Q : Outcome unit → Session → Prop) :
  Q (Returns tt) (log ev s).2 → wp (log ev) s Q.
Proof. done. Qed.

Lemma wp_add_already_cleaned (rule : ResolvedRule) s (Q : Outcome unit → Session → Prop) :
  Q (Returns tt) (add_already_cleaned rule s).2 → wp (add_already_cleaned rule) s Q.
Proof. done. Qed.

Lemma wp_set_already_evaluated (rule : ResolvedRule) b s
    (Q : Outcome unit → Session → Prop) :
  Q (Returns tt) (set_already_evaluated rule b s).2 →
  wp (set_already_evaluated rule b) s Q.
Proof. done. Qed.

Lemma wp_set_targets_eval_cache target v s (Q : Outcome unit → Session → Prop) :
  Q (Returns tt) (set_targets_eval_cache target v s).2 →
  wp (set_targets_eval_cache target v) s Q.
Proof. done. Qed.

Lemma wp_set_rule_previous_run (rule : ResolvedRule) fp l s
    (Q : Outcome unit → Session → Prop) :
  Q (Returns tt) (set_rule_previous_run rule fp l s).2 →
  wp (set_rule_previous_run rule fp l) s Q.
Proof. done. Qed.

Lemma wp_fetch_rule_previous_run fp s
    (Q : Outcome (option (gmap string Fp)) → Session → Prop) :
  Q (Returns (db s !! fp)) s → wp (fetch_rule_previous_run fp) s Q.
Proof. done. Qed.

Lemma wp_targets_eval_cache_get target s
    (Q : Outcome (Cooked * BaseTargetHandler W Exc Fp Cooked * bool) → Session → Prop) :
  (∀ v, targets_eval_cache s !! target = Some v → Q (Returns v) s) →
  (targets_eval_cache s !! target = None → Q (Raises (KeyError target)) s) →
  wp (targets_eval_cache_get target) s Q.
Proof.
  intros Hv Hn. unfold wp, targets_eval_cache_get.
  destruct (targets_eval_cache s !! target); simpl; auto.
Qed.

Lemma wp_call_wrapped {A} rule_id (op : Ext W Exc A) s (Q : Outcome A → Session → Prop) :
  (∀ a w, op (world s) = (Returns a, w) → Q (Returns a) (set_world w s)) →
  (∀ e w, op (world s) = (Raises e, w) →
          Q (Raises (IsengardRunError rule_id e)) (set_world w s)) →
  wp (call_wrapped rule_id op) s Q.
Proof.
  intros Hr He. unfold wp, call_wrapped.
  destruct (op (world s)) as [[a|e] w] eqn:E; simpl; auto.
Qed.

Lemma wp_cook (self : Runner) target hint s
    (Q : Outcome (Cooked * BaseTargetHandler W Exc Fp Cooked) → Session → Prop) :
  (∀ c h w, cook_target (target_handlers self) target hint (world s) = (Returns (c, h), w) →
            Q (Returns (c, h)) (set_world w (log (EvCook target hint) s).2)) →
  (∀ e w, cook_target (target_handlers self) target hint (world s) = (Raises e, w) →
          Q (Raises (CollaboratorError e)) (set_world w (log (EvCook target hint) s).2)) →
  wp (cook self target hint) s Q.
Proof.
  intros Hr He. unfold cook. apply wp_bind, wp_log, wp_call; simpl.
  - intros [c h] w. apply Hr.
  - apply He.
Qed.

Lemma wp_has_changed (handler : BaseTargetHandler W Exc Fp Cooked) cooked hint s
    (Q : Outcome bool → Session → Prop) :
  (∀ b w, Q (Returns b) (set_world w s)) →
  (∀ e w, Q (Raises (CollaboratorError e)) (set_world w s)) →
  (hint = None → Q (Returns true) s) →
  wp (has_changed handler cooked hint) s Q.
Proof.
  intros Hr He Hn. unfold has_changed. destruct hint.
  - apply wp_call; auto.
  - apply wp_ret. auto.
Qed.

Lemma _compute_run_fingerprint_Raises (self : Runner) rule e :
  _compute_run_fingerprint pickle_dumps sha256 self rule = Raises e →
  ∃ k, e = KeyError k.
Proof.
  unfold _compute_run_fingerprint, run_fingerprint_input.
  generalize (String.list_byte_of_string (id rule)).
  induction (sorted (needed_config rule)) as [|k keys IH]; intros h; simpl; [done|].
  destruct (config self !! k); [apply IH|].
  intros ?; simplify_eq. eauto.
Qed.

Lemma wp_call_rule_body (rule : ResolvedRule) (op : Ext W Exc unit) s
    (Q : Outcome unit → Session → Prop) :
  (∀ w, op (world s) = (Returns tt, w) →
        Q (Returns tt)
          (log (EvRuleReturned (id rule))
               (set_world w (log (EvRuleRun (id rule)) s).2)).2) →
  (∀ e w, op (world s) = (Raises e, w) →
          Q (Raises (IsengardRunError (id rule) e))
            (log (EvRuleRaised (id rule) e)
                 (set_world w (log (EvRuleRun (id rule)) s).2)).2) →
  wp (call_rule_body rule op) s Q.
Proof.
  intros Hr He. unfold call_rule_body. apply wp_bind, wp_log.
  unfold wp, rule_body_outcome; simpl.
  destruct (op (world s)) as [[[]|e] w] eqn:E; simpl.
  - by apply Hr.
  - by apply He.
Qed.

Lemma wp_has_changed_eq (handler : BaseTargetHandler W Exc Fp Cooked) cooked hint s
    (Q : Outcome bool → Session → Prop) :
  (∀ fp b w, hint = Some fp →
     need_rebuild handler cooked fp (world s) = (Returns b, w) →
     Q (Returns b) (set_world w s)) →
  (∀ fp e w, hint = Some fp →
     need_rebuild handler cooked fp (world s) = (Raises e, w) →
     Q (Raises (CollaboratorError e)) (set_world w s)) →
  (hint = None → Q (Returns true) s) →
  wp (has_changed handler cooked hint) s Q.
Proof.
  intros Hr He Hn. unfold has_changed. destruct hint as [fp|].
  - apply wp_call; eauto.
  - apply wp_ret. auto.
Qed.

Lemma wp_elim {A} (m : M A) s (Q : Outcome A → Session → Prop) r s' :
  wp m s Q → m s = (r, s') → Q r s'.
Proof. unfold wp. intros H E. by rewrite E in H. Qed.


(** ** The run fingerprint *)

#[local] Instance str_le_total : Total str_le.
Proof. intros a b. unfold str_le. apply String.leb_total. Qed.

Lemma elem_of_sorted (s : gset string) k : k ∈ sorted s ↔ k ∈ s.
Proof.
  unfold sorted. rewrite merge_sort_Permutation. apply elem_of_elements.
Qed.

Lemma update_with_config_values (config : gmap string ConstTypes) h keys values :
  Forall2 (λ k v, config !! k = Some v) keys values →
  update_with_config (Exc:=Exc) pickle_dumps config h keys =
  Returns (h ++ concat (pickle_dumps <$> values)).
Proof.
  intros HF. revert h. induction HF as [|k v keys values Hk _ IH]; intros h; simpl.
  - by rewrite app_nil_r.
  - rewrite Hk, IH. by rewrite <-app_assoc.
Qed.

Lemma needed_values (config : gmap string ConstTypes) (keys : list string) :
  (∀ k, k ∈ keys → is_Some (config !! k)) →
  ∃ values, Forall2 (λ k v, config !! k = Some v) keys values.
Proof.
  induction keys as [|k keys IH]; intros Hk.
  - exists []. constructor.
  - destruct (Hk k) as [v Hv]; [set_solver|].
    destruct IH as [values Hvalues]; [intros; apply Hk; set_solver|].
    exists (v :: values). by constructor.
Qed.

Lemma update_with_config_agree (c1 c2 : gmap string ConstTypes) h keys :
  (∀ k, k ∈ keys → c1 !! k = c2 !! k) →
  update_with_config (Exc:=Exc) pickle_dumps c1 h keys =
  update_with_config pickle_dumps c2 h keys.
Proof.
  revert h. induction keys as [|k keys IH]; intros h Hk; simpl; [done|].
  rewrite <-(Hk k) by set_solver. destruct (c1 !! k); [|done].
  apply IH. intros; apply Hk; set_solver.
Qed.

Lemma _compute_run_fingerprint_agree (self1 self2 : Runner) rule :
  (∀ k, k ∈ needed_config rule → config self1 !! k = config self2 !! k) →
  _compute_run_fingerprint pickle_dumps sha256 self1 rule =
  _compute_run_fingerprint pickle_dumps sha256 self2 rule.
Proof.
  intros Hk. unfold _compute_run_fingerprint, run_fingerprint_input.
  rewrite (update_with_config_agree (config self1) (config self2)); [done|].
  intros k Hin. apply Hk. by apply elem_of_sorted.
Qed.

(** C3 (amended): the run fingerprint of a rule whose needed keys are all
    configured is the digest, 32 bytes long, of the rule id followed by the
    serialised values of the needed keys taken in sorted key order.  Only the
    values are digested, the key names are not: a rule of the same id whose
    sorted needed keys carry the same values, under whatever names, has the
    same fingerprint. *)
Theorem run_fingerprint_digests_id_and_values (self : Runner) (rule : ResolvedRule) :
  (∀ b, length (sha256 b) = 32) →
  (∀ k, k ∈ needed_config rule → is_Some (config self !! k)) →
  ∃ values,
    Forall2 (λ k v, config self !! k = Some v) (sorted (needed_config rule)) values
    ∧ Sorted str_le (sorted (needed_config rule))
    ∧ sorted (needed_config rule) ≡ₚ elements (needed_config rule)
    ∧ (∃ digest,
         _compute_run_fingerprint pickle_dumps sha256 self rule = Returns digest
         ∧ digest = sha256 (String.list_byte_of_string (id rule)
                            ++ concat (pickle_dumps <$> values))
         ∧ length digest = 32)
    ∧ (∀ (self' : Runner) (rule' : ResolvedRule),
         id rule' = id rule →
         Forall2 (λ k v, config self' !! k = Some v)
                 (sorted (needed_config rule')) values →
         _compute_run_fingerprint pickle_dumps sha256 self' rule' =
         _compute_run_fingerprint pickle_dumps sha256 self rule).
Proof.
  intros Hlen Hcfg.
  destruct (needed_values (config self) (sorted (needed_config rule))) as [values Hv].
  { intros k Hk. apply Hcfg. by apply elem_of_sorted. }
  exists values. split; [done|].
  split; [apply Sorted_merge_sort, _|].
  split; [apply merge_sort_Permutation|].
  assert (Hfp : _compute_run_fingerprint pickle_dumps sha256 self rule =
                Returns (sha256 (String.list_byte_of_string (id rule)
                                 ++ concat (pickle_dumps <$> values)))).
  { unfold _compute_run_fingerprint, run_fingerprint_input.
    by rewrite (update_with_config_values _ _ _ values). }
  split.
  - eexists. split; [exact Hfp|]. split; [done|apply Hlen].
  - intros self' rule' Hid Hv'. rewrite Hfp.
    unfold _compute_run_fingerprint, run_fingerprint_input.
    by rewrite (update_with_config_values _ _ _ values), Hid.
Qed.

(** ** [Runner.__init__] *)

Lemma bind_outputs_lookup (rule : ResolvedRule) outputs
    (m : gmap string ResolvedRule) target :
  foldl (λ m output, <[output := rule]> m) m outputs !! target =
  if decide (target ∈ outputs) then Some rule else m !! target.
Proof.
  revert m. induction outputs as [|o outputs IH]; intros m; cbn [foldl].
  - rewrite decide_False; [done|]. apply not_elem_of_nil.
  - rewrite IH. destruct (decide (target ∈ outputs)) as [Hin|Hin].
    + rewrite decide_True; [done|]. apply elem_of_cons. by right.
    + destruct (decide (target = o)) as [->|Hne].
      * rewrite lookup_insert_eq, decide_True; [done|]. apply elem_of_cons. by left.
      * rewrite lookup_insert_ne by done. rewrite decide_False; [done|].
        intros [?|?]%elem_of_cons; done.
Qed.

Lemma bind_rules_lookup (l : list ResolvedRule) (m : gmap string ResolvedRule) target :
  foldl (λ m rule, foldl (λ m output, <[output := rule]> m) m (resolved_outputs rule))
        m l !! target =
  match last (filter (λ rule : ResolvedRule, target ∈ resolved_outputs rule) l) with
  | Some rule => Some rule
  | None => m !! target
  end.
Proof.
  revert m. induction l as [|r l IH]; intros m; cbn [foldl]; [done|].
  rewrite IH. destruct (decide (target ∈ resolved_outputs r)) as [Hin|Hin].
  - rewrite filter_cons_True by done. rewrite last_cons. destruct (last (filter _ l)); [done|].
    rewrite bind_outputs_lookup. by rewrite decide_True.
  - rewrite filter_cons_False by done. destruct (last (filter _ l)); [done|].
    rewrite bind_outputs_lookup. by rewrite decide_False.
Qed.

(** [target_to_rule] binds a target to the last rule, in the iteration order
    of [rules], that lists it in its outputs. *)
Lemma Runner_init_lookup (rules : list (string * ResolvedRule))
    (config : gmap string ConstTypes)
    (target_handlers : TargetHandlersBundle W Exc Fp Cooked)
    (target : ResolvedTargetID) :
  target_to_rule (Runner_init rules config target_handlers) !! target =
  last (filter (λ rule : ResolvedRule, target ∈ resolved_outputs rule) (rules.*2)).
Proof.
  simpl. rewrite bind_rules_lookup, lookup_empty. by destruct (last _).
Qed.

(** C2 (amended): building the runner never fails; an output declared by
    several rules is bound to the last of them in the iteration order of
    [rules], a target is unbound exactly when no rule declares it, and
    [run] and [clean] of a target start from the rule it is bound to. *)
Theorem target_to_rule_last_declaring (rules : list (string * ResolvedRule))
    (config : gmap string ConstTypes)
    (target_handlers : TargetHandlersBundle W Exc Fp Cooked)
    (fuel : nat) (target : ResolvedTargetID) (w : W)
    (d : gmap bytes (gmap string Fp)) :
  target_to_rule (Runner_init rules config target_handlers) !! target =
  last (filter (λ rule : ResolvedRule, target ∈ resolved_outputs rule) (rules.*2))
  ∧ run pickle_dumps sha256 (Runner_init rules config target_handlers)
        fuel target w d =
    match last (filter (λ rule : ResolvedRule, target ∈ resolved_outputs rule)
                       (rules.*2)) with
    | Some rule =>
        _run pickle_dumps sha256 (Runner_init rules config target_handlers)
             fuel rule (fresh_session w d)
    | None => (Raises (IsengardUnknownTargetError target []), fresh_session w d)
    end
  ∧ clean pickle_dumps sha256 is_key_error
          (Runner_init rules config target_handlers) fuel target w d =
    match last (filter (λ rule : ResolvedRule, target ∈ resolved_outputs rule)
                       (rules.*2)) with
    | Some rule =>
        _clean pickle_dumps sha256 is_key_error
               (Runner_init rules config target_handlers)
               fuel rule [] (fresh_session w d)
    | None => (Raises (IsengardUnknownTargetError target []), fresh_session w d)
    end.
Proof.
  split; [apply Runner_init_lookup|].
  unfold run, run_rule, clean. rewrite Runner_init_lookup.
  by destruct (last _).
Qed.

Lemma target_to_rule_owner (rules : list (string * ResolvedRule))
    (config : gmap string ConstTypes)
    (target_handlers : TargetHandlersBundle W Exc Fp Cooked) target rule :
  target_to_rule (Runner_init rules config target_handlers) !! target = Some rule →
  rule ∈ rules.*2 ∧ target ∈ resolved_outputs rule.
Proof.
  rewrite Runner_init_lookup. intros Hlast.
  apply last_Some_elem_of, list_elem_of_filter in Hlast. tauto.
Qed.

Lemma target_to_rule_declared (rules : list (string * ResolvedRule))
    (config : gmap string ConstTypes)
    (target_handlers : TargetHandlersBundle W Exc Fp Cooked) target
    (rule : ResolvedRule) :
  rule ∈ rules.*2 → target ∈ resolved_outputs rule →
  is_Some (target_to_rule (Runner_init rules config target_handlers) !! target).
Proof.
  intros Hr Ht. rewrite Runner_init_lookup.
  destruct (last _) eqn:E; [eauto|].
  apply last_None in E.
  assert (rule ∈ filter (λ rule : ResolvedRule, target ∈ resolved_outputs rule) (rules.*2))
    as Hin by (apply list_elem_of_filter; done).
  rewrite E in Hin. by apply elem_of_nil in Hin.
Qed.


(** ** Configuration keys that no rule needs *)

Lemma bind_eq {A B} (m : M A) (f : A → M B) s a s1 :
  m s = (Returns a, s1) → (m ≫= f) s = f a s1.
Proof. intros H. unfold mbind, M_bind. by rewrite H. Qed.

Lemma ret_Returns {A} (a b : A) (s s' : Session) :
  mret (M:=M) a s = (Returns b, s') → a = b ∧ s = s'.
Proof. unfold mret, M_ret. intros H. by simplify_eq. Qed.

Ltac inv_bind H :=
  let a := fresh "a" in
  let s := fresh "s" in
  let H1 := fresh "Hstep" in
  apply bind_Returns in H as (a & s & H1 & H).

Tactic Notation "inv_bind_as" hyp(H) ident(a) ident(s) ident(H1) :=
  apply bind_Returns in H as (a & s & H1 & H).

Ltac fwd H := etrans; [apply (bind_eq _ _ _ _ _ H)|]; cbv beta.

Lemma eval_input_flag (self : Runner) _run rule prev input tc s b' tc' s' :
  eval_input self _run rule prev input (true, tc) s = (Returns (b', tc'), s') →
  b' = true.
Proof.
  unfold eval_input. destruct (target_to_rule self !! input) as [sub|]; intros H.
  - inv_bind H. apply ret_Returns in H as [H _]. by simplify_eq.
  - inv_bind H. destruct a as [cooked handler].
    destruct (negb (ON_DISK_TARGET handler)); [done|].
    inv_bind H. inv_bind H. apply ret_Returns in H as [H _]. by simplify_eq.
Qed.

Lemma eval_inputs_flag (self : Runner) _run rule prev inputs tc s b' tc' s' :
  for_each (eval_input self _run rule prev) inputs (true, tc) s
    = (Returns (b', tc'), s') →
  b' = true.
Proof.
  revert tc s. induction inputs as [|input inputs IH]; intros tc s H; simpl in H.
  - apply ret_Returns in H as [H _]. by simplify_eq.
  - inv_bind H. destruct a as [b1 tc1].
    apply eval_input_flag in Hstep as ->. eauto.
Qed.

Lemma eval_output_flag (self : Runner) prev output tc oc s b' tc' oc' s' :
  eval_output self prev output (true, tc, oc) s = (Returns (b', tc', oc'), s') →
  b' = true.
Proof.
  unfold eval_output. intros H. inv_bind H. destruct a as [cooked handler].
  inv_bind H. inv_bind H. apply ret_Returns in H as [H _]. by simplify_eq.
Qed.

Lemma eval_outputs_flag (self : Runner) prev outputs tc oc s b' tc' oc' s' :
  for_each (eval_output self prev) outputs (true, tc, oc) s
    = (Returns (b', tc', oc'), s') →
  b' = true.
Proof.
  revert tc oc s. induction outputs as [|output outputs IH]; intros tc oc s H;
    simpl in H.
  - apply ret_Returns in H as [H _]. by simplify_eq.
  - inv_bind H. destruct a as [[b1 tc1] oc1].
    apply eval_output_flag in Hstep as ->. eauto.
Qed.

Lemma execute_Returns (self : Runner) rule fp b tc oc s r s' :
  execute self rule fp b tc oc s = (Returns r, s') → r = b.
Proof.
  unfold execute. intros H. do 4 inv_bind H.
  apply ret_Returns in H as [H _]. done.
Qed.

Lemma eval_input_same_handlers (self1 self2 : Runner) :
  target_to_rule self1 = target_to_rule self2 →
  target_handlers self1 = target_handlers self2 →
  eval_input self1 = eval_input self2.
Proof. destruct self1, self2; simpl. by intros -> ->. Qed.

Lemma eval_output_same_handlers (self1 self2 : Runner) :
  target_handlers self1 = target_handlers self2 →
  eval_output self1 = eval_output self2.
Proof. destruct self1, self2; simpl. by intros ->. Qed.

Section SameNeededConfig.

Variables self1 self2 : Runner.
Hypothesis same_rules : target_to_rule self1 = target_to_rule self2.
Hypothesis same_handlers : target_handlers self1 = target_handlers self2.
Hypothesis same_needed : ∀ target rule k,
  target_to_rule self1 !! target = Some rule → k ∈ needed_config rule →
  config self1 !! k = config self2 !! k.

Lemma eval_inputs_not_rebuilt (rec1 rec2 : ResolvedRule → M bool) rule prev inputs :
  (∀ input sub s s', target_to_rule self1 !! input = Some sub →
     rec1 sub s = (Returns false, s') → rec2 sub s = (Returns false, s')) →
  ∀ b tc s tc' s',
    for_each (eval_input self1 rec1 rule prev) inputs (b, tc) s
      = (Returns (false, tc'), s') →
    for_each (eval_input self1 rec2 rule prev) inputs (b, tc) s
      = (Returns (false, tc'), s').
Proof.
  intros Hrec. induction inputs as [|input inputs IH]; intros b tc s tc' s' H;
    simpl in *; [done|].
  inv_bind H. destruct a as [b1 tc1].
  destruct b1; [by apply eval_inputs_flag in H|].
  apply IH in H. etrans; [apply bind_eq|exact H].
  clear H IH. unfold eval_input in *.
  destruct (target_to_rule self1 !! input) as [sub|] eqn:Hsub; [|done].
  inv_bind Hstep. apply ret_Returns in Hstep as [Hstep ->].
  destruct b, a; simplify_eq/=.
  fwd (Hrec _ _ _ _ Hsub Hstep0). done.
Qed.

Lemma _run_not_rebuilt fuel : ∀ target rule s s',
  target_to_rule self1 !! target = Some rule →
  _run pickle_dumps sha256 self1 fuel rule s = (Returns false, s') →
  _run pickle_dumps sha256 self2 fuel rule s = (Returns false, s').
Proof.
  induction fuel as [|fuel IH]; intros target rule s s' Hrule H; [done|].
  rewrite _run_unfold in *.
  rewrite <-(eval_input_same_handlers self1 self2) by done.
  rewrite <-(eval_output_same_handlers self1 self2) by done.
  inv_bind H. fwd Hstep.
  destruct (a !! id rule); [done|].
  rewrite <-(_compute_run_fingerprint_agree self1 self2) by eauto.
  inv_bind H. fwd Hstep0.
  inv_bind H. fwd Hstep1. cbv zeta in *.
  inv_bind H. destruct a2 as [b1 tc1].
  inv_bind H. destruct a2 as [[b2 tc2] oc2].
  inv_bind H.
  destruct b2; simpl in H.
  { apply execute_Returns in H. done. }
  destruct b1; [by apply eval_outputs_flag in Hstep3|].
  etrans; [apply bind_eq; eapply eval_inputs_not_rebuilt; [|exact Hstep2]; eauto|].
  fwd Hstep3. fwd Hstep4. done.
Qed.

End SameNeededConfig.

(** C8: two configurations that agree on every key some rule needs give
    every rule the same run fingerprint, and a run that rebuilds nothing
    under the first rebuilds nothing under the second, from the same store
    and the same state of the targets: it ends in the very same state. *)
Theorem unneeded_config_causes_no_rebuild
    (rules : list (string * ResolvedRule))
    (config1 config2 : gmap string ConstTypes)
    (target_handlers : TargetHandlersBundle W Exc Fp Cooked)
    (fuel : nat) (target : ResolvedTargetID) (w : W)
    (d : gmap bytes (gmap string Fp)) :
  (∀ rule k, rule ∈ rules.*2 → k ∈ needed_config rule →
             config1 !! k = config2 !! k) →
  (∀ rule, rule ∈ rules.*2 →
     _compute_run_fingerprint pickle_dumps sha256
       (Runner_init rules config1 target_handlers) rule =
     _compute_run_fingerprint pickle_dumps sha256
       (Runner_init rules config2 target_handlers) rule)
  ∧ (∀ s', run pickle_dumps sha256 (Runner_init rules config1 target_handlers)
               fuel target w d = (Returns false, s') →
           run pickle_dumps sha256 (Runner_init rules config2 target_handlers)
               fuel target w d = (Returns false, s')).
Proof.
  intros Hagree. split.
  - intros rule Hrule. apply _compute_run_fingerprint_agree. simpl. eauto.
  - intros s'. unfold run, run_rule.
    change (target_to_rule (Runner_init rules config2 target_handlers))
      with (target_to_rule (Runner_init rules config1 target_handlers)).
    destruct (target_to_rule _ !! target) as [rule|] eqn:Hrule; [|done].
    eapply _run_not_rebuilt; eauto.
    intros t r k Hr Hk. apply target_to_rule_owner in Hr as [Hr _]. simpl. eauto.
Qed.


(** ** The [clean] traversal *)

Lemma dependency_chain_snoc (self : Runner) path rule sub :
  dependency_chain self (path ++ [rule]) → linked self rule sub →
  dependency_chain self ((path ++ [rule]) ++ [sub]).
Proof.
  intros Hchain Hlink. induction path as [|a path IH]; simpl in *; [done|].
  destruct path as [|b path]; simpl in *.
  - destruct Hchain. done.
  - destruct Hchain as [Hab Hchain]. split; [done|]. by apply IH.
Qed.

Lemma chain_from_snoc (self : Runner) target path rule sub :
  chain_from self target (path ++ [rule]) → linked self rule sub →
  chain_from self target ((path ++ [rule]) ++ [sub]).
Proof.
  intros [Hchain (root & Hroot & Hhead)] Hlink. split.
  - by apply dependency_chain_snoc.
  - exists root. split; [done|]. by destruct path.
Qed.

Section CleanTraversal.

Variable self : Runner.
Variable target : ResolvedTargetID.

Lemma cook_for_clean_spec output prev s
    (Q : Outcome (Cooked * BaseTargetHandler W Exc Fp Cooked) → Session → Prop) :
  (∀ r s', already_cleaned s' = already_cleaned s →
           (∀ x, EvClean x ∈ trace s' ↔ EvClean x ∈ trace s) →
           match r with
           | Returns _ => True
           | Raises (CollaboratorError _) => True
           | Raises _ => False
           end → Q r s') →
  wp (cook_for_clean is_key_error self output prev) s Q.
Proof.
  intros HQ. unfold cook_for_clean.
  assert (Hlog : ∀ hint (s0 : Session) x,
    EvClean x ∈ trace (log (EvCook (Exc:=Exc) (Fp:=Fp) output hint) s0).2
    ↔ EvClean x ∈ trace s0).
  { intros hint s0 x. simpl. rewrite elem_of_app, list_elem_of_singleton.
    split; [intros [?|?]; [done|discriminate]|auto]. }
  destruct (prev !! output) as [fp|].
  - unfold wp. destruct (cook self output (Some fp) s) as [[a|e] s1] eqn:E.
    + revert E. unfold cook, mbind, M_bind, call; simpl.
      destruct (cook_target _ _ _ _) as [[a'|e'] w]; intros; simplify_eq.
      apply HQ; simpl; [done| |done]. apply Hlog.
    + revert E. unfold cook, mbind, M_bind, call; simpl.
      destruct (cook_target _ _ _ _) as [[a'|e'] w]; intros; simplify_eq.
      destruct (is_key_error e'); simpl.
      * destruct (cook_target _ _ _ _) as [[a''|e''] w'']; simpl;
          (apply HQ; simpl; [done| |done]);
          intros x; rewrite elem_of_app, list_elem_of_singleton;
          rewrite (Hlog (Some fp) s x);
          (split; [intros [?|?]; [done|discriminate]|auto]).
      * apply HQ; simpl; [done| |done]. apply Hlog.
  - apply wp_cook; intros; (apply HQ; simpl; [done| |done]); apply Hlog.
Qed.

Lemma _clean_spec fuel : ∀ rule parent_rules s,
  reachable self target rule →
  chain_from self target (parent_rules ++ [rule]) →
  (∀ parent, parent ∈ parent_rules → parent ∈ already_cleaned s) →
  clean_frame self target s →
  outputs_cleaned (already_cleaned s) (trace s) →
  wp (_clean pickle_dumps sha256 is_key_error self fuel rule parent_rules) s
     (clean_post self target (already_cleaned s)).
Proof.
  induction fuel as [|fuel IH];
    intros rule parent_rules s Hreach Hchain Hparents Hframe Hdone.
  { apply wp_raise. split; done. }
  rewrite _clean_unfold. apply wp_bind, wp_gets.
  destruct (rule_in rule (already_cleaned s)) eqn:Hin.
  { apply wp_ret. split; done. }
  apply wp_bind, wp_add_already_cleaned.
  set (s1 := (add_already_cleaned rule s).2).
  assert (Hframe1 : clean_frame self target s1).
  { destruct Hframe as [Hr Hc]. split; simpl.
    - intros r [->|?]%elem_of_cons; auto.
    - intros x Hx. destruct (Hc x Hx) as (r & ? & ?). exists r.
      split; [|done]. apply elem_of_cons. auto. }
  apply wp_bind, wp_lift.
  destruct (_compute_run_fingerprint _ _ _ _) as [fp|e] eqn:Hfp; cycle 1.
  { apply _compute_run_fingerprint_Raises in Hfp as [k ->].
    split; [done|]. split; [|done]. intros r Hr. apply elem_of_cons. auto. }
  apply wp_bind, wp_fetch_rule_previous_run. cbv zeta.
  apply wp_bind.
  (* the outputs *)
  apply wp_for_each with (I := λ todo (_ : unit) s',
    already_cleaned s' = rule :: already_cleaned s
    ∧ clean_frame self target s'
    ∧ outputs_cleaned (already_cleaned s) (trace s')
    ∧ ∃ cleaned, resolved_outputs rule = cleaned ++ todo
                 ∧ ∀ o, o ∈ cleaned → EvClean o ∈ trace s').
  { split; [done|]. split; [done|]. split; [done|]. exists []. split; [done|].
    intros o Ho. by apply elem_of_nil in Ho. }
  { intros output todo [] s2 (Hcl & Hfr & Hold & cleaned & Hsplit & Hcleaned).
    unfold clean_output. apply wp_bind, cook_for_clean_spec.
    intros r s3 Hcl3 Htr3 Hr. destruct r as [[cooked handler]|e].
    2:{ destruct e; try done.
        assert (Hgrow : ∀ r, r ∈ already_cleaned s → r ∈ already_cleaned s3).
        { intros r0 Hr0. rewrite Hcl3, Hcl. apply elem_of_cons. auto. }
        split; [|done].
        destruct Hfr as [Hf1 Hf2]. split.
        - rewrite Hcl3. done.
        - intros x Hx. rewrite Hcl3. apply Hf2. by apply Htr3. }
    apply wp_bind, wp_log.
    assert (Hfr4 : ∀ w, clean_frame self target
                          (set_world w (log (EvClean output) s3).2)).
    { intros w. destruct Hfr as [Hf1 Hf2]. split; simpl.
      - rewrite Hcl3. done.
      - intros x [Hx|Hx]%elem_of_app.
        + rewrite Hcl3. apply Hf2. by apply Htr3.
        + apply list_elem_of_singleton in Hx. simplify_eq.
          exists rule. rewrite Hcl3, Hcl. split; [apply elem_of_cons; auto|].
          rewrite Hsplit. apply elem_of_app. right. apply elem_of_cons. auto. }
    apply wp_call_wrapped.
    - intros [] w _. split; [simpl; congruence|]. split; [apply Hfr4|].
      split.
      + intros r o Hr' Ho. simpl. apply elem_of_app. left. apply Htr3. eauto.
      + exists (cleaned ++ [output]). split; [by rewrite <-app_assoc|].
        intros o [Ho|Ho]%elem_of_app; simpl; apply elem_of_app.
        * left. apply Htr3. auto.
        * right. apply list_elem_of_singleton in Ho as ->.
          by apply list_elem_of_singleton.
    - intros e w _. split; [apply Hfr4|]. split; [|done].
      intros r0 Hr0. simpl. rewrite Hcl3, Hcl. apply elem_of_cons. auto. }
  intros [] s2 (Hcl & Hfr & Hold & cleaned & Hsplit & Hcleaned).
  rewrite app_nil_r in Hsplit. subst cleaned.
  assert (Hdone2 : outputs_cleaned (already_cleaned s2) (trace s2)).
  { intros r o. rewrite Hcl. intros [->|Hr]%elem_of_cons Ho; [auto|].
    eapply Hold; eauto. }
  assert (Hgrow2 : ∀ r, r ∈ rule :: already_cleaned s → r ∈ already_cleaned s2)
    by (by rewrite Hcl).
  clear Hcl Hold Hcleaned Hframe1 Hframe Hdone Hin s1.
  (* the inputs *)
  apply wp_for_each with (I := λ todo (_ : unit) s',
    (∀ i, i ∈ todo → i ∈ resolved_inputs rule)
    ∧ (∀ r, r ∈ rule :: already_cleaned s → r ∈ already_cleaned s')
    ∧ clean_frame self target s'
    ∧ outputs_cleaned (already_cleaned s') (trace s')).
  { done. }
  { intros input todo [] s3 (Htodo & Hgrow3 & Hfr3 & Hdone3).
    assert (Hgrow3' : ∀ r, r ∈ already_cleaned s → r ∈ already_cleaned s3)
      by (intros; apply Hgrow3, elem_of_cons; auto).
    assert (Hparents3 : ∀ p, p ∈ parent_rules ++ [rule] → p ∈ already_cleaned s3).
    { intros p [Hp|Hp]%elem_of_app; [auto|].
      apply list_elem_of_singleton in Hp as ->. apply Hgrow3, elem_of_cons. auto. }
    assert (Hinput : input ∈ resolved_inputs rule)
      by (apply Htodo, elem_of_cons; auto).
    assert (Htodo' : ∀ i, i ∈ todo → i ∈ resolved_inputs rule)
      by (intros; apply Htodo, elem_of_cons; auto).
    unfold clean_input.
    destruct (target_to_rule self !! input) as [sub|] eqn:Hsub.
    - destruct (rule_in sub (parent_rules ++ [rule])) eqn:Hcyc.
      + apply wp_raise. split; [done|]. split; [done|]. split; [done|].
        exists parent_rules, rule, sub. split; [done|]. split; [done|].
        split; [by exists input|]. split; [|done].
        unfold rule_in in Hcyc. by apply bool_decide_eq_true in Hcyc.
      + eapply wp_mono; [|apply IH; try done].
        * intros [[]|e] s4 (Hfr4 & Hgrow4 & Hpost); [by auto|].
          split; [done|]. split; [by auto|]. done.
        * eapply reachable_input; [exact Hreach|]. by exists input.
        * apply chain_from_snoc; [done|]. by exists input.
    - apply wp_bind, wp_call.
      + intros handler w Hh. destruct (ON_DISK_TARGET handler) eqn:Hdisk; simpl.
        * apply wp_ret. done.
        * apply wp_raise. split; [done|]. split; [done|]. split; [done|].
          exists parent_rules, rule. split; [done|]. split; [done|].
          split; [done|]. eauto 10.
      + intros e w _. split; done. }
  intros [] s3 (_ & Hgrow3 & Hfr3 & Hdone3). split; [done|]. split; [|done].
  intros r Hr. apply Hgrow3, elem_of_cons. auto.
Qed.

End CleanTraversal.

Lemma clean_spec (self : Runner) fuel target w d :
  target_to_rule self !! target ≠ None →
  wp (λ s, clean pickle_dumps sha256 is_key_error self fuel target (world s) (db s))
     (fresh_session w d) (clean_post self target []).
Proof.
  intros Hsome. unfold wp, clean; simpl.
  destruct (target_to_rule self !! target) as [root|] eqn:Hroot; [|done].
  apply (_clean_spec self target fuel root [] (fresh_session w d)).
  - by constructor.
  - split; [done|]. exists root. done.
  - intros p Hp. by apply elem_of_nil in Hp.
  - split; simpl.
    + intros r Hr. by apply elem_of_nil in Hr.
    + intros x Hx. by apply elem_of_nil in Hx.
  - intros r o Hr. by apply elem_of_nil in Hr.
Qed.

Lemma reachable_in_rules (rules : list (string * ResolvedRule))
    (config : gmap string ConstTypes)
    (target_handlers : TargetHandlersBundle W Exc Fp Cooked) target rule :
  reachable (Runner_init rules config target_handlers) target rule →
  rule ∈ rules.*2.
Proof.
  intros [r Hr|r sub _ (input & _ & Hsub)].
  - by apply target_to_rule_owner in Hr as [? _].
  - by apply target_to_rule_owner in Hsub as [? _].
Qed.

(** C9: [clean] calls a handler's [clean] only on outputs of rules reachable
    from the requested target; such a target has an owning rule, so an input
    that no rule owns is never cleaned. *)
Theorem clean_only_outputs_of_reachable_rules
    (rules : list (string * ResolvedRule)) (config : gmap string ConstTypes)
    (target_handlers : TargetHandlersBundle W Exc Fp Cooked)
    (fuel : nat) (target : ResolvedTargetID) (w : W)
    (d : gmap bytes (gmap string Fp)) (x : ResolvedTargetID) :
  EvClean x ∈ trace (clean pickle_dumps sha256 is_key_error
                       (Runner_init rules config target_handlers)
                       fuel target w d).2 →
  (∃ rule, reachable (Runner_init rules config target_handlers) target rule
           ∧ x ∈ resolved_outputs rule)
  ∧ is_Some (target_to_rule (Runner_init rules config target_handlers) !! x).
Proof.
  set (self := Runner_init rules config target_handlers). intros Hx.
  destruct (target_to_rule self !! target) as [root|] eqn:Hroot; cycle 1.
  { unfold clean in Hx. rewrite Hroot in Hx. by apply elem_of_nil in Hx. }
  destruct (clean_spec self fuel target w d) as [[Hreach Hout] _].
  { by rewrite Hroot. }
  destruct (Hout x Hx) as (rule & Hentered & Hin).
  split; [eauto|].
  eapply target_to_rule_declared; [|done].
  eapply reachable_in_rules. eauto.
Qed.

(** ** The world [clean] leaves *)

Section CleanWorld.

Variable self : Runner.
Variable gone : ResolvedTargetID → W → Prop.
Hypothesis sticks : cleaning_sticks (target_handlers self) gone.

Lemma cleaned_gone_cook target hint (s : Session) r w :
  cleaned_gone gone s →
  cook_target (target_handlers self) target hint (world s) = (r, w) →
  cleaned_gone gone (set_world w (log (EvCook target hint) s).2).
Proof.
  intros Hs Hcook x [Hin|Hin]%elem_of_app.
  - destruct sticks as (Hc & _). eapply Hc; [exact Hcook|]. by apply Hs.
  - apply list_elem_of_singleton in Hin. done.
Qed.

Lemma cook_for_clean_gone output prev (s : Session)
    (Q : Outcome (Cooked * BaseTargetHandler W Exc Fp Cooked) → Session → Prop) :
  cleaned_gone gone s →
  (∀ r (s' : Session),
     cleaned_gone gone s' →
     match r with
     | Returns (cooked, handler) =>
         cooked_for (target_handlers self) output cooked handler
     | Raises (CollaboratorError _) => True
     | Raises _ => False
     end → Q r s') →
  wp (cook_for_clean is_key_error self output prev) s Q.
Proof.
  intros Hs HQ. unfold cook_for_clean.
  destruct (prev !! output) as [fp|].
  - unfold wp. unfold cook, mbind, M_bind, call; simpl.
    destruct (cook_target _ output (Some fp) (world s)) as [[[c h]|e] w] eqn:E;
      simpl.
    + apply HQ; [by eapply cleaned_gone_cook|]. by exists (Some fp), (world s), w.
    + pose proof (cleaned_gone_cook output (Some fp) s _ _ Hs E) as Hs1.
      destruct (is_key_error e); simpl; [|by apply HQ].
      destruct (cook_target _ output None w) as [[[c h]|e'] w'] eqn:E'; simpl.
      * apply HQ.
        -- apply (cleaned_gone_cook output None _ _ _ Hs1 E').
        -- by exists None, w, w'.
      * apply HQ; [|done]. apply (cleaned_gone_cook output None _ _ _ Hs1 E').
  - apply wp_cook.
    + intros c h w E. apply HQ; [by eapply cleaned_gone_cook|].
      by exists None, (world s), w.
    + intros e w E. apply HQ; [by eapply cleaned_gone_cook|done].
Qed.

Lemma _clean_gone fuel : ∀ rule parent_rules s,
  cleaned_gone gone s →
  wp (_clean pickle_dumps sha256 is_key_error self fuel rule parent_rules) s
     (gone_post gone).
Proof.
  induction fuel as [|fuel IH]; intros rule parent_rules s Hs.
  { by apply wp_raise. }
  rewrite _clean_unfold. apply wp_bind, wp_gets.
  destruct (rule_in rule (already_cleaned s)); [by apply wp_ret|].
  apply wp_bind, wp_add_already_cleaned.
  assert (Hs1 : cleaned_gone gone (add_already_cleaned rule s).2) by done.
  apply wp_bind, wp_lift.
  destruct (_compute_run_fingerprint _ _ _ _) as [fp|e] eqn:Hfp; cycle 1.
  { apply _compute_run_fingerprint_Raises in Hfp as [k ->]. done. }
  apply wp_bind, wp_fetch_rule_previous_run. cbv zeta.
  apply wp_bind.
  apply wp_for_each with (I := λ _ (_ : unit) s', cleaned_gone gone s');
    [done| |].
  { intros output todo [] s2 Hs2. unfold clean_output.
    apply wp_bind, cook_for_clean_gone; [done|].
    intros r s3 Hs3 Hr. destruct r as [[cooked handler]|e]; [|by destruct e].
    apply wp_bind, wp_log. apply wp_call_wrapped; [|done].
    intros [] w Hclean. simpl in Hclean.
    destruct sticks as (_ & _ & Hc).
    destruct (Hc output cooked handler _ _ Hr Hclean) as [Hgone Hkeep].
    intros x [Hin|Hin]%elem_of_app; simpl.
    - by apply Hkeep, Hs3.
    - apply list_elem_of_singleton in Hin. by simplify_eq. }
  intros [] s2 Hs2.
  apply wp_for_each with (I := λ _ (_ : unit) s', cleaned_gone gone s');
    [done| |].
  { intros input todo [] s3 Hs3. unfold clean_input.
    destruct (target_to_rule self !! input) as [sub|] eqn:Hsub.
    - destruct (rule_in sub (parent_rules ++ [rule])); [by apply wp_raise|].
      eapply wp_mono; [|by apply IH].
      intros [[]|e] s4 Hpost; done.
    - assert (Hget : ∀ r w,
        get_handler (target_handlers self) input (world s3) = (r, w) →
        cleaned_gone gone (set_world w s3)).
      { intros r w E x Hin. destruct sticks as (_ & Hg & _).
        eapply Hg; [exact E|]. by apply Hs3. }
      apply wp_bind, wp_call.
      + intros handler w E. specialize (Hget _ _ E).
        destruct (negb (ON_DISK_TARGET handler)); [by apply wp_raise|].
        by apply wp_ret.
      + intros e w E. by apply (Hget _ _ E). }
  intros [] s3 Hs3. done.
Qed.

End CleanWorld.

(** C10: when [clean] raises [ConsistencyError], the chain it names is a
    dependency chain from the rule of the requested target whose last rule
    has an input owned by a rule of the chain; the rules of the chain have
    been entered, and every rule entered so far has had the handler's [clean]
    called on each of its outputs.  Nothing undoes those calls: whatever the
    handlers' [clean] does that the other calls leave in place, [gone], holds
    of each of these outputs in the world of the session that comes with the
    error. *)
Theorem clean_not_atomic_on_cycle (self : Runner)
    (fuel : nat) (target : ResolvedTargetID) (w : W)
    (d : gmap bytes (gmap string Fp)) (chain : list string) (s' : Session) :
  clean pickle_dumps sha256 is_key_error self fuel target w d
    = (Raises (IsengardConsistencyError chain), s') →
  cycle_found self target (already_cleaned s') chain
  ∧ (∀ rule output, rule ∈ already_cleaned s' → output ∈ resolved_outputs rule →
                    EvClean output ∈ trace s')
  ∧ ∀ gone, cleaning_sticks (target_handlers self) gone →
      ∀ rule output, rule ∈ already_cleaned s' →
                     output ∈ resolved_outputs rule → gone output (world s').
Proof.
  intros Hclean.
  destruct (target_to_rule self !! target) as [root|] eqn:Hroot; cycle 1.
  { unfold clean in Hclean. by rewrite Hroot in Hclean. }
  pose proof (clean_spec self fuel target w d) as Hspec.
  unfold wp in Hspec. simpl in Hspec. rewrite Hclean in Hspec.
  destruct Hspec as (_ & _ & Hdone & Hcycle); [by rewrite Hroot|].
  split; [done|]. split; [done|].
  intros gone Hsticks rule output Hrule Houtput.
  pose proof (_clean_gone self gone Hsticks fuel root [] (fresh_session w d))
    as Hgone.
  unfold clean in Hclean. rewrite Hroot in Hclean.
  unfold wp in Hgone. rewrite Hclean in Hgone. simpl in Hgone.
  apply Hgone; [|by eapply Hdone].
  intros x Hx. by apply elem_of_nil in Hx.
Qed.

(** ** Unknown targets *)

Lemma execute_errors (self : Runner) rule fp b tc oc s :
  wp (execute self rule fp b tc oc) s
     (λ r _, match r with Returns _ => True | Raises e => engine_error e end).
Proof.
  unfold execute. apply wp_bind.
  apply wp_for_each with (I := λ _ _ _, True); [done| |].
  { intros t l acc s1 _. unfold collect_input.
    apply wp_bind, wp_targets_eval_cache_get; [|done].
    intros v _. by apply wp_ret. }
  intros ins s1 _. apply wp_bind, wp_call_rule_body; [|done].
  intros w _. apply wp_bind.
  apply wp_for_each with (I := λ _ _ _, True); [done| |].
  { intros t l acc s2 _. unfold record_fingerprint.
    apply wp_bind, wp_targets_eval_cache_get; [|done].
    intros v _. apply wp_bind, wp_call; [|done].
    intros fp' w' _. apply wp_bind, wp_log, wp_bind, wp_set_targets_eval_cache.
    by apply wp_ret. }
  intros fps s2 _. apply wp_bind, wp_set_rule_previous_run. by apply wp_ret.
Qed.

Section RunUnknown.

Variable self : Runner.
Variable target : ResolvedTargetID.

Lemma _run_unknown fuel : ∀ rule s,
  reachable self target rule →
  wp (_run pickle_dumps sha256 self fuel rule) s (unknown_post self target).
Proof.
  induction fuel as [|fuel IH]; intros rule s Hreach; [by apply wp_raise|].
  rewrite _run_unfold. apply wp_bind, wp_gets.
  destruct (already_evaluated s !! id rule); [by apply wp_ret|].
  apply wp_bind, wp_lift.
  destruct (_compute_run_fingerprint _ _ _ _) as [fp|e] eqn:Hfp; cycle 1.
  { apply _compute_run_fingerprint_Raises in Hfp as [k ->]. done. }
  apply wp_bind, wp_fetch_rule_previous_run. cbv zeta.
  apply wp_bind.
  apply wp_for_each with (I := λ todo _ _, ∀ i, i ∈ todo → i ∈ resolved_inputs rule);
    [done| |].
  { intros input todo [b tc] s1 Htodo.
    assert (Hinput : input ∈ resolved_inputs rule)
      by (apply Htodo, elem_of_cons; auto).
    assert (Htodo' : ∀ i, i ∈ todo → i ∈ resolved_inputs rule)
      by (intros; apply Htodo, elem_of_cons; auto).
    unfold eval_input.
    destruct (target_to_rule self !! input) as [sub|] eqn:Hsub.
    - apply wp_bind. eapply wp_mono; [|apply IH].
      + intros [rebuilt|e] s2 Hpost; [by apply wp_ret|done].
      + eapply reachable_input; [done|]. by exists input.
    - apply wp_bind, wp_cook; [|done].
      intros cooked handler w Hcook.
      destruct (ON_DISK_TARGET handler) eqn:Hdisk; simpl.
      + apply wp_bind, wp_has_changed; [| |intros _];
          try (intros; apply wp_bind, wp_set_targets_eval_cache; by apply wp_ret).
        done.
      + apply wp_raise. intros x needed_by ?; simplify_eq.
        split; [done|]. exists rule. split; [done|]. split; [done|].
        split; [done|]. eauto 10. }
  intros [b tc] s1 _. apply wp_bind.
  apply wp_for_each with (I := λ _ _ _, True); [done| |].
  { intros output todo [[b' tc'] oc] s2 _. unfold eval_output.
    apply wp_bind, wp_cook; [|done]. intros cooked handler w _.
    apply wp_bind, wp_has_changed; [| |intros _];
      try (intros; apply wp_bind, wp_set_targets_eval_cache; by apply wp_ret).
    done. }
  intros [[b' tc'] oc] s2 _.
  apply wp_bind, wp_set_already_evaluated.
  destruct (negb b'); [by apply wp_ret|].
  eapply wp_mono; [|apply execute_errors].
  intros [r|e] s3 He; [done|]. intros x needed_by ?; simplify_eq. done.
Qed.

End RunUnknown.

(** ** Commits and failed bodies in the trace of [run] *)

Lemma apply_commits_snoc (tr : list Event) (ev : Event) (d0 : gmap bytes (gmap string Fp)) :
  apply_commits (tr ++ [ev]) d0 =
  match ev with
  | EvCommit _ run_fingerprint target_fingerprints =>
      <[run_fingerprint := dict target_fingerprints]> (apply_commits tr d0)
  | _ => apply_commits tr d0
  end.
Proof. unfold apply_commits. by rewrite foldl_app. Qed.

Lemma commits_follow_return_snoc (tr : list Event) (ev : Event) :
  commits_follow_return tr →
  (∀ rule_id fp l, ev = EvCommit rule_id fp l → EvRuleReturned rule_id ∈ tr) →
  commits_follow_return (tr ++ [ev]).
Proof.
  intros Htr Hev before rule_id fp l after Heq.
  destruct after as [|last after _] using rev_ind.
  - apply app_inj_tail in Heq as [-> ->]. eauto.
  - rewrite app_comm_cons, app_assoc in Heq.
    apply app_inj_tail in Heq as [-> _]. eauto.
Qed.

Section RunTrace.

Variable self : Runner.
Variable d0 : gmap bytes (gmap string Fp).

Lemma trace_ok_error (e : IsengardError Exc) (s : Session) : trace_ok d0 s → error_ok d0 e s.
Proof.
  intros (Hdb & Hcfr & Hraised). split; [done|]. split; [done|].
  intros rule_id exc Hin. by apply Hraised in Hin.
Qed.

Lemma trace_ok_log (ev : Event) (s : Session) : trace_ok d0 s → quiet ev → trace_ok d0 (log ev s).2.
Proof.
  intros (Hdb & Hcfr & Hraised) Hquiet. split; [|split]; simpl.
  - rewrite apply_commits_snoc, Hdb. by destruct ev.
  - apply commits_follow_return_snoc; [done|]. intros ??? ->. done.
  - intros rule_id exc [Hin|Hin]%elem_of_app; [by apply Hraised in Hin|].
    apply list_elem_of_singleton in Hin. by subst.
Qed.

Lemma trace_ok_frame (s s' : Session) :
  db s' = db s → trace s' = trace s → trace_ok d0 s → trace_ok d0 s'.
Proof. unfold trace_ok. by intros -> ->. Qed.

Lemma execute_trace rule fp b tc oc s :
  trace_ok d0 s →
  wp (execute self rule fp b tc oc) s (trace_post d0).
Proof.
  intros Hok. unfold execute. apply wp_bind.
  apply wp_for_each with (I := λ _ _ s', trace_ok d0 s'); [done| |].
  { intros t l acc s1 Hok1. unfold collect_input.
    apply wp_bind, wp_targets_eval_cache_get.
    - intros v _. by apply wp_ret.
    - intros _. by apply trace_ok_error. }
  intros ins s1 Hok1. apply wp_bind, wp_call_rule_body.
  - intros w _. apply wp_bind.
    set (s2 := (log (EvRuleReturned _) _).2).
    assert (Hok2 : trace_ok d0 s2).
    { apply trace_ok_log; [|done].
      eapply trace_ok_frame; [..|apply trace_ok_log; [exact Hok1|]]; done. }
    assert (Hret2 : EvRuleReturned (id rule) ∈ trace s2).
    { simpl. apply elem_of_app. right. by apply list_elem_of_singleton. }
    clearbody s2.
    apply wp_for_each with (I := λ _ _ s',
      trace_ok d0 s' ∧ EvRuleReturned (id rule) ∈ trace s'); [done| |].
    { intros t l acc s3 [Hok3 Hret3]. unfold record_fingerprint.
      apply wp_bind, wp_targets_eval_cache_get.
      - intros v _. apply wp_bind, wp_call.
        + intros fp' w' _.
          apply wp_bind, wp_log, wp_bind, wp_set_targets_eval_cache, wp_ret.
          split.
          * eapply trace_ok_frame; [..|apply trace_ok_log]; [done|done| |done].
            eapply trace_ok_frame; [..|exact Hok3]; done.
          * simpl. apply elem_of_app. by left.
        + intros e w' _. apply trace_ok_error.
          eapply trace_ok_frame; [..|exact Hok3]; done.
      - intros _. by apply trace_ok_error. }
    intros fps s3 [(Hdb & Hcfr & Hraised) Hret3].
    apply wp_bind, wp_set_rule_previous_run, wp_ret.
    split; [|split]; simpl.
    + by rewrite apply_commits_snoc, Hdb.
    + apply commits_follow_return_snoc; [done|]. intros ??? ?; by simplify_eq.
    + intros rule_id exc [Hin|Hin]%elem_of_app; [by apply Hraised in Hin|].
      apply list_elem_of_singleton in Hin. done.
  - intros e w _.
    assert (Hok2 : trace_ok d0 (set_world w (log (EvRuleRun (id rule)) s1).2)).
    { eapply trace_ok_frame; [..|apply trace_ok_log; [exact Hok1|]]; done. }
    destruct Hok2 as (Hdb & Hcfr & Hraised).
    split; [|split]; simpl in *.
    + by rewrite apply_commits_snoc, Hdb.
    + apply commits_follow_return_snoc; [done|]. intros ??? ?; by simplify_eq.
    + intros rule_id exc [Hin|Hin]%elem_of_app; [by apply Hraised in Hin|].
      apply list_elem_of_singleton in Hin. by simplify_eq.
Qed.

Lemma cook_trace target hint s
    (Q : Outcome (Cooked * BaseTargetHandler W Exc Fp Cooked) → Session → Prop) :
  trace_ok d0 s →
  (∀ c s', trace_ok d0 s' → Q (Returns c) s') →
  (∀ e s', trace_ok d0 s' → Q (Raises e) s') →
  wp (cook self target hint) s Q.
Proof.
  intros Hok Hr He.
  assert (∀ w, trace_ok d0 (set_world w (log (EvCook target hint) s).2)).
  { intros w. eapply trace_ok_frame; [..|apply trace_ok_log; [exact Hok|]]; done. }
  apply wp_cook; intros; [apply Hr|apply He]; done.
Qed.

Lemma has_changed_trace (handler : BaseTargetHandler W Exc Fp Cooked) cooked hint s
    (Q : Outcome bool → Session → Prop) :
  trace_ok d0 s →
  (∀ b s', trace_ok d0 s' → Q (Returns b) s') →
  (∀ e s', trace_ok d0 s' → Q (Raises e) s') →
  wp (has_changed handler cooked hint) s Q.
Proof.
  intros Hok Hr He.
  assert (∀ w, trace_ok d0 (set_world w s)).
  { intros w. eapply trace_ok_frame; [..|exact Hok]; done. }
  apply wp_has_changed; intros; [apply Hr|apply He|apply Hr]; done.
Qed.

Lemma _run_trace fuel : ∀ rule s,
  trace_ok d0 s →
  wp (_run pickle_dumps sha256 self fuel rule) s (trace_post d0).
Proof.
  induction fuel as [|fuel IH]; intros rule s Hok.
  { apply wp_raise. by apply trace_ok_error. }
  rewrite _run_unfold. apply wp_bind, wp_gets.
  destruct (already_evaluated s !! id rule); [by apply wp_ret|].
  apply wp_bind, wp_lift.
  destruct (_compute_run_fingerprint _ _ _ _) as [fp|e] eqn:Hfp; cycle 1.
  { by apply trace_ok_error. }
  apply wp_bind, wp_fetch_rule_previous_run. cbv zeta.
  apply wp_bind.
  apply wp_for_each with (I := λ _ _ s', trace_ok d0 s'); [done| |].
  { intros input todo [b tc] s1 Hok1. unfold eval_input.
    destruct (target_to_rule self !! input) as [sub|].
    - apply wp_bind. eapply wp_mono; [|by apply IH].
      intros [rebuilt|e] s2 Hpost; [by apply wp_ret|done].
    - apply wp_bind, cook_trace; [done| |intros; by apply trace_ok_error].
      intros [cooked handler] s2 Hok2.
      destruct (negb (ON_DISK_TARGET handler)).
      { apply wp_raise. by apply trace_ok_error. }
      apply wp_bind, has_changed_trace; [done| |intros; by apply trace_ok_error].
      intros changed s3 Hok3.
      apply wp_bind, wp_set_targets_eval_cache, wp_ret.
      eapply trace_ok_frame; [..|exact Hok3]; done. }
  intros [b tc] s1 Hok1. apply wp_bind.
  apply wp_for_each with (I := λ _ _ s', trace_ok d0 s'); [done| |].
  { intros output todo [[b' tc'] oc] s2 Hok2. unfold eval_output.
    apply wp_bind, cook_trace; [done| |intros; by apply trace_ok_error].
    intros [cooked handler] s3 Hok3.
    apply wp_bind, has_changed_trace; [done| |intros; by apply trace_ok_error].
    intros changed s4 Hok4.
    apply wp_bind, wp_set_targets_eval_cache, wp_ret.
    eapply trace_ok_frame; [..|exact Hok4]; done. }
  intros [[b' tc'] oc] s2 Hok2.
  apply wp_bind, wp_set_already_evaluated.
  assert (Hok3 : trace_ok d0 (set_already_evaluated rule b' s2).2)
    by (eapply trace_ok_frame; [..|exact Hok2]; done).
  destruct (negb b'); [by apply wp_ret|].
  by apply execute_trace.
Qed.

End RunTrace.


(** ** A rule under evaluation is not evaluated again *)

Lemma wp_and {A} (m : M A) s (Q1 Q2 : Outcome A → Session → Prop) :
  wp m s Q1 → wp m s Q2 → wp m s (λ r s', Q1 r s' ∧ Q2 r s').
Proof. unfold wp. auto. Qed.

Lemma execute_already_evaluated (self : Runner) rule fp b tc oc s :
  wp (execute self rule fp b tc oc) s
     (λ _ s', already_evaluated s' = already_evaluated s).
Proof.
  unfold execute. apply wp_bind.
  apply wp_for_each with (I := λ _ _ s', already_evaluated s' = already_evaluated s);
    [done| |].
  { intros t l acc s1 H1. unfold collect_input.
    apply wp_bind, wp_targets_eval_cache_get; [|done].
    intros v _. by apply wp_ret. }
  intros ins s1 H1. apply wp_bind, wp_call_rule_body; [|done].
  intros w _. apply wp_bind.
  apply wp_for_each with (I := λ _ _ s', already_evaluated s' = already_evaluated s);
    [done| |].
  { intros t l acc s2 H2. unfold record_fingerprint.
    apply wp_bind, wp_targets_eval_cache_get; [|done].
    intros v _. apply wp_bind, wp_call; [|done].
    intros fp' w' _. apply wp_bind, wp_log, wp_bind, wp_set_targets_eval_cache.
    by apply wp_ret. }
  intros fps s2 H2. apply wp_bind, wp_set_rule_previous_run. by apply wp_ret.
Qed.

Section Pending.

Variable self : Runner.
Hypothesis ids : unique_ids self.

Lemma _run_pending fuel : ∀ pending rule s,
  owned_rule self rule →
  waiting_for self pending rule →
  unevaluated pending s →
  wp (_run pickle_dumps sha256 self fuel rule) s (pending_post pending rule).
Proof.
  induction fuel as [|fuel IH]; intros pending rule s Howned Hwait Hun;
    [by apply wp_raise|].
  rewrite _run_unfold. apply wp_bind, wp_gets.
  destruct (already_evaluated s !! id rule) as [b|] eqn:Hrule.
  { apply wp_ret. split; [done|]. intros Hin. apply Hun in Hin. congruence. }
  apply wp_bind, wp_lift.
  destruct (_compute_run_fingerprint _ _ _ _) as [fp|e] eqn:Hfp; [|done].
  apply wp_bind, wp_fetch_rule_previous_run. cbv zeta.
  apply wp_bind.
  apply wp_for_each with (I := λ todo _ s',
    (∀ i, i ∈ todo → i ∈ resolved_inputs rule)
    ∧ unevaluated (rule :: pending) s'
    ∧ (rule ∈ pending →
       ∃ input sub, input ∈ todo ∧ target_to_rule self !! input = Some sub
                    ∧ sub ∈ pending)).
  { split; [done|]. split.
    - intros p [-> |Hp]%elem_of_cons; auto.
    - intros Hin. destruct (Hwait rule Hin) as (_ & input & sub & ? & ? & [?| ->]);
        eauto. }
  { intros input todo [b tc] s1 (Htodo & Hun1 & Hblock).
    assert (Hinput : input ∈ resolved_inputs rule)
      by (apply Htodo, elem_of_cons; auto).
    assert (Htodo' : ∀ i, i ∈ todo → i ∈ resolved_inputs rule)
      by (intros; apply Htodo, elem_of_cons; auto).
    unfold eval_input.
    destruct (target_to_rule self !! input) as [sub|] eqn:Hsub.
    - apply wp_bind. eapply wp_mono; [|apply (IH (rule :: pending) sub)].
      + intros [rebuilt|e] s2 Hpost; [|done]. apply wp_ret.
        destruct Hpost as [Hun2 Hsubnot].
        split; [done|]. split; [done|].
        intros Hin. destruct (Hblock Hin) as (i & q & [-> |Hi]%elem_of_cons & Hq & Hqin).
        * simplify_eq. exfalso. apply Hsubnot, elem_of_cons. auto.
        * eauto.
      + by exists input.
      + intros p [-> |Hp]%elem_of_cons.
        * split; [done|]. exists input, sub. auto.
        * destruct (Hwait p Hp) as (Hpo & i & q & Hi & Hq & Hor).
          split; [done|]. exists i, q. split; [done|]. split; [done|].
          destruct Hor as [?| ->]; left; apply elem_of_cons; auto.
      + done.
    - assert (Hblock' : rule ∈ pending →
        ∃ input sub, input ∈ todo ∧ target_to_rule self !! input = Some sub
                     ∧ sub ∈ pending).
      { intros Hin.
        destruct (Hblock Hin) as (i & q & [-> |Hi]%elem_of_cons & Hq & Hqin);
          [congruence|eauto]. }
      apply wp_bind, wp_cook; [|done]. intros cooked handler w _.
      destruct (negb (ON_DISK_TARGET handler)); [done|].
      apply wp_bind, wp_has_changed; [| |intros _];
        try (intros; apply wp_bind, wp_set_targets_eval_cache; by apply wp_ret).
      done. }
  intros [b tc] s1 (_ & Hun1 & Hblock).
  assert (Hnotin : rule ∉ pending).
  { intros Hin. destruct (Hblock Hin) as (i & q & Hi & _). by apply elem_of_nil in Hi. }
  apply wp_bind.
  apply wp_for_each with (I := λ _ _ s', unevaluated (rule :: pending) s');
    [done| |].
  { intros output todo [[b' tc'] oc] s2 Hun2. unfold eval_output.
    apply wp_bind, wp_cook; [|done]. intros cooked handler w _.
    apply wp_bind, wp_has_changed; [| |intros _];
      try (intros; apply wp_bind, wp_set_targets_eval_cache; by apply wp_ret).
    done. }
  intros [[b' tc'] oc] s2 Hun2.
  apply wp_bind, wp_set_already_evaluated.
  assert (Hun3 : unevaluated pending (set_already_evaluated rule b' s2).2).
  { intros p Hp. simpl. rewrite lookup_insert_ne.
    - apply Hun2, elem_of_cons. auto.
    - intros Hid. destruct (Hwait p Hp) as [Hpo _].
      apply ids in Hid; [|done..]. by subst. }
  destruct (negb b'); [by apply wp_ret|].
  eapply wp_mono; [|apply execute_already_evaluated].
  intros [r|e] s3 Hae; [|done]. split; [|done].
  intros p Hp. rewrite Hae. by apply Hun3.
Qed.

(** While [rule] evaluates the rule [sub] that owns one of its inputs,
    [rule] stays unevaluated. *)
Lemma _run_input_owner fuel rule input sub s :
  owned_rule self rule →
  input ∈ resolved_inputs rule →
  target_to_rule self !! input = Some sub →
  already_evaluated s !! id rule = None →
  wp (_run pickle_dumps sha256 self fuel sub) s
     (λ r s', match r with
              | Returns _ => already_evaluated s' !! id rule = None
              | Raises _ => True
              end).
Proof.
  intros Howned Hinput Hsub Hnone.
  eapply wp_mono; [|apply (_run_pending fuel [rule] sub)].
  - intros [b|e] s' Hpost; [|done]. destruct Hpost as [Hun _].
    apply Hun, list_elem_of_singleton. done.
  - by exists input.
  - intros p Hp. apply list_elem_of_singleton in Hp as ->.
    split; [done|]. exists input, sub. auto.
  - intros p Hp. by apply list_elem_of_singleton in Hp as ->.
Qed.

End Pending.


(** ** The bodies behind the trace of [run] *)

Section RunBodies.

Variable self : Runner.








End RunBodies.

(** ** At most one commit per rule *)

Lemma count_snoc (p : Event → bool) (tr : list Event) (ev : Event) :
  count p (tr ++ [ev]) = count p tr + (if p ev then 1 else 0).
Proof.
  unfold count. rewrite List.filter_app, length_app. simpl.
  by destruct (p ev).
Qed.




Section Commits.

Variable self : Runner.
Hypothesis ids : unique_ids self.




End Commits.


Lemma NoDup_fmap_eq {A B} (f : A → B) (l : list A) x y :
  NoDup (f <$> l) → x ∈ l → y ∈ l → f x = f y → x = y.
Proof.
  induction l as [|a l IH]; intros Hnd Hx Hy Hf; [by apply elem_of_nil in Hx|].
  rewrite fmap_cons in Hnd. apply NoDup_cons in Hnd as [Hnotin Hnd].
  apply elem_of_cons in Hx as [->|Hx]; apply elem_of_cons in Hy as [->|Hy].
  - done.
  - exfalso. apply Hnotin. rewrite Hf. by apply list_elem_of_fmap_2.
  - exfalso. apply Hnotin. rewrite <-Hf. by apply list_elem_of_fmap_2.
  - by apply IH.
Qed.

Lemma Runner_init_unique_ids (rules : list (string * ResolvedRule))
    (config : gmap string ConstTypes)
    (target_handlers : TargetHandlersBundle W Exc Fp Cooked) :
  NoDup (id <$> rules.*2) →
  unique_ids (Runner_init rules config target_handlers).
Proof.
  intros Hnd r1 r2 [t1 H1] [t2 H2] Hid.
  apply target_to_rule_owner in H1 as [H1 _].
  apply target_to_rule_owner in H2 as [H2 _].
  by eapply NoDup_fmap_eq.
Qed.


(** ** At most one cook per owned target *)

Lemma count_cook_other target (tr : list Event) (ev : Event) :
  is_cook target ev = false →
  count (is_cook target) (tr ++ [ev]) = count (is_cook target) tr.
Proof. intros H. rewrite count_snoc, H. lia. Qed.

Lemma execute_cooks (self : Runner) rule fp b tc oc s :
  wp (execute self rule fp b tc oc) s
     (λ _ s', already_evaluated s' = already_evaluated s
              ∧ ∀ target, count (is_cook target) (trace s')
                          = count (is_cook target) (trace s)).
Proof.
  unfold execute. apply wp_bind.
  apply wp_for_each with (I := λ _ _ s',
    already_evaluated s' = already_evaluated s
    ∧ ∀ target, count (is_cook target) (trace s')
                = count (is_cook target) (trace s)); [done| |].
  { intros t l acc s1 H1. unfold collect_input.
    apply wp_bind, wp_targets_eval_cache_get; [|done].
    intros v _. by apply wp_ret. }
  intros ins s1 [Hae1 Hc1]. apply wp_bind, wp_call_rule_body.
  2:{ intros e w _. split; [done|]. intros t. simpl.
      by rewrite !count_cook_other. }
  intros w _. apply wp_bind.
  apply wp_for_each with (I := λ _ _ s',
    already_evaluated s' = already_evaluated s
    ∧ ∀ target, count (is_cook target) (trace s')
                = count (is_cook target) (trace s)).
  { split; [done|]. intros t. simpl. by rewrite !count_cook_other. }
  { intros t l acc s2 [Hae2 Hc2]. unfold record_fingerprint.
    apply wp_bind, wp_targets_eval_cache_get; [|done].
    intros v _. apply wp_bind, wp_call; [|done].
    intros fp' w' _. apply wp_bind, wp_log, wp_bind, wp_set_targets_eval_cache.
    apply wp_ret. split; [done|]. intros t'. simpl.
    by rewrite count_cook_other. }
  intros fps s2 [Hae2 Hc2]. apply wp_bind, wp_set_rule_previous_run, wp_ret.
  split; [done|]. intros t. simpl. by rewrite count_cook_other.
Qed.

Section Cooks.

Variable self : Runner.
Hypothesis ids : unique_ids self.
Hypothesis owns : owns_outputs self.

Lemma cooks_once_error {A} (e : IsengardError Exc) (s : Session) :
  cooks_once self s → cooks_post (A:=A) self (Raises e) s.
Proof. intros Hs target [rule Hrule]. by apply (Hs target rule). Qed.

Lemma cooks_once_frame (s s' : Session) :
  already_evaluated s' = already_evaluated s →
  (∀ target, is_Some (target_to_rule self !! target) →
             count (is_cook target) (trace s') = count (is_cook target) (trace s)) →
  cooks_once self s → cooks_once self s'.
Proof.
  intros Hae Hcount Hs target rule Hrule. rewrite Hae, Hcount by eauto.
  by apply Hs.
Qed.

Lemma _run_cooks fuel : ∀ rule s,
  owned_rule self rule →
  cooks_once self s →
  wp (_run pickle_dumps sha256 self fuel rule) s (cooks_post self).
Proof.
  induction fuel as [|fuel IH]; intros rule s Howned Hs.
  { apply wp_raise. by apply cooks_once_error. }
  rewrite _run_unfold. apply wp_bind, wp_gets.
  destruct (already_evaluated s !! id rule) as [b|] eqn:Hrule; [by apply wp_ret|].
  apply wp_bind, wp_lift.
  destruct (_compute_run_fingerprint _ _ _ _) as [fp|e] eqn:Hfp; cycle 1.
  { by apply cooks_once_error. }
  apply wp_bind, wp_fetch_rule_previous_run. cbv zeta.
  assert (Hworld : ∀ w (s1 : Session),
    cooks_once self s1 → cooks_once self (set_world w s1)).
  { intros w s1 Hs1. eapply cooks_once_frame; [..|exact Hs1]; done. }
  apply wp_bind.
  apply wp_for_each with (I := λ todo _ s',
    (∀ i, i ∈ todo → i ∈ resolved_inputs rule)
    ∧ cooks_once self s' ∧ already_evaluated s' !! id rule = None); [done| |].
  { intros input todo [b tc] s1 (Htodo & Hs1 & Hn1).
    assert (Hinput : input ∈ resolved_inputs rule)
      by (apply Htodo, elem_of_cons; auto).
    assert (Htodo' : ∀ i, i ∈ todo → i ∈ resolved_inputs rule)
      by (intros; apply Htodo, elem_of_cons; auto).
    unfold eval_input.
    destruct (target_to_rule self !! input) as [sub|] eqn:Hsub.
    - apply wp_bind. eapply wp_mono; [|apply wp_and;
        [apply (IH sub); [by exists input|done]
        |by apply (_run_input_owner self ids fuel rule input sub)]].
      intros [rebuilt|e] s2 [Hpost Hn2]; [|done]. by apply wp_ret.
    - assert (Hcook : ∀ hint w,
        cooks_once self (set_world w (log (EvCook input hint) s1).2)).
      { intros hint w. eapply cooks_once_frame; [..|exact Hs1]; [done|].
        intros t [r Hr]. simpl. apply count_cook_other. simpl.
        apply bool_decide_eq_false. congruence. }
      apply wp_bind, wp_cook.
      + intros cooked handler w _.
        destruct (negb (ON_DISK_TARGET handler)).
        { apply wp_raise. by apply cooks_once_error. }
        apply wp_bind, wp_has_changed; [| |intros _];
          try (intros; apply wp_bind, wp_set_targets_eval_cache, wp_ret;
               split; [done|]; split; [|done];
               eapply cooks_once_frame; [..|apply Hcook]; done).
        intros e w'. apply cooks_once_error. apply Hworld, Hcook.
      + intros e w _. apply cooks_once_error, Hcook. }
  intros [b tc] s1 (_ & Hs1 & Hn1). apply wp_bind.
  destruct (owns rule Howned) as [Hnodup Howns].
  (* the outputs: those cooked so far are [cooked] *)
  apply wp_for_each with (I := λ todo _ s', ∃ cooked,
    resolved_outputs rule = cooked ++ todo
    ∧ already_evaluated s' !! id rule = None
    ∧ ∀ t r, target_to_rule self !! t = Some r →
        if decide (t ∈ cooked) then count (is_cook t) (trace s') ≤ 1
        else count (is_cook t) (trace s') ≤ 1
             ∧ (already_evaluated s' !! id r = None →
                count (is_cook t) (trace s') = 0)).
  { exists []. split; [done|]. split; [done|]. intros t r Hr.
    rewrite decide_False by apply not_elem_of_nil. by apply Hs1. }
  { intros output todo [[b' tc'] oc] s2 (cooked & Hsplit & Hn2 & Hcount).
    assert (Hfresh : output ∉ cooked).
    { rewrite Hsplit in Hnodup. apply NoDup_app in Hnodup as (_ & Hdisj & _).
      intros Hin. apply (Hdisj _ Hin), elem_of_cons. auto. }
    assert (Hout : target_to_rule self !! output = Some rule).
    { apply Howns. rewrite Hsplit. apply elem_of_app. right.
      apply elem_of_cons. auto. }
    assert (Herr : ∀ (s3 : Session),
      (∀ t, is_Some (target_to_rule self !! t) →
            count (is_cook t) (trace s3)
            = count (is_cook t) (trace s2) + (if bool_decide (output = t) then 1 else 0)) →
      ∀ t, is_Some (target_to_rule self !! t) → count (is_cook t) (trace s3) ≤ 1).
    { intros s3 H3 t [r Hr]. rewrite H3 by eauto. specialize (Hcount t r Hr).
      case_bool_decide as Ht.
      - subst t. rewrite decide_False in Hcount by done.
        simplify_eq. destruct Hcount as [_ H0]. rewrite H0 by done. lia.
      - destruct (decide (t ∈ cooked)); [lia|]. destruct Hcount. lia. }
    assert (Hnext : ∀ (s3 : Session),
      already_evaluated s3 = already_evaluated s2 →
      (∀ t, is_Some (target_to_rule self !! t) →
            count (is_cook t) (trace s3)
            = count (is_cook t) (trace s2) + (if bool_decide (output = t) then 1 else 0)) →
      ∃ cooked',
        resolved_outputs rule = cooked' ++ todo
        ∧ already_evaluated s3 !! id rule = None
        ∧ ∀ t r, target_to_rule self !! t = Some r →
            if decide (t ∈ cooked') then count (is_cook t) (trace s3) ≤ 1
            else count (is_cook t) (trace s3) ≤ 1
                 ∧ (already_evaluated s3 !! id r = None →
                    count (is_cook t) (trace s3) = 0)).
    { intros s3 Hae3 H3. exists (cooked ++ [output]).
      split; [by rewrite <-app_assoc|]. split; [by rewrite Hae3|].
      intros t r Hr. rewrite Hae3. pose proof (Herr s3 H3 t) as Hle.
      destruct (decide (t ∈ cooked ++ [output])) as [Hin|Hnin]; [eauto|].
      split; [eauto|]. rewrite H3 by eauto.
      specialize (Hcount t r Hr). rewrite decide_False in Hcount.
      - rewrite bool_decide_eq_false_2.
        + intros Hn. destruct Hcount as [_ H0]. rewrite H0 by done. lia.
        + intros <-. apply Hnin, elem_of_app. right. by apply list_elem_of_singleton.
      - intros Hin. apply Hnin, elem_of_app. auto. }
    unfold eval_output. apply wp_bind, wp_cook.
    - intros cooked0 handler w _.
      assert (Hstep : ∀ (s3 : Session) t,
        trace s3 = trace s2 ++ [EvCook output (default ∅ (db s !! fp) !! output)] →
        count (is_cook t) (trace s3)
        = count (is_cook t) (trace s2) + (if bool_decide (output = t) then 1 else 0)).
      { intros s3 t ->. by rewrite count_snoc. }
      apply wp_bind, wp_has_changed; [| |intros _];
        try (intros; apply wp_bind, wp_set_targets_eval_cache, wp_ret;
             apply Hnext; [done|]; intros; by apply Hstep).
      intros e w'. refine (Herr _ _). intros. by apply Hstep.
    - intros e w _. refine (Herr _ _). intros t _. simpl. by rewrite count_snoc. }
  intros [[b' tc'] oc] s2 (cooked & Hsplit & Hn2 & Hcount).
  apply wp_bind, wp_set_already_evaluated.
  set (s3 := (set_already_evaluated rule b' s2).2).
  assert (Hs3 : cooks_once self s3).
  { intros t r Hr. specialize (Hcount t r Hr). simpl.
    destruct (decide (t ∈ cooked)) as [Hin|Hnin].
    - split; [done|]. intros Hn.
      assert (r = rule) as ->.
      { rewrite app_nil_r in Hsplit. subst cooked. apply Howns in Hin. congruence. }
      by rewrite lookup_insert_eq in Hn.
    - destruct Hcount as [Hle H0]. split; [done|]. intros Hn. apply H0.
      destruct (decide (id rule = id r)) as [Heq|Hne].
      + rewrite Heq, lookup_insert_eq in Hn. done.
      + by rewrite lookup_insert_ne in Hn. }
  destruct (negb b'); [by apply wp_ret|].
  eapply wp_mono; [|apply execute_cooks].
  intros [r|e] s4 [Hae4 Hc4]; simpl.
  - eapply cooks_once_frame; [..|exact Hs3]; eauto.
  - intros t [r Hr]. rewrite Hc4. by apply (Hs3 t r).
Qed.

End Cooks.

Lemma Runner_init_owns_outputs (rules : list (string * ResolvedRule))
    (config : gmap string ConstTypes)
    (target_handlers : TargetHandlersBundle W Exc Fp Cooked) :
  (∀ rule, rule ∈ rules.*2 → NoDup (resolved_outputs rule)) →
  (∀ rule1 rule2 output, rule1 ∈ rules.*2 → rule2 ∈ rules.*2 →
     output ∈ resolved_outputs rule1 → output ∈ resolved_outputs rule2 →
     rule1 = rule2) →
  owns_outputs (Runner_init rules config target_handlers).
Proof.
  intros Hnodup Hdisj rule [t Ht]. apply target_to_rule_owner in Ht as [Hrule _].
  split; [auto|]. intros output Hout.
  destruct (target_to_rule_declared rules config target_handlers output rule)
    as [rule' Hrule']; [done..|].
  rewrite Hrule'. f_equal.
  apply target_to_rule_owner in Hrule' as [? ?]. eauto.
Qed.

(** ** What a successful run leaves behind *)

Lemma dict_snoc {V} (pairs : list (string * V)) k v :
  dict (pairs ++ [(k, v)]) = <[k := v]> (dict pairs).
Proof. unfold dict. by rewrite foldl_app. Qed.

Lemma dict_lookup {V} (P : string → V → Prop) (pairs : list (string * V)) k :
  (∀ k v, (k, v) ∈ pairs → P k v) → k ∈ pairs.*1 →
  ∃ v, dict pairs !! k = Some v ∧ P k v.
Proof.
  induction pairs as [|[k' v'] pairs IH] using rev_ind; intros HP Hk.
  { by apply elem_of_nil in Hk. }
  rewrite dict_snoc. destruct (decide (k' = k)) as [->|Hne].
  - exists v'. rewrite lookup_insert_eq. split; [done|].
    apply HP, elem_of_app. right. by apply list_elem_of_singleton.
  - rewrite lookup_insert_ne by done. apply IH.
    + intros k0 v0 Hin. apply HP, elem_of_app. by left.
    + rewrite fmap_app in Hk. apply elem_of_app in Hk as [Hk|Hk]; [done|].
      apply list_elem_of_singleton in Hk. simpl in Hk. congruence.
Qed.

Section FirstRun.

Variable self : Runner.
Variable obs : ResolvedTargetID → W → option Fp.
Hypothesis ids : unique_ids self.
Hypothesis owns : owns_outputs self.
Hypothesis handlers_ok : lawful_handlers (target_handlers self) obs.
Hypothesis bodies_ok : lawful_bodies self obs.
Hypothesis fingerprints_ok : distinct_fingerprints pickle_dumps sha256 self.

#[local] Abbreviation utd := (evaluated_up_to_date pickle_dumps sha256 self obs).
#[local] Abbreviation frame := (run_frame pickle_dumps sha256 self obs).

Lemma run_frame_refl (s : Session) : frame s s.
Proof. by repeat split. Qed.

Lemma run_frame_trans (s0 s1 s2 : Session) : frame s0 s1 → frame s1 s2 → frame s0 s2.
Proof.
  intros (Hae1 & Hdb1 & Hobs1 & Hc1) (Hae2 & Hdb2 & Hobs2 & Hc2).
  split; [auto|]. split; [|split; [|auto]].
  - intros rule fp Ho Hfp Hn. rewrite (Hdb2 rule fp) by done.
    apply (Hdb1 rule); [done..|].
    destruct (already_evaluated s1 !! id rule) eqn:E; [|done].
    destruct (Hae2 (id rule)) as [? Hsome]; [by rewrite E|]. congruence.
  - intros t Ht. by rewrite Hobs2, Hobs1.
Qed.

(** A step that leaves the world, the store and the evaluated rules alone. *)
Lemma run_frame_same (s0 s s' : Session) :
  world s' = world s → db s' = db s →
  already_evaluated s' = already_evaluated s →
  (∀ target, is_Some (targets_eval_cache s !! target) →
             is_Some (targets_eval_cache s' !! target)) →
  frame s0 s → frame s0 s'.
Proof.
  intros Hw Hd Hae Hc (Hae1 & Hdb1 & Hobs1 & Hc1).
  split; [|split; [|split]].
  - intros rid. rewrite Hae. apply Hae1.
  - intros rule fp. rewrite Hae, Hd. apply Hdb1.
  - intros t. rewrite Hw. apply Hobs1.
  - intros t Ht. apply Hc, Hc1, Ht.
Qed.

Lemma up_to_date_keep rule w d ae w' d' ae' :
  up_to_date pickle_dumps sha256 self obs rule w d ae →
  (∀ target, target ∈ resolved_outputs rule
             ∨ (target ∈ resolved_inputs rule
                ∧ target_to_rule self !! target = None) →
             obs target w' = obs target w) →
  (∀ fp, _compute_run_fingerprint pickle_dumps sha256 self rule = Returns fp →
         d' !! fp = d !! fp) →
  (∀ rule_id, is_Some (ae !! rule_id) → is_Some (ae' !! rule_id)) →
  up_to_date pickle_dumps sha256 self obs rule w' d' ae'.
Proof.
  intros (fp & previous & Hfp & Hd & Hin & Hout) Hobs Hdb Hae.
  exists fp, previous. split; [done|]. split; [by rewrite Hdb|]. split.
  - intros input Hinput. specialize (Hin input Hinput).
    destruct (target_to_rule self !! input) as [sub|] eqn:Hsub; [auto|].
    destruct Hin as [(f & Hf & Ho) Hcook]. split; [|done].
    exists f. split; [done|]. rewrite Hobs; auto.
  - intros output Houtput. destruct (Hout output Houtput) as [(f & Hf & Ho) Hcook].
    split; [|done]. exists f. split; [done|]. rewrite Hobs; auto.
Qed.

Lemma utd_same skip (s s' : Session) :
  world s' = world s → db s' = db s →
  already_evaluated s' = already_evaluated s →
  utd skip s → utd skip s'.
Proof.
  intros Hw Hd Hae Hs rule Ho Hskip Hsome. rewrite Hw, Hd, Hae.
  apply Hs; [done..|]. by rewrite <-Hae.
Qed.

(** The targets of a rule other than [rule] are no outputs of [rule]. *)
Lemma not_output_of_other rule other target :
  owned_rule self rule → owned_rule self other → other ≠ rule →
  target ∈ resolved_outputs other
  ∨ (target ∈ resolved_inputs other ∧ target_to_rule self !! target = None) →
  target ∉ resolved_outputs rule.
Proof.
  intros Hr Ho Hne Ht Hin.
  destruct (owns rule Hr) as [_ Hrule]. apply Hrule in Hin.
  destruct Ht as [Ht|[_ Ht]]; [|congruence].
  destruct (owns other Ho) as [_ Hother]. apply Hother in Ht. congruence.
Qed.

Lemma execute_first rule fp b tc oc s :
  owned_rule self rule →
  _compute_run_fingerprint pickle_dumps sha256 self rule = Returns fp →
  utd (λ r, r = rule) s →
  cache_cooked self s →
  recordable self rule tc s →
  inputs_seen self (resolved_inputs rule) tc s →
  outputs_seen self (resolved_outputs rule) tc →
  cooked_as (target_handlers self) (resolved_outputs rule) oc →
  wp (execute self rule fp b tc oc) s
     (execute_post pickle_dumps sha256 self obs rule s).
Proof.
  intros Howned Hfp Hutd Hcache Hrec Hins Houts Hoc. unfold execute.
  apply wp_bind.
  apply wp_for_each with (I := λ todo acc s', s' = s ∧ ∃ seen,
    resolved_inputs rule = seen ++ todo
    ∧ cooked_as (target_handlers self) seen acc).
  { split; [done|]. exists []. split; [done|]. constructor. }
  { intros t l acc s1 (-> & seen & Hsplit & Hseen). unfold collect_input.
    apply wp_bind, wp_targets_eval_cache_get; [|done].
    intros [[cooked handler] changed] Hentry. apply wp_ret.
    split; [done|]. exists (seen ++ [t]). split; [by rewrite <-app_assoc|].
    apply Forall2_app; [done|]. constructor; [|constructor].
    exists handler. by eapply Hcache. }
  intros ins s1 (-> & seen & Hsplit & Hic). rewrite app_nil_r in Hsplit.
  subst seen. apply wp_bind, wp_call_rule_body; [|done].
  intros w Hbody.
  destruct (bodies_ok rule oc ins (world s) w Howned Hoc Hic Hbody)
    as [Hkeep Hthere].
  set (s2 := (log (EvRuleReturned (id rule)) _).2).
  (* the other rules are still up to date *)
  assert (Hutd2 : utd (λ r, r = rule) s2).
  { intros other Ho Hne Hsome. simpl in *.
    eapply up_to_date_keep; [by apply Hutd| |done|done].
    intros t Ht. apply Hkeep. by eapply not_output_of_other. }
  apply wp_bind.
  apply wp_for_each with (I := λ todo fps s',
    world s' = w ∧ db s' = db s ∧ already_evaluated s' = already_evaluated s
    ∧ cache_cooked self s'
    ∧ (∀ t, is_Some (targets_eval_cache s !! t) →
            is_Some (targets_eval_cache s' !! t))
    ∧ (∀ t f, (t, f) ∈ fps → obs t w = Some f)
    ∧ ∃ recorded, tc = recorded ++ todo ∧ ∀ t, t ∈ recorded → t ∈ fps.*1).
  { split; [done|]. split; [done|]. split; [done|]. split; [done|].
    split; [done|]. split; [intros t f Hin; by apply elem_of_nil in Hin|].
    exists []. split; [done|]. intros t Hin. by apply elem_of_nil in Hin. }
  { intros t todo fps s3 (Hw & Hd & Hae & Hc & Hmono & Hfps & recorded & Htc & Hrecorded).
    unfold record_fingerprint.
    apply wp_bind, wp_targets_eval_cache_get; [|done].
    intros [[cooked handler] changed] Hentry. simpl.
    assert (Hcooked : cooked_for (target_handlers self) t cooked handler)
      by (by eapply Hc).
    pose proof (fingerprint_observes _ _ handlers_ok t cooked handler (world s3)
                  Hcooked) as Hobs.
    apply wp_bind, wp_call; [|done]. intros fp' w' Hcall.
    rewrite Hobs in Hcall. injection Hcall as <- <-.
    assert (Ht : t ∈ tc).
    { rewrite Htc. apply elem_of_app. right. apply elem_of_cons. auto. }
    destruct (Hthere t) as [f Hf]; [by apply Hrec|].
    apply wp_bind, wp_log, wp_bind, wp_set_targets_eval_cache, wp_ret. simpl.
    rewrite Hw, Hf. split; [done|]. split; [done|]. split; [done|]. split; [|split; [|split]].
    - intros t' c' h' b'. simpl. destruct (decide (t = t')) as [<-|Hne].
      + rewrite lookup_insert_eq. intros ?; by simplify_eq.
      + rewrite lookup_insert_ne by done. apply Hc.
    - intros t' Hsome. simpl. destruct (decide (t = t')) as [<-|Hne].
      + rewrite lookup_insert_eq. eauto.
      + rewrite lookup_insert_ne by done. auto.
    - intros t' f' [Hin|Hin]%elem_of_app; [auto|].
      apply list_elem_of_singleton in Hin. by simplify_eq.
    - exists (recorded ++ [t]). split; [by rewrite <-app_assoc|].
      intros t' Hin. rewrite fmap_app. apply elem_of_app.
      apply elem_of_app in Hin as [Hin|Hin]; [left; auto|right].
      apply list_elem_of_singleton in Hin as ->. by apply list_elem_of_singleton. }
  intros fps s3 (Hw & Hd & Hae & Hc & Hmono & Hfps & recorded & Htc & Hrecorded).
  rewrite app_nil_r in Htc. subst recorded.
  apply wp_bind, wp_set_rule_previous_run, wp_ret. simpl.
  assert (Hother : ∀ other fp', owned_rule self other → other ≠ rule →
    _compute_run_fingerprint pickle_dumps sha256 self other = Returns fp' →
    <[fp := dict fps]> (db s3) !! fp' = db s !! fp').
  { intros other fp' Ho Hne Hfp'. rewrite lookup_insert_ne, Hd; [done|].
    intros <-. apply Hne. by eapply fingerprints_ok. }
  split; [|split; [done|]; split; [done|]; split; [done|]; split; [|done]].
  2:{ intros t Ht. rewrite Hw. apply Hkeep. intros Hin.
      destruct (owns rule Howned) as [_ Hrule]. apply Hrule in Hin. congruence. }
  intros other Ho _ Hsome. simpl in *. rewrite Hw, Hae.
  destruct (decide_rel (=) (id other) (id rule)) as [Hid|Hid].
  - apply ids in Hid; [|done..]. subst other.
    exists fp, (dict fps). split; [done|]. split; [by rewrite lookup_insert_eq|].
    split.
    + intros input Hinput. specialize (Hins input Hinput).
      destruct (target_to_rule self !! input); [done|].
      destruct Hins as [Hin Hck]. split; [|done].
      apply (dict_lookup (λ t f, obs t w = Some f)); auto.
    + intros output Houtput. destruct (Houts output Houtput) as [Hin Hck].
      split; [|done]. apply (dict_lookup (λ t f, obs t w = Some f)); auto.
  - assert (other ≠ rule) as Hne by congruence.
    eapply up_to_date_keep; [apply (Hutd2 other); try done| | |done].
    + simpl. by rewrite <-Hae.
    + done.
    + intros fp' Hfp'. simpl. eapply Hother; eauto.
Qed.

Lemma cache_cooked_insert target cooked handler changed (s s' : Session) :
  cache_cooked self s →
  cooked_for (target_handlers self) target cooked handler →
  targets_eval_cache s' = <[target := (cooked, handler, changed)]> (targets_eval_cache s) →
  cache_cooked self s'.
Proof.
  intros Hs Hc Heq t c h b. rewrite Heq.
  destruct (decide (target = t)) as [<-|Hne].
  - rewrite lookup_insert_eq. intros ?; by simplify_eq.
  - rewrite lookup_insert_ne by done. apply Hs.
Qed.

Lemma is_Some_insert_keep {V} (m : gmap string V) k v t :
  is_Some (m !! t) → is_Some (<[k := v]> m !! t).
Proof.
  intros Hs. destruct (decide (k = t)) as [<-|Hne].
  - rewrite lookup_insert_eq. eauto.
  - by rewrite lookup_insert_ne.
Qed.

(** Step 2 of [_run] for an input without owning rule, once cooked by an
    on-disk handler and asked for changes. *)
Lemma input_evaluated (rule : ResolvedRule) previous_run input seen todo
    flag targets cooked (handler : BaseTargetHandler W Exc Fp Cooked) changed
    (s s1 s3 : Session) :
  resolved_inputs rule = seen ++ input :: todo →
  target_to_rule self !! input = None →
  cooked_for (target_handlers self) input cooked handler →
  ON_DISK_TARGET handler = true →
  world s3 = world s1 → db s3 = db s1 →
  already_evaluated s3 = already_evaluated s1 →
  targets_eval_cache s3 =
    <[input := (cooked, handler, changed)]> (targets_eval_cache s1) →
  (changed = false → settled obs input (default ∅ previous_run) (world s1)) →
  utd (λ _, False) s1 ∧ cache_cooked self s1
  ∧ frame s s1 ∧ already_evaluated s1 !! id rule = None
  ∧ inputs_seen self seen targets s1
  ∧ (∀ t, t ∈ targets →
       (t ∈ resolved_inputs rule ∧ target_to_rule self !! t = None)
       ∧ is_Some (targets_eval_cache s1 !! t))
  ∧ still_settled obs previous_run flag targets s1 →
  utd (λ _, False) s3 ∧ cache_cooked self s3
  ∧ frame s s3 ∧ already_evaluated s3 !! id rule = None
  ∧ inputs_seen self (seen ++ [input]) (targets ++ [input]) s3
  ∧ (∀ t, t ∈ targets ++ [input] →
       (t ∈ resolved_inputs rule ∧ target_to_rule self !! t = None)
       ∧ is_Some (targets_eval_cache s3 !! t))
  ∧ still_settled obs previous_run (flag || changed) (targets ++ [input]) s3.
Proof.
  intros Hsplit Hnone Hcooked Hdisk Hw Hd Hae Hc Hsettled
    (Hutd & Hcache & Hframe & Hrule & Hseen & Htargets & Hstill).
  split; [by eapply utd_same|].
  split; [by eapply cache_cooked_insert|].
  split.
  { eapply run_frame_same; [done..| |done].
    intros t Ht. rewrite Hc. by apply is_Some_insert_keep. }
  split; [by rewrite Hae|]. split; [|split].
  - intros i [Hi|Hi]%elem_of_app.
    + specialize (Hseen i Hi). destruct (target_to_rule self !! i).
      * by rewrite Hae.
      * destruct Hseen as [Hin Hck]. split; [|done]. apply elem_of_app. auto.
    + apply list_elem_of_singleton in Hi as ->. rewrite Hnone.
      split; [apply elem_of_app; right; by apply list_elem_of_singleton|eauto].
  - intros t [Ht|Ht]%elem_of_app.
    + destruct (Htargets t Ht) as [? ?]. split; [done|].
      rewrite Hc. by apply is_Some_insert_keep.
    + apply list_elem_of_singleton in Ht as ->. split.
      * split; [|done]. rewrite Hsplit. apply elem_of_app. right.
        apply elem_of_cons. auto.
      * rewrite Hc, lookup_insert_eq. eauto.
  - intros Hflag. apply orb_false_iff in Hflag as [-> ->].
    destruct Hstill as [Hprev Hall]; [done|]. split; [done|].
    intros t [Ht|Ht]%elem_of_app; rewrite Hw; [auto|].
    apply list_elem_of_singleton in Ht as ->. auto.
Qed.

(** Step 3 of [_run] for an output, once cooked and asked for changes. *)
Lemma output_evaluated (rule : ResolvedRule) previous_run output seen todo
    flag targets cooked (handler : BaseTargetHandler W Exc Fp Cooked) changed
    (s s1 s3 : Session) :
  resolved_outputs rule = seen ++ output :: todo →
  cooked_for (target_handlers self) output cooked handler →
  world s3 = world s1 → db s3 = db s1 →
  already_evaluated s3 = already_evaluated s1 →
  targets_eval_cache s3 =
    <[output := (cooked, handler, changed)]> (targets_eval_cache s1) →
  (changed = false → settled obs output (default ∅ previous_run) (world s1)) →
  utd (λ _, False) s1 ∧ cache_cooked self s1
  ∧ frame s s1 ∧ already_evaluated s1 !! id rule = None
  ∧ inputs_seen self (resolved_inputs rule) targets s1
  ∧ outputs_seen self seen targets
  ∧ recordable self rule targets s1
  ∧ still_settled obs previous_run flag targets s1 →
  utd (λ _, False) s3 ∧ cache_cooked self s3
  ∧ frame s s3 ∧ already_evaluated s3 !! id rule = None
  ∧ inputs_seen self (resolved_inputs rule) (targets ++ [output]) s3
  ∧ outputs_seen self (seen ++ [output]) (targets ++ [output])
  ∧ recordable self rule (targets ++ [output]) s3
  ∧ still_settled obs previous_run (flag || changed) (targets ++ [output]) s3.
Proof.
  intros Hsplit Hcooked Hw Hd Hae Hc Hsettled
    (Hutd & Hcache & Hframe & Hrule & Hins & Houts & Hrec & Hstill).
  split; [by eapply utd_same|].
  split; [by eapply cache_cooked_insert|].
  split.
  { eapply run_frame_same; [done..| |done].
    intros t Ht. rewrite Hc. by apply is_Some_insert_keep. }
  split; [by rewrite Hae|]. split; [|split; [|split]].
  - intros i Hi. specialize (Hins i Hi). destruct (target_to_rule self !! i).
    + by rewrite Hae.
    + destruct Hins as [Hin Hck]. split; [|done]. apply elem_of_app. auto.
  - intros o [Ho|Ho]%elem_of_app.
    + destruct (Houts o Ho) as [Hin Hck]. split; [|done]. apply elem_of_app. auto.
    + apply list_elem_of_singleton in Ho as ->.
      split; [apply elem_of_app; right; by apply list_elem_of_singleton|eauto].
  - intros t [Ht|Ht]%elem_of_app.
    + destruct (Hrec t Ht) as [? ?]. split; [done|].
      rewrite Hc. by apply is_Some_insert_keep.
    + apply list_elem_of_singleton in Ht as ->. split.
      * left. rewrite Hsplit. apply elem_of_app. right. apply elem_of_cons. auto.
      * rewrite Hc, lookup_insert_eq. eauto.
  - intros Hflag. apply orb_false_iff in Hflag as [-> ->].
    destruct Hstill as [Hprev Hall]; [done|]. split; [done|].
    intros t [Ht|Ht]%elem_of_app; rewrite Hw; [auto|].
    apply list_elem_of_singleton in Ht as ->. auto.
Qed.

(** Cooking and asking for changes only read the world; a target found
    unchanged is settled. *)
Lemma cook_lawful target hint (s1 : Session)
    (Q : Outcome (Cooked * BaseTargetHandler W Exc Fp Cooked) → Session → Prop) :
  (∀ cooked handler (s2 : Session),
     cooked_for (target_handlers self) target cooked handler →
     world s2 = world s1 → db s2 = db s1 →
     already_evaluated s2 = already_evaluated s1 →
     targets_eval_cache s2 = targets_eval_cache s1 →
     Q (Returns (cooked, handler)) s2) →
  (∀ e s2, Q (Raises e) s2) →
  wp (cook self target hint) s1 Q.
Proof.
  intros HQ Herr. apply wp_cook; [|auto].
  intros cooked handler w Hcook.
  pose proof (cook_read_only _ _ handlers_ok _ _ _ _ _ Hcook) as ->.
  apply HQ; try done. by exists hint, (world s1), (world s1).
Qed.

Lemma has_changed_lawful target cooked
    (handler : BaseTargetHandler W Exc Fp Cooked) hint (s2 : Session)
    (Q : Outcome bool → Session → Prop) :
  cooked_for (target_handlers self) target cooked handler →
  (∀ changed (s3 : Session),
     world s3 = world s2 → db s3 = db s2 →
     already_evaluated s3 = already_evaluated s2 →
     targets_eval_cache s3 = targets_eval_cache s2 →
     (changed = false → ∃ fp, hint = Some fp ∧ obs target (world s2) = Some fp) →
     Q (Returns changed) s3) →
  (∀ e s3, Q (Raises e) s3) →
  wp (has_changed handler cooked hint) s2 Q.
Proof.
  intros Hcooked HQ Herr. apply wp_has_changed_eq.
  - intros fp changed w Hhint Hask.
    pose proof (need_rebuild_read_only _ _ handlers_ok _ _ _ _ _ _ _ Hcooked Hask)
      as ->.
    apply HQ; try done. intros ->. exists fp. split; [done|].
    by eapply (law_R2 _ _ handlers_ok).
  - auto.
  - intros Hhint. apply HQ; try done.
Qed.

Lemma _run_first fuel : ∀ rule s,
  owned_rule self rule →
  utd (λ _, False) s →
  cache_cooked self s →
  wp (_run pickle_dumps sha256 self fuel rule) s
     (first_run_post pickle_dumps sha256 self obs rule s).
Proof.
  induction fuel as [|fuel IH]; intros rule s Howned Hutd Hcache;
    [by apply wp_raise|].
  rewrite _run_unfold. apply wp_bind, wp_gets.
  destruct (already_evaluated s !! id rule) as [b|] eqn:Hrule.
  { apply wp_ret. split; [done|]. split; [done|].
    split; [by rewrite Hrule; eauto|]. apply run_frame_refl. }
  apply wp_bind, wp_lift.
  destruct (_compute_run_fingerprint _ _ _ _) as [fp|e] eqn:Hfp; [|done].
  apply wp_bind, wp_fetch_rule_previous_run. cbv zeta.
  set (previous_run := db s !! fp).
  apply wp_bind.
  (* step 2: the inputs *)
  apply wp_for_each with (I := λ todo acc s', ∃ seen,
    resolved_inputs rule = seen ++ todo
    ∧ utd (λ _, False) s' ∧ cache_cooked self s'
    ∧ frame s s' ∧ already_evaluated s' !! id rule = None
    ∧ inputs_seen self seen acc.2 s'
    ∧ (∀ t, t ∈ acc.2 →
         (t ∈ resolved_inputs rule ∧ target_to_rule self !! t = None)
         ∧ is_Some (targets_eval_cache s' !! t))
    ∧ still_settled obs previous_run acc.1 acc.2 s').
  { exists []. split; [done|]. split; [done|]. split; [done|].
    split; [apply run_frame_refl|]. split; [done|].
    split; [intros i Hi; by apply elem_of_nil in Hi|].
    split; [intros i Hi; by apply elem_of_nil in Hi|].
    intros Hflag. simpl in Hflag. apply bool_decide_eq_false in Hflag.
    split; [by destruct previous_run; eauto|].
    intros i Hi. by apply elem_of_nil in Hi. }
  { intros input todo [flag targets] s1 (seen & Hsplit & Hinv). simpl in Hinv.
    unfold eval_input.
    destruct (target_to_rule self !! input) as [sub|] eqn:Hsub.
    - destruct Hinv as (Hutd1 & Hcache1 & Hframe1 & Hrule1 & Hseen & Htargets & Hstill).
      assert (Hinput : input ∈ resolved_inputs rule).
      { rewrite Hsplit. apply elem_of_app. right. apply elem_of_cons. auto. }
      apply wp_bind. eapply wp_mono; [|apply wp_and;
        [apply (IH sub s1); [by exists input|done..]
        |by apply (_run_input_owner self ids fuel rule input sub)]].
      intros [rebuilt|e] s2 [Hpost Hrule2]; [|done]. apply wp_ret.
      destruct Hpost as (Hutd2 & Hcache2 & Hsub2 & Hframe2).
      exists (seen ++ [input]). split; [by rewrite <-app_assoc|]. simpl.
      split; [done|]. split; [done|].
      split; [by eapply run_frame_trans|]. split; [done|].
      destruct Hframe2 as (Hae2 & Hdb2 & Hobs2 & Hc2). split; [|split].
      + intros i [Hi|Hi]%elem_of_app.
        * specialize (Hseen i Hi). destruct (target_to_rule self !! i); auto.
        * apply list_elem_of_singleton in Hi as ->. by rewrite Hsub.
      + intros t Ht. destruct (Htargets t Ht) as [? ?]. auto.
      + intros Hflag. apply orb_false_iff in Hflag as [-> ->].
        destruct Hstill as [Hprev Hall]; [done|]. split; [done|].
        intros t Ht. destruct (Hall t Ht) as (f & Hf & Ho).
        exists f. split; [done|]. rewrite Hobs2; [done|]. by apply Htargets.
    - apply wp_bind, cook_lawful; [|done].
      intros cooked handler s2 Hcooked Hw2 Hd2 Hae2 Hc2.
      destruct (ON_DISK_TARGET handler) eqn:Hdisk; [|done]. simpl.
      apply wp_bind, (has_changed_lawful input); [done| |done].
      intros changed s3 Hw3 Hd3 Hae3 Hc3 Hsettled.
      apply wp_bind, wp_set_targets_eval_cache, wp_ret.
      exists (seen ++ [input]). split; [by rewrite <-app_assoc|].
      apply (input_evaluated rule previous_run input seen todo flag targets
               cooked handler changed s s1
               (set_targets_eval_cache input (cooked, handler, changed) s3).2);
        try done; simpl.
      + congruence.
      + congruence.
      + congruence.
      + congruence.
      + intros Hch. destruct (Hsettled Hch) as (f & Hf & Ho).
        exists f. split; [done|]. congruence. }
  intros [flag targets] s1 (seen & Hsplit & Hutd1 & Hcache1 & Hframe1 & Hrule1
                            & Hseen & Htargets & Hstill).
  simpl in *. rewrite app_nil_r in Hsplit. subst seen.
  apply wp_bind.
  (* step 3: the outputs *)
  apply wp_for_each with (I := λ todo acc s', ∃ seen,
    resolved_outputs rule = seen ++ todo
    ∧ cooked_as (target_handlers self) seen acc.2
    ∧ utd (λ _, False) s' ∧ cache_cooked self s'
    ∧ frame s s' ∧ already_evaluated s' !! id rule = None
    ∧ inputs_seen self (resolved_inputs rule) acc.1.2 s'
    ∧ outputs_seen self seen acc.1.2
    ∧ recordable self rule acc.1.2 s'
    ∧ still_settled obs previous_run acc.1.1 acc.1.2 s').
  { exists []. split; [done|]. simpl. split; [constructor|].
    split; [done|]. split; [done|].
    split; [done|]. split; [done|]. split; [done|].
    split; [intros i Hi; by apply elem_of_nil in Hi|].
    split; [|done]. intros t Ht. destruct (Htargets t Ht). auto. }
  { intros output todo [[flag' targets'] oc] s2 (seen & Hsplit & Hoc & Hinv).
    simpl in Hinv. unfold eval_output.
    apply wp_bind, cook_lawful; [|done].
    intros cooked handler s3 Hcooked Hw3 Hd3 Hae3 Hc3.
    apply wp_bind, (has_changed_lawful output); [done| |done].
    intros changed s4 Hw4 Hd4 Hae4 Hc4 Hsettled.
    apply wp_bind, wp_set_targets_eval_cache, wp_ret.
    exists (seen ++ [output]). split; [by rewrite <-app_assoc|].
    split.
    { apply Forall2_app; [done|]. constructor; [eauto|constructor]. }
    apply (output_evaluated rule previous_run output seen todo flag' targets'
             cooked handler changed s s2
             (set_targets_eval_cache output (cooked, handler, changed) s4).2);
      try done; simpl.
    + congruence.
    + congruence.
    + congruence.
    + congruence.
    + intros Hch. destruct (Hsettled Hch) as (f & Hf & Ho).
      exists f. split; [done|]. congruence. }
  clear Hutd1 Hcache1 Hframe1 Hrule1 Hseen Htargets Hstill.
  intros [[flag' targets'] oc] s2 (seen & Hsplit & Hoc & Hutd2 & Hcache2 & Hframe2
                                  & Hrule2 & Hins & Houts & Hrec & Hstill).
  simpl in *. rewrite app_nil_r in Hsplit. subst seen.
  apply wp_bind, wp_set_already_evaluated.
  set (s3 := (set_already_evaluated rule flag' s2).2).
  assert (Hmono3 : ∀ rid, is_Some (already_evaluated s2 !! rid) →
                          is_Some (already_evaluated s3 !! rid)).
  { intros rid Hs. simpl. by apply is_Some_insert_keep. }
  assert (Hothers : utd (λ r, r = rule) s3).
  { intros other Ho Hne Hsome. simpl in Hsome.
    rewrite lookup_insert_ne in Hsome.
    - eapply up_to_date_keep; [apply Hutd2; [done|by intros []|done]|done..].
    - intros Hid. apply Hne. symmetry. by apply ids. }
  assert (Hins3 : inputs_seen self (resolved_inputs rule) targets' s3).
  { intros i Hi. specialize (Hins i Hi).
    destruct (target_to_rule self !! i); auto. }
  assert (Hframe3 : frame s2 s3).
  { split; [done|]. split; [done|]. split; done. }
  destruct flag'; simpl.
  - (* step 5 and 6 *)
    eapply wp_mono; [|by apply (execute_first rule fp)].
    intros [r|e] s4 Hpost; [|done].
    destruct Hpost as (Hutd4 & Hcache4 & Hae4 & Hdb4 & Hobs4 & Hc4).
    split; [done|]. split; [done|].
    split; [rewrite Hae4; simpl; rewrite lookup_insert_eq; eauto|].
    eapply run_frame_trans; [exact Hframe2|].
    eapply run_frame_trans; [exact Hframe3|].
    split; [by rewrite Hae4|]. split; [|done].
    intros other fp' Ho Hfp' Hn. apply (Hdb4 other); [done| |done].
    intros ->. rewrite Hae4 in Hn. simpl in Hn. by rewrite lookup_insert_eq in Hn.
  - (* nothing to rebuild *)
    apply wp_ret. split; [|split; [done|]; split;
      [simpl; rewrite lookup_insert_eq; eauto|by eapply run_frame_trans]].
    intros other Ho _ Hsome.
    destruct (decide_rel (=) (id other) (id rule)) as [Hid|Hid].
    + apply ids in Hid; [|done..]. subst other.
      destruct Hstill as [[previous Hprev] Hall]; [done|].
      exists fp, previous. split; [done|]. split.
      { simpl. destruct Hframe2 as (_ & Hdb2 & _). by rewrite (Hdb2 rule fp). }
      rewrite Hprev in Hall. simpl in Hall. split.
      * intros input Hinput. specialize (Hins3 input Hinput).
        destruct (target_to_rule self !! input); [done|].
        destruct Hins3 as [Hin Hck]. split; [|done]. by apply Hall.
      * intros output Houtput. destruct (Houts output Houtput) as [Hin Hck].
        split; [|done]. by apply Hall.
    + apply Hothers; [done| |done]. congruence.
Qed.

End FirstRun.


(** ** Running again *)

Lemma eval_input_unowned_evaluated (self : Runner) _run rule prev input acc s :
  target_to_rule self !! input = None →
  wp (eval_input self _run rule prev input acc) s
     (λ _ s', already_evaluated s' = already_evaluated s).
Proof.
  intros Hnone. unfold eval_input. destruct acc as [flag targets]. rewrite Hnone.
  apply wp_bind, wp_cook; [|done]. intros cooked handler w _.
  destruct (negb (ON_DISK_TARGET handler)); [done|].
  apply wp_bind, wp_has_changed; [| |intros _];
    try (intros; apply wp_bind, wp_set_targets_eval_cache; by apply wp_ret).
  done.
Qed.

Lemma eval_outputs_evaluated (self : Runner) prev outputs acc s :
  wp (for_each (eval_output self prev) outputs acc) s
     (λ _ s', already_evaluated s' = already_evaluated s).
Proof.
  apply wp_for_each with (I := λ _ _ s', already_evaluated s' = already_evaluated s);
    [done| |done].
  intros output todo [[flag targets] oc] s1 H1. unfold eval_output.
  apply wp_bind, wp_cook; [|done]. intros cooked handler w _.
  apply wp_bind, wp_has_changed; [| |intros _];
    try (intros; apply wp_bind, wp_set_targets_eval_cache; by apply wp_ret).
  done.
Qed.

Lemma _run_evaluated (self : Runner) fuel : ∀ rule s,
  wp (_run pickle_dumps sha256 self fuel rule) s
     (λ r s', (∀ rule_id, is_Some (already_evaluated s !! rule_id) →
                          is_Some (already_evaluated s' !! rule_id))
              ∧ (∀ b, r = Returns b → is_Some (already_evaluated s' !! id rule))).
Proof.
  induction fuel as [|fuel IH]; intros rule s; [by apply wp_raise|].
  rewrite _run_unfold. apply wp_bind, wp_gets.
  destruct (already_evaluated s !! id rule) as [b|] eqn:Hrule.
  { apply wp_ret. split; [done|]. intros _ _. by rewrite Hrule. }
  apply wp_bind, wp_lift.
  destruct (_compute_run_fingerprint _ _ _ _) as [fp|e] eqn:Hfp; [|done].
  apply wp_bind, wp_fetch_rule_previous_run. cbv zeta. apply wp_bind.
  apply wp_for_each with (I := λ _ _ s',
    ∀ rule_id, is_Some (already_evaluated s !! rule_id) →
               is_Some (already_evaluated s' !! rule_id)); [done| |].
  { intros input todo [flag targets] s1 H1.
    destruct (target_to_rule self !! input) as [sub|] eqn:Hsub.
    - unfold eval_input. rewrite Hsub. apply wp_bind.
      eapply wp_mono; [|apply IH].
      intros [rebuilt|e] s2 [Hmono _]; [apply wp_ret|split; [|done]]; auto.
    - eapply wp_mono; [|by apply eval_input_unowned_evaluated].
      intros [acc|e] s2 Hae; [|split; [|done]]; by rewrite Hae. }
  intros [flag targets] s1 H1. apply wp_bind.
  eapply wp_mono; [|apply eval_outputs_evaluated].
  intros [[[flag' targets'] oc]|e] s2 Hae2; [|split; [by rewrite Hae2|done]].
  apply wp_bind, wp_set_already_evaluated.
  assert (Hmono3 : ∀ rule_id, is_Some (already_evaluated s !! rule_id) →
    is_Some (already_evaluated (set_already_evaluated rule flag' s2).2 !! rule_id)).
  { intros rid Hs. simpl. rewrite Hae2.
    destruct (decide (id rule = rid)) as [<-|Hne].
    - rewrite lookup_insert_eq. eauto.
    - rewrite lookup_insert_ne by done. auto. }
  assert (Hrule3 : is_Some (already_evaluated
                              (set_already_evaluated rule flag' s2).2 !! id rule)).
  { simpl. rewrite lookup_insert_eq. eauto. }
  destruct (negb flag'); [by apply wp_ret|].
  eapply wp_mono; [|apply execute_already_evaluated].
  intros r s4 Hae4. rewrite Hae4. done.
Qed.

Lemma eval_inputs_evaluated (self : Runner) fuel rule prev inputs acc s :
  wp (for_each (eval_input self (_run pickle_dumps sha256 self fuel) rule prev)
               inputs acc) s
     (λ _ s', ∀ rule_id, is_Some (already_evaluated s !! rule_id) →
                         is_Some (already_evaluated s' !! rule_id)).
Proof.
  apply wp_for_each with (I := λ _ _ s',
    ∀ rule_id, is_Some (already_evaluated s !! rule_id) →
               is_Some (already_evaluated s' !! rule_id)); [done| |done].
  intros input todo [flag targets] s1 H1.
  destruct (target_to_rule self !! input) as [sub|] eqn:Hsub.
  - unfold eval_input. rewrite Hsub. apply wp_bind.
    eapply wp_mono; [|apply _run_evaluated].
    intros [rebuilt|e] s2 [Hmono _]; [apply wp_ret|]; auto.
  - eapply wp_mono; [|by apply eval_input_unowned_evaluated].
    intros [acc'|e] s2 Hae; by rewrite Hae.
Qed.

Lemma cook_Returns (self : Runner) target hint (s : Session) ch w :
  cook_target (target_handlers self) target hint (world s) = (Returns ch, w) →
  cook self target hint s
  = (Returns ch, set_world w (log (EvCook target hint) s).2).
Proof.
  intros H. unfold cook, mbind, M_bind, call. simpl. by rewrite H.
Qed.

Lemma has_changed_Returns (handler : BaseTargetHandler W Exc Fp Cooked)
    cooked fp (s : Session) b w :
  need_rebuild handler cooked fp (world s) = (Returns b, w) →
  has_changed handler cooked (Some fp) s = (Returns b, set_world w s).
Proof. intros H. unfold has_changed, call. by rewrite H. Qed.

Section SecondRun.

Variable self : Runner.
Variable obs : ResolvedTargetID → W → option Fp.
Variable w1 : W.
Variable d1 : gmap bytes (gmap string Fp).
Variable evaluated1 : gmap string bool.
Hypothesis handlers_ok : lawful_handlers (target_handlers self) obs.
Hypothesis built : ∀ rule, owned_rule self rule →
  is_Some (evaluated1 !! id rule) →
  up_to_date pickle_dumps sha256 self obs rule w1 d1 evaluated1.

Lemma nothing_rebuilt_keep (t t' : Session) :
  world t' = world t → db t' = db t →
  already_evaluated t' = already_evaluated t →
  count is_rule_run (trace t') = count is_rule_run (trace t) →
  nothing_rebuilt w1 d1 t → nothing_rebuilt w1 d1 t'.
Proof.
  intros Hw Hd Hae Hc (Hw1 & Hd1 & Hf & H0).
  split; [congruence|]. split; [congruence|]. split; [|congruence].
  intros rid b. rewrite Hae. apply Hf.
Qed.

(** A settled target cooks and is found unchanged. *)
Lemma cook_settled target previous cooked
    (handler : BaseTargetHandler W Exc Fp Cooked) (t : Session) :
  settled obs target previous w1 →
  cooked_for (target_handlers self) target cooked handler →
  nothing_rebuilt w1 d1 t →
  ∃ cooked2 handler2 t1 t2,
    cook self target (previous !! target) t = (Returns (cooked2, handler2), t1)
    ∧ has_changed handler2 cooked2 (previous !! target) t1 = (Returns false, t2)
    ∧ ON_DISK_TARGET handler2 = ON_DISK_TARGET handler
    ∧ nothing_rebuilt w1 d1 t2
    ∧ already_evaluated t2 = already_evaluated t.
Proof.
  intros (f & Hf & Hobs) (hint0 & w0 & w0' & Hcook0) Hnr.
  destruct (cook_stable _ _ handlers_ok _ _ _ _ _ _ Hcook0 (Some f) w1)
    as (cooked2 & handler2 & Hcook2 & Hdisk).
  assert (Hcooked2 : cooked_for (target_handlers self) target cooked2 handler2)
    by (by exists (Some f), w1, w1).
  pose proof (law_R2_converse _ _ handlers_ok _ _ _ _ _ Hcooked2 Hobs) as Hask.
  destruct Hnr as (Hw & Hd & Hfalse & H0).
  rewrite Hf. rewrite <-Hw in Hcook2.
  eexists cooked2, handler2, _, _.
  split; [by apply cook_Returns|].
  split; [apply has_changed_Returns; simpl; rewrite Hw; exact Hask|].
  split; [done|]. split; [|done].
  split; [simpl; congruence|]. split; [done|]. split; [done|].
  simpl. rewrite count_snoc. simpl. lia.
Qed.

Lemma eval_input_settled _run rule previous input flag targets cooked
    (handler : BaseTargetHandler W Exc Fp Cooked) (t : Session) :
  target_to_rule self !! input = None →
  settled obs input previous w1 →
  cooked_for (target_handlers self) input cooked handler →
  ON_DISK_TARGET handler = true →
  nothing_rebuilt w1 d1 t →
  ∃ t', eval_input self _run rule previous input (flag, targets) t
        = (Returns (flag || false, targets ++ [input]), t')
        ∧ nothing_rebuilt w1 d1 t'
        ∧ already_evaluated t' = already_evaluated t.
Proof.
  intros Hnone Hsettled Hcooked Hdisk Hnr.
  destruct (cook_settled input previous cooked handler t Hsettled Hcooked Hnr)
    as (cooked2 & handler2 & t1 & t2 & Hcook & Hask & Hdisk2 & Hnr2 & Hae2).
  unfold eval_input. rewrite Hnone.
  eexists. split; [|split].
  - etrans; [apply (bind_eq _ _ _ _ _ Hcook)|]. simpl.
    rewrite Hdisk2, Hdisk. simpl.
    etrans; [apply (bind_eq _ _ _ _ _ Hask)|]. reflexivity.
  - eapply nothing_rebuilt_keep; [..|exact Hnr2]; done.
  - done.
Qed.

Lemma eval_output_settled previous output flag targets oc cooked
    (handler : BaseTargetHandler W Exc Fp Cooked) (t : Session) :
  settled obs output previous w1 →
  cooked_for (target_handlers self) output cooked handler →
  nothing_rebuilt w1 d1 t →
  ∃ oc' t', eval_output self previous output (flag, targets, oc) t
            = (Returns (flag || false, targets ++ [output], oc'), t')
            ∧ nothing_rebuilt w1 d1 t'
            ∧ already_evaluated t' = already_evaluated t.
Proof.
  intros Hsettled Hcooked Hnr.
  destruct (cook_settled output previous cooked handler t Hsettled Hcooked Hnr)
    as (cooked2 & handler2 & t1 & t2 & Hcook & Hask & Hdisk2 & Hnr2 & Hae2).
  unfold eval_output.
  eexists _, _. split; [|split].
  - etrans; [apply (bind_eq _ _ _ _ _ Hcook)|]. simpl.
    etrans; [apply (bind_eq _ _ _ _ _ Hask)|]. reflexivity.
  - eapply nothing_rebuilt_keep; [..|exact Hnr2]; done.
  - done.
Qed.

Lemma eval_outputs_again (rule : ResolvedRule) previous :
  (∀ output, output ∈ resolved_outputs rule →
     settled obs output previous w1
     ∧ ∃ cooked handler, cooked_for (target_handlers self) output cooked handler) →
  ∀ outputs, (∀ o, o ∈ outputs → o ∈ resolved_outputs rule) →
  ∀ targets oc (t : Session), nothing_rebuilt w1 d1 t →
  ∃ targets' oc' t',
    for_each (eval_output self previous) outputs (false, targets, oc) t
    = (Returns (false, targets', oc'), t')
    ∧ nothing_rebuilt w1 d1 t'
    ∧ already_evaluated t' = already_evaluated t.
Proof.
  intros Hout outputs. induction outputs as [|output outputs IH];
    intros Hsub targets oc t Hnr.
  { by eexists _, _, _. }
  destruct (Hout output) as (Hsettled & cooked & handler & Hcooked).
  { apply Hsub, elem_of_cons. auto. }
  destruct (eval_output_settled previous output false targets oc cooked handler t)
    as (oc1 & t1 & Hstep & Hnr1 & Hae1); [done..|].
  destruct (IH (λ o Ho, Hsub o (list_elem_of_further _ _ _ Ho))
               (targets ++ [output]) oc1 t1 Hnr1)
    as (targets' & oc' & t' & Hrest & Hnr' & Hae').
  exists targets', oc', t'. split; [|split; [done|congruence]].
  cbn [for_each]. etrans; [apply (bind_eq _ _ _ _ _ Hstep)|]. exact Hrest.
Qed.

Lemma same_evaluated_keep (t t' s s' : Session) :
  already_evaluated t' = already_evaluated t →
  already_evaluated s' = already_evaluated s →
  same_evaluated t s → same_evaluated t' s'.
Proof. intros Ht Hs H rid. rewrite Ht, Hs. apply H. Qed.

(** Step 2 of the second run follows step 2 of the first. *)
Lemma eval_inputs_again fuel (rule : ResolvedRule) previous1 previous :
  (∀ sub (s : Session) b s',
     owned_rule self sub →
     _run pickle_dumps sha256 self fuel sub s = (Returns b, s') →
     (∀ rid, is_Some (already_evaluated s' !! rid) → is_Some (evaluated1 !! rid)) →
     ∀ t : Session, nothing_rebuilt w1 d1 t → same_evaluated t s →
     ∃ t', _run pickle_dumps sha256 self fuel sub t = (Returns false, t')
           ∧ nothing_rebuilt w1 d1 t' ∧ same_evaluated t' s') →
  (∀ input, input ∈ resolved_inputs rule →
     match target_to_rule self !! input with
     | Some sub => is_Some (evaluated1 !! id sub)
     | None =>
         settled obs input previous w1
         ∧ ∃ cooked handler,
             cooked_for (target_handlers self) input cooked handler
             ∧ ON_DISK_TARGET handler = true
     end) →
  ∀ inputs, (∀ i, i ∈ inputs → i ∈ resolved_inputs rule) →
  ∀ acc1 (s : Session) r1 s',
    for_each (eval_input self (_run pickle_dumps sha256 self fuel) rule previous1)
             inputs acc1 s = (Returns r1, s') →
    (∀ rid, is_Some (already_evaluated s' !! rid) → is_Some (evaluated1 !! rid)) →
    ∀ targets (t : Session), nothing_rebuilt w1 d1 t → same_evaluated t s →
    ∃ targets' t',
      for_each (eval_input self (_run pickle_dumps sha256 self fuel) rule previous)
               inputs (false, targets) t = (Returns (false, targets'), t')
      ∧ nothing_rebuilt w1 d1 t' ∧ same_evaluated t' s'.
Proof.
  intros Hrec Hin inputs. induction inputs as [|input inputs IH];
    intros Hsub acc1 s r1 s' Hloop Hwithin targets t Hnr Hsame.
  { apply ret_Returns in Hloop as [_ <-]. by eexists _, _. }
  cbn [for_each] in Hloop. inv_bind Hloop.
  assert (Hwithin0 : ∀ rid, is_Some (already_evaluated s0 !! rid) →
                            is_Some (evaluated1 !! rid)).
  { intros rid Hs. apply Hwithin.
    by apply (wp_elim _ _ _ _ _ (eval_inputs_evaluated _ _ _ _ _ _ _) Hloop). }
  assert (Hinput : input ∈ resolved_inputs rule)
    by (apply Hsub, elem_of_cons; auto).
  specialize (Hin input Hinput).
  assert (∃ targets1 t1,
    eval_input self (_run pickle_dumps sha256 self fuel) rule previous input
               (false, targets) t = (Returns (false, targets1), t1)
    ∧ nothing_rebuilt w1 d1 t1 ∧ same_evaluated t1 s0)
    as (targets1 & t1 & Hstep1 & Hnr1 & Hsame1).
  { destruct (target_to_rule self !! input) as [sub|] eqn:Hown.
    - unfold eval_input in Hstep. destruct acc1 as [flag1 targets0].
      rewrite Hown in Hstep. inv_bind Hstep.
      apply ret_Returns in Hstep as [_ <-].
      destruct (Hrec sub s a0 s1) with (t := t) as (t1 & Hrun & Hnr1 & Hsame1);
        [by exists input|done..|].
      exists targets, t1. split; [|done].
      unfold eval_input. rewrite Hown.
      etrans; [apply (bind_eq _ _ _ _ _ Hrun)|]. reflexivity.
    - destruct Hin as (Hsettled & cooked & handler & Hcooked & Hdisk).
      destruct (eval_input_settled (_run pickle_dumps sha256 self fuel) rule
                  previous input false targets cooked handler t)
        as (t1 & Hstep1 & Hnr1 & Hae1); [done..|].
      exists (targets ++ [input]), t1. split; [done|]. split; [done|].
      eapply same_evaluated_keep; [done| |done].
      by apply (wp_elim _ _ _ _ _
                  (eval_input_unowned_evaluated _ _ _ _ _ _ _ Hown) Hstep). }
  destruct (IH (λ i Hi, Hsub i (list_elem_of_further _ _ _ Hi)) a s0 r1 s'
               Hloop Hwithin targets1 t1 Hnr1 Hsame1)
    as (targets' & t' & Hrest & Hnr' & Hsame').
  exists targets', t'. split; [|done].
  cbn [for_each]. etrans; [apply (bind_eq _ _ _ _ _ Hstep1)|]. exact Hrest.
Qed.

Lemma _run_again fuel : ∀ rule (s : Session) b s',
  owned_rule self rule →
  _run pickle_dumps sha256 self fuel rule s = (Returns b, s') →
  (∀ rid, is_Some (already_evaluated s' !! rid) → is_Some (evaluated1 !! rid)) →
  ∀ t : Session, nothing_rebuilt w1 d1 t → same_evaluated t s →
  ∃ t', _run pickle_dumps sha256 self fuel rule t = (Returns false, t')
        ∧ nothing_rebuilt w1 d1 t' ∧ same_evaluated t' s'.
Proof.
  induction fuel as [|fuel IH]; intros rule s b s' Howned Hrun Hwithin t Hnr Hsame;
    [done|].
  pose proof (wp_elim _ _ _ _ _ (_run_evaluated self (S fuel) rule s) Hrun)
    as [_ Hdone]. specialize (Hdone b eq_refl).
  rewrite _run_unfold in Hrun. rewrite _run_unfold.
  inv_bind Hrun. apply ret_Returns in Hstep as [<- <-].
  destruct (already_evaluated s !! id rule) as [b0|] eqn:Hrule.
  - (* evaluated before, in both runs *)
    apply ret_Returns in Hrun as [_ <-].
    destruct (proj2 (Hsame (id rule))) as [b2 Hb2]; [by rewrite Hrule|].
    destruct Hnr as (Hw & Hd & Hfalse & H0).
    pose proof (Hfalse _ _ Hb2) as ->.
    exists t. split; [|done].
    etrans; [apply bind_eq; reflexivity|]. simpl. by rewrite Hb2.
  - assert (Hrule_t : already_evaluated t !! id rule = None).
    { destruct (already_evaluated t !! id rule) eqn:E; [|done].
      destruct (proj1 (Hsame (id rule))) as [? Hs]; [by rewrite E|]. congruence. }
    destruct (built rule Howned (Hwithin _ Hdone))
      as (fp & previous & Hfp & Hprev & Hins & Houts).
    inv_bind_as Hrun fp' s_fp Hlift. unfold lift in Hlift. rewrite Hfp in Hlift.
    injection Hlift as <- <-.
    inv_bind_as Hrun prev1 s_prev Hfetch. cbv zeta in Hrun.
    injection Hfetch as _ <-.
    inv_bind_as Hrun r_in s_in Hstep_in. destruct r_in as [flag1 targets1].
    inv_bind_as Hrun r_out s_out Hstep_out.
    destruct r_out as [[flag2 targets2] oc2].
    inv_bind_as Hrun u s_set Hset. unfold set_already_evaluated in Hset.
    injection Hset as _ <-.
    pose proof (wp_elim _ _ _ _ _ (eval_outputs_evaluated _ _ _ _ _) Hstep_out)
      as Hae_out. simpl in Hae_out.
    assert (Hae' : already_evaluated s'
                   = <[id rule := flag2]> (already_evaluated s_in)).
    { destruct flag2; simpl in Hrun.
      - pose proof (wp_elim _ _ _ _ _
                      (execute_already_evaluated _ _ _ _ _ _ _) Hrun) as ->.
        simpl. by rewrite Hae_out.
      - apply ret_Returns in Hrun as [_ <-]. simpl. by rewrite Hae_out. }
    destruct (eval_inputs_again fuel rule _ previous IH Hins
                (resolved_inputs rule) (λ _ H, H) _ _ _ _ Hstep_in)
      with (targets := @nil string) (t := t)
      as (targets' & t_a & Hloop & Hnr_a & Hsame_a); [|done..|].
    { intros rid Hs. apply Hwithin. rewrite Hae'. by apply is_Some_insert_keep. }
    destruct (eval_outputs_again rule previous Houts
                (resolved_outputs rule) (λ _ H, H) targets' [] t_a Hnr_a)
      as (targets'' & oc' & t_b & Hout & Hnr_b & Hae_b).
    exists (set_already_evaluated rule false t_b).2. split; [|split].
    + etrans; [apply bind_eq; reflexivity|]. simpl. rewrite Hrule_t.
      etrans; [apply bind_eq; unfold lift; rewrite Hfp; reflexivity|].
      etrans; [apply bind_eq; reflexivity|]. cbv zeta.
      destruct Hnr as (Hw & Hd & _). rewrite Hd, Hprev.
      rewrite bool_decide_eq_false_2 by done. simpl.
      etrans; [apply (bind_eq _ _ _ _ _ Hloop)|]. simpl.
      etrans; [apply (bind_eq _ _ _ _ _ Hout)|]. reflexivity.
    + destruct Hnr_b as (Hw & Hd & Hfalse & H0).
      split; [done|]. split; [done|]. split; [|done].
      intros rid rebuilt. simpl. destruct (decide (id rule = rid)) as [<-|Hne].
      * rewrite lookup_insert_eq. congruence.
      * rewrite lookup_insert_ne by done. apply Hfalse.
    + intros rid. rewrite Hae'. simpl. rewrite Hae_b.
      destruct (decide (id rule = rid)) as [<-|Hne].
      * rewrite !lookup_insert_eq. split; eauto.
      * rewrite !lookup_insert_ne by done. apply Hsame_a.
Qed.

End SecondRun.


(** C7 (amended): over rules with distinct ids in which no output is listed
    twice and no two rules share a run fingerprint, with handlers that only
    read the world, that cook a target whatever the hint, whose
    [compute_fingerprint] returns the observable state of the target and
    whose [need_rebuild] answers false exactly when the previous fingerprint
    is that state (R2 and its converse), and with rule bodies that, when
    they return, have changed their outputs only and leave their outputs and
    their inputs without owning rule there to observe: if [run(t)] returns,
    then [run(t)] repeated from the world and the store it left returns
    false, calls no rule body, and leaves the world and the store as they
    are. *)
Theorem second_run_rebuilds_nothing
    (rules : list (string * ResolvedRule)) (config : gmap string ConstTypes)
    (target_handlers : TargetHandlersBundle W Exc Fp Cooked)
    (obs : ResolvedTargetID → W → option Fp)
    (fuel : nat) (target : ResolvedTargetID) (w : W)
    (d : gmap bytes (gmap string Fp)) (rebuilt : bool) (s1 : Session) :
  NoDup (id <$> rules.*2) →
  (∀ rule, rule ∈ rules.*2 → NoDup (resolved_outputs rule)) →
  (∀ rule1 rule2 output, rule1 ∈ rules.*2 → rule2 ∈ rules.*2 →
     output ∈ resolved_outputs rule1 → output ∈ resolved_outputs rule2 →
     rule1 = rule2) →
  lawful_handlers target_handlers obs →
  lawful_bodies (Runner_init rules config target_handlers) obs →
  distinct_fingerprints pickle_dumps sha256
                        (Runner_init rules config target_handlers) →
  run pickle_dumps sha256 (Runner_init rules config target_handlers)
      fuel target w d = (Returns rebuilt, s1) →
  ∃ s2, run pickle_dumps sha256 (Runner_init rules config target_handlers)
            fuel target (world s1) (db s1) = (Returns false, s2)
        ∧ count is_rule_run (trace s2) = 0
        ∧ world s2 = world s1 ∧ db s2 = db s1.
Proof.
  intros Hids Hnodup Hdisj Hhandlers Hbodies Hfps.
  set (self := Runner_init rules config target_handlers) in *.
  unfold run, run_rule.
  destruct (target_to_rule self !! target) as [root|] eqn:Hroot; [|done].
  intros Hrun.
  assert (Howned : owned_rule self root) by by exists target.
  assert (Hfirst : first_run_post pickle_dumps sha256 self obs root
                                  (fresh_session w d) (Returns rebuilt) s1).
  { refine (wp_elim _ _ _ _ _
              (_run_first self obs (Runner_init_unique_ids _ _ _ Hids)
                 (Runner_init_owns_outputs _ _ _ Hnodup Hdisj)
                 Hhandlers Hbodies Hfps fuel root (fresh_session w d)
                 Howned _ _) Hrun).
    - intros rule _ _ [? Hsome]. simpl in Hsome.
      by rewrite lookup_empty in Hsome.
    - intros ???? Hsome. simpl in Hsome. by rewrite lookup_empty in Hsome. }
  destruct Hfirst as (Hutd & _).
  destruct (_run_again self obs (world s1) (db s1) (already_evaluated s1)
              Hhandlers) with (fuel := fuel) (rule := root)
              (s := fresh_session w d : Session) (b := rebuilt) (s' := s1)
              (t := fresh_session (world s1) (db s1) : Session)
    as (s2 & Hsecond & (Hw & Hd & _ & Hnone) & _); try done.
  - intros rule Hrule Hdone. apply Hutd; auto.
  - exists s2. by rewrite Hsecond.
Qed.

(** ** A needed key that is not configured *)

Lemma str_le_lt_eq a b :
  str_le a b ↔ OrderedTypeEx.String_as_OT.lt a b ∨ a = b.
Proof.
  unfold str_le, String.leb.
  destruct (String.compare a b) eqn:E.
  - apply OrderedTypeEx.String_as_OT.cmp_eq in E. tauto.
  - apply OrderedTypeEx.String_as_OT.cmp_lt in E. tauto.
  - split; [done|]. intros [H| ->].
    + apply OrderedTypeEx.String_as_OT.cmp_lt in H.
      unfold OrderedTypeEx.String_as_OT.cmp in H. congruence.
    + assert (String.compare b b = Eq)
        by by apply OrderedTypeEx.String_as_OT.cmp_eq.
      congruence.
Qed.

#[local] Instance str_le_trans : Transitive str_le.
Proof.
  intros a b c. rewrite !str_le_lt_eq. intros [H1| ->] [H2| ->]; auto.
  left. eapply OrderedTypeEx.String_as_OT.lt_trans; eauto.
Qed.

Lemma str_le_refl a : str_le a a.
Proof. apply str_le_lt_eq. auto. Qed.

(** The loop over the keys stops at the first key that is not configured. *)
Lemma update_with_config_Raises (config : gmap string ConstTypes) keys : ∀ h e,
  update_with_config (Exc:=Exc) pickle_dumps config h keys = Raises e →
  ∃ before k after,
    keys = before ++ k :: after ∧ e = KeyError k ∧ config !! k = None
    ∧ ∀ k', k' ∈ before → is_Some (config !! k').
Proof.
  induction keys as [|k keys IH]; intros h e; simpl; [done|].
  destruct (config !! k) as [v|] eqn:Hk.
  - intros (before & k1 & after & -> & -> & Hnone & Hbefore)%IH.
    exists (k :: before), k1, after. split; [done|]. split; [done|].
    split; [done|]. intros k' [->|?]%elem_of_cons; eauto.
  - intros ?; simplify_eq. exists [], k, keys. split; [done|].
    split; [done|]. split; [done|]. intros k' Hin. by apply elem_of_nil in Hin.
Qed.

Lemma update_with_config_Returns (config : gmap string ConstTypes) keys : ∀ h h',
  update_with_config (Exc:=Exc) pickle_dumps config h keys = Returns h' →
  ∀ k, k ∈ keys → is_Some (config !! k).
Proof.
  induction keys as [|k keys IH]; intros h h'; simpl.
  - intros _ k Hin. by apply elem_of_nil in Hin.
  - destruct (config !! k) as [v|] eqn:Hk; [|done].
    intros Hrest k' [->|Hin]%elem_of_cons; eauto.
Qed.

Lemma _compute_run_fingerprint_least (self : Runner) (rule : ResolvedRule) e :
  _compute_run_fingerprint pickle_dumps sha256 self rule = Raises e →
  ∃ k, e = KeyError k ∧ k ∈ needed_config rule ∧ config self !! k = None
       ∧ ∀ k', k' ∈ needed_config rule → config self !! k' = None → str_le k k'.
Proof.
  unfold _compute_run_fingerprint, run_fingerprint_input.
  destruct (update_with_config _ _ _ _) as [h|e'] eqn:Hloop; [done|].
  intros ?; simplify_eq.
  apply update_with_config_Raises in Hloop
    as (before & k & after & Hsplit & -> & Hnone & Hbefore).
  assert (Hsorted : StronglySorted str_le (sorted (needed_config rule))).
  { apply Sorted_StronglySorted; [apply _|]. apply Sorted_merge_sort, _. }
  exists k. split; [done|]. split.
  { apply elem_of_sorted. rewrite Hsplit. apply elem_of_app. right.
    apply elem_of_cons. auto. }
  split; [done|]. intros k' Hin Hnone'.
  apply elem_of_sorted in Hin. rewrite Hsplit in Hin, Hsorted.
  apply elem_of_app in Hin as [Hin|Hin].
  { apply Hbefore in Hin as [v Hv]. congruence. }
  apply elem_of_cons in Hin as [->|Hin]; [apply str_le_refl|].
  apply StronglySorted_app_1_r, StronglySorted_cons in Hsorted as [Hall _].
  rewrite Forall_forall in Hall. auto.
Qed.

(** X1: [_compute_run_fingerprint] raises exactly when a needed key is not
    configured, and then it raises [KeyError] for the least such key: the keys
    are looked up in sorted order and the first miss ends the loop. *)
Theorem run_fingerprint_key_error (self : Runner) (rule : ResolvedRule)
    (e : IsengardError Exc) :
  _compute_run_fingerprint pickle_dumps sha256 self rule = Raises e ↔
  ∃ k, e = KeyError k ∧ k ∈ needed_config rule ∧ config self !! k = None
       ∧ ∀ k', k' ∈ needed_config rule → config self !! k' = None → str_le k k'.
Proof.
  split; [apply _compute_run_fingerprint_least|].
  intros (k & -> & Hin & Hnone & Hleast).
  destruct (_compute_run_fingerprint _ _ _ _) as [fp|e] eqn:Hfp.
  - exfalso. revert Hfp. unfold _compute_run_fingerprint, run_fingerprint_input.
    destruct (update_with_config _ _ _ _) as [h|e'] eqn:Hloop; [|done].
    intros _. eapply update_with_config_Returns in Hloop as [v Hv];
      [|by apply elem_of_sorted]. congruence.
  - apply _compute_run_fingerprint_least in Hfp
      as (k2 & -> & Hin2 & Hnone2 & Hleast2).
    f_equal. f_equal. apply String.leb_antisym; [apply Hleast2|apply Hleast]; done.
Qed.

(** ** What [clean] leaves alone, and how it fails *)

(** The first [try] of the output loop cooks once or twice and does nothing
    else. *)
Lemma cook_for_clean_frame (self : Runner) output prev (s : Session)
    (Q : Outcome (Cooked * BaseTargetHandler W Exc Fp Cooked) → Session → Prop) :
  (∀ r (s' : Session) cooks,
     trace s' = trace s ++ cooks → Forall cooking cooks →
     db s' = db s → already_cleaned s' = already_cleaned s →
     already_evaluated s' = already_evaluated s →
     targets_eval_cache s' = targets_eval_cache s →
     match r with
     | Returns _ => True
     | Raises (CollaboratorError _) => True
     | Raises _ => False
     end → Q r s') →
  wp (cook_for_clean is_key_error self output prev) s Q.
Proof.
  intros HQ. unfold cook_for_clean.
  destruct (prev !! output) as [fp|].
  - unfold wp. destruct (cook self output (Some fp) s) as [[a|e] s1] eqn:E.
    + revert E. unfold cook, mbind, M_bind, call; simpl.
      destruct (cook_target _ _ _ _) as [[a'|e'] w]; intros; simplify_eq.
      apply (HQ _ _ [EvCook output (Some fp)]); simpl; try done.
      by repeat constructor.
    + revert E. unfold cook, mbind, M_bind, call; simpl.
      destruct (cook_target _ _ _ _) as [[a'|e'] w]; intros; simplify_eq.
      destruct (is_key_error e'); simpl.
      * destruct (cook_target _ _ _ _) as [[a''|e''] w'']; simpl;
          (apply (HQ _ _ [EvCook output (Some fp); EvCook output None]); simpl;
           [by rewrite <-app_assoc|by repeat constructor|done..]).
      * apply (HQ _ _ [EvCook output (Some fp)]); simpl; try done.
        by repeat constructor.
  - apply wp_cook; intros;
      (apply (HQ _ _ [EvCook output None]); simpl; try done;
       by repeat constructor).
Qed.

Lemma untouched_by_clean_frame d0 (s s' : Session) extra :
  db s' = db s → already_evaluated s' = already_evaluated s →
  targets_eval_cache s' = targets_eval_cache s →
  trace s' = trace s ++ extra → Forall housekeeping extra →
  untouched_by_clean d0 s → untouched_by_clean d0 s'.
Proof.
  intros Hdb Hae Hc Htr Hextra (Hd & He & Ht & Hall).
  split; [congruence|]. split; [congruence|]. split; [congruence|].
  rewrite Htr. by apply Forall_app.
Qed.

Lemma cooking_housekeeping (evs : list Event) :
  Forall cooking evs → Forall housekeeping evs.
Proof. intros H. eapply Forall_impl; [exact H|]. by intros []. Qed.

Section CleanErrors.

Variable self : Runner.
Variable target : ResolvedTargetID.
Variable d0 : gmap bytes (gmap string Fp).

Lemma _clean_quiet fuel : ∀ rule parent_rules s,
  reachable self target rule →
  untouched_by_clean d0 s →
  wp (_clean pickle_dumps sha256 is_key_error self fuel rule parent_rules) s
     (clean_errors_post self target d0).
Proof.
  induction fuel as [|fuel IH]; intros rule parent_rules s Hreach Hs.
  { apply wp_raise. by split. }
  rewrite _clean_unfold. apply wp_bind, wp_gets.
  destruct (rule_in rule (already_cleaned s)); [by apply wp_ret|].
  apply wp_bind, wp_add_already_cleaned.
  assert (Hs1 : untouched_by_clean d0 (add_already_cleaned rule s).2) by done.
  apply wp_bind, wp_lift.
  destruct (_compute_run_fingerprint _ _ _ _) as [fp|e] eqn:Hfp; cycle 1.
  { apply _compute_run_fingerprint_least in Hfp as (k & -> & Hk & Hnone & _).
    split; [done|]. by exists rule. }
  apply wp_bind, wp_fetch_rule_previous_run. cbv zeta.
  apply wp_bind.
  apply wp_for_each with (I := λ todo (_ : unit) s',
    (∀ o, o ∈ todo → o ∈ resolved_outputs rule) ∧ untouched_by_clean d0 s');
    [done| |].
  { intros output todo [] s2 [Htodo Hs2]. unfold clean_output.
    apply wp_bind, cook_for_clean_frame.
    intros r s3 cooks Htr Hcooks Hdb Hcl Hae Hc Hr.
    assert (Hs3 : untouched_by_clean d0 s3).
    { eapply untouched_by_clean_frame; [..|exact Hs2]; try done.
      by apply cooking_housekeeping. }
    destruct r as [[cooked handler]|e]; [|by destruct e].
    apply wp_bind, wp_log.
    assert (Hs4 : ∀ w, untouched_by_clean d0
                         (set_world w (log (EvClean output) s3).2)).
    { intros w.
      eapply (untouched_by_clean_frame _ _ _ [EvClean output]);
        [..|exact Hs3]; try done. by repeat constructor. }
    apply wp_call_wrapped.
    - intros [] w _. split; [|done].
      intros o Ho. apply Htodo, elem_of_cons. auto.
    - intros e w _. split; [done|]. exists rule, output.
      split; [done|]. split; [done|].
      split; [apply Htodo, elem_of_cons; auto|]. simpl. apply last_snoc. }
  intros [] s2 [_ Hs2].
  apply wp_for_each with (I := λ todo (_ : unit) s',
    (∀ i, i ∈ todo → i ∈ resolved_inputs rule) ∧ untouched_by_clean d0 s');
    [done| |].
  { intros input todo [] s3 [Htodo Hs3].
    assert (Hinput : input ∈ resolved_inputs rule)
      by (apply Htodo, elem_of_cons; auto).
    assert (Htodo' : ∀ i, i ∈ todo → i ∈ resolved_inputs rule)
      by (intros; apply Htodo, elem_of_cons; auto).
    unfold clean_input.
    destruct (target_to_rule self !! input) as [sub|] eqn:Hsub.
    - destruct (rule_in sub (parent_rules ++ [rule])); [by apply wp_raise|].
      eapply wp_mono; [|apply IH; [|done]].
      + intros [[]|e] s4 [Hs4 Hpost]; [done|]. by split.
      + eapply reachable_input; [exact Hreach|]. by exists input.
    - apply wp_bind, wp_call.
      + intros handler w _.
        assert (untouched_by_clean d0 (set_world w s3)) by done.
        destruct (negb (ON_DISK_TARGET handler)); [by apply wp_raise|].
        by apply wp_ret.
      + intros e w _. by split. }
  intros [] s3 [_ Hs3]. by split.
Qed.

End CleanErrors.

(** ** At most one clean per owned target *)

Lemma count_app (p : Event → bool) (tr1 tr2 : list Event) :
  count p (tr1 ++ tr2) = count p tr1 + count p tr2.
Proof. unfold count. by rewrite List.filter_app, length_app. Qed.

Lemma count_clean_cooking target (cooks : list Event) :
  Forall cooking cooks → count (is_clean target) cooks = 0.
Proof.
  induction 1 as [|ev cooks Hev _ IH]; [done|].
  change (ev :: cooks) with ([ev] ++ cooks). rewrite count_app, IH.
  by destruct ev.
Qed.

Lemma count_pos_elem_of (p : Event → bool) (tr : list Event) :
  0 < count p tr → ∃ ev, ev ∈ tr ∧ p ev = true.
Proof.
  unfold count. induction tr as [|ev tr IH]; simpl; [lia|].
  destruct (p ev) eqn:Hp.
  - intros _. exists ev. split; [apply elem_of_cons; auto|done].
  - intros (ev' & Hin & Hev')%IH. exists ev'. split; [|done].
    apply elem_of_cons. auto.
Qed.

Section CleanOnce.

Variable self : Runner.
Hypothesis owns : owns_outputs self.

Lemma cleans_once_error {A} (e : IsengardError Exc) (s : Session) :
  cleans_once self s → cleans_post (A:=A) self (Raises e) s.
Proof. intros Hs t [rule Hrule]. by apply (Hs t rule). Qed.

Lemma cleans_once_frame (s s' : Session) :
  already_cleaned s' = already_cleaned s →
  (∀ t, count (is_clean t) (trace s') = count (is_clean t) (trace s)) →
  cleans_once self s → cleans_once self s'.
Proof.
  intros Hcl Hcount Hs t rule Hrule. unfold entered. rewrite Hcl, Hcount.
  by apply Hs.
Qed.

Lemma _clean_once fuel : ∀ rule parent_rules s,
  owned_rule self rule →
  cleans_once self s →
  wp (_clean pickle_dumps sha256 is_key_error self fuel rule parent_rules) s
     (cleans_post self).
Proof.
  induction fuel as [|fuel IH]; intros rule parent_rules s Howned Hs.
  { apply wp_raise. by apply cleans_once_error. }
  rewrite _clean_unfold. apply wp_bind, wp_gets.
  destruct (rule_in rule (already_cleaned s)) eqn:Hin; [by apply wp_ret|].
  apply bool_decide_eq_false in Hin.
  apply wp_bind, wp_add_already_cleaned.
  apply wp_bind, wp_lift.
  destruct (_compute_run_fingerprint _ _ _ _) as [fp|e] eqn:Hfp; cycle 1.
  { intros t [r Hr]. by apply (Hs t r). }
  apply wp_bind, wp_fetch_rule_previous_run. cbv zeta.
  destruct (owns rule Howned) as [Hnodup Howns].
  apply wp_bind.
  (* the outputs: those cleaned so far are [cleaned] *)
  apply wp_for_each with (I := λ todo (_ : unit) s', ∃ cleaned,
    resolved_outputs rule = cleaned ++ todo
    ∧ already_cleaned s' = rule :: already_cleaned s
    ∧ ∀ t r, target_to_rule self !! t = Some r →
        if decide (t ∈ cleaned) then count (is_clean t) (trace s') ≤ 1
        else count (is_clean t) (trace s') ≤ 1
             ∧ (id r ∉ entered s → count (is_clean t) (trace s') = 0)).
  { exists []. split; [done|]. split; [done|]. intros t r Hr.
    rewrite decide_False by apply not_elem_of_nil. by apply Hs. }
  { intros output todo [] s2 (cleaned & Hsplit & Hcl & Hcount).
    assert (Hle : ∀ t, is_Some (target_to_rule self !! t) →
                       count (is_clean t) (trace s2) ≤ 1).
    { intros t [r Hr]. specialize (Hcount t r Hr).
      destruct (decide (t ∈ cleaned)); tauto. }
    unfold clean_output. apply wp_bind, cook_for_clean_frame.
    intros r s3 cooks Htr Hcooks Hdb Hcl3 Hae Hc Hr.
    assert (Hsame : ∀ t, count (is_clean t) (trace s3)
                         = count (is_clean t) (trace s2)).
    { intros t. rewrite Htr, count_app, (count_clean_cooking t cooks) by done. lia. }
    destruct r as [[cooked handler]|e].
    2:{ intros t Ht. rewrite Hsame. auto. }
    apply wp_bind, wp_log.
    assert (Hfresh : output ∉ cleaned).
    { rewrite Hsplit in Hnodup. apply NoDup_app in Hnodup as (_ & Hdisj & _).
      intros Hin'. apply (Hdisj output Hin'), elem_of_cons. auto. }
    assert (Hout : target_to_rule self !! output = Some rule).
    { apply Howns. rewrite Hsplit. apply elem_of_app. right.
      apply elem_of_cons. auto. }
    assert (Hnew : ∀ t r0, target_to_rule self !! t = Some r0 →
      if decide (t ∈ cleaned ++ [output])
      then count (is_clean t) (trace s3 ++ [EvClean output]) ≤ 1
      else count (is_clean t) (trace s3 ++ [EvClean output]) ≤ 1
           ∧ (id r0 ∉ entered s →
              count (is_clean t) (trace s3 ++ [EvClean output]) = 0)).
    { intros t r0 Hr0. rewrite count_snoc, Hsame. simpl.
      specialize (Hcount t r0 Hr0).
      destruct (decide (output = t)) as [<-|Hne].
      - rewrite bool_decide_eq_true_2 by done.
        rewrite decide_True by (apply elem_of_app; right;
                                by apply list_elem_of_singleton).
        rewrite decide_False in Hcount by done.
        assert (r0 = rule) as -> by congruence.
        destruct Hcount as [_ Hzero]. rewrite Hzero by done. lia.
      - rewrite bool_decide_eq_false_2 by done. rewrite Nat.add_0_r.
        destruct (decide (t ∈ cleaned)) as [Hin'|Hin'].
        + rewrite decide_True by (apply elem_of_app; auto). done.
        + rewrite decide_False; [done|].
          intros [?|?%list_elem_of_singleton]%elem_of_app; congruence. }
    apply wp_call_wrapped.
    - intros [] w _. exists (cleaned ++ [output]).
      split; [by rewrite <-app_assoc|]. split; [simpl; congruence|]. exact Hnew.
    - intros e w _ t [r0 Hr0]. simpl. specialize (Hnew t r0 Hr0).
      destruct (decide (t ∈ cleaned ++ [output])); tauto. }
  intros [] s2 (cleaned & Hsplit & Hcl & Hcount).
  rewrite app_nil_r in Hsplit. subst cleaned.
  assert (Hs2 : cleans_once self s2).
  { intros t r Hr. specialize (Hcount t r Hr). unfold entered. rewrite Hcl.
    destruct (decide (t ∈ resolved_outputs rule)) as [Hout|Hout].
    - split; [done|]. intros Hnot. exfalso. apply Hnot.
      apply Howns in Hout. assert (r = rule) as -> by congruence.
      rewrite fmap_cons. apply elem_of_cons. auto.
    - destruct Hcount as [Hle Hzero]. split; [done|]. intros Hnot.
      apply Hzero. intros Hin'. apply Hnot. rewrite fmap_cons.
      apply elem_of_cons. auto. }
  clear Hcount Hcl.
  apply wp_for_each with (I := λ todo (_ : unit) s',
    (∀ i, i ∈ todo → i ∈ resolved_inputs rule) ∧ cleans_once self s');
    [done| |].
  { intros input todo [] s3 [Htodo Hs3].
    assert (Htodo' : ∀ i, i ∈ todo → i ∈ resolved_inputs rule)
      by (intros; apply Htodo, elem_of_cons; auto).
    unfold clean_input.
    destruct (target_to_rule self !! input) as [sub|] eqn:Hsub.
    - destruct (rule_in sub (parent_rules ++ [rule])).
      { apply wp_raise. by apply cleans_once_error. }
      eapply wp_mono; [|apply IH; [by exists input|done]].
      intros [[]|e] s4 Hpost; [by split|done].
    - apply wp_bind, wp_call.
      + intros handler w _.
        assert (cleans_once self (set_world w s3))
          by (eapply cleans_once_frame; [..|exact Hs3]; done).
        destruct (negb (ON_DISK_TARGET handler)).
        * apply wp_raise. by apply cleans_once_error.
        * by apply wp_ret.
      + intros e w _. apply cleans_once_error.
        eapply cleans_once_frame; [..|exact Hs3]; done. }
  intros [] s3 [_ Hs3]. done.
Qed.

End CleanOnce.

(** ** [clean] enters every rule it can reach *)

Section CleanClosed.

Variable self : Runner.
Hypothesis ids : unique_ids self.

Lemma _clean_closed fuel : ∀ rule parent_rules s,
  owned_rule self rule →
  closed self parent_rules s →
  wp (_clean pickle_dumps sha256 is_key_error self fuel rule parent_rules) s
     (closed_post self parent_rules rule s).
Proof.
  induction fuel as [|fuel IH]; intros rule parent_rules s Howned Hclosed;
    [by apply wp_raise|].
  rewrite _clean_unfold. apply wp_bind, wp_gets.
  destruct (rule_in rule (already_cleaned s)) eqn:Hin.
  { apply bool_decide_eq_true in Hin. by apply wp_ret. }
  apply wp_bind, wp_add_already_cleaned.
  apply wp_bind, wp_lift.
  destruct (_compute_run_fingerprint _ _ _ _) as [fp|e] eqn:Hfp; [|done].
  apply wp_bind, wp_fetch_rule_previous_run. cbv zeta.
  apply wp_bind.
  apply wp_for_each with (I := λ _ (_ : unit) s',
    already_cleaned s' = rule :: already_cleaned s); [done| |].
  { intros output todo [] s2 Hcl. unfold clean_output.
    apply wp_bind, cook_for_clean_frame.
    intros r s3 cooks Htr Hcooks Hdb Hcl3 Hae Hc Hr.
    destruct r as [[cooked handler]|e]; [|done].
    apply wp_bind, wp_log, wp_call_wrapped; [|done].
    intros [] w _. simpl. congruence. }
  intros [] s2 Hcl.
  destruct Hclosed as [Howned_all Hclosed].
  apply wp_for_each with (I := λ todo (_ : unit) s', ∃ seen,
    resolved_inputs rule = seen ++ todo
    ∧ closed self (parent_rules ++ [rule]) s'
    ∧ (∀ rule_id, rule_id ∈ id rule :: entered s → rule_id ∈ entered s')
    ∧ ∀ input sub, input ∈ seen → target_to_rule self !! input = Some sub →
                   id sub ∈ entered s').
  { exists []. split; [done|]. split; [|split].
    - split.
      + intros r. rewrite Hcl. intros [->|Hr]%elem_of_cons; auto.
      + intros r sub. rewrite Hcl, fmap_app.
        intros [->|Hr]%elem_of_cons Hnot Hlink.
        * exfalso. apply Hnot, elem_of_app. right.
          by apply list_elem_of_singleton.
        * unfold entered. rewrite Hcl, fmap_cons. apply elem_of_cons. right.
          apply (Hclosed r sub); [done| |done].
          intros Hp. apply Hnot, elem_of_app. auto.
    - intros rule_id. unfold entered. by rewrite Hcl, fmap_cons.
    - intros input sub Hi. by apply elem_of_nil in Hi. }
  { intros input todo [] s3 (seen & Hsplit & Hclosed3 & Hgrow3 & Hseen).
    assert (Hnext : ∀ s4 : Session,
      closed self (parent_rules ++ [rule]) s4 →
      (∀ rule_id, rule_id ∈ entered s3 → rule_id ∈ entered s4) →
      (∀ sub, target_to_rule self !! input = Some sub → id sub ∈ entered s4) →
      ∃ seen', resolved_inputs rule = seen' ++ todo
        ∧ closed self (parent_rules ++ [rule]) s4
        ∧ (∀ rule_id, rule_id ∈ id rule :: entered s → rule_id ∈ entered s4)
        ∧ ∀ i sub, i ∈ seen' → target_to_rule self !! i = Some sub →
                   id sub ∈ entered s4).
    { intros s4 Hc4 Hg4 Hi4. exists (seen ++ [input]).
      split; [by rewrite <-app_assoc|]. split; [done|]. split; [auto|].
      intros i sub [Hi|Hi]%elem_of_app Hsub; [eauto|].
      apply list_elem_of_singleton in Hi as ->. auto. }
    unfold clean_input.
    destruct (target_to_rule self !! input) as [sub|] eqn:Hsub.
    - destruct (rule_in sub (parent_rules ++ [rule])); [by apply wp_raise|].
      eapply wp_mono; [|apply IH; [by exists input|done]].
      intros [[]|e] s4 Hpost; [|done]. destruct Hpost as (Hc4 & Hsub4 & Hg4).
      apply Hnext; [done..|]. intros ? ?; by simplify_eq.
    - apply wp_bind, wp_call; [|done]. intros handler w _.
      destruct (negb (ON_DISK_TARGET handler)); [by apply wp_raise|].
      apply wp_ret. by apply (Hnext (set_world w s3)). }
  intros [] s3 (seen & Hsplit & [Howned3 Hclosed3] & Hgrow3 & Hseen).
  rewrite app_nil_r in Hsplit. subst seen.
  split; [|split].
  - split; [done|]. intros r sub Hr Hnot Hlink.
    destruct (decide (id r = id rule)) as [Hid|Hid].
    + apply ids in Hid; [|auto..]. subst r.
      destruct Hlink as (input & Hinput & Hsub). eauto.
    + apply (Hclosed3 r sub); [done| |done]. rewrite fmap_app.
      intros [?|Hp%list_elem_of_singleton]%elem_of_app; done.
  - apply Hgrow3, elem_of_cons. auto.
  - intros rule_id Hin'. apply Hgrow3, elem_of_cons. auto.
Qed.

Lemma reachable_owned target (rule : ResolvedRule) :
  reachable self target rule → owned_rule self rule.
Proof.
  intros [r Hr|r sub _ (input & _ & Hsub)]; [by exists target|by exists input].
Qed.

(** Once [clean] has returned, the rules it has entered are the rules that
    can be reached. *)
Lemma closed_reachable target (root : ResolvedRule) (s : Session) :
  target_to_rule self !! target = Some root →
  closed self [] s → id root ∈ entered s →
  ∀ rule, reachable self target rule → rule ∈ already_cleaned s.
Proof.
  intros Hroot [Howned Hclosed] Hin rule Hreach.
  assert (Hback : ∀ r : ResolvedRule,
    owned_rule self r → id r ∈ entered s → r ∈ already_cleaned s).
  { intros r Hr (r' & Hid & Hr')%list_elem_of_fmap.
    apply ids in Hid; [by subst|auto..]. }
  induction Hreach as [rule Hrule|rule sub Hreach IH Hlink].
  - assert (rule = root) as -> by congruence. apply Hback; [|done].
    by exists target.
  - destruct Hlink as (input & Hinput & Hsub).
    apply Hback; [by exists input|].
    apply (Hclosed rule sub); [done| |by exists input].
    rewrite fmap_nil. apply not_elem_of_nil.
Qed.

End CleanClosed.

(** ** The depth of the [clean] traversal *)

Section CleanDepth.

Variable self : Runner.
Variable universe : list string.
Hypothesis known : ∀ rule, owned_rule self rule → id rule ∈ universe.

(** The rules on the stack have distinct ids, so there are no more of them
    than there are ids. *)
Lemma _clean_depth fuel : ∀ rule parent_rules s,
  (∀ parent, parent ∈ parent_rules ++ [rule] → owned_rule self parent) →
  NoDup (id <$> parent_rules ++ [rule]) →
  length universe ≤ fuel + length parent_rules →
  wp (_clean pickle_dumps sha256 is_key_error self fuel rule parent_rules) s
     (λ r _, r ≠ Raises RecursionError).
Proof.
  induction fuel as [|fuel IH]; intros rule parent_rules s Howned Hnodup Hfuel.
  { exfalso.
    assert (Hsub : id <$> parent_rules ++ [rule] ⊆+ universe).
    { apply NoDup_submseteq; [done|].
      intros rule_id (p & -> & Hp)%list_elem_of_fmap. auto. }
    apply submseteq_length in Hsub.
    rewrite length_fmap, length_app in Hsub. simpl in *. lia. }
  rewrite _clean_unfold. apply wp_bind, wp_gets.
  destruct (rule_in rule (already_cleaned s)); [by apply wp_ret|].
  apply wp_bind, wp_add_already_cleaned.
  apply wp_bind, wp_lift.
  destruct (_compute_run_fingerprint _ _ _ _) as [fp|e] eqn:Hfp; cycle 1.
  { by apply _compute_run_fingerprint_Raises in Hfp as [k ->]. }
  apply wp_bind, wp_fetch_rule_previous_run. cbv zeta.
  apply wp_bind.
  apply wp_for_each with (I := λ _ (_ : unit) _, True); [done| |].
  { intros output todo [] s2 _. unfold clean_output.
    apply wp_bind, cook_for_clean_frame.
    intros r s3 cooks _ _ _ _ _ _ Hr.
    destruct r as [[cooked handler]|e]; [|by destruct e].
    by apply wp_bind, wp_log, wp_call_wrapped. }
  intros [] s2 _.
  apply wp_for_each with (I := λ _ (_ : unit) _, True); [done| |done].
  intros input todo [] s3 _. unfold clean_input.
  destruct (target_to_rule self !! input) as [sub|] eqn:Hsub.
  - destruct (rule_in sub (parent_rules ++ [rule])) eqn:Hcyc;
      [by apply wp_raise|].
    apply bool_decide_eq_false in Hcyc.
    eapply wp_mono; [|apply IH].
    + by intros [[]|e] s4 Hpost.
    + intros p [Hp|Hp]%elem_of_app; [auto|].
      apply list_elem_of_singleton in Hp as ->. by exists input.
    + rewrite fmap_app. apply NoDup_app. split; [done|]. split.
      * intros rule_id Hin Hsub'. apply list_elem_of_singleton in Hsub'.
        by subst.
      * apply NoDup_singleton.
    + rewrite length_app. simpl. lia.
  - apply wp_bind, wp_call; [|done]. intros handler w _.
    destruct (negb (ON_DISK_TARGET handler)); [by apply wp_raise|].
    by apply wp_ret.
Qed.

End CleanDepth.

(** X8: [clean] is no build: whatever the rules and however it ends, it
    leaves the store as it was and the tables of [run] empty, and the trace
    holds cooking and cleaning only: no rule body is called, no fingerprint
    computed, nothing committed ([get_handler] and the reads of the store
    leave no event). *)
Theorem clean_builds_nothing (self : Runner) (fuel : nat)
    (target : ResolvedTargetID) (w : W) (d : gmap bytes (gmap string Fp)) :
  db (clean pickle_dumps sha256 is_key_error self fuel target w d).2 = d
  ∧ already_evaluated
      (clean pickle_dumps sha256 is_key_error self fuel target w d).2 = ∅
  ∧ targets_eval_cache
      (clean pickle_dumps sha256 is_key_error self fuel target w d).2 = ∅
  ∧ Forall housekeeping
      (trace (clean pickle_dumps sha256 is_key_error self fuel target w d).2).
Proof.
  unfold clean.
  destruct (target_to_rule self !! target) as [root|] eqn:Hroot; [|done].
  apply (_clean_quiet self target d fuel root [] (fresh_session w d));
    [by constructor|done].
Qed.

(** X9: when [clean] ends in [RunError], the error carries the id of a rule
    reachable from the requested target, and the last call made was the
    handler's [clean] on one of the outputs of that rule. *)
Theorem clean_run_error_names_rule (self : Runner) (fuel : nat)
    (target : ResolvedTargetID) (w : W) (d : gmap bytes (gmap string Fp))
    (rule_id : string) (exc : Exc) (s' : Session) :
  clean pickle_dumps sha256 is_key_error self fuel target w d
    = (Raises (IsengardRunError rule_id exc), s') →
  ∃ rule output,
    reachable self target rule ∧ rule_id = id rule
    ∧ output ∈ resolved_outputs rule
    ∧ last (trace s') = Some (EvClean output).
Proof.
  unfold clean.
  destruct (target_to_rule self !! target) as [root|] eqn:Hroot; [|done].
  intros Hclean.
  assert (Hfresh : untouched_by_clean d (fresh_session w d : Session))
    by done.
  pose proof (wp_elim _ _ _ _ _
                (_clean_quiet self target d fuel root [] (fresh_session w d)
                   (reachable_owner _ _ _ Hroot) Hfresh) Hclean)
    as [_ Hfailed].
  exact Hfailed.
Qed.

(** X10: in one invocation of [clean], over rules in which no output is listed
    twice, the handler's [clean] is called at most once on any target, however
    the invocation ends. *)
Theorem clean_at_most_once
    (rules : list (string * ResolvedRule)) (config : gmap string ConstTypes)
    (target_handlers : TargetHandlersBundle W Exc Fp Cooked)
    (fuel : nat) (target : ResolvedTargetID) (w : W)
    (d : gmap bytes (gmap string Fp)) (x : ResolvedTargetID) :
  (∀ rule, rule ∈ rules.*2 → NoDup (resolved_outputs rule)) →
  (∀ rule1 rule2 output, rule1 ∈ rules.*2 → rule2 ∈ rules.*2 →
     output ∈ resolved_outputs rule1 → output ∈ resolved_outputs rule2 →
     rule1 = rule2) →
  count (is_clean x)
        (trace (clean pickle_dumps sha256 is_key_error
                  (Runner_init rules config target_handlers)
                  fuel target w d).2) ≤ 1.
Proof.
  intros Hnodup Hdisj.
  set (self := Runner_init rules config target_handlers).
  destruct (decide (0 < count (is_clean x)
    (trace (clean pickle_dumps sha256 is_key_error self fuel target w d).2)))
    as [Hpos|]; [|lia].
  destruct (target_to_rule self !! target) as [root|] eqn:Hroot; cycle 1.
  { unfold clean. rewrite Hroot. cbv. lia. }
  (* a target that is cleaned has an owning rule *)
  apply count_pos_elem_of in Hpos as (ev & Hin & Hev).
  destruct ev; try done. apply bool_decide_eq_true in Hev. subst target0.
  destruct (clean_spec self fuel target w d) as [[_ Hout] _];
    [by rewrite Hroot|].
  destruct (Hout x Hin) as (rule & Hentered & Hx).
  assert (Howner : is_Some (target_to_rule self !! x)).
  { eapply target_to_rule_declared; [|done].
    destruct (clean_spec self fuel target w d) as [[Hreach _] _];
      [by rewrite Hroot|].
    eapply reachable_in_rules. eauto. }
  pose proof (_clean_once self (Runner_init_owns_outputs _ _ _ Hnodup Hdisj)
                fuel root [] (fresh_session w d)) as Honce.
  unfold wp in Honce. unfold clean. rewrite Hroot.
  destruct (_clean _ _ _ _ _ _ _ _) as [[[]|e] s'] eqn:E; simpl in *.
  - destruct Howner as [r Hr]. apply (Honce ltac:(by exists target)) in Hr.
    + apply Hr.
    + intros t r0 Hr0. split; cbv; lia.
  - apply Honce; [by exists target| |done].
    intros t r0 Hr0. split; cbv; lia.
Qed.

Lemma clean_reaches (self : Runner) (fuel : nat)
    (target : ResolvedTargetID) (w : W) (d : gmap bytes (gmap string Fp))
    (s' : Session) :
  unique_ids self →
  clean pickle_dumps sha256 is_key_error self fuel target w d
    = (Returns tt, s') →
  ∀ rule output, reachable self target rule → output ∈ resolved_outputs rule →
                 EvClean output ∈ trace s'.
Proof.
  intros Hunique Hclean rule output Hreach Hout.
  destruct (target_to_rule self !! target) as [root|] eqn:Hroot; cycle 1.
  { unfold clean in Hclean. by rewrite Hroot in Hclean. }
  pose proof (clean_spec self fuel target w d) as Hspec.
  unfold wp in Hspec. simpl in Hspec. rewrite Hclean in Hspec.
  destruct Hspec as (_ & _ & Hdone); [by rewrite Hroot|].
  unfold clean in Hclean. rewrite Hroot in Hclean.
  assert (Hfresh : closed self [] (fresh_session w d : Session)).
  { split.
    - intros r Hr. by apply elem_of_nil in Hr.
    - intros r sub Hr. by apply elem_of_nil in Hr. }
  pose proof (wp_elim _ _ _ _ _
                (_clean_closed self Hunique fuel root [] (fresh_session w d)
                   ltac:(by exists target) Hfresh) Hclean)
    as (Hclosed & Hin & _).
  apply (Hdone rule output); [|done].
  by apply (closed_reachable self Hunique target root).
Qed.

(** X11: when [clean] returns, over rules with distinct ids, the handler's
    [clean] has been called on every output of every rule that can be reached
    from the requested target. *)
Theorem clean_reaches_every_output
    (rules : list (string * ResolvedRule)) (config : gmap string ConstTypes)
    (target_handlers : TargetHandlersBundle W Exc Fp Cooked)
    (fuel : nat) (target : ResolvedTargetID) (w : W)
    (d : gmap bytes (gmap string Fp)) (s' : Session) :
  NoDup (id <$> rules.*2) →
  clean pickle_dumps sha256 is_key_error
        (Runner_init rules config target_handlers) fuel target w d
    = (Returns tt, s') →
  ∀ rule output,
    reachable (Runner_init rules config target_handlers) target rule →
    output ∈ resolved_outputs rule →
    EvClean output ∈ trace s'.
Proof.
  intros Hids. apply clean_reaches. by apply Runner_init_unique_ids.
Qed.

(** X12: the traversal of [clean] never nests deeper than there are rules:
    with as many nested calls of [_clean] allowed as there are rules, [clean]
    does not end in [RecursionError], cycle or no cycle. *)
Theorem clean_recursion_is_bounded
    (rules : list (string * ResolvedRule)) (config : gmap string ConstTypes)
    (target_handlers : TargetHandlersBundle W Exc Fp Cooked)
    (fuel : nat) (target : ResolvedTargetID) (w : W)
    (d : gmap bytes (gmap string Fp)) :
  length rules ≤ fuel →
  (clean pickle_dumps sha256 is_key_error
         (Runner_init rules config target_handlers) fuel target w d).1
  ≠ Raises RecursionError.
Proof.
  intros Hfuel. set (self := Runner_init rules config target_handlers).
  unfold clean.
  destruct (target_to_rule self !! target) as [root|] eqn:Hroot; [|done].
  apply (_clean_depth self (id <$> rules.*2)).
  - intros rule [t Ht]. apply target_to_rule_owner in Ht as [Hin _].
    by apply list_elem_of_fmap_2.
  - intros p Hp. apply list_elem_of_singleton in Hp as ->. by exists target.
  - apply NoDup_singleton.
  - rewrite !length_fmap. simpl. lia.
Qed.

(** ** Inputs without owning rule must be on disk *)

Section RunChecked.

Variable self : Runner.
Hypothesis ids : unique_ids self.

Lemma input_checked_grows (s s' : Session) input :
  evaluated_grows s s' → input_checked self s input →
  input_checked self s' input.
Proof.
  unfold input_checked. intros Hgrow.
  destruct (target_to_rule self !! input); [apply Hgrow|done].
Qed.

Lemma inputs_checked_frame (s s' : Session) :
  already_evaluated s' = already_evaluated s →
  inputs_checked self s → inputs_checked self s'.
Proof.
  unfold inputs_checked, input_checked. intros Hae Hs rule Hrule Hsome input Hin.
  rewrite Hae in Hsome |- *. by apply (Hs rule).
Qed.

Lemma _run_checked fuel : ∀ rule s,
  owned_rule self rule →
  inputs_checked self s →
  wp (_run pickle_dumps sha256 self fuel rule) s (checked_post self rule s).
Proof.
  induction fuel as [|fuel IH]; intros rule s Howned Hs; [by apply wp_raise|].
  rewrite _run_unfold. apply wp_bind, wp_gets.
  destruct (already_evaluated s !! id rule) as [b|] eqn:Hrule.
  { apply wp_ret. split; [done|]. split; [by rewrite Hrule|]. by intros ?. }
  apply wp_bind, wp_lift.
  destruct (_compute_run_fingerprint _ _ _ _) as [fp|e] eqn:Hfp; [|done].
  apply wp_bind, wp_fetch_rule_previous_run. cbv zeta.
  apply wp_bind.
  apply wp_for_each with (I := λ todo _ s',
    inputs_checked self s' ∧ evaluated_grows s s'
    ∧ ∀ i, i ∈ resolved_inputs rule → i ∈ todo ∨ input_checked self s' i).
  { split; [done|]. split; [by intros ?|]. auto. }
  { intros input todo [b tc] s1 (Hs1 & Hg1 & Htodo).
    assert (Hnext : ∀ s2 : Session,
      evaluated_grows s1 s2 → input_checked self s2 input →
      ∀ i, i ∈ resolved_inputs rule → i ∈ todo ∨ input_checked self s2 i).
    { intros s2 Hg2 Hinput i Hi.
      destruct (Htodo i Hi) as [[->|Hin]%elem_of_cons|Hseen]; [by right|by left|].
      right. by eapply input_checked_grows. }
    unfold eval_input.
    destruct (target_to_rule self !! input) as [sub|] eqn:Hsub.
    - apply wp_bind. eapply wp_mono; [|apply IH; [by exists input|done]].
      intros [rebuilt|e] s2 Hpost; [|done]. destruct Hpost as (Hs2 & Hsub2 & Hg2).
      apply wp_ret. split; [done|]. split; [by intros ? ?; apply Hg2, Hg1|].
      apply Hnext; [done|]. unfold input_checked. by rewrite Hsub.
    - apply wp_bind, wp_cook; [|done]. intros cooked handler w Hcook.
      destruct (ON_DISK_TARGET handler) eqn:Hdisk; simpl; [|done].
      assert (Hinput : ∀ s2 : Session, input_checked self s2 input).
      { intros s2. unfold input_checked. rewrite Hsub.
        exists cooked, handler. split; [|done]. by eexists _, _, _. }
      assert (Hstep : ∀ s2 : Session,
        already_evaluated s2 = already_evaluated s1 →
        inputs_checked self s2 ∧ evaluated_grows s s2
        ∧ ∀ i, i ∈ resolved_inputs rule → i ∈ todo ∨ input_checked self s2 i).
      { intros s2 Hae. split; [by eapply inputs_checked_frame|].
        split; [intros rule_id Hsome; rewrite Hae; by apply Hg1|].
        apply Hnext; [|done]. intros rule_id Hsome. by rewrite Hae. }
      apply wp_bind, wp_has_changed; [| |intros _]; [|done|];
        intros; apply wp_bind, wp_set_targets_eval_cache, wp_ret;
        by apply Hstep. }
  intros [b tc] s1 (Hs1 & Hg1 & Hseen). apply wp_bind.
  apply wp_for_each with (I := λ _ _ s',
    already_evaluated s' = already_evaluated s1); [done| |].
  { intros output todo [[b' tc'] oc] s2 Hae2. unfold eval_output.
    apply wp_bind, wp_cook; [|done]. intros cooked handler w _.
    apply wp_bind, wp_has_changed; [| |intros _]; [|done|];
      intros; apply wp_bind, wp_set_targets_eval_cache; by apply wp_ret. }
  intros [[b' tc'] oc] s2 Hae2.
  apply wp_bind, wp_set_already_evaluated.
  set (s3 := (set_already_evaluated rule b' s2).2).
  assert (Hg3 : evaluated_grows s s3).
  { intros rule_id Hsome. simpl. rewrite Hae2.
    by apply is_Some_insert_keep, Hg1. }
  assert (Hg13 : evaluated_grows s1 s3).
  { intros rule_id Hsome. simpl. rewrite Hae2. by apply is_Some_insert_keep. }
  assert (Hrule3 : is_Some (already_evaluated s3 !! id rule)).
  { simpl. rewrite lookup_insert_eq. eauto. }
  assert (Hs3 : inputs_checked self s3).
  { intros r Hr Hsome input Hin.
    destruct (decide (id r = id rule)) as [Hid|Hid].
    - apply ids in Hid; [|done..]. subst r.
      destruct (Hseen input Hin) as [Hnil|Hc]; [by apply elem_of_nil in Hnil|].
      by eapply input_checked_grows.
    - simpl in Hsome. rewrite lookup_insert_ne in Hsome by done.
      rewrite Hae2 in Hsome.
      eapply input_checked_grows; [exact Hg13|]. by apply (Hs1 r). }
  destruct (negb b'); [by apply wp_ret|].
  eapply wp_mono; [|apply execute_already_evaluated].
  intros [r|e] s4 Hae4; [|done].
  split; [by eapply inputs_checked_frame; [|exact Hs3]|].
  split; [by rewrite Hae4|]. intros rule_id Hsome. rewrite Hae4. by apply Hg3.
Qed.

(** Once [run] has returned, the rules that can be reached are marked
    evaluated. *)
Lemma checked_reachable target (root : ResolvedRule) (s : Session) :
  target_to_rule self !! target = Some root →
  inputs_checked self s → is_Some (already_evaluated s !! id root) →
  ∀ rule, reachable self target rule →
          is_Some (already_evaluated s !! id rule).
Proof.
  intros Hroot Hs Hin rule Hreach.
  induction Hreach as [rule Hrule|rule sub Hreach IH Hlink].
  - by assert (rule = root) as -> by congruence.
  - destruct Hlink as (input & Hinput & Hsub).
    assert (Howned : owned_rule self rule).
    { destruct Hreach as [r Hr|r sub' _ (i & _ & Hi)];
        [by exists target|by exists i]. }
    pose proof (Hs rule Howned IH input Hinput) as Hc.
    unfold input_checked in Hc. by rewrite Hsub in Hc.
Qed.

Lemma _clean_checked fuel : ∀ rule parent_rules s,
  owned_rule self rule →
  clean_checked self parent_rules s →
  wp (_clean pickle_dumps sha256 is_key_error self fuel rule parent_rules) s
     (clean_checked_post self parent_rules).
Proof.
  induction fuel as [|fuel IH]; intros rule parent_rules s Howned Hs;
    [by apply wp_raise|].
  rewrite _clean_unfold. apply wp_bind, wp_gets.
  destruct (rule_in rule (already_cleaned s)); [by apply wp_ret|].
  apply wp_bind, wp_add_already_cleaned.
  apply wp_bind, wp_lift.
  destruct (_compute_run_fingerprint _ _ _ _) as [fp|e] eqn:Hfp; [|done].
  apply wp_bind, wp_fetch_rule_previous_run. cbv zeta.
  apply wp_bind.
  apply wp_for_each with (I := λ _ (_ : unit) s',
    already_cleaned s' = rule :: already_cleaned s); [done| |].
  { intros output todo [] s2 Hcl. unfold clean_output.
    apply wp_bind, cook_for_clean_frame.
    intros r s3 cooks Htr Hcooks Hdb Hcl3 Hae Hc Hr.
    destruct r as [[cooked handler]|e]; [|done].
    apply wp_bind, wp_log, wp_call_wrapped; [|done].
    intros [] w _. simpl. congruence. }
  intros [] s2 Hcl. destruct Hs as [Howned_all Hchecked].
  apply wp_for_each with (I := λ todo (_ : unit) s',
    clean_checked self (parent_rules ++ [rule]) s'
    ∧ ∀ i, i ∈ resolved_inputs rule → target_to_rule self !! i = None →
           i ∈ todo ∨ on_disk_for_clean self i).
  { split; [|auto]. split.
    - intros r. rewrite Hcl. intros [->|Hr]%elem_of_cons; auto.
    - intros r input. rewrite Hcl, fmap_app.
      intros [->|Hr]%elem_of_cons Hnot Hin Hnone.
      + exfalso. apply Hnot, elem_of_app. right.
        by apply list_elem_of_singleton.
      + apply (Hchecked r input); [done| |done..].
        intros Hp. apply Hnot, elem_of_app. auto. }
  { intros input todo [] s3 [Hs3 Htodo].
    assert (Hnext : (target_to_rule self !! input = None →
                     on_disk_for_clean self input) →
      ∀ i, i ∈ resolved_inputs rule → target_to_rule self !! i = None →
           i ∈ todo ∨ on_disk_for_clean self i).
    { intros Hinput i Hi Hnone.
      destruct (Htodo i Hi Hnone) as [[->|Hin]%elem_of_cons|Hseen]; auto. }
    unfold clean_input.
    destruct (target_to_rule self !! input) as [sub|] eqn:Hsub.
    - destruct (rule_in sub (parent_rules ++ [rule])); [by apply wp_raise|].
      eapply wp_mono; [|apply IH; [by exists input|done]].
      intros [[]|e] s4 Hpost; [|done]. split; [done|]. by apply Hnext.
    - apply wp_bind, wp_call; [|done]. intros handler w Hget.
      destruct (ON_DISK_TARGET handler) eqn:Hdisk; simpl; [|done].
      apply wp_ret. split; [done|]. apply Hnext. intros _.
      by exists (world s3), handler, w. }
  intros [] s3 [[Howned3 Hchecked3] Hseen].
  split; [done|]. intros r input Hr Hnot Hin Hnone.
  destruct (decide (id r = id rule)) as [Hid|Hid].
  - apply ids in Hid; [|auto..]. subst r.
    destruct (Hseen input Hin Hnone) as [Hnil|Hc]; [|done].
    by apply elem_of_nil in Hnil.
  - apply (Hchecked3 r input); [done| |done..]. rewrite fmap_app.
    intros [?|Hp%list_elem_of_singleton]%elem_of_app; done.
Qed.

End RunChecked.

(** C4 (amended): a requested target that no rule owns makes [run] and
    [clean] raise [UnknownTarget] whatever its handler reports.  Any other
    [UnknownTarget] is about an input that no rule owns and whose handler,
    as returned by [cook_target] ([run]) or [get_handler] ([clean]), is not
    [ON_DISK_TARGET]: an input without owner whose handler is on disk is not
    an error.  The error names the target; [run] adds the one rule that
    lists the input, [clean] the chain of rules from the rule of the
    requested target down to the rule that lists it.  Conversely, the step
    that meets an input without owner whose handler is not [ON_DISK_TARGET]
    raises [UnknownTarget] for it, and over rules with distinct ids [run]
    and [clean] return only if the handler given for every input without
    owner of every rule that can be reached was [ON_DISK_TARGET]. *)
Theorem unknown_target_errors (self : Runner) (fuel : nat)
    (target : ResolvedTargetID) (w : W) (d : gmap bytes (gmap string Fp)) :
  (target_to_rule self !! target = None →
     (run pickle_dumps sha256 self fuel target w d).1
       = Raises (IsengardUnknownTargetError target [])
     ∧ (clean pickle_dumps sha256 is_key_error self fuel target w d).1
       = Raises (IsengardUnknownTargetError target []))
  ∧ (∀ x needed_by,
       (run pickle_dumps sha256 self fuel target w d).1
         = Raises (IsengardUnknownTargetError x needed_by) →
       (x = target ∧ needed_by = [] ∧ target_to_rule self !! target = None)
       ∨ unknown_run_input self target x needed_by)
  ∧ (∀ x needed_by,
       (clean pickle_dumps sha256 is_key_error self fuel target w d).1
         = Raises (IsengardUnknownTargetError x needed_by) →
       (x = target ∧ needed_by = [] ∧ target_to_rule self !! target = None)
       ∨ unknown_clean_input self target x needed_by)
  ∧ (∀ _run rule previous x acc (s : Session) cooked handler w',
       target_to_rule self !! x = None →
       cook_target (target_handlers self) x (previous !! x) (world s)
         = (Returns (cooked, handler), w') →
       ON_DISK_TARGET handler = false →
       (eval_input self _run rule previous x acc s).1
       = Raises (IsengardUnknownTargetError x [id rule]))
  ∧ (∀ _clean rule parent_rules x (s : Session) handler w',
       target_to_rule self !! x = None →
       get_handler (target_handlers self) x (world s) = (Returns handler, w') →
       ON_DISK_TARGET handler = false →
       (clean_input self _clean rule parent_rules x tt s).1
       = Raises (IsengardUnknownTargetError x (id <$> parent_rules ++ [rule])))
  ∧ (unique_ids self →
     ∀ rule x, reachable self target rule → x ∈ resolved_inputs rule →
               target_to_rule self !! x = None →
       (∀ rebuilt s', run pickle_dumps sha256 self fuel target w d
                        = (Returns rebuilt, s') →
                      on_disk_input self x)
       ∧ (∀ s', clean pickle_dumps sha256 is_key_error self fuel target w d
                  = (Returns tt, s') →
                on_disk_for_clean self x)).
Proof.
  split; [|split; [|split; [|split; [|split]]]].
  - intros Hnone. unfold run, clean. by rewrite Hnone.
  - intros x needed_by. unfold run, run_rule.
    destruct (target_to_rule self !! target) as [root|] eqn:Hroot; simpl.
    + intros Hrun. right.
      eapply (_run_unknown self target fuel root (fresh_session w d)); [|done].
      by constructor.
    + intros ?; simplify_eq. auto.
  - intros x needed_by.
    destruct (target_to_rule self !! target) as [root|] eqn:Hroot.
    + intros Hclean. right.
      pose proof (clean_spec self fuel target w d) as Hspec.
      unfold wp in Hspec. simpl in Hspec. rewrite Hclean in Hspec.
      destruct Hspec as (_ & _ & Hunknown); [by rewrite Hroot|]. done.
    + unfold clean. rewrite Hroot. simpl. intros ?; simplify_eq. auto.
  - intros _run rule previous x [b tc] s cooked handler w' Hnone Hcook Hdisk.
    unfold eval_input. rewrite Hnone.
    unfold cook, mbind, M_bind, log, call. simpl. rewrite Hcook. simpl.
    by rewrite Hdisk.
  - intros _clean rule parent_rules x s handler w' Hnone Hget Hdisk.
    unfold clean_input. rewrite Hnone.
    unfold mbind, M_bind, call. rewrite Hget. simpl. by rewrite Hdisk.
  - intros Hids rule x Hreach Hx Hnone.
    destruct (target_to_rule self !! target) as [root|] eqn:Hroot; cycle 1.
    { unfold run, clean. rewrite Hroot. split; intros; simplify_eq. }
    assert (Howned : owned_rule self rule).
    { destruct Hreach as [r Hr|r sub' _ (i & _ & Hi)];
        [by exists target|by exists i]. }
    split.
    + intros rebuilt s' Hrun. unfold run, run_rule in Hrun.
      rewrite Hroot in Hrun.
      assert (Hfresh : inputs_checked self (fresh_session w d : Session)).
      { intros r _ [v Hsome]. done. }
      pose proof (wp_elim _ _ _ _ _
                    (_run_checked self Hids fuel root (fresh_session w d)
                       ltac:(by exists target) Hfresh) Hrun)
        as (Hs' & Hin & _).
      pose proof (checked_reachable self target root s' Hroot Hs' Hin
                    rule Hreach) as Hrule.
      pose proof (Hs' rule Howned Hrule x Hx) as Hc.
      unfold input_checked in Hc. by rewrite Hnone in Hc.
    + intros s' Hclean. unfold clean in Hclean. rewrite Hroot in Hclean.
      assert (Hfresh : closed self [] (fresh_session w d : Session)).
      { split.
        - intros r Hr. by apply elem_of_nil in Hr.
        - intros r sub Hr. by apply elem_of_nil in Hr. }
      assert (Hfresh' : clean_checked self [] (fresh_session w d : Session)).
      { split.
        - intros r Hr. by apply elem_of_nil in Hr.
        - intros r i Hr. by apply elem_of_nil in Hr. }
      pose proof (wp_elim _ _ _ _ _
                    (_clean_closed self Hids fuel root [] (fresh_session w d)
                       ltac:(by exists target) Hfresh) Hclean)
        as (Hclosed & Hin & _).
      pose proof (wp_elim _ _ _ _ _
                    (_clean_checked self Hids fuel root [] (fresh_session w d)
                       ltac:(by exists target) Hfresh') Hclean)
        as [_ Hchecked].
      apply (Hchecked rule x); [|by rewrite fmap_nil; apply not_elem_of_nil|done..].
      by apply (closed_reachable self Hids target root).
Qed.

(** ** What the flag returned by [run] tells *)

Lemma only_cooked_refl (s : Session) : only_cooked s s.
Proof. split; [done|]. exists []. by rewrite app_nil_r. Qed.

Lemma only_cooked_trans (s1 s2 s3 : Session) :
  only_cooked s1 s2 → only_cooked s2 s3 → only_cooked s1 s3.
Proof.
  intros [Hd1 (c1 & Ht1 & Hc1)] [Hd2 (c2 & Ht2 & Hc2)].
  split; [congruence|]. exists (c1 ++ c2).
  split; [by rewrite Ht2, Ht1, app_assoc|by apply Forall_app].
Qed.

Lemma only_cooked_same (s1 s2 s3 : Session) :
  db s3 = db s2 → trace s3 = trace s2 → only_cooked s1 s2 → only_cooked s1 s3.
Proof. unfold only_cooked. by intros -> ->. Qed.

Lemma only_cooked_cook (s1 s2 : Session) target hint w :
  only_cooked s1 s2 →
  only_cooked s1 (set_world w (log (EvCook (Exc:=Exc) target hint) s2).2).
Proof.
  intros H. eapply only_cooked_trans; [exact H|]. split; [done|].
  exists [EvCook target hint]. split; [done|]. by repeat constructor.
Qed.

Lemma execute_rebuilt (self : Runner) rule fp tc oc s :
  wp (execute self rule fp true tc oc) s
     (λ r s', match r with
              | Returns b =>
                  b = true
                  ∧ ∃ fps before,
                      trace s' = before ++ [EvCommit (id rule) fp fps]
                      ∧ EvRuleRun (id rule) ∈ before
                      ∧ EvRuleReturned (id rule) ∈ before
                      ∧ db s' !! fp = Some (dict fps)
              | Raises _ => True
              end).
Proof.
  unfold execute. apply wp_bind.
  apply wp_for_each with (I := λ _ _ _, True); [done| |].
  { intros t l acc s1 _. unfold collect_input.
    apply wp_bind, wp_targets_eval_cache_get; [|done].
    intros v _. by apply wp_ret. }
  intros ins s1 _. apply wp_bind, wp_call_rule_body; [|done].
  intros w _. apply wp_bind.
  apply wp_for_each with (I := λ _ _ s',
    EvRuleRun (id rule) ∈ trace s' ∧ EvRuleReturned (id rule) ∈ trace s').
  { simpl. split.
    - apply elem_of_app. left. apply elem_of_app. right.
      by apply list_elem_of_singleton.
    - apply elem_of_app. right. by apply list_elem_of_singleton. }
  { intros t l acc s2 [Hrun Hret]. unfold record_fingerprint.
    apply wp_bind, wp_targets_eval_cache_get; [|done].
    intros v _. apply wp_bind, wp_call; [|done].
    intros fp' w' _. apply wp_bind, wp_log, wp_bind, wp_set_targets_eval_cache.
    apply wp_ret. simpl. split; apply elem_of_app; by left. }
  intros fps s2 [Hrun Hret].
  apply wp_bind, wp_set_rule_previous_run, wp_ret.
  split; [done|]. exists fps, (trace s2). simpl.
  by rewrite lookup_insert_eq.
Qed.

Lemma _run_not_rebuilt_only_cooked (self : Runner) fuel : ∀ rule s,
  wp (_run pickle_dumps sha256 self fuel rule) s (not_rebuilt_post s).
Proof.
  induction fuel as [|fuel IH]; intros rule s; [by apply wp_raise|].
  rewrite _run_unfold. apply wp_bind, wp_gets.
  destruct (already_evaluated s !! id rule) as [b|].
  { apply wp_ret. intros _. apply only_cooked_refl. }
  apply wp_bind, wp_lift.
  destruct (_compute_run_fingerprint _ _ _ _) as [fp|e] eqn:Hfp; [|done].
  apply wp_bind, wp_fetch_rule_previous_run. cbv zeta. apply wp_bind.
  apply wp_for_each with (I := λ _ acc s', acc.1 = false → only_cooked s s').
  { intros _. apply only_cooked_refl. }
  { intros input todo [flag targets] s1 H1. simpl in H1. unfold eval_input.
    destruct (target_to_rule self !! input) as [sub|].
    - apply wp_bind. eapply wp_mono; [|apply IH].
      intros [rebuilt|e] s2 Hpost; [|done]. apply wp_ret. simpl.
      intros [-> ->]%orb_false_iff.
      eapply only_cooked_trans; [by apply H1|by apply Hpost].
    - apply wp_bind, wp_cook; [|done]. intros cooked handler w _.
      destruct (negb (ON_DISK_TARGET handler)); [done|].
      pose proof (λ Hflag, only_cooked_cook s s1 input
                    (default ∅ (db s !! fp) !! input) w (H1 Hflag)) as H2.
      apply wp_bind, wp_has_changed; [| |intros _]; [|done|];
        intros; apply wp_bind, wp_set_targets_eval_cache, wp_ret; simpl;
        intros [-> ?]%orb_false_iff;
        (eapply only_cooked_same; [| |by apply H2]; done). }
  intros [flag targets] s1 H1. simpl in H1. apply wp_bind.
  apply wp_for_each with (I := λ _ acc s', acc.1.1 = false → only_cooked s s');
    [done| |].
  { intros output todo [[flag' targets'] oc] s2 H2. simpl in H2.
    unfold eval_output.
    apply wp_bind, wp_cook; [|done]. intros cooked handler w _.
    pose proof (λ Hflag, only_cooked_cook s s2 output
                  (default ∅ (db s !! fp) !! output) w (H2 Hflag)) as H3.
    apply wp_bind, wp_has_changed; [| |intros _]; [|done|];
      intros; apply wp_bind, wp_set_targets_eval_cache, wp_ret; simpl;
      intros [-> ?]%orb_false_iff;
      (eapply only_cooked_same; [| |by apply H3]; done). }
  intros [[flag' targets'] oc] s2 H2. simpl in H2.
  apply wp_bind, wp_set_already_evaluated.
  destruct flag'; simpl.
  - eapply wp_mono; [|apply execute_rebuilt].
    intros [b|e] s3 Hpost; [|done]. destruct Hpost as [-> _]. done.
  - apply wp_ret. intros _.
    eapply only_cooked_same; [..|by apply H2]; done.
Qed.

Lemma _run_rebuilt (self : Runner) fuel rule (s s' : Session) :
  already_evaluated s !! id rule = None →
  _run pickle_dumps sha256 self fuel rule s = (Returns true, s') →
  just_rebuilt pickle_dumps sha256 self rule s'.
Proof.
  destruct fuel as [|fuel]; [done|]. intros Hnone Hrun.
  rewrite _run_unfold in Hrun.
  inv_bind_as Hrun evaluated s0 Hget. apply ret_Returns in Hget as [<- <-].
  rewrite Hnone in Hrun.
  inv_bind_as Hrun fp s_fp Hlift. unfold lift in Hlift.
  injection Hlift as Hfp <-.
  inv_bind_as Hrun prev s_prev Hfetch. cbv zeta in Hrun.
  inv_bind_as Hrun r_in s_in Hin. destruct r_in as [flag1 targets1].
  inv_bind_as Hrun r_out s_out Hout. destruct r_out as [[flag2 targets2] oc].
  inv_bind_as Hrun u s_set Hset.
  destruct flag2; simpl in Hrun; [|by apply ret_Returns in Hrun as [? _]].
  pose proof (wp_elim _ _ _ _ _ (execute_rebuilt self rule fp _ _ s_set) Hrun)
    as (_ & fps & before & Htr & Hrun' & Hret & Hdb).
  by exists fp, fps, before.
Qed.

(** X3: the flag [run] returns tells whether anything was rebuilt.  When it
    is false the store is as it was and the trace holds cooking only: no rule
    body was called, no fingerprint computed, nothing committed
    ([need_rebuild] and the reads of the store leave no event).  When it is
    true the body of the rule that owns the requested target has run and
    returned, and the last thing done was to commit its record under its run
    fingerprint. *)
Theorem run_returns_whether_rebuilt (self : Runner) (fuel : nat)
    (target : ResolvedTargetID) (w : W) (d : gmap bytes (gmap string Fp))
    (rebuilt : bool) (s' : Session) :
  run pickle_dumps sha256 self fuel target w d = (Returns rebuilt, s') →
  if rebuilt
  then ∃ rule, target_to_rule self !! target = Some rule
               ∧ just_rebuilt pickle_dumps sha256 self rule s'
  else db s' = d ∧ Forall cooking (trace s').
Proof.
  unfold run, run_rule.
  destruct (target_to_rule self !! target) as [root|] eqn:Hroot; [|done].
  intros Hrun. destruct rebuilt.
  - exists root. split; [done|].
    by apply (_run_rebuilt self fuel root (fresh_session w d)).
  - destruct (wp_elim _ _ _ _ _
                (_run_not_rebuilt_only_cooked self fuel root (fresh_session w d))
                Hrun eq_refl) as [Hdb (cooks & Htr & Hcooks)].
    split; [done|]. by rewrite Htr.
Qed.

(** ** The depth of the [run] traversal *)

Lemma _run_depth (self : Runner) (rank : string → nat) fuel : ∀ rule s,
  ranked self rank →
  owned_rule self rule → rank (id rule) < fuel →
  wp (_run pickle_dumps sha256 self fuel rule) s
     (λ r _, r ≠ Raises RecursionError).
Proof.
  induction fuel as [|fuel IH]; intros rule s Hranked Howned Hfuel; [lia|].
  rewrite _run_unfold. apply wp_bind, wp_gets.
  destruct (already_evaluated s !! id rule); [by apply wp_ret|].
  apply wp_bind, wp_lift.
  destruct (_compute_run_fingerprint _ _ _ _) as [fp|e] eqn:Hfp; cycle 1.
  { by apply _compute_run_fingerprint_Raises in Hfp as [k ->]. }
  apply wp_bind, wp_fetch_rule_previous_run. cbv zeta. apply wp_bind.
  apply wp_for_each with (I := λ todo _ _,
    ∀ i, i ∈ todo → i ∈ resolved_inputs rule); [done| |].
  { intros input todo [flag targets] s1 Htodo.
    assert (Htodo' : ∀ i, i ∈ todo → i ∈ resolved_inputs rule)
      by (intros; apply Htodo, elem_of_cons; auto).
    unfold eval_input.
    destruct (target_to_rule self !! input) as [sub|] eqn:Hsub.
    - apply wp_bind. eapply wp_mono; [|apply IH; [done|by exists input|]].
      + intros [rebuilt|e] s2 Hpost; [by apply wp_ret|done].
      + assert (rank (id sub) < rank (id rule)); [|lia].
        apply Hranked; [done|]. exists input. split; [|done].
        apply Htodo, elem_of_cons. auto.
    - apply wp_bind, wp_cook; [|done]. intros cooked handler w _.
      destruct (negb (ON_DISK_TARGET handler)); [done|].
      apply wp_bind, wp_has_changed; [| |intros _]; [|done|];
        intros; apply wp_bind, wp_set_targets_eval_cache; by apply wp_ret. }
  intros [flag targets] s1 _. apply wp_bind.
  apply wp_for_each with (I := λ _ _ _, True); [done| |].
  { intros output todo [[flag' targets'] oc] s2 _. unfold eval_output.
    apply wp_bind, wp_cook; [|done]. intros cooked handler w _.
    apply wp_bind, wp_has_changed; [| |intros _]; [|done|];
      intros; apply wp_bind, wp_set_targets_eval_cache; by apply wp_ret. }
  intros [[flag' targets'] oc] s2 _.
  apply wp_bind, wp_set_already_evaluated.
  destruct (negb flag'); [by apply wp_ret|].
  eapply wp_mono; [|apply execute_errors].
  intros [b|e] s3 He; [done|]. by destruct e.
Qed.

(** X7: without a cycle the nesting of [_run] is bounded.  If the rules can
    be ranked so that every rule is above the owners of its inputs, [_run]
    nests no deeper than the rank of the rule of the requested target, plus
    one: with more nested calls of [_run] allowed than that rank, [run] does
    not end in [RecursionError]. *)
Theorem run_recursion_is_bounded (self : Runner) (rank : string → nat)
    (fuel : nat) (target : ResolvedTargetID) (w : W)
    (d : gmap bytes (gmap string Fp)) :
  ranked self rank →
  (∀ rule, target_to_rule self !! target = Some rule → rank (id rule) < fuel) →
  (run pickle_dumps sha256 self fuel target w d).1 ≠ Raises RecursionError.
Proof.
  intros Hranked Hfuel. unfold run, run_rule.
  destruct (target_to_rule self !! target) as [root|] eqn:Hroot; [|done].
  apply _run_depth with (rank := rank); [done|by exists target|auto].
Qed.

(** ** [KeyError] *)

Section RunKeys.

Variable self : Runner.
Variable target : ResolvedTargetID.
Hypothesis ids : unique_ids self.
Hypothesis binds : binds_outputs self.

Lemma outputs_cached_same (s s' : Session) :
  already_evaluated s' = already_evaluated s →
  cache_grows s s' →
  outputs_cached self s → outputs_cached self s'.
Proof.
  intros Hae Hgrow Hs rule Howned Hsome output Hout. rewrite Hae in Hsome.
  apply Hgrow. eauto.
Qed.

Lemma cache_grows_same (s s' : Session) :
  targets_eval_cache s' = targets_eval_cache s → cache_grows s s'.
Proof. intros Heq t. by rewrite Heq. Qed.

Lemma cache_grows_insert (s s' : Session) t v :
  targets_eval_cache s' = <[t := v]> (targets_eval_cache s) →
  cache_grows s s'.
Proof. intros Heq t' Hsome. rewrite Heq. by apply is_Some_insert_keep. Qed.

Lemma execute_keys rule fp b tc oc s :
  outputs_cached self s →
  (∀ input, input ∈ resolved_inputs rule →
            is_Some (targets_eval_cache s !! input)) →
  (∀ t, t ∈ tc → is_Some (targets_eval_cache s !! t)) →
  wp (execute self rule fp b tc oc) s
     (λ r s', match r with
              | Returns _ => outputs_cached self s' ∧ cache_grows s s'
              | Raises (KeyError _) => False
              | Raises _ => True
              end).
Proof.
  intros Hs Hins Htc. unfold execute. apply wp_bind.
  apply wp_for_each with (I := λ todo _ s',
    s' = s ∧ ∀ i, i ∈ todo → i ∈ resolved_inputs rule); [done| |].
  { intros t l acc s1 [-> Htodo]. unfold collect_input.
    apply wp_bind, wp_targets_eval_cache_get.
    - intros v _. apply wp_ret. split; [done|].
      intros; apply Htodo, elem_of_cons; auto.
    - intros Hnone. destruct (Hins t) as [v Hv]; [|congruence].
      apply Htodo, elem_of_cons. auto. }
  intros ins s1 [-> _]. apply wp_bind, wp_call_rule_body; [|done].
  intros w _. apply wp_bind.
  apply wp_for_each with (I := λ todo _ s',
    already_evaluated s' = already_evaluated s ∧ cache_grows s s'
    ∧ ∀ t, t ∈ todo → t ∈ tc).
  { split; [done|]. split; [by apply cache_grows_same|done]. }
  { intros t l acc s2 (Hae & Hgrow & Htodo). unfold record_fingerprint.
    apply wp_bind, wp_targets_eval_cache_get.
    - intros v _. apply wp_bind, wp_call; [|done].
      intros fp' w' _. apply wp_bind, wp_log, wp_bind, wp_set_targets_eval_cache.
      apply wp_ret. split; [done|]. split.
      + intros t' Hsome. simpl. by apply is_Some_insert_keep, Hgrow.
      + intros; apply Htodo, elem_of_cons; auto.
    - intros Hnone. destruct (Hgrow t) as [v Hv]; [|congruence].
      apply Htc, Htodo, elem_of_cons. auto. }
  intros fps s2 (Hae & Hgrow & _).
  apply wp_bind, wp_set_rule_previous_run, wp_ret.
  split; [|done]. by eapply outputs_cached_same; [..|exact Hs].
Qed.

Lemma _run_keys fuel : ∀ rule s,
  reachable self target rule →
  outputs_cached self s →
  wp (_run pickle_dumps sha256 self fuel rule) s (key_post self target s).
Proof.
  induction fuel as [|fuel IH]; intros rule s Hreach Hs; [by apply wp_raise|].
  assert (Howned : owned_rule self rule) by by eapply reachable_owned.
  rewrite _run_unfold. apply wp_bind, wp_gets.
  destruct (already_evaluated s !! id rule) as [b|] eqn:Hrule.
  { apply wp_ret. split; [done|]. by apply cache_grows_same. }
  apply wp_bind, wp_lift.
  destruct (_compute_run_fingerprint _ _ _ _) as [fp|e] eqn:Hfp; cycle 1.
  { apply _compute_run_fingerprint_least in Hfp as (k & -> & Hk & Hnone & _).
    by exists rule. }
  apply wp_bind, wp_fetch_rule_previous_run. cbv zeta. apply wp_bind.
  (* step 2: the inputs seen so far are in the cache, or their rule is
     marked evaluated *)
  apply wp_for_each with (I := λ todo acc s', ∃ seen,
    resolved_inputs rule = seen ++ todo
    ∧ outputs_cached self s' ∧ cache_grows s s'
    ∧ (∀ i, i ∈ seen → is_Some (targets_eval_cache s' !! i))
    ∧ ∀ t, t ∈ acc.2 → is_Some (targets_eval_cache s' !! t)).
  { exists []. split; [done|]. split; [done|].
    split; [by apply cache_grows_same|].
    split; intros i Hi; by apply elem_of_nil in Hi. }
  { intros input todo [flag targets] s1 (seen & Hsplit & Hs1 & Hg1 & Hseen & Htc).
    simpl in Htc.
    assert (Hinput : input ∈ resolved_inputs rule).
    { rewrite Hsplit. apply elem_of_app. right. apply elem_of_cons. auto. }
    unfold eval_input.
    destruct (target_to_rule self !! input) as [sub|] eqn:Hsub.
    - apply wp_bind. eapply wp_mono; [|apply wp_and;
        [apply (IH sub s1); [|done]|apply _run_evaluated]].
      2:{ eapply reachable_input; [exact Hreach|]. by exists input. }
      intros [rebuilt|e] s2 [Hpost [_ Hdone]]; [|done]. apply wp_ret.
      destruct Hpost as [Hs2 Hg2]. exists (seen ++ [input]).
      split; [by rewrite <-app_assoc|]. split; [done|].
      split; [intros t Ht; by apply Hg2, Hg1|]. split; [|simpl; by auto].
      intros i [Hi|Hi]%elem_of_app; [by auto|].
      apply list_elem_of_singleton in Hi as ->.
      apply (Hs2 sub); [by exists input|by eapply Hdone|by apply binds].
    - apply wp_bind, wp_cook; [|done]. intros cooked handler w _.
      destruct (negb (ON_DISK_TARGET handler)); [done|].
      apply wp_bind, wp_has_changed; [| |intros _]; [|done|];
        intros; apply wp_bind, wp_set_targets_eval_cache, wp_ret;
        (exists (seen ++ [input]); split; [by rewrite <-app_assoc|];
         split; [by eapply outputs_cached_same;
                   [..|exact Hs1]; [|eapply cache_grows_insert]|];
         split; [intros t Ht; simpl; by apply is_Some_insert_keep, Hg1|];
         split; intros t [Ht|Ht]%elem_of_app; simpl;
           try (apply is_Some_insert_keep; by auto);
           apply list_elem_of_singleton in Ht as ->;
           rewrite lookup_insert_eq; by eauto). }
  intros [flag targets] s1 (seen & Hsplit & Hs1 & Hg1 & Hseen & Htc).
  rewrite app_nil_r in Hsplit. subst seen. simpl in Htc. apply wp_bind.
  (* step 3 *)
  apply wp_for_each with (I := λ todo acc s', ∃ seen,
    resolved_outputs rule = seen ++ todo
    ∧ already_evaluated s' = already_evaluated s1 ∧ cache_grows s1 s'
    ∧ (∀ o, o ∈ seen → is_Some (targets_eval_cache s' !! o))
    ∧ ∀ t, t ∈ acc.1.2 → is_Some (targets_eval_cache s' !! t)).
  { exists []. split; [done|]. split; [done|].
    split; [by apply cache_grows_same|].
    split; [intros i Hi; by apply elem_of_nil in Hi|done]. }
  { intros output todo [[flag' targets'] oc] s2
      (seen & Hsplit & Hae2 & Hg2 & Hseen2 & Htc2). simpl in Htc2.
    unfold eval_output.
    apply wp_bind, wp_cook; [|done]. intros cooked handler w _.
    apply wp_bind, wp_has_changed; [| |intros _]; [|done|];
      intros; apply wp_bind, wp_set_targets_eval_cache, wp_ret;
      (exists (seen ++ [output]); split; [by rewrite <-app_assoc|];
       split; [done|];
       split; [intros t Ht; simpl; by apply is_Some_insert_keep, Hg2|];
       split; intros t [Ht|Ht]%elem_of_app; simpl;
         try (apply is_Some_insert_keep; by auto);
         apply list_elem_of_singleton in Ht as ->;
         rewrite lookup_insert_eq; by eauto). }
  intros [[flag' targets'] oc] s2 (seen & Hsplit & Hae2 & Hg2 & Hseen2 & Htc2).
  rewrite app_nil_r in Hsplit. subst seen. simpl in Htc2.
  apply wp_bind, wp_set_already_evaluated.
  set (s3 := (set_already_evaluated rule flag' s2).2).
  assert (Hs3 : outputs_cached self s3).
  { intros other Ho Hsome output Hout. simpl in *.
    destruct (decide (id other = id rule)) as [Hid|Hid].
    - apply ids in Hid; [|done..]. subst other. auto.
    - rewrite lookup_insert_ne in Hsome by done. rewrite Hae2 in Hsome.
      apply Hg2. eauto. }
  assert (Hg3 : cache_grows s s3) by (intros t Ht; by apply Hg2, Hg1).
  destruct (negb flag'); [by apply wp_ret|].
  eapply wp_mono; [|apply execute_keys; [done| |done]].
  - intros [b|e] s4 Hpost; [|by destruct e].
    destruct Hpost as [Hs4 Hg4]. split; [done|].
    intros t Ht. by apply Hg4, Hg3.
  - intros input Hinput. apply Hg2. auto.
Qed.

End RunKeys.

(** X2: the lookups of the engine itself miss only for the configuration.
    When [run], over rules with distinct ids, or [clean] ends in a [KeyError]
    raised by the engine's own code (an exception raised inside a handler, a
    body or the store is a [CollaboratorError] here, whatever its class), the
    key is one that a rule reachable from the requested target needs and the
    configuration does not have: [targets_eval_cache] is never looked up for
    a target it does not hold. *)
Theorem key_error_names_unconfigured_key
    (rules : list (string * ResolvedRule)) (config : gmap string ConstTypes)
    (target_handlers : TargetHandlersBundle W Exc Fp Cooked)
    (fuel : nat) (target : ResolvedTargetID) (w : W)
    (d : gmap bytes (gmap string Fp)) (k : string) :
  NoDup (id <$> rules.*2) →
  (run pickle_dumps sha256 (Runner_init rules config target_handlers)
       fuel target w d).1 = Raises (KeyError k)
  ∨ (clean pickle_dumps sha256 is_key_error
           (Runner_init rules config target_handlers) fuel target w d).1
    = Raises (KeyError k) →
  unconfigured_key (Runner_init rules config target_handlers) target k.
Proof.
  intros Hids.
  pose proof (Runner_init_unique_ids rules config target_handlers Hids)
    as Hunique.
  assert (Hbinds : binds_outputs (Runner_init rules config target_handlers)).
  { intros t r Hr. by apply target_to_rule_owner in Hr as [_ ?]. }
  generalize dependent (Runner_init rules config target_handlers).
  intros self Hunique Hbinds. unfold run, run_rule, clean.
  destruct (target_to_rule self !! target) as [root|] eqn:Hroot;
    [|by intros [?|?]].
  intros [Hrun|Hclean].
  - pose proof (_run_keys self target Hunique Hbinds fuel root
                  (fresh_session w d) (reachable_owner _ _ _ Hroot)) as Hkeys.
    unfold wp in Hkeys. rewrite Hrun in Hkeys. apply Hkeys.
    intros rule _ [? Hsome]. simpl in Hsome. by rewrite lookup_empty in Hsome.
  - assert (Hfresh : untouched_by_clean d (fresh_session w d : Session))
      by done.
    pose proof (_clean_quiet self target d fuel root [] (fresh_session w d)
                  (reachable_owner _ _ _ Hroot) Hfresh) as Hquiet.
    unfold wp in Hquiet. rewrite Hclean in Hquiet. apply Hquiet.
Qed.

(** ** How often a target without owning rule is cooked *)

Lemma occurrences_snoc (x input : ResolvedTargetID) (seen : list ResolvedTargetID) :
  occurrences x (seen ++ [input])
  = occurrences x seen + (if bool_decide (input = x) then 1 else 0).
Proof.
  unfold occurrences. rewrite List.filter_app, length_app. simpl.
  by destruct (bool_decide (input = x)).
Qed.

Lemma listed_app (x : ResolvedTargetID) (l1 l2 : list ResolvedRule) :
  listed x (l1 ++ l2) = listed x l1 + listed x l2.
Proof. unfold listed. by rewrite sum_list_with_app. Qed.

Lemma marks_frame (self : Runner) target evaluated (s s' : Session) :
  already_evaluated s' = already_evaluated s →
  marks self target evaluated s → marks self target evaluated s'.
Proof. unfold marks. by intros ->. Qed.

Section Tally.

Variable self : Runner.
Variable target x : ResolvedTargetID.
Hypothesis ids : unique_ids self.
Hypothesis declared : ∀ rule output,
  owned_rule self rule → output ∈ resolved_outputs rule →
  is_Some (target_to_rule self !! output).
Hypothesis unowned : target_to_rule self !! x = None.

Lemma _run_tally fuel : ∀ rule evaluated s,
  reachable self target rule →
  marks self target evaluated s →
  wp (_run pickle_dumps sha256 self fuel rule) s
     (tally_post self target x evaluated s).
Proof.
  induction fuel as [|fuel IH]; intros rule evaluated s Hreach Hs;
    [by apply wp_raise|].
  assert (Howned : owned_rule self rule) by (by eapply reachable_owned).
  rewrite _run_unfold. apply wp_bind, wp_gets.
  destruct (already_evaluated s !! id rule) as [b|] eqn:Hrule.
  { apply wp_ret. exists []. rewrite app_nil_r. split; [done|].
    unfold listed. simpl. lia. }
  apply wp_bind, wp_lift.
  destruct (_compute_run_fingerprint _ _ _ _) as [fp|e] eqn:Hfp; [|done].
  apply wp_bind, wp_fetch_rule_previous_run. cbv zeta.
  apply wp_bind.
  apply wp_for_each with (I := λ todo _ s', ∃ more seen,
    resolved_inputs rule = seen ++ todo
    ∧ marks self target (evaluated ++ more) s'
    ∧ already_evaluated s' !! id rule = None
    ∧ count (is_cook x) (trace s')
      = count (is_cook x) (trace s) + listed x more + occurrences x seen).
  { exists [], []. rewrite app_nil_r. split; [done|]. split; [done|].
    split; [done|]. unfold listed, occurrences. simpl. lia. }
  { intros input todo [b tc] s1 (more & seen & Hsplit & Hs1 & Hn1 & Hc1).
    assert (Hinput : input ∈ resolved_inputs rule).
    { rewrite Hsplit. apply elem_of_app. right. apply elem_of_cons. auto. }
    unfold eval_input.
    destruct (target_to_rule self !! input) as [sub|] eqn:Hsub.
    - apply wp_bind. eapply wp_mono; [|apply wp_and;
        [apply (IH sub (evaluated ++ more));
           [eapply reachable_input; [exact Hreach|by exists input]|done]
        |by apply (_run_input_owner self ids fuel rule input sub)]].
      intros [rebuilt|e] s2 [Hpost Hn2]; [|done].
      destruct Hpost as (more' & Hs2 & Hc2). apply wp_ret.
      exists (more ++ more'), (seen ++ [input]).
      split; [by rewrite <-app_assoc|]. split; [by rewrite app_assoc|].
      split; [done|]. rewrite Hc2, Hc1, listed_app, occurrences_snoc.
      rewrite bool_decide_eq_false_2 by congruence. lia.
    - apply wp_bind, wp_cook; [|done]. intros cooked handler w _.
      destruct (negb (ON_DISK_TARGET handler)); [done|].
      assert (Hstep : ∀ s2 : Session,
        already_evaluated s2 = already_evaluated s1 →
        trace s2 = trace s1 ++ [EvCook input (default ∅ (db s !! fp) !! input)] →
        ∃ more0 seen0,
          resolved_inputs rule = seen0 ++ todo
          ∧ marks self target (evaluated ++ more0) s2
          ∧ already_evaluated s2 !! id rule = None
          ∧ count (is_cook x) (trace s2)
            = count (is_cook x) (trace s) + listed x more0 + occurrences x seen0).
      { intros s2 Hae Htr. exists more, (seen ++ [input]).
        split; [by rewrite <-app_assoc|].
        split; [by eapply marks_frame|]. split; [by rewrite Hae|].
        rewrite Htr, count_snoc, Hc1, occurrences_snoc. simpl. lia. }
      apply wp_bind, wp_has_changed; [| |intros _]; [|done|];
        intros; apply wp_bind, wp_set_targets_eval_cache, wp_ret;
        by apply Hstep. }
  intros [b tc] s1 (more & seen & Hsplit & Hs1 & Hn1 & Hc1).
  rewrite app_nil_r in Hsplit. subst seen. apply wp_bind.
  apply wp_for_each with (I := λ todo _ s',
    (∀ o, o ∈ todo → o ∈ resolved_outputs rule)
    ∧ already_evaluated s' = already_evaluated s1
    ∧ count (is_cook x) (trace s') = count (is_cook x) (trace s1)); [done| |].
  { intros output todo [[b' tc'] oc] s2 (Htodo & Hae2 & Hc2).
    assert (Hout : output ≠ x).
    { intros ->. destruct (declared rule x Howned) as [r Hr];
        [apply Htodo, elem_of_cons; auto|congruence]. }
    unfold eval_output. apply wp_bind, wp_cook; [|done].
    intros cooked handler w _.
    assert (Hstep : ∀ s3 : Session,
      already_evaluated s3 = already_evaluated s2 →
      trace s3 = trace s2 ++ [EvCook output (default ∅ (db s !! fp) !! output)] →
      (∀ o, o ∈ todo → o ∈ resolved_outputs rule)
      ∧ already_evaluated s3 = already_evaluated s1
      ∧ count (is_cook x) (trace s3) = count (is_cook x) (trace s1)).
    { intros s3 Hae Htr. split; [intros; apply Htodo, elem_of_cons; auto|].
      split; [congruence|]. rewrite Htr, count_snoc, Hc2. simpl.
      rewrite bool_decide_eq_false_2 by done. lia. }
    apply wp_bind, wp_has_changed; [| |intros _]; [|done|];
      intros; apply wp_bind, wp_set_targets_eval_cache, wp_ret;
      by apply Hstep. }
  intros [[b' tc'] oc] s2 (_ & Hae2 & Hc2).
  apply wp_bind, wp_set_already_evaluated.
  set (s3 := (set_already_evaluated rule b' s2).2).
  assert (Hs3 : marks self target (evaluated ++ more ++ [rule]) s3).
  { destruct Hs1 as (Hnd & Hr & Hiff). rewrite app_assoc.
    split; [|split].
    - rewrite fmap_app. apply NoDup_app. split; [done|]. split.
      + intros rule_id Hin [->|?%elem_of_nil]%elem_of_cons; [|done].
        apply Hiff in Hin. rewrite Hn1 in Hin. by destruct Hin.
      + apply NoDup_singleton.
    - intros r [Hin|Hin]%elem_of_app; [auto|].
      by apply list_elem_of_singleton in Hin as ->.
    - intros rule_id. simpl. rewrite Hae2, fmap_app, elem_of_app.
      rewrite lookup_insert_is_Some, <-Hiff. simpl.
      rewrite list_elem_of_singleton.
      destruct (decide (id rule = rule_id)); intuition congruence. }
  assert (Hc3 : count (is_cook x) (trace s3)
                = count (is_cook x) (trace s) + listed x (more ++ [rule])).
  { simpl. rewrite Hc2, Hc1, listed_app. unfold listed at 3. simpl. lia. }
  destruct (negb b'); [apply wp_ret; by exists (more ++ [rule])|].
  eapply wp_mono; [|apply execute_cooks].
  intros [r|e] s4 [Hae4 Hc4]; [|done]. exists (more ++ [rule]).
  split; [by eapply marks_frame|]. by rewrite Hc4.
Qed.

End Tally.

(** C5 (amended): in one invocation of [run] over rules with distinct ids in
    which no output is listed twice, by one rule or by two, every target that
    has an owning rule is cooked at most once.  A target that no rule owns is
    cooked again each time a rule lists it: when [run] returns, it has been
    cooked as many times as the inputs of the rules that can be reached from
    the requested target list it. *)
Theorem owned_target_cooked_at_most_once
    (rules : list (string * ResolvedRule)) (config : gmap string ConstTypes)
    (target_handlers : TargetHandlersBundle W Exc Fp Cooked)
    (fuel : nat) (target : ResolvedTargetID) (w : W)
    (d : gmap bytes (gmap string Fp)) (x : ResolvedTargetID) :
  NoDup (id <$> rules.*2) →
  (∀ rule, rule ∈ rules.*2 → NoDup (resolved_outputs rule)) →
  (∀ rule1 rule2 output, rule1 ∈ rules.*2 → rule2 ∈ rules.*2 →
     output ∈ resolved_outputs rule1 → output ∈ resolved_outputs rule2 →
     rule1 = rule2) →
  (is_Some (target_to_rule (Runner_init rules config target_handlers) !! x) →
   count (is_cook x)
         (trace (run pickle_dumps sha256
                     (Runner_init rules config target_handlers)
                     fuel target w d).2) ≤ 1)
  ∧ (target_to_rule (Runner_init rules config target_handlers) !! x = None →
     ∀ rebuilt s',
       run pickle_dumps sha256 (Runner_init rules config target_handlers)
           fuel target w d = (Returns rebuilt, s') →
       ∃ evaluated,
         NoDup evaluated
         ∧ (∀ rule, rule ∈ evaluated
                    ↔ reachable (Runner_init rules config target_handlers)
                                target rule)
         ∧ count (is_cook x) (trace s') = listed x evaluated).
Proof.
  intros Hids Hnodup Hdisj.
  set (self := Runner_init rules config target_handlers) in *.
  pose proof (Runner_init_unique_ids _ config target_handlers Hids) as Hunique.
  fold self in Hunique. split.
  - intros Hx. unfold run, run_rule.
    destruct (target_to_rule self !! target) as [root|] eqn:Hroot; cycle 1.
    { cbv. lia. }
    pose proof (_run_cooks self Hunique
                  (Runner_init_owns_outputs _ _ _ Hnodup Hdisj) fuel root
                  (fresh_session w d)) as Hc.
    unfold wp in Hc.
    destruct (_run _ _ _ _ _ _) as [[b|e] s'] eqn:Hrun; simpl in *.
    + destruct Hx as [r Hr]. eapply Hc; [by exists target| |exact Hr].
      intros t r' _. cbv. split; [lia|done].
    + apply Hc; [by exists target| |done].
      intros t r' _. cbv. split; [lia|done].
  - intros Hnone rebuilt s' Hrun. unfold run, run_rule in Hrun.
    destruct (target_to_rule self !! target) as [root|] eqn:Hroot; [|done].
    assert (Hdeclared : ∀ rule output,
      owned_rule self rule → output ∈ resolved_outputs rule →
      is_Some (target_to_rule self !! output)).
    { intros rule output [t Ht] Hout.
      apply target_to_rule_owner in Ht as [Hr _].
      by eapply target_to_rule_declared. }
    assert (Hfresh : marks self target [] (fresh_session w d : Session)).
    { split; [constructor|]. split.
      - intros r Hr. by apply elem_of_nil in Hr.
      - intros rule_id. simpl. rewrite lookup_empty. split.
        + by intros [? ?].
        + intros Hin. by apply elem_of_nil in Hin. }
    pose proof (wp_elim _ _ _ _ _
                  (_run_tally self target x Hunique Hdeclared Hnone fuel root
                     [] (fresh_session w d) ltac:(by constructor) Hfresh) Hrun)
      as (evaluated & (Hnd & Hreach & Hiff) & Hcount).
    assert (Hfresh' : inputs_checked self (fresh_session w d : Session)).
    { intros r _ [v Hsome]. done. }
    pose proof (wp_elim _ _ _ _ _
                  (_run_checked self Hunique fuel root (fresh_session w d)
                     ltac:(by exists target) Hfresh') Hrun)
      as (Hs' & Hin & _).
    exists evaluated. simpl in *. split; [by eapply NoDup_fmap_1|].
    split; [|simpl in Hcount; lia].
    intros rule. split; [apply Hreach|]. intros Hrule.
    pose proof (checked_reachable self target root s' Hroot Hs' Hin
                  rule Hrule) as Hsome.
    apply Hiff, list_elem_of_fmap in Hsome as (rule' & Hid & Hrule').
    assert (rule = rule') as ->; [|done].
    apply Hunique; [by eapply reachable_owned| |done].
    eapply reachable_owned. by apply Hreach.
Qed.

(** ** Dependencies are executed first *)

Lemma snoc_split_run (tr : list Event) (ev : Event) before after rule_id :
  tr ++ [ev] = before ++ EvRuleRun rule_id :: after →
  (after = [] ∧ before = tr ∧ ev = EvRuleRun rule_id)
  ∨ ∃ after', after = after' ++ [ev] ∧ tr = before ++ EvRuleRun rule_id :: after'.
Proof.
  destruct after as [|last after _] using rev_ind; intros Heq.
  - apply app_inj_tail in Heq as [-> ->]. auto.
  - rewrite app_comm_cons, app_assoc in Heq.
    apply app_inj_tail in Heq as [-> ->]. eauto.
Qed.

Lemma runs_committed_snoc (tr : list Event) (ev : Event) :
  runs_committed tr → (∀ rule_id, ev ≠ EvRuleRun rule_id) →
  runs_committed (tr ++ [ev]).
Proof.
  intros Htr Hev rule_id [Hin|Hin]%elem_of_app.
  - destruct (Htr rule_id Hin) as (fp & fps & Hc). exists fp, fps.
    apply elem_of_app. auto.
  - apply list_elem_of_singleton in Hin. by destruct (Hev rule_id).
Qed.

Section Order.

Variable self : Runner.
Hypothesis ids : unique_ids self.

(** An event other than the start of a body. *)
Lemma order_ok_snoc (tr : list Event) (ev : Event) :
  order_ok self tr →
  (∀ rule_id, ev ≠ EvRuleRun rule_id) →
  (∀ rule sub, owned_rule self rule → linked self rule sub →
     EvRuleRun (id rule) ∈ tr → ¬ executes (id sub) ev) →
  order_ok self (tr ++ [ev]).
Proof.
  intros [Hstarted Hcommitted] Hev Hfree. split.
  - intros before after rule sub Heq Howned Hlink.
    apply snoc_split_run in Heq as [(_ & _ & ->)|(after' & -> & ->)];
      [by destruct (Hev (id rule))|].
    intros ev' [Hin|Hin]%elem_of_app.
    + by eapply Hstarted.
    + apply list_elem_of_singleton in Hin as ->.
      apply (Hfree rule sub); [done..|].
      apply elem_of_app. right. apply elem_of_cons. auto.
  - intros before after rule_id Heq.
    apply snoc_split_run in Heq as [(_ & _ & ->)|(after' & -> & ->)];
      [by destruct (Hev rule_id)|].
    by eapply Hcommitted.
Qed.

(** The start of the body of [rule_id]. *)
Lemma order_ok_snoc_run (tr : list Event) rule_id :
  order_ok self tr → runs_committed tr → not_awaited self rule_id tr →
  order_ok self (tr ++ [EvRuleRun rule_id]).
Proof.
  intros [Hstarted Hcommitted] Hdone Hfree. split.
  - intros before after rule sub Heq Howned Hlink.
    apply snoc_split_run in Heq as [(-> & _ & _)|(after' & -> & ->)].
    { intros ev Hin. by apply elem_of_nil in Hin. }
    intros ev' [Hin|Hin]%elem_of_app.
    + by eapply Hstarted.
    + apply list_elem_of_singleton in Hin as ->. simpl. intros Heq.
      apply (Hfree rule sub); [done..| |done].
      apply elem_of_app. right. apply elem_of_cons. auto.
  - intros before after rule_id' Heq.
    apply snoc_split_run in Heq as [(_ & -> & _)|(after' & -> & ->)];
      [done|by eapply Hcommitted].
Qed.

Lemma ordered_neutral (s s' : Session) (ev : Event) :
  trace s' = trace s ++ [ev] →
  already_evaluated s' = already_evaluated s →
  (∀ rule_id, ¬ executes rule_id ev) →
  ordered self s → ordered self s'.
Proof.
  intros Htr Hae Hev (Hok & Hdone & Hdeps).
  assert (Hnorun : ∀ rule_id, ev ≠ EvRuleRun rule_id).
  { intros rule_id ->. by apply (Hev rule_id). }
  split; [|split].
  - rewrite Htr. apply order_ok_snoc; auto.
  - rewrite Htr. by apply runs_committed_snoc.
  - intros rule sub Howned Hlink. rewrite Htr, Hae.
    intros [Hin|Hin]%elem_of_app; [eauto|].
    apply list_elem_of_singleton in Hin. by destruct (Hnorun (id rule)).
Qed.

Lemma ordered_same (s s' : Session) :
  trace s' = trace s →
  (∀ rule_id, is_Some (already_evaluated s !! rule_id) →
              is_Some (already_evaluated s' !! rule_id)) →
  ordered self s → ordered self s'.
Proof.
  intros Htr Hae (Hok & Hdone & Hdeps). unfold ordered, deps_evaluated.
  rewrite Htr. split; [done|]. split; [done|]. eauto.
Qed.

Lemma ordered_cook (s : Session) target hint w :
  ordered self s →
  ordered self (set_world w (log (EvCook target hint) s).2).
Proof.
  intros Hs. apply (ordered_neutral s _ (EvCook target hint)); try done.
  intros rule_id H. exact H.
Qed.

Lemma execute_order rule fp b tc oc s :
  owned_rule self rule →
  ordered self s →
  not_awaited self (id rule) (trace s) →
  (∀ sub, linked self rule sub →
          is_Some (already_evaluated s !! id sub) ∧ id sub ≠ id rule) →
  wp (execute self rule fp b tc oc) s (order_post self).
Proof.
  intros Howned (Hok & Hdone & Hdeps) Hfree Hsubs. unfold execute.
  apply wp_bind.
  apply wp_for_each with (I := λ _ _ s', s' = s); [done| |].
  { intros t l acc s1 ->. unfold collect_input.
    apply wp_bind, wp_targets_eval_cache_get; [|done].
    intros v _. by apply wp_ret. }
  intros ins s1 ->.
  (* the body has started *)
  set (tr1 := trace s ++ [EvRuleRun (id rule)]).
  assert (Hok1 : order_ok self tr1) by by apply order_ok_snoc_run.
  assert (Hfree1 : not_awaited self (id rule) tr1).
  { intros p sub Hp Hlink [Hin|Hin]%elem_of_app; [by eapply Hfree|].
    apply list_elem_of_singleton in Hin. injection Hin as Hid.
    apply ids in Hid; [|done..]. subst p. by apply Hsubs. }
  assert (Hown : ∀ ev : Event,
    (∀ rule_id, ev ≠ EvRuleRun rule_id) →
    (∀ rule_id, executes rule_id ev → rule_id = id rule) →
    ∀ tr, order_ok self tr →
          (∀ rule_id, EvRuleRun rule_id ∈ tr → EvRuleRun rule_id ∈ tr1) →
          order_ok self (tr ++ [ev])).
  { intros ev Hnorun Hmine tr Htr Hsame. apply order_ok_snoc; [done..|].
    intros p sub Hp Hlink Hin Hex. apply Hmine in Hex.
    by apply (Hfree1 p sub Hp Hlink (Hsame _ Hin)). }
  apply wp_bind, wp_call_rule_body.
  2:{ intros e w _. simpl.
      apply (Hown (EvRuleRaised (id rule) e)); [done|by intros ? <-|done..]. }
  intros w _. apply wp_bind.
  apply wp_for_each with (I := λ _ _ s',
    order_ok self (trace s')
    ∧ already_evaluated s' = already_evaluated s
    ∧ (∀ rule_id, EvRuleRun rule_id ∈ trace s' → EvRuleRun rule_id ∈ tr1)
    ∧ ∀ ev, ev ∈ trace s → ev ∈ trace s').
  { simpl. split; [|split; [done|split]].
    - apply (Hown (EvRuleReturned (id rule))); [done|by intros ? <-|done..].
    - intros rule_id [Hin|Hin]%elem_of_app; [done|].
      by apply list_elem_of_singleton in Hin.
    - intros ev Hin. apply elem_of_app. left. apply elem_of_app. by left. }
  { intros t l acc s2 (Hok2 & Hae2 & Hruns2 & Hold2). unfold record_fingerprint.
    apply wp_bind, wp_targets_eval_cache_get; [|done].
    intros v _. apply wp_bind, wp_call; [|done].
    intros fp' w' _. apply wp_bind, wp_log, wp_bind, wp_set_targets_eval_cache.
    apply wp_ret. simpl. split; [|split; [done|split]].
    - by apply (Hown (EvFingerprint t fp')).
    - intros rule_id [Hin|Hin]%elem_of_app; [auto|].
      by apply list_elem_of_singleton in Hin.
    - intros ev Hin. apply elem_of_app. left. auto. }
  intros fps s2 (Hok2 & Hae2 & Hruns2 & Hold2).
  apply wp_bind, wp_set_rule_previous_run, wp_ret. simpl.
  split; [|split].
  - apply (Hown (EvCommit (id rule) fp fps)); [done|by intros ? <-|done..].
  - intros rule_id [Hin|Hin]%elem_of_app;
      [|by apply list_elem_of_singleton in Hin].
    apply Hruns2, elem_of_app in Hin as [Hin|Hin].
    + destruct (Hdone rule_id Hin) as (fp0 & fps0 & Hc). exists fp0, fps0.
      apply elem_of_app. left. auto.
    + apply list_elem_of_singleton in Hin. injection Hin as ->.
      exists fp, fps. apply elem_of_app. right.
      by apply list_elem_of_singleton.
  - intros p sub Hp Hlink. simpl. rewrite Hae2.
    intros [Hin|Hin]%elem_of_app; [|by apply list_elem_of_singleton in Hin].
    apply Hruns2, elem_of_app in Hin as [Hin|Hin]; [by eapply Hdeps|].
    apply list_elem_of_singleton in Hin. injection Hin as Hid.
    apply ids in Hid; [|done..]. subst p. by apply Hsubs.
Qed.

Lemma _run_order fuel : ∀ rule s,
  owned_rule self rule →
  ordered self s →
  wp (_run pickle_dumps sha256 self fuel rule) s (order_post self).
Proof.
  induction fuel as [|fuel IH]; intros rule s Howned Hs.
  { apply wp_raise. apply Hs. }
  rewrite _run_unfold. apply wp_bind, wp_gets.
  destruct (already_evaluated s !! id rule) as [b|] eqn:Hrule; [by apply wp_ret|].
  apply wp_bind, wp_lift.
  destruct (_compute_run_fingerprint _ _ _ _) as [fp|e] eqn:Hfp;
    [|by apply Hs].
  apply wp_bind, wp_fetch_rule_previous_run. cbv zeta. apply wp_bind.
  (* step 2: the owners of the inputs seen so far are marked evaluated *)
  apply wp_for_each with (I := λ todo _ s', ∃ seen,
    resolved_inputs rule = seen ++ todo
    ∧ ordered self s' ∧ already_evaluated s' !! id rule = None
    ∧ ∀ i sub, i ∈ seen → target_to_rule self !! i = Some sub →
               is_Some (already_evaluated s' !! id sub)).
  { exists []. split; [done|]. split; [done|]. split; [done|].
    intros i sub Hi. by apply elem_of_nil in Hi. }
  { intros input todo [flag targets] s1 (seen & Hsplit & Hs1 & Hn1 & Hseen).
    assert (Hinput : input ∈ resolved_inputs rule).
    { rewrite Hsplit. apply elem_of_app. right. apply elem_of_cons. auto. }
    unfold eval_input.
    destruct (target_to_rule self !! input) as [sub|] eqn:Hsub.
    - apply wp_bind. eapply wp_mono; [|apply wp_and; [apply wp_and|];
        [apply (IH sub s1); [by exists input|done]
        |by apply (_run_input_owner self ids fuel rule input sub)
        |apply _run_evaluated]].
      intros [rebuilt|e] s2 [[Hpost Hn2] [Hmono Hdone]]; [|done].
      apply wp_ret. exists (seen ++ [input]).
      split; [by rewrite <-app_assoc|]. split; [done|]. split; [done|].
      intros i q [Hi|Hi]%elem_of_app Hq; [by eauto|].
      apply list_elem_of_singleton in Hi as ->.
      assert (q = sub) as -> by congruence. by eapply Hdone.
    - apply wp_bind, wp_cook; [|intros; by apply ordered_cook].
      intros cooked handler w _.
      pose proof (ordered_cook s1 input (default ∅ (db s !! fp) !! input) w Hs1)
        as Hs2.
      destruct (negb (ON_DISK_TARGET handler)); [apply wp_raise, Hs2|].
      assert (Hnext : ∀ s3 : Session,
        trace s3 = trace (set_world w (log (EvCook (Exc:=Exc) input
                     (default ∅ (db s !! fp) !! input)) s1).2) →
        already_evaluated s3 = already_evaluated s1 →
        ∃ seen', resolved_inputs rule = seen' ++ todo
          ∧ ordered self s3 ∧ already_evaluated s3 !! id rule = None
          ∧ ∀ i sub, i ∈ seen' → target_to_rule self !! i = Some sub →
                     is_Some (already_evaluated s3 !! id sub)).
      { intros s3 Htr Hae. exists (seen ++ [input]).
        split; [by rewrite <-app_assoc|]. split.
        { eapply ordered_same; [exact Htr| |exact Hs2]. by rewrite Hae. }
        split; [by rewrite Hae|].
        intros i q [Hi|Hi]%elem_of_app Hq; rewrite Hae; [by eauto|].
        apply list_elem_of_singleton in Hi. congruence. }
      apply wp_bind, wp_has_changed; [| |intros _].
      + intros changed w'.
        apply wp_bind, wp_set_targets_eval_cache, wp_ret. by apply Hnext.
      + intros e w'. simpl. apply Hs2.
      + apply wp_bind, wp_set_targets_eval_cache, wp_ret. by apply Hnext. }
  intros [flag targets] s1 (seen & Hsplit & Hs1 & Hn1 & Hseen).
  rewrite app_nil_r in Hsplit. subst seen. apply wp_bind.
  (* step 3 *)
  apply wp_for_each with (I := λ _ _ s',
    ordered self s' ∧ already_evaluated s' = already_evaluated s1);
    [done| |].
  { intros output todo [[flag' targets'] oc] s2 [Hs2 Hae2]. unfold eval_output.
    apply wp_bind, wp_cook; [|intros; by apply ordered_cook].
    intros cooked handler w _.
    pose proof (ordered_cook s2 output (default ∅ (db s !! fp) !! output) w Hs2)
      as Hs3.
    apply wp_bind, wp_has_changed; [| |intros _].
    + intros changed w'.
      apply wp_bind, wp_set_targets_eval_cache, wp_ret. split; [|done].
      eapply ordered_same; [..|exact Hs3]; done.
    + intros e w'. simpl. apply Hs3.
    + apply wp_bind, wp_set_targets_eval_cache, wp_ret. split; [|done].
      eapply ordered_same; [..|exact Hs3]; done. }
  intros [[flag' targets'] oc] s2 [Hs2 Hae2].
  apply wp_bind, wp_set_already_evaluated.
  set (s3 := (set_already_evaluated rule flag' s2).2).
  assert (Hs3 : ordered self s3).
  { eapply ordered_same; [..|exact Hs2]; [done|].
    intros rule_id Hsome. simpl. by apply is_Some_insert_keep. }
  destruct (negb flag'); [by apply wp_ret|].
  apply execute_order; [done..| |].
  - (* nobody whose body has started waits for this rule *)
    intros p sub Hp Hlink Hin Hid.
    destruct Hs2 as (_ & _ & Hdeps).
    destruct (Hdeps p sub Hp Hlink Hin) as [v Hv]. rewrite Hid, Hae2 in Hv.
    congruence.
  - intros sub (input & Hinput & Hsub).
    assert (Hsome : is_Some (already_evaluated s1 !! id sub)) by eauto.
    split.
    + simpl. rewrite Hae2. by apply is_Some_insert_keep.
    + intros Hid. rewrite Hid, Hn1 in Hsome. by destruct Hsome.
Qed.

End Order.

(** X4: once the body of a rule has started, over rules with distinct ids,
    nothing more happens to a rule that owns one of its inputs: the body of
    such a rule is not called, does not return or raise and is not committed
    any more. If it has run at all in this invocation, it has run, returned
    and been committed before. *)
Theorem dependencies_are_executed_first
    (rules : list (string * ResolvedRule)) (config : gmap string ConstTypes)
    (target_handlers : TargetHandlersBundle W Exc Fp Cooked)
    (fuel : nat) (target : ResolvedTargetID) (w : W)
    (d : gmap bytes (gmap string Fp))
    (before after : list Event) (rule sub : ResolvedRule) :
  NoDup (id <$> rules.*2) →
  trace (run pickle_dumps sha256 (Runner_init rules config target_handlers)
             fuel target w d).2
    = before ++ EvRuleRun (id rule) :: after →
  owned_rule (Runner_init rules config target_handlers) rule →
  linked (Runner_init rules config target_handlers) rule sub →
  (∀ ev, ev ∈ after → ¬ executes (id sub) ev)
  ∧ (EvRuleRun (id sub) ∈ before →
     EvRuleReturned (id sub) ∈ before
     ∧ ∃ fp fps, EvCommit (id sub) fp fps ∈ before).
Proof.
  intros Hids.
  pose proof (Runner_init_unique_ids rules config target_handlers Hids)
    as Hunique.
  generalize dependent (Runner_init rules config target_handlers).
  intros self Hunique. unfold run, run_rule.
  destruct (target_to_rule self !! target) as [root|] eqn:Hroot; cycle 1.
  { intros Htr. by destruct before. }
  intros Htr Howned Hlink.
  assert (Hfresh : ordered self (fresh_session w d : Session)).
  { split; [split|split].
    - intros b a ??. by destruct b.
    - intros b a ?. by destruct b.
    - intros rule_id Hin. by apply elem_of_nil in Hin.
    - intros ???? Hin. by apply elem_of_nil in Hin. }
  pose proof (_run_order self Hunique fuel root (fresh_session w d)
                ltac:(by exists target) Hfresh) as Horder.
  assert (Htrace : trace_ok d (fresh_session w d : Session)).
  { split; [done|]. split.
    - intros b ???? Heq. by destruct b.
    - intros ?? Hin. by apply elem_of_nil in Hin. }
  pose proof (_run_trace self d fuel root (fresh_session w d) Htrace) as Hfollow.
  unfold wp in Horder, Hfollow.
  destruct (_run _ _ _ _ _ _) as [r s'] eqn:Hrun. simpl in *.
  assert (Hok : order_ok self (trace s')).
  { destruct r; [apply Horder|exact Horder]. }
  assert (Hcfr : commits_follow_return (trace s')).
  { destruct r; apply Hfollow. }
  destruct Hok as [Hstarted Hcommitted]. split.
  - by eapply Hstarted.
  - intros Hran.
    destruct (Hcommitted before after (id rule) Htr (id sub) Hran)
      as (fp & fps & Hcommit).
    split; [|eauto].
    apply list_elem_of_split in Hcommit as (b1 & b2 & ->).
    apply elem_of_app. left.
    apply (Hcfr b1 (id sub) fp fps (b2 ++ EvRuleRun (id rule) :: after)).
    by rewrite Htr, <-app_assoc.
Qed.

(** ** At most one call of a body *)

Lemma count_run_other rule_id (tr : list Event) (ev : Event) :
  is_run rule_id ev = false →
  count (is_run rule_id) (tr ++ [ev]) = count (is_run rule_id) tr.
Proof. intros H. rewrite count_snoc, H. lia. Qed.

Lemma runs_once_frame (s s' : Session) :
  already_evaluated s' = already_evaluated s →
  (∀ rule_id, count (is_run rule_id) (trace s')
              = count (is_run rule_id) (trace s)) →
  runs_once s → runs_once s'.
Proof. intros Hae Hcount Hs rule_id. rewrite Hae, Hcount. apply Hs. Qed.

Lemma runs_once_error {A} (e : IsengardError Exc) (s : Session) :
  runs_once s → runs_post (A:=A) (Raises e) s.
Proof. intros Hs rule_id. apply Hs. Qed.

Section RunsOnce.

Variable self : Runner.
Hypothesis ids : unique_ids self.

Lemma execute_runs rule fp b tc oc s :
  runs_once s →
  count (is_run (id rule)) (trace s) = 0 →
  is_Some (already_evaluated s !! id rule) →
  wp (execute self rule fp b tc oc) s runs_post.
Proof.
  intros Hs Hzero Hsome. unfold execute. apply wp_bind.
  apply wp_for_each with (I := λ _ _ s', s' = s); [done| |].
  { intros t l acc s1 ->. unfold collect_input.
    apply wp_bind, wp_targets_eval_cache_get.
    - intros v _. by apply wp_ret.
    - intros _. by apply runs_once_error. }
  intros ins s1 ->.
  assert (Hstarted : ∀ rule_id,
    count (is_run rule_id) (trace s ++ [EvRuleRun (id rule)]) ≤ 1
    ∧ (already_evaluated s !! rule_id = None →
       count (is_run rule_id) (trace s ++ [EvRuleRun (id rule)]) = 0)).
  { intros rule_id. rewrite count_snoc. simpl.
    destruct (Hs rule_id) as [Hle Hnone]. case_bool_decide as Hid.
    - subst rule_id. rewrite Hzero. split; [lia|].
      intros Hn. rewrite Hn in Hsome. by destruct Hsome.
    - split; [lia|]. intros Hn. rewrite Hnone by done. lia. }
  apply wp_bind, wp_call_rule_body.
  2:{ intros e w _ rule_id. simpl. rewrite count_run_other by done.
      apply Hstarted. }
  intros w _. apply wp_bind.
  apply wp_for_each with (I := λ _ _ s',
    already_evaluated s' = already_evaluated s
    ∧ ∀ rule_id, count (is_run rule_id) (trace s')
                 = count (is_run rule_id) (trace s ++ [EvRuleRun (id rule)])).
  { split; [done|]. intros rule_id. simpl. by rewrite count_run_other. }
  { intros t l acc s2 [Hae2 Hc2]. unfold record_fingerprint.
    apply wp_bind, wp_targets_eval_cache_get.
    - intros v _. apply wp_bind, wp_call.
      + intros fp' w' _.
        apply wp_bind, wp_log, wp_bind, wp_set_targets_eval_cache, wp_ret.
        split; [done|]. intros rule_id. simpl.
        by rewrite count_run_other.
      + intros e w' _ rule_id. simpl. rewrite Hc2. apply Hstarted.
    - intros _ rule_id. rewrite Hc2. apply Hstarted. }
  intros fps s2 [Hae2 Hc2].
  apply wp_bind, wp_set_rule_previous_run, wp_ret.
  intros rule_id. simpl. rewrite count_run_other, Hc2, Hae2 by done.
  apply Hstarted.
Qed.

Lemma _run_runs fuel : ∀ rule s,
  owned_rule self rule →
  runs_once s →
  wp (_run pickle_dumps sha256 self fuel rule) s runs_post.
Proof.
  induction fuel as [|fuel IH]; intros rule s Howned Hs.
  { apply wp_raise. by apply runs_once_error. }
  rewrite _run_unfold. apply wp_bind, wp_gets.
  destruct (already_evaluated s !! id rule) as [b|] eqn:Hrule; [by apply wp_ret|].
  apply wp_bind, wp_lift.
  destruct (_compute_run_fingerprint _ _ _ _) as [fp|e] eqn:Hfp;
    [|by apply runs_once_error].
  apply wp_bind, wp_fetch_rule_previous_run. cbv zeta.
  assert (Hcook : ∀ t hint w (s1 : Session),
    runs_once s1 →
    runs_once (set_world w (log (EvCook (Exc:=Exc) t hint) s1).2)).
  { intros t hint w s1 Hs1.
    eapply runs_once_frame; [..|exact Hs1]; [done|].
    intros rule_id. simpl. by rewrite count_run_other. }
  assert (Hsame : ∀ s1 s2 : Session,
    already_evaluated s2 = already_evaluated s1 → trace s2 = trace s1 →
    runs_once s1 → runs_once s2).
  { intros s1 s2 Hae Htr. apply runs_once_frame; [done|].
    intros rule_id. by rewrite Htr. }
  apply wp_bind.
  apply wp_for_each with (I := λ todo _ s',
    (∀ i, i ∈ todo → i ∈ resolved_inputs rule)
    ∧ runs_once s' ∧ already_evaluated s' !! id rule = None); [done| |].
  { intros input todo [flag targets] s1 (Htodo & Hs1 & Hn1).
    assert (Hinput : input ∈ resolved_inputs rule)
      by (apply Htodo, elem_of_cons; auto).
    assert (Htodo' : ∀ i, i ∈ todo → i ∈ resolved_inputs rule)
      by (intros; apply Htodo, elem_of_cons; auto).
    unfold eval_input.
    destruct (target_to_rule self !! input) as [sub|] eqn:Hsub.
    - apply wp_bind. eapply wp_mono; [|apply wp_and;
        [apply (IH sub); [by exists input|done]
        |by apply (_run_input_owner self ids fuel rule input sub)]].
      intros [rebuilt|e] s2 [Hpost Hn2]; [|done]. by apply wp_ret.
    - apply wp_bind, wp_cook;
        [|intros; by apply runs_once_error, Hcook].
      intros cooked handler w _.
      pose proof (Hcook input (default ∅ (db s !! fp) !! input) w s1 Hs1)
        as Hs2.
      destruct (negb (ON_DISK_TARGET handler)).
      { apply wp_raise. by apply runs_once_error. }
      apply wp_bind, wp_has_changed; [| |intros _].
      + intros changed w'.
        apply wp_bind, wp_set_targets_eval_cache, wp_ret.
        split; [done|]. split; [|done]. by eapply Hsame; [..|exact Hs2].
      + intros e w'. apply runs_once_error. by eapply Hsame; [..|exact Hs2].
      + apply wp_bind, wp_set_targets_eval_cache, wp_ret.
        split; [done|]. split; [|done]. by eapply Hsame; [..|exact Hs2]. }
  intros [flag targets] s1 (_ & Hs1 & Hn1). apply wp_bind.
  apply wp_for_each with (I := λ _ _ s',
    runs_once s' ∧ already_evaluated s' !! id rule = None); [done| |].
  { intros output todo [[flag' targets'] oc] s2 [Hs2 Hn2]. unfold eval_output.
    apply wp_bind, wp_cook; [|intros; by apply runs_once_error, Hcook].
    intros cooked handler w _.
    pose proof (Hcook output (default ∅ (db s !! fp) !! output) w s2 Hs2)
      as Hs3.
    apply wp_bind, wp_has_changed; [| |intros _].
    + intros changed w'.
      apply wp_bind, wp_set_targets_eval_cache, wp_ret.
      split; [|done]. by eapply Hsame; [..|exact Hs3].
    + intros e w'. apply runs_once_error. by eapply Hsame; [..|exact Hs3].
    + apply wp_bind, wp_set_targets_eval_cache, wp_ret.
      split; [|done]. by eapply Hsame; [..|exact Hs3]. }
  intros [[flag' targets'] oc] s2 [Hs2 Hn2].
  apply wp_bind, wp_set_already_evaluated.
  set (s3 := (set_already_evaluated rule flag' s2).2).
  assert (Hs3 : runs_once s3).
  { intros rule_id. destruct (Hs2 rule_id) as [Hle Hnone]. split; [done|].
    simpl. intros Hn. apply Hnone.
    destruct (decide (id rule = rule_id)) as [<-|Hne]; [done|].
    by rewrite lookup_insert_ne in Hn. }
  destruct (negb flag'); [by apply wp_ret|].
  apply execute_runs; [done| |].
  - simpl. by apply Hs2.
  - simpl. rewrite lookup_insert_eq. eauto.
Qed.

End RunsOnce.

(** X5: in one invocation of [run], over rules with distinct ids, the body of
    a rule is called at most once, however the invocation ends. *)
Theorem body_called_at_most_once
    (rules : list (string * ResolvedRule)) (config : gmap string ConstTypes)
    (target_handlers : TargetHandlersBundle W Exc Fp Cooked)
    (fuel : nat) (target : ResolvedTargetID) (w : W)
    (d : gmap bytes (gmap string Fp)) (rule_id : string) :
  NoDup (id <$> rules.*2) →
  count (is_run rule_id)
        (trace (run pickle_dumps sha256 (Runner_init rules config target_handlers)
                    fuel target w d).2) ≤ 1.
Proof.
  intros Hids.
  pose proof (Runner_init_unique_ids rules config target_handlers Hids)
    as Hunique.
  generalize dependent (Runner_init rules config target_handlers).
  intros self Hunique. unfold run, run_rule.
  destruct (target_to_rule self !! target) as [root|] eqn:Hroot;
    [|cbv; lia].
  assert (Hfresh : runs_once (fresh_session w d : Session)).
  { intros rid. split; cbv; lia. }
  pose proof (_run_runs self Hunique fuel root (fresh_session w d)
                ltac:(by exists target) Hfresh) as Hruns.
  unfold wp in Hruns. destruct (_run _ _ _ _ _ _) as [[b|e] s']; apply Hruns.
Qed.

(** ** What a commit records *)

Section Records.

Variable self : Runner.
Variable target : ResolvedTargetID.

#[local] Abbreviation described :=
  (commits_described pickle_dumps sha256 self target).

Lemma recorded_for_snoc rule fps (tr : list Event) (ev : Event) :
  recorded_for self rule fps tr → recorded_for self rule fps (tr ++ [ev]).
Proof.
  intros H t f Hin. destruct (H t f Hin) as [? ?]. split; [done|].
  apply elem_of_app. auto.
Qed.

Lemma record_complete_snoc rule fps (tr : list Event) (ev : Event) :
  record_complete self rule fps tr → record_complete self rule fps (tr ++ [ev]).
Proof.
  intros H t Ht. destruct (H t Ht) as [?|?]; [by left|right].
  apply elem_of_app. auto.
Qed.

Lemma described_snoc (tr : list Event) (ev : Event) :
  described tr → (∀ rule_id fp fps, ev ≠ EvCommit rule_id fp fps) →
  described (tr ++ [ev]).
Proof.
  intros Htr Hev rule_id fp fps [Hin|Hin]%elem_of_app.
  - destruct (Htr rule_id fp fps Hin) as (rule & ? & ? & ? & ? & ?).
    exists rule. split; [done|]. split; [done|]. split; [done|].
    split; [by apply recorded_for_snoc|by apply record_complete_snoc].
  - apply list_elem_of_singleton in Hin. by destruct (Hev rule_id fp fps).
Qed.

Lemma described_cook (s : Session) t hint w :
  described (trace s) →
  described (trace (set_world w (log (EvCook t hint) s).2)).
Proof. intros Hs. simpl. by apply described_snoc. Qed.

Lemma execute_records rule fp b tc oc s :
  reachable self target rule →
  _compute_run_fingerprint pickle_dumps sha256 self rule = Returns fp →
  described (trace s) →
  (∀ t, t ∈ tc ↔
        t ∈ resolved_outputs rule
        ∨ (t ∈ resolved_inputs rule ∧ target_to_rule self !! t = None)) →
  wp (execute self rule fp b tc oc) s (λ _ s', described (trace s')).
Proof.
  intros Hreach Hfp Hs Htc. unfold execute. apply wp_bind.
  apply wp_for_each with (I := λ _ _ s', s' = s); [done| |].
  { intros t l acc s1 ->. unfold collect_input.
    apply wp_bind, wp_targets_eval_cache_get; [|done].
    intros v _. by apply wp_ret. }
  intros ins s1 ->. apply wp_bind, wp_call_rule_body.
  2:{ intros e w _. simpl. apply described_snoc; [|done].
      by apply described_snoc. }
  intros w _. apply wp_bind.
  apply wp_for_each with (I := λ todo fps s', ∃ recorded,
    tc = recorded ++ todo
    ∧ described (trace s')
    ∧ (∀ t f, (t, f) ∈ fps →
              t ∈ recorded ∧ EvFingerprint t (Some f) ∈ trace s')
    ∧ ∀ t, t ∈ recorded → t ∈ fps.*1 ∨ EvFingerprint t None ∈ trace s').
  { exists []. split; [done|]. split.
    - simpl. apply described_snoc; [|done]. by apply described_snoc.
    - split; [intros t f Hin|intros t Hin]; by apply elem_of_nil in Hin. }
  { intros t todo fps s2 (recorded & Hsplit & Hs2 & Hsound & Hcomplete).
    unfold record_fingerprint.
    apply wp_bind, wp_targets_eval_cache_get; [|done].
    intros v _. apply wp_bind, wp_call; [|done].
    intros fp' w' _. apply wp_bind, wp_log, wp_bind, wp_set_targets_eval_cache.
    apply wp_ret. exists (recorded ++ [t]).
    split; [by rewrite <-app_assoc|]. simpl.
    split; [by apply described_snoc|]. split.
    - intros t' f Hin.
      assert (Hcases : (t', f) ∈ fps ∨ (t' = t ∧ fp' = Some f)).
      { destruct fp' as [f'|]; [|by left].
        apply elem_of_app in Hin as [?|Hin]; [by left|].
        apply list_elem_of_singleton in Hin. right. by simplify_eq. }
      destruct Hcases as [Hold|[-> ->]].
      + destruct (Hsound t' f Hold). split; apply elem_of_app; auto.
      + split; apply elem_of_app; right; by apply list_elem_of_singleton.
    - intros t' [Hin|Hin]%elem_of_app.
      + destruct (Hcomplete t' Hin) as [Hrec|Hnone].
        * left. destruct fp'; [|done]. rewrite fmap_app.
          apply elem_of_app. auto.
        * right. apply elem_of_app. auto.
      + apply list_elem_of_singleton in Hin as ->.
        destruct fp' as [f'|].
        * left. rewrite fmap_app. apply elem_of_app. right.
          by apply list_elem_of_singleton.
        * right. apply elem_of_app. right. by apply list_elem_of_singleton. }
  intros fps s2 (recorded & Hsplit & Hs2 & Hsound & Hcomplete).
  rewrite app_nil_r in Hsplit. subst recorded.
  apply wp_bind, wp_set_rule_previous_run, wp_ret. simpl.
  intros rule_id fp0 fps0 [Hin|Hin]%elem_of_app.
  - destruct (Hs2 rule_id fp0 fps0 Hin) as (r & ? & ? & ? & ? & ?).
    exists r. split; [done|]. split; [done|]. split; [done|].
    split; [by apply recorded_for_snoc|by apply record_complete_snoc].
  - apply list_elem_of_singleton in Hin. simplify_eq.
    exists rule. split; [done|]. split; [done|]. split; [done|]. split.
    + intros t f Hin. destruct (Hsound t f Hin) as [Ht Hev].
      split; [by apply Htc|]. apply elem_of_app. auto.
    + intros t Ht. destruct (Hcomplete t) as [?|?]; [by apply Htc|by left|].
      right. apply elem_of_app. auto.
Qed.

Lemma _run_records fuel : ∀ rule s,
  reachable self target rule →
  described (trace s) →
  wp (_run pickle_dumps sha256 self fuel rule) s (λ _ s', described (trace s')).
Proof.
  induction fuel as [|fuel IH]; intros rule s Hreach Hs; [by apply wp_raise|].
  rewrite _run_unfold. apply wp_bind, wp_gets.
  destruct (already_evaluated s !! id rule); [by apply wp_ret|].
  apply wp_bind, wp_lift.
  destruct (_compute_run_fingerprint _ _ _ _) as [fp|e] eqn:Hfp; [|done].
  apply wp_bind, wp_fetch_rule_previous_run. cbv zeta. apply wp_bind.
  (* step 2: [to_cache_targets] holds the inputs seen that no rule owns *)
  apply wp_for_each with (I := λ todo acc s', ∃ seen,
    resolved_inputs rule = seen ++ todo
    ∧ described (trace s')
    ∧ ∀ t, t ∈ acc.2 ↔ t ∈ seen ∧ target_to_rule self !! t = None).
  { exists []. split; [done|]. split; [done|]. intros t. split.
    - intros Hin. by apply elem_of_nil in Hin.
    - intros [Hin _]. by apply elem_of_nil in Hin. }
  { intros input todo [flag targets] s1 (seen & Hsplit & Hs1 & Htc).
    simpl in Htc. unfold eval_input.
    destruct (target_to_rule self !! input) as [sub|] eqn:Hsub.
    - apply wp_bind. eapply wp_mono; [|apply (IH sub s1); [|done]].
      2:{ eapply reachable_input; [exact Hreach|]. exists input.
          split; [|done]. rewrite Hsplit. apply elem_of_app. right.
          apply elem_of_cons. auto. }
      intros [rebuilt|e] s2 Hs2; [|done]. apply wp_ret.
      exists (seen ++ [input]). split; [by rewrite <-app_assoc|].
      split; [done|]. simpl. intros t. rewrite Htc, elem_of_app.
      split; [intros [? ?]; auto|].
      intros [[?|Hin] Hnone]; [done|].
      apply list_elem_of_singleton in Hin. congruence.
    - apply wp_bind, wp_cook; [|intros; by apply described_cook].
      intros cooked handler w _.
      pose proof (described_cook s1 input (default ∅ (db s !! fp) !! input) w
                    Hs1) as Hs2.
      destruct (negb (ON_DISK_TARGET handler)); [apply wp_raise, Hs2|].
      assert (Hnext : ∃ seen', resolved_inputs rule = seen' ++ todo
        ∧ ∀ t, t ∈ targets ++ [input]
               ↔ t ∈ seen' ∧ target_to_rule self !! t = None).
      { exists (seen ++ [input]). split; [by rewrite <-app_assoc|].
        intros t. rewrite !elem_of_app, Htc, list_elem_of_singleton.
        split; [intros [[? ?]| ->]; auto|]. intros [[?| ->] ?]; auto. }
      destruct Hnext as (seen' & Hsplit' & Htc').
      apply wp_bind, wp_has_changed; [| |intros _]; [|done|];
        intros; apply wp_bind, wp_set_targets_eval_cache, wp_ret;
        by exists seen'. }
  intros [flag targets] s1 (seen & Hsplit & Hs1 & Htc).
  rewrite app_nil_r in Hsplit. subst seen. simpl in Htc. apply wp_bind.
  (* step 3: and the outputs seen *)
  apply wp_for_each with (I := λ todo acc s', ∃ seen,
    resolved_outputs rule = seen ++ todo
    ∧ described (trace s')
    ∧ ∀ t, t ∈ acc.1.2 ↔
           t ∈ seen
           ∨ (t ∈ resolved_inputs rule ∧ target_to_rule self !! t = None)).
  { exists []. split; [done|]. split; [done|]. intros t. simpl.
    rewrite Htc. split; [auto|]. intros [Hin|?]; [|done].
    by apply elem_of_nil in Hin. }
  { intros output todo [[flag' targets'] oc] s2 (seen & Hsplit & Hs2 & Htc2).
    simpl in Htc2. unfold eval_output.
    apply wp_bind, wp_cook; [|intros; by apply described_cook].
    intros cooked handler w _.
    pose proof (described_cook s2 output (default ∅ (db s !! fp) !! output) w
                  Hs2) as Hs3.
    assert (Hnext : ∃ seen', resolved_outputs rule = seen' ++ todo
      ∧ ∀ t, t ∈ targets' ++ [output]
             ↔ t ∈ seen'
               ∨ (t ∈ resolved_inputs rule ∧ target_to_rule self !! t = None)).
    { exists (seen ++ [output]). split; [by rewrite <-app_assoc|].
      intros t. rewrite !elem_of_app, Htc2, list_elem_of_singleton. tauto. }
    destruct Hnext as (seen' & Hsplit' & Htc').
    apply wp_bind, wp_has_changed; [| |intros _]; [|done|];
      intros; apply wp_bind, wp_set_targets_eval_cache, wp_ret;
      by exists seen'. }
  intros [[flag' targets'] oc] s2 (seen & Hsplit & Hs2 & Htc2).
  rewrite app_nil_r in Hsplit. subst seen. simpl in Htc2.
  apply wp_bind, wp_set_already_evaluated.
  destruct (negb flag'); [by apply wp_ret|].
  by apply execute_records.
Qed.

End Records.

(** X6: every record [run] commits is the record of a rule reachable from the
    requested target, under the run fingerprint of that rule. It holds
    fingerprints computed, after the body returned, for outputs of the rule
    and for inputs of it that no rule owns, and it holds one for each of these
    targets but those whose fingerprint was found empty. *)
Theorem commit_records_targets_of_rule (self : Runner) (fuel : nat)
    (target : ResolvedTargetID) (w : W) (d : gmap bytes (gmap string Fp))
    (rule_id : string) (fp : bytes) (fps : list (ResolvedTargetID * Fp)) :
  EvCommit rule_id fp fps
    ∈ trace (run pickle_dumps sha256 self fuel target w d).2 →
  ∃ rule,
    reachable self target rule ∧ id rule = rule_id
    ∧ _compute_run_fingerprint pickle_dumps sha256 self rule = Returns fp
    ∧ recorded_for self rule fps
        (trace (run pickle_dumps sha256 self fuel target w d).2)
    ∧ record_complete self rule fps
        (trace (run pickle_dumps sha256 self fuel target w d).2).
Proof.
  unfold run, run_rule.
  destruct (target_to_rule self !! target) as [root|] eqn:Hroot; cycle 1.
  { intros Hin. by apply elem_of_nil in Hin. }
  apply (_run_records self target fuel root (fresh_session w d)).
  - by constructor.
  - intros ??? Hin. by apply elem_of_nil in Hin.
Qed.

(** ** Rule sets in which an output has one rule *)

(** X13: when no target is an output of two rules, [target_to_rule] binds a
    target to a rule exactly when that rule lists it in its outputs. *)
Theorem target_to_rule_binds_declaring_rule
    (rules : list (string * ResolvedRule)) (config : gmap string ConstTypes)
    (target_handlers : TargetHandlersBundle W Exc Fp Cooked)
    (target : ResolvedTargetID) (rule : ResolvedRule) :
  (∀ rule1 rule2 output, rule1 ∈ rules.*2 → rule2 ∈ rules.*2 →
     output ∈ resolved_outputs rule1 → output ∈ resolved_outputs rule2 →
     rule1 = rule2) →
  target_to_rule (Runner_init rules config target_handlers) !! target = Some rule
  ↔ rule ∈ rules.*2 ∧ target ∈ resolved_outputs rule.
Proof.
  intros Hdisj. split; [apply target_to_rule_owner|].
  intros [Hrule Htarget].
  destruct (target_to_rule_declared rules config target_handlers target rule)
    as [owner Howner]; [done..|].
  rewrite Howner. f_equal.
  apply target_to_rule_owner in Howner as [? ?]. eauto.
Qed.

End Properties.

(** * The scenarios, on the concrete world *)

Import Demo.

(** ** Cycles and [run] *)

Lemma cycle_fingerprint (r : Rule) :
  needed_config r = ∅ →
  ∃ fp, _compute_run_fingerprint pickle digest (runner [cycle_a; cycle_b] ∅) r
        = Returns fp.
Proof.
  intros Hn. unfold _compute_run_fingerprint, run_fingerprint_input.
  rewrite Hn. eexists. reflexivity.
Qed.

Lemma _run_cycle fuel : ∀ s,
  already_evaluated s !! "A" = None → already_evaluated s !! "B" = None →
  wp (_run pickle digest (runner [cycle_a; cycle_b] ∅) fuel cycle_a) s
     (λ r s', r = Raises RecursionError ∧ s' = s)
  ∧ wp (_run pickle digest (runner [cycle_a; cycle_b] ∅) fuel cycle_b) s
       (λ r s', r = Raises RecursionError ∧ s' = s).
Proof.
  induction fuel as [|fuel IH]; intros s Ha Hb; [done|].
  destruct (IH s Ha Hb) as [IHa IHb].
  destruct (cycle_fingerprint cycle_a eq_refl) as [fpa Hfpa].
  destruct (cycle_fingerprint cycle_b eq_refl) as [fpb Hfpb].
  assert (Hta : target_to_rule (runner [cycle_a; cycle_b] ∅) !! "a_out"
                = Some cycle_a) by (vm_compute; reflexivity).
  assert (Htb : target_to_rule (runner [cycle_a; cycle_b] ∅) !! "b_out"
                = Some cycle_b) by (vm_compute; reflexivity).
  split; rewrite _run_unfold; apply wp_bind, wp_gets.
  - change (id cycle_a) with "A". rewrite Ha.
    apply wp_bind, wp_lift. rewrite Hfpa.
    apply wp_bind, wp_fetch_rule_previous_run. cbv zeta. apply wp_bind.
    change (resolved_inputs cycle_a) with ["b_out"]. cbn [for_each].
    apply wp_bind. unfold eval_input. rewrite Htb. apply wp_bind.
    eapply wp_mono; [|exact IHb]. by intros r s' [-> ->].
  - change (id cycle_b) with "B". rewrite Hb.
    apply wp_bind, wp_lift. rewrite Hfpb.
    apply wp_bind, wp_fetch_rule_previous_run. cbv zeta. apply wp_bind.
    change (resolved_inputs cycle_b) with ["a_out"]. cbn [for_each].
    apply wp_bind. unfold eval_input. rewrite Hta. apply wp_bind.
    eapply wp_mono; [|exact IHa]. by intros r s' [-> ->].
Qed.

(** C1: with the rules [A: [b_out] -> a_out] and [B: [a_out] -> b_out],
    [run("a_out")] ends, whatever the recursion limit, in the interpreter's
    [RecursionError]: [_run] walks A, B, A, ... and never raises
    [ConsistencyError].  Nothing has been called and the store is untouched. *)
Theorem run_on_cycle_exhausts_recursion (fuel : nat) :
  demo_run [cycle_a; cycle_b] fuel "a_out" sources ∅
  = (Raises RecursionError, fresh_session sources ∅).
Proof.
  unfold demo_run, run, run_rule.
  assert (Hta : target_to_rule (runner [cycle_a; cycle_b] ∅) !! "a_out"
                = Some cycle_a) by (vm_compute; reflexivity).
  rewrite Hta.
  destruct (_run_cycle fuel (fresh_session sources ∅)) as [Ha _]; [done..|].
  unfold wp in Ha. destruct (_run _ _ _ _ _ _) as [r s']. simpl in Ha.
  by destruct Ha as [-> ->].
Qed.

Ltac in_trace :=
  match goal with
  | |- ?ev ∈ ?tr =>
      let tr' := eval vm_compute in tr in
      change (ev ∈ tr'); repeat first [apply list_elem_of_here | apply list_elem_of_further]
  end.

(** ** Two rules declaring one output *)

(** C2, as stated, fails: [R1] and [R2] both declare [out]; the runner is
    built all the same, [run("out")] calls the body of [R2] and
    [clean("out")] calls the handler's [clean]. *)
Lemma duplicate_output_is_not_rejected :
  first_out ≠ second_out
  ∧ "out" ∈ resolved_outputs first_out
  ∧ "out" ∈ resolved_outputs second_out
  ∧ (demo_run [first_out; second_out] 10 "out" ∅ ∅).1 = Returns true
  ∧ EvRuleRun "R2" ∈ trace (demo_run [first_out; second_out] 10 "out" ∅ ∅).2
  ∧ (demo_clean [first_out; second_out] 10 "out" ∅ ∅).1 = Returns tt
  ∧ EvClean "out" ∈ trace (demo_clean [first_out; second_out] 10 "out" ∅ ∅).2.
Proof.
  split; [intros H; apply (f_equal id) in H; discriminate|].
  split; [apply list_elem_of_here|]. split; [apply list_elem_of_here|].
  split; [vm_compute; reflexivity|]. split; [in_trace|].
  split; [vm_compute; reflexivity|]. in_trace.
Qed.

(** ** Key names and the run fingerprint *)

(** C3, as stated, fails: the bytes digested for a rule that needs the key
    [a] are not the ones the claim describes, which hold the key name; and a
    rule of the same id that needs the key [b] instead, of equal value, is
    digested to the same bytes. *)
Lemma key_names_are_not_digested :
  run_fingerprint_input pickle (runner [keyed_a] {["a" := 1; "b" := 1]}) keyed_a
  ≠ spec_run_fingerprint_input pickle (runner [keyed_a] {["a" := 1; "b" := 1]}) keyed_a
  ∧ run_fingerprint_input pickle (runner [keyed_a] {["a" := 1; "b" := 1]}) keyed_a
    = run_fingerprint_input pickle (runner [keyed_a] {["a" := 1; "b" := 1]}) keyed_b.
Proof.
  split; [|vm_compute; reflexivity].
  vm_compute. discriminate.
Qed.

Lemma digest_length (b : bytes) : length (digest b) = 32.
Proof.
  unfold digest. rewrite length_take, length_app, length_replicate. lia.
Qed.

Lemma run_fingerprint_digests_id_and_values_witness :
  ∃ values,
    Forall2 (λ k v, config (runner [keyed_a] {["a" := 1; "b" := 1]}) !! k = Some v)
            (sorted (needed_config keyed_a)) values
    ∧ Sorted str_le (sorted (needed_config keyed_a))
    ∧ sorted (needed_config keyed_a) ≡ₚ elements (needed_config keyed_a)
    ∧ (∃ fp,
         _compute_run_fingerprint pickle digest
           (runner [keyed_a] {["a" := 1; "b" := 1]}) keyed_a = Returns fp
         ∧ fp = digest (String.list_byte_of_string (id keyed_a)
                        ++ concat (pickle <$> values))
         ∧ length fp = 32)
    ∧ (∀ (self' : Runner Files string nat string nat) (rule' : Rule),
         id rule' = id keyed_a →
         Forall2 (λ k v, config self' !! k = Some v)
                 (sorted (needed_config rule')) values →
         _compute_run_fingerprint pickle digest self' rule' =
         _compute_run_fingerprint pickle digest
           (runner [keyed_a] {["a" := 1; "b" := 1]}) keyed_a).
Proof.
  apply (run_fingerprint_digests_id_and_values pickle digest
           (runner [keyed_a] {["a" := 1; "b" := 1]}) keyed_a).
  - exact digest_length.
  - intros k Hk. change (k ∈ ({["a"]} : gset string)) in Hk.
    apply elem_of_singleton in Hk. subst k. by exists 1.
Defined.

(** ** Unknown targets *)

(** C4, as stated, fails: [src.txt] has no owning rule and an on-disk
    handler, and [run("src.txt")] and [clean("src.txt")] raise
    [UnknownTarget] all the same; and for the virtual input of [A], which [B]
    needs, [run("app")] names rule [A] alone where [clean("app")] names the
    chain [B -> A]. *)
Lemma requested_source_is_unknown :
  target_to_rule (runner [compile; link] ∅) !! "src.txt" = None
  ∧ ON_DISK_TARGET (handler_of "src.txt") = true
  ∧ (demo_run [compile; link] 10 "src.txt" sources ∅).1
    = Raises (IsengardUnknownTargetError "src.txt" [])
  ∧ (demo_clean [compile; link] 10 "src.txt" sources ∅).1
    = Raises (IsengardUnknownTargetError "src.txt" [])
  ∧ (demo_run [from_virtual; link] 10 "app" sources ∅).1
    = Raises (IsengardUnknownTargetError "virtual:missing" ["A"])
  ∧ (demo_clean [from_virtual; link] 10 "app" sources ∅).1
    = Raises (IsengardUnknownTargetError "virtual:missing" ["B"; "A"]).
Proof. repeat split; vm_compute; reflexivity. Qed.

Lemma unknown_target_errors_witness :
  ((demo_run [from_virtual; link] 10 "src.txt" sources ∅).1
     = Raises (IsengardUnknownTargetError "src.txt" [])
   ∧ (demo_clean [from_virtual; link] 10 "src.txt" sources ∅).1
     = Raises (IsengardUnknownTargetError "src.txt" []))
  ∧ unknown_run_input (runner [from_virtual; link] ∅) "app" "virtual:missing" ["A"]
  ∧ unknown_clean_input (runner [from_virtual; link] ∅) "app" "virtual:missing"
                        ["B"; "A"]
  ∧ on_disk_input (runner [compile; link] ∅) "src.txt"
  ∧ on_disk_for_clean (runner [compile; link] ∅) "src.txt".
Proof.
  split; [|split; [|split]].
  - apply (unknown_target_errors pickle digest no_key_error
             (runner [from_virtual; link] ∅) 10 "src.txt" sources ∅).
    vm_compute; reflexivity.
  - destruct (unknown_target_errors pickle digest no_key_error
                (runner [from_virtual; link] ∅) 10 "app" sources ∅)
      as (_ & Hrun & _).
    destruct (Hrun "virtual:missing" ["A"]) as [(H & _)|H];
      [vm_compute; reflexivity|discriminate H|exact H].
  - destruct (unknown_target_errors pickle digest no_key_error
                (runner [from_virtual; link] ∅) 10 "app" sources ∅)
      as (_ & _ & Hclean & _).
    destruct (Hclean "virtual:missing" ["B"; "A"]) as [(H & _)|H];
      [vm_compute; reflexivity|discriminate H|exact H].
  - destruct (unknown_target_errors pickle digest no_key_error
                (runner [compile; link] ∅) 10 "app" sources ∅)
      as (_ & _ & _ & _ & _ & Hreturned).
    assert (Hids : unique_ids (runner [compile; link] ∅)).
    { apply Runner_init_unique_ids.
      apply (bool_decide_unpack _). vm_compute. exact I. }
    assert (Hreach : reachable (runner [compile; link] ∅) "app" compile).
    { apply (reachable_input _ _ link).
      - apply reachable_owner. vm_compute. reflexivity.
      - exists "out.o". split; [apply list_elem_of_here|vm_compute; reflexivity]. }
    destruct (Hreturned Hids compile "src.txt" Hreach) as [Hrun Hclean];
      [apply list_elem_of_here|vm_compute; reflexivity|].
    split.
    + apply (Hrun true
               (run pickle digest (runner [compile; link] ∅)
                    10 "app" sources ∅).2).
      rewrite (surjective_pairing (run _ _ _ _ _ _ _)) at 1.
      apply (f_equal2 pair); [vm_compute; reflexivity|reflexivity].
    + apply (Hclean
               (clean pickle digest no_key_error (runner [compile; link] ∅)
                      10 "app" sources ∅).2).
      rewrite (surjective_pairing (clean _ _ _ _ _ _ _ _)) at 1.
      apply (f_equal2 pair); [vm_compute; reflexivity|reflexivity].
Defined.

(** ** Cooking *)

(** C5, as stated, fails: [src.txt] has no owning rule, is an input of both
    [A] and [B], and one [run("app")] cooks it twice. *)
Lemma shared_source_is_cooked_twice :
  target_to_rule (runner [compile; link_with_source] ∅) !! "src.txt" = None
  ∧ "src.txt" ∈ resolved_inputs compile
  ∧ "src.txt" ∈ resolved_inputs link_with_source
  ∧ (demo_run [compile; link_with_source] 10 "app" sources ∅).1 = Returns true
  ∧ count (is_cook "src.txt")
          (trace (demo_run [compile; link_with_source] 10 "app" sources ∅).2) = 2.
Proof.
  split; [vm_compute; reflexivity|].
  split; [apply list_elem_of_here|]. split; [apply list_elem_of_here|].
  split; vm_compute; reflexivity.
Qed.

Lemma two_rules_ids : NoDup (id <$> ((λ r : Rule, (id r, r)) <$> [compile; link]).*2).
Proof.
  apply (bool_decide_unpack _). vm_compute. exact I.
Qed.

Lemma two_rules_cases (P : Rule → Prop) (r : Rule) :
  r ∈ ((λ r : Rule, (id r, r)) <$> [compile; link]).*2 →
  P compile → P link → P r.
Proof.
  intros Hr Hc Hl. cbn in Hr.
  apply elem_of_cons in Hr as [->|Hr]; [done|].
  apply elem_of_cons in Hr as [->|Hr]; [done|].
  by apply elem_of_nil in Hr.
Qed.

Lemma two_rules_outputs_once (r : Rule) :
  r ∈ ((λ r : Rule, (id r, r)) <$> [compile; link]).*2 →
  NoDup (resolved_outputs r).
Proof.
  intros Hr. apply (two_rules_cases (λ r, NoDup (resolved_outputs r)) r Hr);
    apply (bool_decide_unpack _); vm_compute; exact I.
Qed.

Lemma two_rules_outputs_apart (r1 r2 : Rule) (o : string) :
  r1 ∈ ((λ r : Rule, (id r, r)) <$> [compile; link]).*2 →
  r2 ∈ ((λ r : Rule, (id r, r)) <$> [compile; link]).*2 →
  o ∈ resolved_outputs r1 → o ∈ resolved_outputs r2 → r1 = r2.
Proof.
  intros Hr1 Hr2.
  apply (two_rules_cases
           (λ r1, o ∈ resolved_outputs r1 → o ∈ resolved_outputs r2 → r1 = r2)
           r1 Hr1);
    apply (two_rules_cases
             (λ r2, o ∈ resolved_outputs _ → o ∈ resolved_outputs r2 → _ = r2)
             r2 Hr2); cbn.
  - done.
  - intros H1 H2. apply list_elem_of_singleton in H1, H2. congruence.
  - intros H1 H2. apply list_elem_of_singleton in H1, H2. congruence.
  - done.
Qed.

Lemma owned_target_cooked_at_most_once_witness :
  count (is_cook "out.o")
        (trace (run pickle digest (runner [compile; link] ∅) 10 "app" sources ∅).2)
  ≤ 1
  ∧ ∃ evaluated,
      NoDup evaluated
      ∧ (∀ r, r ∈ evaluated ↔ reachable (runner [compile; link] ∅) "app" r)
      ∧ count (is_cook "src.txt")
              (trace (run pickle digest (runner [compile; link] ∅)
                          10 "app" sources ∅).2)
        = listed "src.txt" evaluated.
Proof.
  split.
  - apply (owned_target_cooked_at_most_once pickle digest
             ((λ r : Rule, (id r, r)) <$> [compile; link]) ∅ handlers
             10 "app" sources ∅ "out.o" two_rules_ids
             two_rules_outputs_once two_rules_outputs_apart).
    vm_compute. eauto.
  - apply (owned_target_cooked_at_most_once pickle digest
             ((λ r : Rule, (id r, r)) <$> [compile; link]) ∅ handlers
             10 "app" sources ∅ "src.txt" two_rules_ids
             two_rules_outputs_once two_rules_outputs_apart
           : _ ∧ _) with (rebuilt := true).
    + vm_compute. reflexivity.
    + rewrite (surjective_pairing (run _ _ _ _ _ _ _)) at 1.
      apply (f_equal2 pair); [vm_compute; reflexivity|reflexivity].
Defined.

(** ** Commits *)


(** The failing body of [B] ends the run in [RunError] for [B]; the commit
    of [A], made before, is in the store. *)
Lemma failed_body_keeps_earlier_commits :
  (demo_run [compile; failing_link] 10 "app" sources ∅).1
  = Raises (IsengardRunError "B" "boom")
  ∧ count (is_commit "A")
          (trace (demo_run [compile; failing_link] 10 "app" sources ∅).2) = 1
  ∧ count (is_commit "B")
          (trace (demo_run [compile; failing_link] 10 "app" sources ∅).2) = 0
  ∧ size (db (demo_run [compile; failing_link] 10 "app" sources ∅).2) = 1.
Proof. repeat split; vm_compute; reflexivity. Qed.

(** ** Configuration *)

Lemma unneeded_config_causes_no_rebuild_witness :
  (∀ r, r ∈ ((λ r : Rule, (id r, r)) <$> [compile; link_needing_opt]).*2 →
     _compute_run_fingerprint pickle digest
       (runner [compile; link_needing_opt] one_job) r =
     _compute_run_fingerprint pickle digest
       (runner [compile; link_needing_opt] eight_jobs) r)
  ∧ (∀ s', run pickle digest (runner [compile; link_needing_opt] one_job) 10 "app"
               (world (built [compile; link_needing_opt] one_job))
               (db (built [compile; link_needing_opt] one_job))
           = (Returns false, s') →
           run pickle digest (runner [compile; link_needing_opt] eight_jobs) 10 "app"
               (world (built [compile; link_needing_opt] one_job))
               (db (built [compile; link_needing_opt] one_job))
           = (Returns false, s')).
Proof.
  apply (unneeded_config_causes_no_rebuild pickle digest
           ((λ r : Rule, (id r, r)) <$> [compile; link_needing_opt])
           one_job eight_jobs handlers 10 "app").
  intros r k Hr. cbn in Hr.
  apply elem_of_cons in Hr as [->|Hr]; [intros Hk; by apply elem_of_empty in Hk|].
  apply elem_of_cons in Hr as [->|Hr]; [|by apply elem_of_nil in Hr].
  intros Hk. change (k ∈ ({["opt_level"]} : gset string)) in Hk.
  apply elem_of_singleton in Hk. subst k. reflexivity.
Defined.

(** The build under [one_job] is up to date, and so it is under
    [eight_jobs]. *)
Lemma jobs_do_not_rebuild :
  (run pickle digest (runner [compile; link_needing_opt] one_job) 10 "app"
       (world (built [compile; link_needing_opt] one_job))
       (db (built [compile; link_needing_opt] one_job))).1 = Returns false
  ∧ (run pickle digest (runner [compile; link_needing_opt] eight_jobs) 10 "app"
         (world (built [compile; link_needing_opt] one_job))
         (db (built [compile; link_needing_opt] one_job))).1 = Returns false.
Proof. split; vm_compute; reflexivity. Qed.

(** ** Running twice *)

Lemma cooked_for_handlers target cooked
    (handler : BaseTargetHandler Files string nat string) :
  cooked_for handlers target cooked handler →
  cooked = target ∧ handler = handler_of target.
Proof. intros (hint & w & w' & Hcook). cbn in Hcook. by simplify_eq. Qed.

(** The file handlers are lawful; R2 and its converse hold of them. *)
Lemma handlers_lawful : lawful_handlers handlers stamp.
Proof.
  split.
  - intros target hint w r w' Hcook. cbn in Hcook. by simplify_eq.
  - intros target hint w cooked handler w' Hcook hint2 w2.
    cbn in Hcook. simplify_eq. by eexists _, _.
  - intros target cooked handler w [-> ->]%cooked_for_handlers. done.
  - intros target cooked handler fp w r w' [-> ->]%cooked_for_handlers Hask.
    cbn in Hask. by simplify_eq.
  - intros target cooked handler fp w w' [-> ->]%cooked_for_handlers Hask.
    cbn in Hask. injection Hask as Hask _.
    apply bool_decide_eq_false in Hask. unfold stamp.
    by destruct (decide (w !! target = Some fp)).
  - intros target cooked handler fp w [-> ->]%cooked_for_handlers Hobs.
    cbn. unfold stamp in Hobs. rewrite bool_decide_eq_false_2; [done|].
    by intros [].
Qed.

Lemma cooked_as_handlers (targets cooked : list string) :
  cooked_as handlers targets cooked → cooked = targets.
Proof.
  induction 1 as [|t c ts cs [h [-> _]%cooked_for_handlers] _ ->]; done.
Qed.

Lemma produce_stamps (outputs : list string) (w : Files) (target : string) :
  (produce outputs w).2 !! target
  = if decide (target ∈ outputs) then Some 1 else w !! target.
Proof.
  unfold produce. cbn [snd]. induction outputs as [|o outputs IH]; cbn [foldr].
  - rewrite decide_False; [done|]. apply not_elem_of_nil.
  - destruct (decide (o = target)) as [->|Hne].
    + rewrite lookup_insert_eq, decide_True; [done|]. apply elem_of_cons. auto.
    + rewrite lookup_insert_ne by done. rewrite IH.
      destruct (decide (target ∈ outputs)) as [Hin|Hin].
      * rewrite decide_True; [done|]. apply elem_of_cons. auto.
      * rewrite decide_False; [done|]. intros [?|?]%elem_of_cons; done.
Qed.

(** The bodies of [compile] and [link] are lawful. *)
Lemma bodies_lawful : lawful_bodies (runner [compile; link] ∅) stamp.
Proof.
  intros r outs ins w w' [t Ht] Houts Hins.
  apply target_to_rule_owner in Ht as [Hr _].
  apply cooked_as_handlers in Houts, Hins. subst outs ins. revert Hr.
  assert (Hbuild : ∀ inputs outputs,
    build outputs inputs w = (Returns tt, w') →
    (∀ target, target ∉ outputs → stamp target w' = stamp target w)
    ∧ (∀ target, target ∈ outputs
                 ∨ target ∈ inputs
                   ∧ target_to_rule (runner [compile; link] ∅) !! target = None →
                 is_Some (stamp target w'))).
  { intros inputs outputs. unfold build, stamp.
    destruct (forallb _ inputs) eqn:Hthere; [|done].
    intros Hw'. assert (w' = (produce outputs w).2) as -> by by rewrite Hw'.
    split; intros target Htarget; rewrite produce_stamps.
    - by rewrite decide_False.
    - destruct (decide (target ∈ outputs)); [eauto|].
      destruct Htarget as [?|[Hin _]]; [done|].
      rewrite forallb_forall in Hthere.
      apply list_elem_of_In, Hthere, bool_decide_eq_true in Hin. done. }
  intros Hr. pattern r. apply (two_rules_cases _ r Hr); apply Hbuild.
Qed.

(** [compile] and [link] do not share a run fingerprint. *)
Lemma fingerprints_distinct :
  distinct_fingerprints pickle digest (runner [compile; link] ∅).
Proof.
  intros r1 r2 fp [t1 H1] [t2 H2].
  apply target_to_rule_owner in H1 as [H1 _].
  apply target_to_rule_owner in H2 as [H2 _].
  revert fp. pattern r1. apply (two_rules_cases _ r1 H1);
    pattern r2; apply (two_rules_cases _ r2 H2);
    intros fp; vm_compute; congruence.
Qed.

(** C7, as stated, fails: the file handlers satisfy R2; the body of [A]
    returns without writing its output [out.o]; [run("out.o")] succeeds, and
    repeated at once from the world and the store it left, it returns true
    and calls the body of [A] again. *)
Lemma idle_body_runs_again :
  (∀ target cooked fp w,
     need_rebuild (handler_of target) cooked fp w = (Returns false, w) →
     compute_fingerprint (handler_of target) cooked w = (Returns (Some fp), w))
  ∧ (demo_run [idle_compile] 10 "out.o" sources ∅).1 = Returns true
  ∧ (demo_run [idle_compile] 10 "out.o"
       (world (demo_run [idle_compile] 10 "out.o" sources ∅).2)
       (db (demo_run [idle_compile] 10 "out.o" sources ∅).2)).1 = Returns true
  ∧ count is_rule_run
          (trace (demo_run [idle_compile] 10 "out.o"
                    (world (demo_run [idle_compile] 10 "out.o" sources ∅).2)
                    (db (demo_run [idle_compile] 10 "out.o" sources ∅).2)).2) = 1.
Proof.
  split; [|repeat split; vm_compute; reflexivity].
  intros target cooked fp w Hask. cbn in *. injection Hask as Hask.
  apply bool_decide_eq_false in Hask.
  destruct (decide (w !! cooked = Some fp)) as [->|]; done.
Qed.

(** R2 alone does not make a second run idle: handlers that never answer
    false satisfy it, and [run("out.o")] repeated at once rebuilds. *)
Lemma wary_handlers_rebuild_again :
  (∀ cooked fp w w',
     need_rebuild wary_handler cooked fp w = (Returns false, w') →
     compute_fingerprint wary_handler cooked w = (Returns (Some fp), w))
  ∧ (wary_run [compile] 10 "out.o" sources ∅).1 = Returns true
  ∧ (wary_run [compile] 10 "out.o"
       (world (wary_run [compile] 10 "out.o" sources ∅).2)
       (db (wary_run [compile] 10 "out.o" sources ∅).2)).1 = Returns true
  ∧ count is_rule_run
          (trace (wary_run [compile] 10 "out.o"
                    (world (wary_run [compile] 10 "out.o" sources ∅).2)
                    (db (wary_run [compile] 10 "out.o" sources ∅).2)).2) = 1.
Proof.
  split; [intros cooked fp w w' Hask; discriminate Hask|].
  repeat split; vm_compute; reflexivity.
Qed.

Lemma two_rules_outputs (r1 r2 : Rule) (output : string) :
  r1 ∈ ((λ r : Rule, (id r, r)) <$> [compile; link]).*2 →
  r2 ∈ ((λ r : Rule, (id r, r)) <$> [compile; link]).*2 →
  output ∈ resolved_outputs r1 → output ∈ resolved_outputs r2 → r1 = r2.
Proof.
  intros Hr1 Hr2. pattern r1. apply (two_rules_cases _ r1 Hr1);
    pattern r2; apply (two_rules_cases _ r2 Hr2); cbn;
    intros H1 H2; apply list_elem_of_singleton in H1, H2; congruence.
Qed.

Lemma second_run_rebuilds_nothing_witness :
  ∃ s2, run pickle digest (runner [compile; link] ∅) 10 "app"
            (world (built [compile; link] ∅)) (db (built [compile; link] ∅))
        = (Returns false, s2)
        ∧ count is_rule_run (trace s2) = 0
        ∧ world s2 = world (built [compile; link] ∅)
        ∧ db s2 = db (built [compile; link] ∅).
Proof.
  apply (second_run_rebuilds_nothing pickle digest
           ((λ r : Rule, (id r, r)) <$> [compile; link]) ∅ handlers stamp
           10 "app" sources ∅ true (built [compile; link] ∅)).
  - exact two_rules_ids.
  - intros r Hr. apply (two_rules_cases (λ r, NoDup (resolved_outputs r)) r Hr);
      apply (bool_decide_unpack _); vm_compute; exact I.
  - exact two_rules_outputs.
  - exact handlers_lawful.
  - exact bodies_lawful.
  - exact fingerprints_distinct.
  - unfold built. rewrite (surjective_pairing (run _ _ _ _ _ _ _)) at 1.
    apply (f_equal2 pair); [vm_compute; reflexivity|reflexivity].
Defined.

(** ** Cleaning *)

Lemma clean_only_outputs_of_reachable_rules_witness :
  (∃ r, reachable (runner [compile; link] ∅) "app" r
        ∧ "out.o" ∈ resolved_outputs r)
  ∧ is_Some (target_to_rule (runner [compile; link] ∅) !! "out.o").
Proof.
  apply (clean_only_outputs_of_reachable_rules pickle digest no_key_error
           ((λ r : Rule, (id r, r)) <$> [compile; link]) ∅ handlers
           10 "app" sources ∅ "out.o").
  in_trace.
Defined.

(** [clean("app")] cleans [app] and [out.o] and leaves [src.txt] alone. *)
Lemma clean_leaves_the_source :
  (demo_clean [compile; link] 10 "app" (world (built [compile; link] ∅)) ∅).1
  = Returns tt
  ∧ world (demo_clean [compile; link] 10 "app" (world (built [compile; link] ∅)) ∅).2
    = sources.
Proof. split; vm_compute; reflexivity. Qed.

Lemma files_stay_deleted :
  cleaning_sticks handlers (λ x (w : Files), w !! x = None).
Proof.
  split; [|split].
  - intros target hint w r w' Hcook. by simplify_eq/=.
  - intros target w r w' Hget. by simplify_eq/=.
  - intros target cooked handler w w' (hint & w0 & w1 & Hcook) Hclean.
    simplify_eq/=. split; [apply lookup_delete_eq|].
    intros x Hx. destruct (decide (cooked = x)) as [->|Hne].
    + apply lookup_delete_eq.
    + by rewrite lookup_delete_ne.
Qed.

Lemma clean_not_atomic_on_cycle_witness :
  cycle_found (runner [cycle_a; cycle_b] ∅) "a_out"
    (already_cleaned
       (demo_clean [cycle_a; cycle_b] 10 "a_out"
                   {["a_out" := 1; "b_out" := 1]} ∅).2)
    ["A"; "B"]
  ∧ EvClean "b_out"
      ∈ trace (demo_clean [cycle_a; cycle_b] 10 "a_out"
                          {["a_out" := 1; "b_out" := 1]} ∅).2
  ∧ world (demo_clean [cycle_a; cycle_b] 10 "a_out"
                      {["a_out" := 1; "b_out" := 1]} ∅).2 !! "a_out" = None
  ∧ world (demo_clean [cycle_a; cycle_b] 10 "a_out"
                      {["a_out" := 1; "b_out" := 1]} ∅).2 !! "b_out" = None.
Proof.
  destruct (clean_not_atomic_on_cycle pickle digest no_key_error
              (runner [cycle_a; cycle_b] ∅) 10 "a_out"
              {["a_out" := 1; "b_out" := 1]} ∅ ["A"; "B"]
              (demo_clean [cycle_a; cycle_b] 10 "a_out"
                          {["a_out" := 1; "b_out" := 1]} ∅).2)
    as (Hcycle & Hcleaned & Hgone).
  { unfold demo_clean.
    rewrite (surjective_pairing (clean _ _ _ _ _ _ _ _)) at 1.
    apply (f_equal2 pair); [vm_compute; reflexivity|reflexivity]. }
  assert (Ha : cycle_a ∈ already_cleaned
                 (demo_clean [cycle_a; cycle_b] 10 "a_out"
                             {["a_out" := 1; "b_out" := 1]} ∅).2).
  { apply list_elem_of_further, list_elem_of_here. }
  assert (Hb : cycle_b ∈ already_cleaned
                 (demo_clean [cycle_a; cycle_b] 10 "a_out"
                             {["a_out" := 1; "b_out" := 1]} ∅).2).
  { apply list_elem_of_here. }
  split; [exact Hcycle|].
  split; [apply (Hcleaned cycle_b "b_out" Hb); apply list_elem_of_here|].
  split.
  - apply (Hgone _ files_stay_deleted cycle_a "a_out" Ha). apply list_elem_of_here.
  - apply (Hgone _ files_stay_deleted cycle_b "b_out" Hb). apply list_elem_of_here.
Defined.

(** On the cycle, [clean("a_out")] has cleaned both outputs by the time it
    raises. *)
Lemma clean_on_cycle_has_cleaned :
  (demo_clean [cycle_a; cycle_b] 10 "a_out"
     {["a_out" := 1; "b_out" := 1]} ∅).1
  = Raises (IsengardConsistencyError ["A"; "B"])
  ∧ world (demo_clean [cycle_a; cycle_b] 10 "a_out"
             {["a_out" := 1; "b_out" := 1]} ∅).2 = ∅.
Proof. split; vm_compute; reflexivity. Qed.


(** ** More scenarios: cleaning, errors and order *)

Lemma clean_run_error_names_rule_witness :
  ∃ rule output,
    reachable (Runner_init ((λ r : Rule, (id r, r)) <$> [compile; link]) ∅
                           stuck_handlers) "app" rule
    ∧ "B" = id rule
    ∧ output ∈ resolved_outputs rule
    ∧ last (trace (stuck_clean [compile; link] 10 "app" sources ∅).2)
      = Some (EvClean output).
Proof.
  apply (clean_run_error_names_rule pickle digest no_key_error
           (Runner_init ((λ r : Rule, (id r, r)) <$> [compile; link]) ∅
                        stuck_handlers)
           10 "app" sources ∅ "B" "busy").
  unfold stuck_clean. rewrite (surjective_pairing (clean _ _ _ _ _ _ _ _)) at 1.
  apply (f_equal2 pair); [vm_compute; reflexivity|reflexivity].
Defined.

Lemma clean_at_most_once_witness :
  count (is_clean "out.o")
        (trace (clean pickle digest no_key_error (runner [compile; link] ∅)
                      10 "app" sources ∅).2) ≤ 1.
Proof.
  apply (clean_at_most_once pickle digest no_key_error
           ((λ r : Rule, (id r, r)) <$> [compile; link]) ∅ handlers
           10 "app" sources ∅ "out.o").
  - intros r Hr. apply (two_rules_cases (λ r, NoDup (resolved_outputs r)) r Hr);
      apply (bool_decide_unpack _); vm_compute; exact I.
  - exact two_rules_outputs.
Defined.

Lemma link_waits_for_compile : linked (runner [compile; link] ∅) link compile.
Proof.
  exists "out.o". split; [apply list_elem_of_here|vm_compute; reflexivity].
Qed.

Lemma clean_reaches_every_output_witness :
  EvClean "app"
    ∈ trace (clean pickle digest no_key_error (runner [compile; link] ∅)
                   10 "app" sources ∅).2
  ∧ EvClean "out.o"
      ∈ trace (clean pickle digest no_key_error (runner [compile; link] ∅)
                     10 "app" sources ∅).2.
Proof.
  assert (Happ : reachable (runner [compile; link] ∅) "app" link)
    by (apply reachable_owner; vm_compute; reflexivity).
  pose proof (clean_reaches_every_output pickle digest no_key_error
                ((λ r : Rule, (id r, r)) <$> [compile; link]) ∅ handlers
                10 "app" sources ∅ _ two_rules_ids
                (surjective_pairing _)) as Hall.
  split.
  - apply (Hall link "app" Happ). by left.
  - apply (Hall compile "out.o").
    + exact (reachable_input _ _ _ _ Happ link_waits_for_compile).
    + by left.
Defined.

Lemma clean_recursion_is_bounded_witness :
  (clean pickle digest no_key_error (runner [cycle_a; cycle_b] ∅)
         2 "a_out" sources ∅).1 ≠ Raises RecursionError.
Proof.
  apply (clean_recursion_is_bounded pickle digest no_key_error
           ((λ r : Rule, (id r, r)) <$> [cycle_a; cycle_b]) ∅ handlers
           2 "a_out" sources ∅).
  simpl. lia.
Defined.

Lemma run_returns_whether_rebuilt_witness :
  ∃ rule, target_to_rule (runner [compile; link] ∅) !! "app" = Some rule
          ∧ just_rebuilt pickle digest (runner [compile; link] ∅) rule
                         (built [compile; link] ∅).
Proof.
  apply (run_returns_whether_rebuilt pickle digest (runner [compile; link] ∅)
           10 "app" sources ∅ true (built [compile; link] ∅)).
  unfold built. rewrite (surjective_pairing (run _ _ _ _ _ _ _)) at 1.
  apply (f_equal2 pair); [vm_compute; reflexivity|reflexivity].
Defined.

(** Nothing is rebuilt by a second run: the flag is false, the trace holds
    cooking only. *)
Lemma run_again_only_cooks :
  (run pickle digest (runner [compile; link] ∅) 10 "app"
       (world (built [compile; link] ∅)) (db (built [compile; link] ∅))).1
  = Returns false
  ∧ trace (run pickle digest (runner [compile; link] ∅) 10 "app"
               (world (built [compile; link] ∅))
               (db (built [compile; link] ∅))).2
    = [EvCook "src.txt" (Some 7); EvCook "out.o" (Some 1);
       EvCook "app" (Some 1)].
Proof. split; vm_compute; reflexivity. Qed.

Lemma two_rules_ranked : ranked (runner [compile; link] ∅) rank.
Proof.
  intros r sub [t Ht] (input & Hinput & Hsub).
  apply target_to_rule_owner in Ht as [Hr _]. revert Hinput.
  pattern r. apply (two_rules_cases _ r Hr); cbn;
    intros Hinput%list_elem_of_singleton; subst input;
    vm_compute in Hsub; [done|]. simplify_eq. cbv. lia.
Qed.

Lemma run_recursion_is_bounded_witness :
  (run pickle digest (runner [compile; link] ∅) 2 "app" sources ∅).1
  ≠ Raises RecursionError.
Proof.
  apply (run_recursion_is_bounded pickle digest (runner [compile; link] ∅)
           rank 2 "app" sources ∅).
  - exact two_rules_ranked.
  - intros rule Hrule. vm_compute in Hrule. simplify_eq. cbv. lia.
Defined.

Lemma key_error_names_unconfigured_key_witness :
  unconfigured_key (runner [compile; link_needing_opt] ∅) "app" "opt_level".
Proof.
  apply (key_error_names_unconfigured_key pickle digest no_key_error
           ((λ r : Rule, (id r, r)) <$> [compile; link_needing_opt]) ∅ handlers
           10 "app" sources ∅ "opt_level").
  - apply (bool_decide_unpack _). vm_compute. exact I.
  - left. vm_compute. reflexivity.
Defined.

Lemma dependencies_are_executed_first_witness :
  (∀ ev, ev ∈ drop 9 (trace (built [compile; link] ∅)) →
         ¬ executes (id compile) ev)
  ∧ (EvRuleRun (id compile) ∈ take 8 (trace (built [compile; link] ∅)) →
     EvRuleReturned (id compile) ∈ take 8 (trace (built [compile; link] ∅))
     ∧ ∃ fp fps,
         EvCommit (id compile) fp fps
         ∈ take 8 (trace (built [compile; link] ∅))).
Proof.
  apply (dependencies_are_executed_first pickle digest
           ((λ r : Rule, (id r, r)) <$> [compile; link]) ∅ handlers
           10 "app" sources ∅
           (take 8 (trace (built [compile; link] ∅)))
           (drop 9 (trace (built [compile; link] ∅))) link compile).
  - exact two_rules_ids.
  - vm_compute. reflexivity.
  - exists "app". vm_compute. reflexivity.
  - exact link_waits_for_compile.
Defined.

(** In the build of [app] the body of [A] has run before the body of [B]
    starts. *)
Lemma compile_runs_before_link :
  EvRuleRun "A" ∈ take 8 (trace (built [compile; link] ∅))
  ∧ trace (built [compile; link] ∅) !! 8 = Some (EvRuleRun "B").
Proof. split; [in_trace|vm_compute; reflexivity]. Qed.

Lemma body_called_at_most_once_witness :
  count (is_run "A")
        (trace (run pickle digest (runner [compile; link] ∅)
                    10 "app" sources ∅).2) ≤ 1.
Proof.
  apply (body_called_at_most_once pickle digest
           ((λ r : Rule, (id r, r)) <$> [compile; link]) ∅ handlers
           10 "app" sources ∅ "A").
  exact two_rules_ids.
Defined.

Lemma commit_records_targets_of_rule_witness :
  ∃ rule,
    reachable (runner [compile; link] ∅) "app" rule ∧ id rule = "A"
    ∧ _compute_run_fingerprint pickle digest (runner [compile; link] ∅) rule
      = Returns (digest (String.list_byte_of_string "A"))
    ∧ recorded_for (runner [compile; link] ∅) rule
        [("src.txt", 7); ("out.o", 1)]
        (trace (run pickle digest (runner [compile; link] ∅)
                    10 "app" sources ∅).2)
    ∧ record_complete (runner [compile; link] ∅) rule
        [("src.txt", 7); ("out.o", 1)]
        (trace (run pickle digest (runner [compile; link] ∅)
                    10 "app" sources ∅).2).
Proof.
  apply (commit_records_targets_of_rule pickle digest
           (runner [compile; link] ∅) 10 "app" sources ∅ "A"
           (digest (String.list_byte_of_string "A"))
           [("src.txt", 7); ("out.o", 1)]).
  in_trace.
Defined.

Lemma target_to_rule_binds_declaring_rule_witness :
  target_to_rule (runner [compile; link] ∅) !! "out.o" = Some compile
  ↔ compile ∈ ((λ r : Rule, (id r, r)) <$> [compile; link]).*2
    ∧ "out.o" ∈ resolved_outputs compile.
Proof.
  apply (target_to_rule_binds_declaring_rule
           ((λ r : Rule, (id r, r)) <$> [compile; link]) ∅ handlers
           "out.o" compile).
  exact two_rules_outputs.
Defined.

(** A key that [B] needs is not configured: [run] and [clean] end in
    [KeyError] for it before anything is asked of a handler. *)
Lemma unconfigured_key_stops_run_and_clean :
  run pickle digest (runner [compile; link_needing_opt] ∅) 10 "app" sources ∅
  = (Raises (KeyError "opt_level"), fresh_session sources ∅)
  ∧ (clean pickle digest no_key_error (runner [compile; link_needing_opt] ∅)
           10 "app" sources ∅).1 = Raises (KeyError "opt_level")
  ∧ trace (clean pickle digest no_key_error
                 (runner [compile; link_needing_opt] ∅)
                 10 "app" sources ∅).2 = [].
Proof. repeat split; vm_compute; reflexivity. Qed.

(** * The Cython tool: file names and builder calls *)

Import Cython.

(** ** Splitting and joining *)

Lemma split_free sep s : free_of sep s = true → split sep s = [s].
Proof.
  induction s as [|c s IH]; simpl; [done|].
  destruct (Ascii.eqb c sep); simpl; [done|]. intros H. by rewrite IH.
Qed.

Lemma split_app_sep sep a b :
  free_of sep a = true →
  split sep (a ++ String sep b) = a :: split sep b.
Proof.
  induction a as [|c a IH]; simpl.
  - by rewrite Ascii.eqb_refl.
  - destruct (Ascii.eqb c sep); simpl; [done|]. intros H. by rewrite IH.
Qed.

Lemma split_join sep parts :
  parts ≠ [] → Forall (λ part, free_of sep part = true) parts →
  split sep (join (String sep EmptyString) parts) = parts.
Proof.
  intros Hne Hfree. induction Hfree as [|x parts Hx Hfree IH]; [done|].
  destruct parts as [|y parts].
  - by apply split_free.
  - change (join (String sep EmptyString) (x :: y :: parts))
      with (x ++ String sep (join (String sep EmptyString) (y :: parts)))%string.
    rewrite split_app_sep by done. by rewrite IH.
Qed.

Lemma but_last_snoc {A} (l : list A) x : but_last (l ++ [x]) = l.
Proof.
  unfold but_last. rewrite length_app. simpl.
  replace (length l + 1 - 1) with (length l) by lia.
  by rewrite take_app_length.
Qed.

Lemma takewhile_stop {A} (p : A → bool) l1 x l2 :
  Forall (λ y, p y = true) l1 → p x = false →
  takewhile p (l1 ++ x :: l2) = l1.
Proof.
  intros Hall Hx. induction Hall as [|y l1 Hy _ IH]; simpl.
  - by rewrite Hx.
  - by rewrite Hy, IH.
Qed.

Lemma takewhile_all {A} (p : A → bool) l :
  Forall (λ y, p y = true) l → takewhile p l = l.
Proof.
  induction 1 as [|y l Hy _ IH]; simpl; [done|]. by rewrite Hy, IH.
Qed.

Lemma not_pythonscript (parts : list string) :
  "pythonscript" ∉ parts →
  Forall (λ part, negb (String.eqb part "pythonscript") = true) (reverse parts).
Proof.
  intros Hnot. apply Forall_forall. intros part Hin.
  rewrite elem_of_reverse in Hin.
  apply negb_true_iff, String.eqb_neq. by intros ->.
Qed.

(** X14: the path returned by [_get_relative_path_to_libpython] climbs from
    the folder of the module to the folder [pythonscript] above it, and two
    folders more: for a module that lies [length inner] folders below
    [pythonscript] it is that many [..] and two, joined by [/]. Under no
    folder [pythonscript] at all, it climbs once for each piece of the path
    before the file name, the empty piece before the leading [/] included, and
    twice more. *)
Theorem relative_path_climbs_to_libpython (dirs inner : list string)
    (file : string) :
  Forall (λ part, free_of "/" part = true) (dirs ++ inner ++ [file]) →
  "pythonscript" ∉ inner →
  _get_relative_path_to_libpython
    (join "/" (dirs ++ "pythonscript" :: inner ++ [file]))
  = join "/" (replicate (length inner + 2) "..")
  ∧ ("pythonscript" ∉ dirs →
     _get_relative_path_to_libpython (join "/" (dirs ++ inner ++ [file]))
     = join "/" (replicate (length dirs + length inner + 2) "..")).
Proof.
  intros Hfree Hinner. unfold _get_relative_path_to_libpython.
  assert (Hhops : hops_to_site_packages
                    (join "/" (dirs ++ "pythonscript" :: inner ++ [file]))
                  = length inner).
  { unfold hops_to_site_packages. rewrite split_join.
    - replace (dirs ++ "pythonscript" :: inner ++ [file])
        with ((dirs ++ "pythonscript" :: inner) ++ [file])
        by (by rewrite <-app_assoc).
      rewrite but_last_snoc, reverse_app, reverse_cons, <-app_assoc. simpl.
      rewrite takewhile_stop; [by rewrite length_reverse| |done].
      by apply not_pythonscript.
    - by destruct dirs.
    - apply Forall_app in Hfree as [Hdirs Hrest].
      apply Forall_app. split; [done|]. by constructor. }
  rewrite Hhops. split; [done|]. intros Hdirs.
  assert (Hhops' : hops_to_site_packages (join "/" (dirs ++ inner ++ [file]))
                   = length dirs + length inner).
  { unfold hops_to_site_packages. rewrite split_join; [|by destruct dirs, inner|done].
    rewrite (app_assoc dirs), but_last_snoc, takewhile_all.
    - by rewrite length_reverse, length_app.
    - apply not_pythonscript. intros [?|?]%elem_of_app; done. }
  by rewrite Hhops'.
Qed.

(** ** [CythonModule] *)

Lemma length_append (a b : string) :
  String.length (a ++ b) = String.length a + String.length b.
Proof. induction a as [|c a IH]; simpl; [done|]. by rewrite IH. Qed.

Lemma substring_append (a b : string) n :
  String.substring (String.length a) n (a ++ b) = String.substring 0 n b.
Proof. induction a as [|c a IH]; simpl; [done|]. exact IH. Qed.

Lemma endswith_append (a suffix : string) : endswith (a ++ suffix) suffix = true.
Proof.
  unfold endswith. rewrite length_append.
  replace (String.length a + String.length suffix - String.length suffix)
    with (String.length a) by lia.
  rewrite substring_append. apply andb_true_iff. split.
  - apply Nat.leb_le. lia.
  - apply String.eqb_eq. clear a.
    induction suffix as [|c suffix IH]; simpl; [done|]. by rewrite IH.
Qed.

(** The piece before the first dot. *)
Lemma split_first_hd_cons c s :
  hd EmptyString (split_first "." (String c s))
  = if Ascii.eqb c "." then EmptyString
    else String c (hd EmptyString (split_first "." s)).
Proof.
  simpl. destruct (Ascii.eqb c "."); [done|].
  by destruct (split_first "." s).
Qed.

Lemma split_first_hd (s : string) :
  free_of "." (hd EmptyString (split_first "." s)) = true
  ∧ (s = hd EmptyString (split_first "." s)
     ∨ ∃ rest, s = (hd EmptyString (split_first "." s) ++ String "." rest)%string).
Proof.
  induction s as [|c s [IHfree IH]]; [by auto|].
  rewrite split_first_hd_cons.
  destruct (Ascii.eqb c ".") eqn:Hc.
  - apply Ascii.eqb_eq in Hc as ->. split; [done|]. right. by exists s.
  - split; [simpl; by rewrite Hc|].
    destruct IH as [IH|[rest IH]]; [left|right; exists rest];
      exact (f_equal (String c) IH).
Qed.

Lemma split_first_hd_pyx (m : string) :
  hd EmptyString (split_first "." (m ++ ".pyx"))
  = hd EmptyString (split_first "." m).
Proof.
  induction m as [|c m IH]; [done|].
  change (String c m ++ ".pyx")%string with (String c (m ++ ".pyx")).
  rewrite !split_first_hd_cons. by rewrite IH.
Qed.

Section Calls.

Variable abspath : string → string.
Variable shared_library : Call → list string.
Variable node_of : string → Node.

(** X15: called with targets and no source, [CythonModule] takes the [.pyx]
    of the module for its source and does not fail before it has called the
    builder: on [<mod_target>.pyx], for a C file named after the part of
    [mod_target] before its first dot, with the other targets.  When the
    emitter of the builder raises (a variable it reads is missing, or it is
    in annotate mode and finds no [.pyx] target), [CythonModule] ends in that
    error and has called nothing else.  Otherwise it goes on with
    [CythonCompile] for the module from that C file, and when that returns,
    returns its nodes followed by the other targets. *)
Theorem CythonModule_without_source (env : Env) (mod_target : string)
    (other_targets : list string) :
  ∃ base,
    free_of "." base = true
    ∧ (mod_target = base ∨ ∃ rest, mod_target = (base ++ String "." rest)%string)
    ∧ CythonModule abspath shared_library node_of env
        (PyList (mod_target :: other_targets)) PyNone
      = match _cython_to_c_emitter (λ _, true)
                (node_of <$> (base ++ ".c")%string :: other_targets)
                (SourceList [node_of (mod_target ++ ".pyx")%string]) env with
        | Raises e =>
            (Raises e,
             [CythonToC ((base ++ ".c")%string :: other_targets)
                        [(mod_target ++ ".pyx")%string]])
        | Returns _ =>
            (match (CythonCompile abspath shared_library env mod_target
                                  [(base ++ ".c")%string]).1 with
             | Returns nodes => Returns (nodes ++ other_targets)
             | Raises e => Raises e
             end,
             CythonToC ((base ++ ".c")%string :: other_targets)
                       [(mod_target ++ ".pyx")%string]
             :: (CythonCompile abspath shared_library env mod_target
                               [(base ++ ".c")%string]).2)
        end.
Proof.
  exists (hd EmptyString (split_first "." mod_target)).
  destruct (split_first_hd mod_target) as [Hfree Hsplit].
  split; [done|]. split; [done|].
  unfold CythonModule, CythonToCBuilder. simpl as_list. cbv iota.
  cbn [List.filter]. rewrite endswith_append.
  rewrite split_first_hd_pyx.
  destruct (_cython_to_c_emitter _ _ _ _) as [nodes|e]; [|done].
  by destruct (CythonCompile _ _ _ _ _) as [r calls].
Qed.

Lemma filter_sources_of (target source : PyArg) mod_target other_targets :
  as_list target = mod_target :: other_targets →
  match as_list source with
  | [] => [(mod_target ++ ".pyx")%string]
  | _ => as_list source
  end = sources_of target source.
Proof. unfold sources_of. intros ->. by destruct (as_list source). Qed.

(** X16: [CythonModule] ends without having called anything exactly when no
    target is given or when the sources it works with do not hold exactly one
    name that ends in [.pyx]; it then raises [ValueError], for no target or
    no such source, or [NameError], for several such sources. *)
Theorem CythonModule_calls_nothing (env : Env) (target source : PyArg) :
  ((CythonModule abspath shared_library node_of env target source).2 = []
   ↔ as_list target = []
     ∨ length (List.filter (λ x, endswith x ".pyx")
                           (sources_of target source)) ≠ 1)
  ∧ ((CythonModule abspath shared_library node_of env target source).2 = [] →
     (CythonModule abspath shared_library node_of env target source).1
     = Raises (if bool_decide
                    (as_list target = []
                     ∨ List.filter (λ x, endswith x ".pyx")
                                   (sources_of target source) = [])
               then ValueError else NameError "mod")).
Proof.
  unfold CythonModule.
  destruct (as_list target) as [|mod_target other_targets] eqn:Htarget.
  { split; [split; auto|]. done. }
  rewrite (filter_sources_of target source mod_target other_targets Htarget).
  destruct (List.filter _ (sources_of target source))
    as [|pyx_mod [|second too_much_mods]] eqn:Hpyx; simpl.
  - split; [split; [right; lia|done]|]. done.
  - destruct (CythonToCBuilder _ _ _ _) as [[]|e]; simpl.
    + destruct (CythonCompile _ _ _ _ _) as [r calls]. simpl.
      split; [|done]. split; [done|]. intros [?|?]; done.
    + split; [|done]. split; [done|]. intros [?|?]; done.
  - split; [split; [right; lia|done]|]. done.
Qed.

End Calls.

(** ** The emitter *)

(** X17: with the flags [generate] sets, the emitter is not in annotate mode:
    when the dependencies are configured it returns the targets as they are,
    and the sources followed by the dependencies. *)
Theorem emitter_after_generate (truth : Node → bool) (env env' : Env)
    (target : list Node) (nodes deps : list Node) :
  generate env = Returns env' →
  CYTHON_DEPS env = Some deps →
  _cython_to_c_emitter truth target (SourceList nodes) env'
  = Returns (inl <$> target, nodes ++ deps).
Proof.
  unfold generate. destruct (platform env) as [p|]; [|done].
  intros ? Hdeps; simplify_eq. unfold _cython_to_c_emitter. simpl.
  by rewrite Hdeps.
Qed.

(** X18: in annotate mode the emitter looks among the targets for one whose
    name ends in [.pyx]: without one it raises [StopIteration]; with one it
    returns two targets, the first of the targets given and an [.html] named
    after the path of the first such target up to its first dot, and the
    sources followed by the dependencies. *)
Theorem emitter_annotate (truth : Node → bool) (env : Env)
    (target : list Node) (nodes : list Node) (flags : list string)
    (deps : list Node) :
  CYTHONFLAGS env = Some flags → CYTHON_DEPS env = Some deps →
  "-a" ∈ flags ∨ "--annotate" ∈ flags →
  match List.filter (λ x, endswith (name x) ".pyx") target with
  | [] => _cython_to_c_emitter truth target (SourceList nodes) env
          = Raises StopIteration
  | pyx :: _ =>
      ∃ first rest base,
        target = first :: rest
        ∧ free_of "." base = true
        ∧ (get_path pyx = base
           ∨ ∃ tail, get_path pyx = (base ++ String "." tail)%string)
        ∧ _cython_to_c_emitter truth target (SourceList nodes) env
          = Returns ([inl first; inr (base ++ ".html")%string],
                     nodes ++ deps)
  end.
Proof.
  intros Hflags Hdeps Hannotate. unfold _cython_to_c_emitter.
  rewrite Hdeps, Hflags.
  assert (bool_decide ("-a" ∈ flags) || bool_decide ("--annotate" ∈ flags)
          = true) as ->.
  { apply orb_true_iff.
    destruct Hannotate; [left|right]; by apply bool_decide_eq_true. }
  destruct (List.filter _ target) as [|pyx others] eqn:Hpyx; [done|].
  destruct target as [|first rest]; [done|].
  exists first, rest, (hd EmptyString (split "." (get_path pyx))).
  split; [done|].
  assert (Hhd : ∀ s, hd EmptyString (split "." s)
                     = hd EmptyString (split_first "." s)).
  { induction s as [|c s IH]; [done|]. rewrite split_first_hd_cons. simpl.
    destruct (Ascii.eqb c "."); [done|]. rewrite <-IH.
    by destruct (split "." s). }
  rewrite Hhd. destruct (split_first_hd (get_path pyx)) as [Hfree Hsplit].
  done.
Qed.

(** ** On concrete files *)

Lemma relative_path_climbs_to_libpython_witness :
  _get_relative_path_to_libpython "/build/pythonscript/godot/hazmat/tools.so"
  = "../../../.."
  ∧ _get_relative_path_to_libpython "/build/godot/hazmat/tools.so"
    = "../../../../../..".
Proof.
  destruct (relative_path_climbs_to_libpython
              [EmptyString; "build"] ["godot"; "hazmat"] "tools.so")
    as [Hbelow Hnone].
  - by repeat constructor.
  - by intros [?|[?|?%elem_of_nil]%elem_of_cons]%elem_of_cons.
  - split; [exact Hbelow|]. apply Hnone.
    by intros [?|[?|?%elem_of_nil]%elem_of_cons]%elem_of_cons.
Defined.

Lemma emitter_after_generate_witness :
  ∃ env',
    generate posix_env = Returns env'
    ∧ _cython_to_c_emitter (λ _, true)
        [{| name := "tools.c"; get_path := "godot/tools.c" |}]
        (SourceList [{| name := "tools.pyx"; get_path := "godot/tools.pyx" |}])
        env'
      = Returns ([inl {| name := "tools.c"; get_path := "godot/tools.c" |}],
                 [{| name := "tools.pyx"; get_path := "godot/tools.pyx" |};
                  {| name := "godot.pxd"; get_path := "godot.pxd" |}]).
Proof.
  eexists. split; [reflexivity|].
  exact (emitter_after_generate (λ _, true) posix_env _
           [{| name := "tools.c"; get_path := "godot/tools.c" |}]
           [{| name := "tools.pyx"; get_path := "godot/tools.pyx" |}]
           [{| name := "godot.pxd"; get_path := "godot.pxd" |}]
           eq_refl eq_refl).
Defined.

Lemma emitter_annotate_witness :
  _cython_to_c_emitter (λ _, true)
    [{| name := "tools.c"; get_path := "godot/tools.c" |}]
    (SourceList [{| name := "tools.pyx"; get_path := "godot/tools.pyx" |}])
    annotate_env
  = Raises StopIteration.
Proof.
  apply (emitter_annotate (λ _, true) annotate_env
           [{| name := "tools.c"; get_path := "godot/tools.c" |}]
           [{| name := "tools.pyx"; get_path := "godot/tools.pyx" |}]
           ["-3"; "--annotate"]
           [{| name := "godot.pxd"; get_path := "godot.pxd" |}]);
    [reflexivity|reflexivity|].
  right. apply elem_of_cons. right. apply elem_of_cons. by left.
Defined.

(** A module given with its generated [.pyx]: the C file is named after the
    part before the first dot, and the library is linked with a run path
    that climbs out of [pythonscript]. *)
Lemma CythonModule_of_generated_pyx :
  CythonModule (λ target, ("/build/pythonscript/godot/" ++ target)%string)
               (λ _, ["bindings.so"]) file_node tool_env
               (PyStr "bindings") (PyStr "bindings.gen.pyx")
  = (Returns ["bindings.so"],
     [CythonToC ["bindings.c"] ["bindings.gen.pyx"];
      Depends ["bindings.c"] "cpython";
      SharedLibrary "bindings" ["bindings.c"] EmptyString
        "$CYTHON_SHLIBSUFFIX" ["python3.7m"; "pythonscript"]
        (Some ["-Wl,-rpath,'$$ORIGIN/../../..'"; "-s"])]).
Proof. reflexivity. Qed.

(** Before [generate] has set the flags, and in annotate mode, the builder
    fails and nothing is compiled. *)
Lemma CythonModule_stops_at_the_builder :
  CythonModule (λ target, target) (λ _, ["bindings.so"]) file_node posix_env
               (PyStr "bindings") PyNone
  = (Raises (EnvKeyError "CYTHONFLAGS"),
     [CythonToC ["bindings.c"] ["bindings.pyx"]])
  ∧ CythonModule (λ target, target) (λ _, ["bindings.so"]) file_node
                 annotate_env (PyStr "bindings") PyNone
    = (Raises StopIteration, [CythonToC ["bindings.c"] ["bindings.pyx"]]).
Proof. split; reflexivity. Qed.
